(** * StructTrace Engine: traced balanced trees, traced Dijkstra search and
      the benchmark workers, embedded from the Go sources under [backend/].

    - [Snapshot]   : backend/datastructures/snapshot.go
    - [Benchmark]  : backend/benchmark/runner.go
    - [Graph]      : backend/datastructures/graph.go
    - [AVL]        : backend/datastructures/avltree.go
    - [RB]         : backend/datastructures/rbtree.go

    Go's [int] values (keys, ids, heights, distances) are embedded in [Z];
    the only fixed-width arithmetic that matters for the properties below is
    the [uint64] subtraction of the benchmark worker, whose wrap-around is
    written out.  [fmt.Sprintf] calls are kept as a template with its
    argument list and are not rendered. *)

From Stdlib Require Import ZArith QArith List Lia Bool Sorted.
From stdpp Require Import gmap strings list fin_maps.

Local Open Scope Z_scope.

(* ===================================================================== *)
(** ** snapshot.go *)
(* ===================================================================== *)

Inductive NodeColor := Red | Black.

Inductive StepType :=
| StepInsert | StepDelete | StepRotateLeft | StepRotateRight
| StepColorChange | StepCompare | StepVisit | StepFound | StepNotFound
| StepUpdateDist | StepSelectNode | StepMarkVisited | StepRebalance
| StepComplete.

Global Instance NodeColor_eq_dec : EqDecision NodeColor.
Proof. solve_decision. Defined.
Global Instance StepType_eq_dec : EqDecision StepType.
Proof. solve_decision. Defined.

(** One argument of a [fmt.Sprintf] call. *)
Inductive FmtArg :=
| AInt (n : Z)
| AStr (s : string)
| AStrs (l : list string).

(** [fmt.Sprintf(template, args...)], unrendered.  A plain string literal
    is a template without arguments. *)
Record Text := Sprintf { template : string; args : list FmtArg }.

Definition lit (s : string) : Text := Sprintf s [].

Record TreeNodeSnapshot := {
  snID : Z;
  snValue : Z;
  snColor : option NodeColor;   (* the AVL tree leaves Color at its zero value *)
  snLeftID : option Z;
  snRightID : option Z;
  snParentID : option Z;
  snHeight : Z;
  snX : Q;
  snY : Q
}.

Record GraphNodeSnapshot := {
  gnID : string;
  gnLabel : string;
  gnX : Q;
  gnY : Q;
  gnDistance : option Z;
  gnVisited : bool;
  gnInPath : bool
}.

Record GraphEdgeSnapshot := {
  geFrom : string;
  geTo : string;
  geWeight : Z;
  geInPath : bool;
  geSelected : bool
}.

(** [Step]: the fields TargetID, Value, OldColor and NewColor of the Go
    struct are never written by the backend and are left out. *)
Record Step := {
  Type_ : StepType;
  Description : Text;
  NodeID : option Z;
  TreeState : list TreeNodeSnapshot;
  GraphNodes : list GraphNodeSnapshot;
  GraphEdges : list GraphEdgeSnapshot;
  Highlight : list Z
}.

Record OperationResult := {
  Success : bool;
  Message : option Text;
  Steps : list Step;
  FinalTree : list TreeNodeSnapshot;
  FinalGraph : option (list GraphNodeSnapshot * list GraphEdgeSnapshot)
}.

(** The kinds of the steps of a trace, in order. *)
Definition kinds (tr : list Step) : list StepType := map Type_ tr.

(** Go's [/] and [%] on [int] truncate toward zero. *)
Definition go_div (a b : Z) : Z := Z.quot a b.
Definition go_mod (a b : Z) : Z := Z.rem a b.

(* ===================================================================== *)
(** ** benchmark/runner.go *)
(* ===================================================================== *)

Module Benchmark.

Record BenchmarkResult := {
  Structure : string;
  Operation : string;
  DataSize : Z;
  Duration : Q;          (* milliseconds *)
  MemoryUsed : Z;        (* uint64 *)
  OpsPerSec : Q;
  Progress : Z;
  Completed : bool
}.

(** What one worker observes of its host while it runs: the outcome of its
    successive polls of the stop channel (poll [i] is the [select] before
    dataset element [i]), the successive readings of
    [runtime.MemStats.Alloc], and the successive readings of the clock. *)
Record Host := {
  stopObserved : nat -> bool;
  memAlloc : nat -> Z;
  clockMs : nat -> Q
}.

(** The worker's own state: how many readings it took, and the results it
    handed to the callback so far (oldest first). *)
Record Worker := {
  memCalls : nat;
  clockCalls : nat;
  emitted : list BenchmarkResult
}.

Definition uint64 (z : Z) : Z := z mod 2 ^ 64.

Definition getMemoryUsage (h : Host) (w : Worker) : Z * Worker :=
  (uint64 (memAlloc h (memCalls w)),
   {| memCalls := S (memCalls w); clockCalls := clockCalls w; emitted := emitted w |}).

Definition now (h : Host) (w : Worker) : Q * Worker :=
  (clockMs h (clockCalls w),
   {| memCalls := memCalls w; clockCalls := S (clockCalls w); emitted := emitted w |}).

(** [time.Since(start).Seconds() * 1000] *)
Definition sinceMs (h : Host) (start : Q) (w : Worker) : Q * Worker :=
  let (t, w') := now h w in (Qminus t start, w').

Definition callback (r : BenchmarkResult) (w : Worker) : Worker :=
  {| memCalls := memCalls w; clockCalls := clockCalls w; emitted := emitted w ++ [r] |}.

(** The progress report every worker loop makes after element [i]. *)
Definition report (h : Host) (structure operation : string) (len : Z)
    (startTime : Q) (reportInterval : Z) (i : nat) (w : Worker) : Worker :=
  if (0 <? Z.of_nat i) && (go_mod (Z.of_nat i) reportInterval =? 0) then
    let progress := go_div (Z.of_nat i * 100) len in
    let (d, w1) := sinceMs h startTime w in
    let (m, w2) := getMemoryUsage h w1 in
    callback {| Structure := structure; Operation := operation; DataSize := len;
                Duration := d; MemoryUsed := m; OpsPerSec := 0%Q;
                Progress := progress; Completed := false |} w2
  else w.

(** The loop shared by the four [benchmarkX] functions: [store] is the
    structure under test, [ins] its insert.  The search branch only reads
    the structure and discards what it read. *)
Section Loop.
Context {store : Type} (ins : Z -> store -> store).
Context (h : Host) (structure operation : string) (len : Z)
        (startTime : Q) (reportInterval : Z).

Fixpoint loop (i : nat) (rest : list Z) (m : store) (w : Worker) : Worker :=
  match rest with
  | [] => w
  | v :: rest' =>
      if stopObserved h i then w        (* case <-r.stopChan: return *)
      else
        let m' := if String.eqb operation "insert" then ins v m else m in
        loop (S i) rest' m' (report h structure operation len startTime reportInterval i w)
  end.
End Loop.

Fixpoint binarySearchInsertPos_go (fuel : nat) (arr : list Z) (target : Z) (left right : nat) : nat :=
  match fuel with
  | O => left
  | S fuel' =>
      if (left <? right)%nat then
        let mid := ((left + right) / 2)%nat in
        if default 0 (arr !! mid) <? target
        then binarySearchInsertPos_go fuel' arr target (S mid) right
        else binarySearchInsertPos_go fuel' arr target left mid
      else left
  end.

Definition binarySearchInsertPos (arr : list Z) (target : Z) : nat :=
  binarySearchInsertPos_go (S (length arr)) arr target 0 (length arr).

(** [tree = append(tree, 0); copy(tree[idx+1:], tree[idx:]); tree[idx] = v] *)
Definition btreeInsert (v : Z) (tree : list Z) : list Z :=
  let idx := binarySearchInsertPos tree v in
  take idx tree ++ v :: drop idx tree.

(** [arr[i]]: [None] is the run-time panic of an index out of range. *)
Definition at_index (arr : list Z) (i : Z) : option Z :=
  if i <? 0 then None else arr !! Z.to_nat i.

(** The run of [binarySearchInsertPos] with its reads checked: [None] is a
    run that panics on an index out of range or does not return within
    the loop bound. *)
Fixpoint binarySearchInsertPos_run (fuel : nat) (arr : list Z) (target : Z)
    (left right : nat) : option nat :=
  match fuel with
  | O => None
  | S fuel' =>
      if (left <? right)%nat then
        let mid := ((left + right) / 2)%nat in
        x ← at_index arr (Z.of_nat mid);
        if x <? target
        then binarySearchInsertPos_run fuel' arr target (S mid) right
        else binarySearchInsertPos_run fuel' arr target left mid
      else Some left
  end.

Definition binarySearchInsertPos_checked (arr : list Z) (target : Z) : option nat :=
  binarySearchInsertPos_run (S (length arr)) arr target 0 (length arr).

(** [binarySearch]: the index at which [target] is met, or -1.  [None] is
    a run that panics on an index out of range or does not return within
    the loop bound. *)
Fixpoint binarySearch_go (fuel : nat) (arr : list Z) (target : Z) (left right : Z)
    : option Z :=
  match fuel with
  | O => None
  | S fuel' =>
      if left <=? right then
        let mid := go_div (left + right) 2 in
        x ← at_index arr mid;
        if x =? target then Some mid
        else if x <? target then binarySearch_go fuel' arr target (mid + 1) right
        else binarySearch_go fuel' arr target left (mid - 1)
      else Some (-1)
  end.

Definition binarySearch (arr : list Z) (target : Z) : option Z :=
  binarySearch_go (S (length arr)) arr target 0 (Z.of_nat (length arr) - 1).

Definition benchmarkHashMap (h : Host) (operation : string) (data : list Z)
    (reportInterval : Z) (w : Worker) : Worker :=
  let (startTime, w0) := now h w in
  loop (fun v (m : gmap Z Z) => <[v:=v]> m) h "hashmap" operation
       (Z.of_nat (length data)) startTime reportInterval 0 data ∅ w0.

Definition benchmarkBTree (h : Host) (operation : string) (data : list Z)
    (reportInterval : Z) (w : Worker) : Worker :=
  let (startTime, w0) := now h w in
  loop btreeInsert h "btree" operation
       (Z.of_nat (length data)) startTime reportInterval 0 data [] w0.

Definition benchmarkRBTree (h : Host) (operation : string) (data : list Z)
    (reportInterval : Z) (w : Worker) : Worker :=
  let (startTime, w0) := now h w in
  loop (fun v (m : gset Z) => {[v]} ∪ m) h "rbtree" operation
       (Z.of_nat (length data)) startTime reportInterval 0 data ∅ w0.

Definition benchmarkAVLTree (h : Host) (operation : string) (data : list Z)
    (reportInterval : Z) (w : Worker) : Worker :=
  let (startTime, w0) := now h w in
  loop (fun v (m : gset Z) => {[v]} ∪ m) h "avltree" operation
       (Z.of_nat (length data)) startTime reportInterval 0 data ∅ w0.

(** The [switch structure] of [runSingleBenchmark]. *)
Definition runStructure (h : Host) (structure operation : string)
    (data : list Z) (reportInterval : Z) (w : Worker) : Worker :=
  if String.eqb structure "hashmap" then benchmarkHashMap h operation data reportInterval w
  else if String.eqb structure "btree" then benchmarkBTree h operation data reportInterval w
  else if String.eqb structure "rbtree" then benchmarkRBTree h operation data reportInterval w
  else if String.eqb structure "avltree" then benchmarkAVLTree h operation data reportInterval w
  else w.

Definition reportIntervalOf (data : list Z) : Z :=
  let total := Z.of_nat (length data) in
  if go_div total 20 <? 1 then 1 else go_div total 20.   (* Report every 5% *)

(** The worker up to the point where [runSingleBenchmark] takes its second
    allocator reading. *)
Definition beforeEndMem (h : Host) (structure operation : string)
    (data : list Z) (w : Worker) : Worker :=
  let (_, w1) := getMemoryUsage h w in
  let (_, w2) := now h w1 in
  runStructure h structure operation data (reportIntervalOf data) w2.

Definition runSingleBenchmark (h : Host) (structure operation : string)
    (data : list Z) (w : Worker) : Worker :=
  let (startMem, w1) := getMemoryUsage h w in
  let (startTime, w2) := now h w1 in
  let total := Z.of_nat (length data) in
  let w3 := runStructure h structure operation data (reportIntervalOf data) w2 in
  let (endMem, w4) := getMemoryUsage h w3 in
  let (duration, w5) := sinceMs h startTime w4 in
  callback {| Structure := structure; Operation := operation;
              DataSize := total; Duration := duration;
              MemoryUsed := uint64 (endMem - startMem);
              OpsPerSec := Qdiv (inject_Z total) (Qdiv duration (inject_Z 1000));
              Progress := 100; Completed := true |} w5.

Definition freshWorker : Worker := {| memCalls := 0; clockCalls := 0; emitted := [] |}.

(** The two allocator readings [runSingleBenchmark] subtracts. *)
Definition startMemOf (h : Host) (w : Worker) : Z := fst (getMemoryUsage h w).
Definition endMemOf (h : Host) (structure operation : string)
    (data : list Z) (w : Worker) : Z :=
  fst (getMemoryUsage h (beforeEndMem h structure operation data w)).

End Benchmark.

(* ===================================================================== *)
(** ** datastructures/graph.go *)
(* ===================================================================== *)

Module Graph.

Record Edge := { To : string; Weight : Z }.

(** Go's [map] iteration order is unspecified; wherever the source ranges
    over [g.Nodes] the embedding uses the order of [map_to_list].  Only the
    order of the entries inside a snapshot depends on it. *)
Record Graph := {
  Nodes : gmap string (list Edge);
  NodeCoords : gmap string (Q * Q);
  steps : list Step
}.

Definition NewGraph : Graph := {| Nodes := ∅; NodeCoords := ∅; steps := [] |}.

Definition MaxInt32 : Z := 2147483647.

(** Addition on Go's 64-bit [int]. *)
Definition int_add (a b : Z) : Z := (a + b + 2 ^ 63) mod 2 ^ 64 - 2 ^ 63.

(** Reading a Go map at a key it does not hold gives the zero value. *)
Definition dist_of (distances : gmap string Z) (id : string) : Z := default 0 (distances !! id).
Definition is_visited (visited : gmap string bool) (id : string) : bool := default false (visited !! id).
Definition prev_of (previous : gmap string string) (id : string) : string := default EmptyString (previous !! id).

Definition clearSteps (g : Graph) : Graph :=
  {| Nodes := Nodes g; NodeCoords := NodeCoords g; steps := [] |}.

Fixpoint adjacent_in (path : list string) (a b : string) : bool :=
  match path with
  | p :: ((q :: _) as rest) =>
      ((String.eqb p a && String.eqb q b) || (String.eqb p b && String.eqb q a))
      || adjacent_in rest a b
  | _ => false
  end.

Definition nodeSnapshot (g : Graph) (distances : gmap string Z)
    (visited : gmap string bool) (path : list string) (id : string) : GraphNodeSnapshot :=
  let dist := dist_of distances id in
  let coords := default (0%Q, 0%Q) (NodeCoords g !! id) in
  {| gnID := id; gnLabel := id; gnX := fst coords; gnY := snd coords;
     gnDistance := if dist =? MaxInt32 then None else Some dist;
     gnVisited := is_visited visited id;
     gnInPath := existsb (String.eqb id) path |}.

Definition edgeSnapshot (path : list string) (currentEdge : option (string * string))
    (from : string) (e : Edge) : GraphEdgeSnapshot :=
  {| geFrom := from; geTo := To e; geWeight := Weight e;
     geInPath := adjacent_in path from (To e);
     geSelected :=
       match currentEdge with
       | Some (c0, c1) =>
           (String.eqb c0 from && String.eqb c1 (To e))
           || (String.eqb c0 (To e) && String.eqb c1 from)
       | None => false
       end |}.

Definition addStep (stepType : StepType) (desc : Text) (distances : gmap string Z)
    (visited : gmap string bool) (path : list string)
    (currentEdge : option (string * string)) (g : Graph) : Graph :=
  let nodes := map (fun kv => nodeSnapshot g distances visited path (fst kv))
                   (map_to_list (Nodes g)) in
  let edges := flat_map (fun kv => map (edgeSnapshot path currentEdge (fst kv)) (snd kv))
                        (map_to_list (Nodes g)) in
  {| Nodes := Nodes g; NodeCoords := NodeCoords g;
     steps := steps g ++ [ {| Type_ := stepType; Description := desc; NodeID := None;
                              TreeState := []; GraphNodes := nodes; GraphEdges := edges;
                              Highlight := [] |} ] |}.

Definition AddNode (id : string) (x y : Q) (g : Graph) : Graph :=
  {| Nodes := match Nodes g !! id with
              | Some _ => Nodes g
              | None => <[id := []]> (Nodes g)
              end;
     NodeCoords := <[id := (x, y)]> (NodeCoords g);
     steps := steps g |}.

Definition adj (g : Graph) (id : string) : list Edge := default [] (Nodes g !! id).

Definition AddEdge (from to : string) (weight : Z) (g : Graph) : Graph :=
  let n1 := <[from := adj g from ++ [ {| To := to; Weight := weight |} ]]> (Nodes g) in
  let n2 := <[to := default [] (n1 !! to) ++ [ {| To := from; Weight := weight |} ]]> n1 in
  {| Nodes := n2; NodeCoords := NodeCoords g; steps := steps g |}.

(** *** The priority queue and Go's [container/heap] over it *)

Record PriorityQueueItem := { node : string; priority : Z; index : Z }.

Definition PriorityQueue := list PriorityQueueItem.

Definition set_index (it : PriorityQueueItem) (i : Z) : PriorityQueueItem :=
  {| node := node it; priority := priority it; index := i |}.

Definition Less (pq : PriorityQueue) (i j : nat) : bool :=
  match pq !! i, pq !! j with
  | Some a, Some b => priority a <? priority b
  | _, _ => false
  end.

Definition Swap (pq : PriorityQueue) (i j : nat) : PriorityQueue :=
  match pq !! i, pq !! j with
  | Some a, Some b =>
      <[j := set_index a (Z.of_nat j)]> (<[i := set_index b (Z.of_nat i)]> pq)
  | _, _ => pq
  end.

(** [heap.up]: sift element [j] toward the root. *)
Fixpoint up (fuel : nat) (pq : PriorityQueue) (j : nat) : PriorityQueue :=
  match fuel with
  | O => pq
  | S fuel' =>
      let i := ((j - 1) / 2)%nat in            (* parent *)
      if (i =? j)%nat || negb (Less pq j i) then pq
      else up fuel' (Swap pq i j) i
  end.

(** [heap.down]: sift element [i] toward the leaves of the first [n]. *)
Fixpoint down (fuel : nat) (pq : PriorityQueue) (i n : nat) : PriorityQueue :=
  match fuel with
  | O => pq
  | S fuel' =>
      let j1 := (2 * i + 1)%nat in
      if (n <=? j1)%nat then pq
      else
        let j2 := (j1 + 1)%nat in
        let j := if (j2 <? n)%nat && Less pq j2 j1 then j2 else j1 in
        if negb (Less pq j i) then pq
        else down fuel' (Swap pq i j) j n
  end.

(** [heap.Push(&pq, x)] = [pq.Push(x)] then [up(len-1)]. *)
Definition heap_Push (pq : PriorityQueue) (x : PriorityQueueItem) : PriorityQueue :=
  let n := length pq in
  let pq' := pq ++ [set_index x (Z.of_nat n)] in
  up (S n) pq' n.

(** [heap.Pop(&pq)] = [Swap(0, n)], [down(0, n)], then [pq.Pop()].
    It is only called on a non-empty queue. *)
Definition heap_Pop (pq : PriorityQueue) : option (PriorityQueueItem * PriorityQueue) :=
  match pq with
  | [] => None
  | _ =>
      let n := (length pq - 1)%nat in
      let pq1 := down (S n) (Swap pq 0 n) 0 n in
      match last pq1 with
      | Some item => Some (set_index item (-1), take n pq1)
      | None => None
      end
  end.

(** *** Dijkstra *)

Record Search := {
  distances : gmap string Z;
  previous : gmap string string;
  visited : gmap string bool;
  pq : PriorityQueue;
  gr : Graph
}.

Definition emit (stepType : StepType) (desc : Text) (path : list string)
    (currentEdge : option (string * string)) (s : Search) : Search :=
  {| distances := distances s; previous := previous s; visited := visited s; pq := pq s;
     gr := addStep stepType desc (distances s) (visited s) path currentEdge (gr s) |}.

(** The body of [for _, edge := range g.Nodes[current.node]]. *)
Definition relaxEdge (current : string) (edge : Edge) (s : Search) : Search :=
  if is_visited (visited s) (To edge) then s       (* continue *)
  else
    let newDist := int_add (dist_of (distances s) current) (Weight edge) in
    let edgePtr := Some (current, To edge) in
    if newDist <? dist_of (distances s) (To edge) then
      let s1 := {| distances := <[To edge := newDist]> (distances s);
                   previous := <[To edge := current]> (previous s);
                   visited := visited s;
                   pq := heap_Push (pq s) {| node := To edge; priority := newDist; index := 0 |};
                   gr := gr s |} in
      emit StepUpdateDist
           (Sprintf "更新节点 %s 距离: %d → %d (通过 %s)"
                    [AStr (To edge); AInt (dist_of (distances s1) (To edge));
                     AInt newDist; AStr current])
           [] edgePtr s1
    else
      emit StepCompare
           (Sprintf "边 %s→%s: 新距离 %d >= 当前距离 %d，不更新"
                    [AStr current; AStr (To edge); AInt newDist;
                     AInt (dist_of (distances s) (To edge))])
           [] edgePtr s.

Definition relaxEdges (current : string) (edges : list Edge) (s : Search) : Search :=
  fold_left (fun acc e => relaxEdge current e acc) edges s.

(** The walk back along [previous], from [end] until the empty string,
    prepending each node to [path]. *)
Fixpoint reconstruct (fuel : nat) (previous : gmap string string) (at_ : string)
    (path : list string) : option (list string) :=
  if String.eqb at_ EmptyString then Some path
  else match fuel with
       | O => None
       | S fuel' => reconstruct fuel' previous (prev_of previous at_) (at_ :: path)
       end.

Definition initSearch (start : string) (g : Graph) : Search :=
  let g0 := clearSteps g in
  let d0 := <[start := 0]> (fmap (fun _ => MaxInt32) (Nodes g0)) in
  let g1 := addStep StepVisit (Sprintf "初始化：起点 %s 距离设为 0" [AStr start])
                    d0 ∅ [] None g0 in
  {| distances := d0; previous := ∅; visited := ∅;
     pq := heap_Push [] {| node := start; priority := 0; index := 0 |};
     gr := g1 |}.

(** Mark the popped node visited and emit its Select-Node step. *)
Definition selectNode (current : string) (s : Search) : Search :=
  let s1 := {| distances := distances s; previous := previous s;
               visited := <[current := true]> (visited s); pq := pq s; gr := gr s |} in
  emit StepSelectNode
       (Sprintf "选择距离最小的未访问节点: %s (距离: %d)"
                [AStr current; AInt (dist_of (distances s1) current)])
       [] None s1.

Definition lastSnapshot (g : Graph) : option (list GraphNodeSnapshot * list GraphEdgeSnapshot) :=
  match last (steps g) with
  | Some st => Some (GraphNodes st, GraphEdges st)
  | None => None
  end.

(** The loop [for pq.Len() > 0].  [None] stands for a run that does not
    return within [fuel] iterations. *)
Fixpoint searchLoop (fuel : nat) (end_ : string) (start : string) (s : Search)
    : option (OperationResult * Graph) :=
  match fuel with
  | O => None
  | S fuel' =>
      match heap_Pop (pq s) with
      | None =>
          let s' := emit StepNotFound
                         (Sprintf "无法从 %s 到达 %s" [AStr start; AStr end_]) [] None s in
          Some ({| Success := false; Message := Some (lit "无法到达目标节点");
                   Steps := steps (gr s'); FinalTree := []; FinalGraph := None |}, gr s')
      | Some (current, pq') =>
          let s0 := {| distances := distances s; previous := previous s;
                       visited := visited s; pq := pq'; gr := gr s |} in
          if is_visited (visited s0) (node current) then searchLoop fuel' end_ start s0
          else
            let s1 := selectNode (node current) s0 in
            if String.eqb (node current) end_ then
              match reconstruct (S (size (previous s1))) (previous s1) end_ [] with
              | None => None
              | Some path =>
                  let s2 := emit StepComplete
                                 (Sprintf "找到最短路径: %v, 总距离: %d"
                                          [AStrs path; AInt (dist_of (distances s1) end_)])
                                 path None s1 in
                  Some ({| Success := true;
                           Message := Some (Sprintf "最短路径距离: %d"
                                                    [AInt (dist_of (distances s1) end_)]);
                           Steps := steps (gr s2); FinalTree := [];
                           FinalGraph := lastSnapshot (gr s2) |}, gr s2)
              end
            else
              searchLoop fuel' end_ start
                         (relaxEdges (node current) (adj (gr s1) (node current)) s1)
      end
  end.

(** Every iteration pops one entry, and entries are pushed once at the
    start and at most once per adjacency entry of a node when it is
    selected: the loop runs at most [2 + number of adjacency entries]
    times. *)
Definition search_fuel (g : Graph) : nat :=
  S (S (length (flat_map snd (map_to_list (Nodes g))))).

Definition Dijkstra (start end_ : string) (g : Graph) : option (OperationResult * Graph) :=
  searchLoop (search_fuel g) end_ start (initSearch start g).

Definition CreateSampleGraph : Graph :=
  let g := NewGraph in
  let g := AddNode "A" 100 150 g in
  let g := AddNode "B" 250 50 g in
  let g := AddNode "C" 250 250 g in
  let g := AddNode "D" 400 100 g in
  let g := AddNode "E" 400 200 g in
  let g := AddNode "F" 550 150 g in
  let g := AddEdge "A" "B" 4 g in
  let g := AddEdge "A" "C" 2 g in
  let g := AddEdge "B" "C" 1 g in
  let g := AddEdge "B" "D" 5 g in
  let g := AddEdge "C" "D" 8 g in
  let g := AddEdge "C" "E" 10 g in
  let g := AddEdge "D" "E" 2 g in
  let g := AddEdge "D" "F" 6 g in
  AddEdge "E" "F" 3 g.

End Graph.

(* ===================================================================== *)
(** ** datastructures/rbtree.go *)
(* ===================================================================== *)

Module RB.

(** A [*RBNode]: [None] is Go's [nil], [Some a] the node allocated at
    address [a].  Every node the tree allocates gets a fresh id from
    [nextID], and the sentinel has id -1, so a node's id serves as its
    address; ids are never rewritten by this tree. *)
Definition ptr := option Z.

Record RBNode := {
  ID : Z;
  Value : Z;
  Color : NodeColor;
  Left : ptr;
  Right : ptr;
  Parent : ptr
}.

Record RedBlackTree := {
  Root : ptr;
  NIL : ptr;
  nextID : Z;
  steps : list Step;
  heap : gmap Z RBNode          (* the nodes, by address *)
}.

Definition nil_addr : Z := -1.

Definition NewRedBlackTree : RedBlackTree :=
  {| Root := Some nil_addr; NIL := Some nil_addr; nextID := 0; steps := [];
     heap := {[ nil_addr := {| ID := -1; Value := 0; Color := Black;
                               Left := None; Right := None; Parent := None |} ]} |}.

(** Computations over the tree: [None] is a run that does not return, by a
    nil dereference (a Go panic) or by exhausting the loop bound [bound]. *)
Definition M (A : Type) : Type := RedBlackTree -> option (A * RedBlackTree).

Definition ret {A} (a : A) : M A := fun t => Some (a, t).
Definition bind {A B} (m : M A) (f : A -> M B) : M B :=
  fun t => match m t with
           | Some (a, t') => f a t'
           | None => None
           end.
Definition fail {A} : M A := fun _ => None.

Notation "x <- m ;; k" := (bind m (fun x => k))
  (at level 100, m at level 99, k at level 200, right associativity, only parsing).
Notation "m ;;; k" := (bind m (fun _ => k))
  (at level 100, k at level 200, right associativity, only parsing).
Notation "m >>= f" := (bind m f) (at level 50, left associativity, only parsing).

Definition ptr_eqb (p q : ptr) : bool := bool_decide (p = q).

Definition load (t : RedBlackTree) (p : ptr) : option RBNode :=
  match p with
  | Some a => heap t !! a
  | None => None
  end.

(** [p.f] *)
Definition get {A} (f : RBNode -> A) (p : ptr) : M A :=
  fun t => match load t p with
           | Some n => Some (f n, t)
           | None => None
           end.

Definition with_heap (h : gmap Z RBNode) (t : RedBlackTree) : RedBlackTree :=
  {| Root := Root t; NIL := NIL t; nextID := nextID t; steps := steps t; heap := h |}.

(** Rewrite the node [p] points to with [upd]. *)
Definition modify (upd : RBNode -> RBNode) (p : ptr) : M unit :=
  fun t => match p with
           | Some a =>
               match heap t !! a with
               | Some n => Some (tt, with_heap (<[a := upd n]> (heap t)) t)
               | None => None
               end
           | None => None
           end.

Definition setColor (p : ptr) (c : NodeColor) : M unit :=
  modify (fun n => {| ID := ID n; Value := Value n; Color := c;
                      Left := Left n; Right := Right n; Parent := Parent n |}) p.
Definition setLeft (p q : ptr) : M unit :=
  modify (fun n => {| ID := ID n; Value := Value n; Color := Color n;
                      Left := q; Right := Right n; Parent := Parent n |}) p.
Definition setRight (p q : ptr) : M unit :=
  modify (fun n => {| ID := ID n; Value := Value n; Color := Color n;
                      Left := Left n; Right := q; Parent := Parent n |}) p.
Definition setParent (p q : ptr) : M unit :=
  modify (fun n => {| ID := ID n; Value := Value n; Color := Color n;
                      Left := Left n; Right := Right n; Parent := q |}) p.

Definition getRoot : M ptr := fun t => Some (Root t, t).
Definition getNIL : M ptr := fun t => Some (NIL t, t).
Definition setRoot (p : ptr) : M unit :=
  fun t => Some (tt, {| Root := p; NIL := NIL t; nextID := nextID t;
                        steps := steps t; heap := heap t |}).

(** No simple path of the tree is longer than the number of nodes ever
    allocated: this bounds every loop and the depth of every traversal. *)
Definition bound (t : RedBlackTree) : nat := S (Z.to_nat (nextID t)).

Definition clearSteps : M unit :=
  fun t => Some (tt, {| Root := Root t; NIL := NIL t; nextID := nextID t;
                        steps := []; heap := heap t |}).

(** The id of the node [q] points to, when [q] is neither the sentinel nor nil. *)
Definition linkID (t : RedBlackTree) (q : ptr) : option (option Z) :=
  if negb (ptr_eqb q (NIL t)) && negb (ptr_eqb q None)
  then match load t q with
       | Some n => Some (Some (ID n))
       | None => None
       end
  else Some None.

Fixpoint inorderSnapshot (fuel : nat) (t : RedBlackTree) (node : ptr)
    (depth : Z) (xMin xMax : Q) : option (list TreeNodeSnapshot) :=
  match fuel with
  | O => None
  | S fuel' =>
      if ptr_eqb node (NIL t) || ptr_eqb node None then Some []
      else
        n ← load t node;
        let x := Qred ((xMin + xMax) / 2)%Q in
        let y := inject_Z (depth * 80 + 50) in
        leftID ← linkID t (Left n);
        rightID ← linkID t (Right n);
        parentID ← linkID t (Parent n);
        let snapshot := {| snID := ID n; snValue := Value n; snColor := Some (Color n);
                           snLeftID := leftID; snRightID := rightID;
                           snParentID := parentID; snHeight := 0;
                           snX := x; snY := y |} in
        ls ← inorderSnapshot fuel' t (Left n) (depth + 1) xMin x;
        rs ← inorderSnapshot fuel' t (Right n) (depth + 1) x xMax;
        Some (snapshot :: ls ++ rs)
  end.

Definition getTreeSnapshot : M (list TreeNodeSnapshot) :=
  fun t => match inorderSnapshot (bound t) t (Root t) 0 0%Q (inject_Z 800) with
           | Some s => Some (s, t)
           | None => None
           end.

Definition getSteps : M (list Step) := fun t => Some (steps t, t).

Definition addStep (stepType : StepType) (desc : Text) (nodeID : option Z)
    (highlight : list Z) : M unit :=
  snap <- getTreeSnapshot ;;
  fun t => Some (tt, {| Root := Root t; NIL := NIL t; nextID := nextID t;
                        steps := steps t ++ [ {| Type_ := stepType; Description := desc;
                                                 NodeID := nodeID; TreeState := snap;
                                                 GraphNodes := []; GraphEdges := [];
                                                 Highlight := highlight |} ];
                        heap := heap t |}).

Definition leftRotate (x : ptr) : M unit :=
  y <- get Right x ;;
  (yl <- get Left y ;; setRight x yl) ;;;
  (yl <- get Left y ;; nil_ <- getNIL ;;
   if negb (ptr_eqb yl nil_) then setParent yl x else ret tt) ;;;
  (xp <- get Parent x ;; setParent y xp) ;;;
  (xp <- get Parent x ;; nil_ <- getNIL ;;
   if ptr_eqb xp nil_ then setRoot y
   else
     xpl <- get Left xp ;;
     if ptr_eqb x xpl then setLeft xp y else setRight xp y) ;;;
  setLeft y x ;;;
  setParent x y ;;;
  xv <- get Value x ;; xid <- get ID x ;; xid' <- get ID x ;; yid <- get ID y ;;
  addStep StepRotateLeft (Sprintf "对节点 %d 进行左旋" [AInt xv]) (Some xid) [xid'; yid].

Definition rightRotate (y : ptr) : M unit :=
  x <- get Left y ;;
  (xr <- get Right x ;; setLeft y xr) ;;;
  (xr <- get Right x ;; nil_ <- getNIL ;;
   if negb (ptr_eqb xr nil_) then setParent xr y else ret tt) ;;;
  (yp <- get Parent y ;; setParent x yp) ;;;
  (yp <- get Parent y ;; nil_ <- getNIL ;;
   if ptr_eqb yp nil_ then setRoot x
   else
     ypl <- get Left yp ;;
     if ptr_eqb y ypl then setLeft yp x else setRight yp x) ;;;
  setRight x y ;;;
  setParent y x ;;;
  yv <- get Value y ;; yid <- get ID y ;; xid <- get ID x ;; yid' <- get ID y ;;
  addStep StepRotateRight (Sprintf "对节点 %d 进行右旋" [AInt yv]) (Some yid) [xid; yid'].

(** [z := &RBNode{ID: t.nextID, ...}; t.nextID++] *)
Definition newNode (value : Z) : M ptr :=
  fun t =>
    let a := nextID t in
    Some (Some a,
          {| Root := Root t; NIL := NIL t; nextID := nextID t + 1; steps := steps t;
             heap := <[a := {| ID := a; Value := value; Color := Red;
                               Left := NIL t; Right := NIL t; Parent := NIL t |}]> (heap t) |}).

(** The descent [for x != t.NIL] of Insert; returns the final [y]. *)
Fixpoint insertDescend (fuel : nat) (value : Z) (z y x : ptr) : M ptr :=
  match fuel with
  | O => fail
  | S fuel' =>
      nil_ <- getNIL ;;
      if ptr_eqb x nil_ then ret y
      else
        (xv <- get Value x ;; xid <- get ID x ;; xid' <- get ID x ;;
         addStep StepCompare (Sprintf "比较 %d 与节点 %d" [AInt value; AInt xv])
                 (Some xid) [xid']) ;;;
        zv <- get Value z ;; xv <- get Value x ;;
        if zv <? xv
        then xl <- get Left x ;; insertDescend fuel' value z x xl
        else xr <- get Right x ;; insertDescend fuel' value z x xr
  end.

(** One pass through the body of the loop of [insertFixup]; returns the new [z]. *)
Definition insertFixupBody (z : ptr) : M ptr :=
  zp <- get Parent z ;;
  zppl <- get Parent z >>= get Parent >>= get Left ;;
  if ptr_eqb zp zppl then
    y <- get Parent z >>= get Parent >>= get Right ;;     (* uncle *)
    nil_ <- getNIL ;;
    yred <- (if negb (ptr_eqb y nil_)
             then c <- get Color y ;; ret (bool_decide (c = Red)) else ret false) ;;
    if yred then
      (* Case 1: uncle is red *)
      (zid <- get ID z ;; zid' <- get ID z ;; zpid <- get Parent z >>= get ID ;;
       yid <- get ID y ;;
       addStep StepRebalance (lit "情况1: 叔节点为红色，重新着色")
               (Some zid) [zid'; zpid; yid]) ;;;
      (zp <- get Parent z ;; setColor zp Black) ;;;
      setColor y Black ;;;
      (zpp <- get Parent z >>= get Parent ;; setColor zpp Red) ;;;
      (a <- get Parent z >>= get Value ;; b <- get Value y ;;
       c <- get Parent z >>= get Parent >>= get Value ;;
       i <- get Parent z >>= get Parent >>= get ID ;;
       addStep StepColorChange
               (Sprintf "节点 %d, %d 变黑，%d 变红" [AInt a; AInt b; AInt c]) (Some i) []) ;;;
      get Parent z >>= get Parent
    else
      zpr <- get Parent z >>= get Right ;;
      z <- (if ptr_eqb z zpr then
              (* Case 2: uncle is black, z is a right child *)
              z <- get Parent z ;;
              (zid <- get ID z ;;
               addStep StepRebalance (lit "情况2: 叔节点为黑色，当前节点是右子节点")
                       (Some zid) []) ;;;
              leftRotate z ;;;
              ret z
            else ret z) ;;
      (* Case 3: uncle is black, z is a left child *)
      (zid <- get ID z ;;
       addStep StepRebalance (lit "情况3: 叔节点为黑色，当前节点是左子节点") (Some zid) []) ;;;
      (zp <- get Parent z ;; setColor zp Black) ;;;
      (zpp <- get Parent z >>= get Parent ;; setColor zpp Red) ;;;
      (a <- get Parent z >>= get Value ;;
       b <- get Parent z >>= get Parent >>= get Value ;;
       i <- get Parent z >>= get ID ;;
       addStep StepColorChange (Sprintf "节点 %d 变黑，%d 变红" [AInt a; AInt b]) (Some i) []) ;;;
      (zpp <- get Parent z >>= get Parent ;; rightRotate zpp) ;;;
      ret z
  else
    (* Mirror cases *)
    y <- get Parent z >>= get Parent >>= get Left ;;      (* uncle *)
    nil_ <- getNIL ;;
    yred <- (if negb (ptr_eqb y nil_)
             then c <- get Color y ;; ret (bool_decide (c = Red)) else ret false) ;;
    if yred then
      (zid <- get ID z ;; zid' <- get ID z ;; zpid <- get Parent z >>= get ID ;;
       yid <- get ID y ;;
       addStep StepRebalance (lit "情况1(镜像): 叔节点为红色，重新着色")
               (Some zid) [zid'; zpid; yid]) ;;;
      (zp <- get Parent z ;; setColor zp Black) ;;;
      setColor y Black ;;;
      (zpp <- get Parent z >>= get Parent ;; setColor zpp Red) ;;;
      (a <- get Parent z >>= get Value ;; b <- get Value y ;;
       c <- get Parent z >>= get Parent >>= get Value ;;
       i <- get Parent z >>= get Parent >>= get ID ;;
       addStep StepColorChange
               (Sprintf "节点 %d, %d 变黑，%d 变红" [AInt a; AInt b; AInt c]) (Some i) []) ;;;
      get Parent z >>= get Parent
    else
      zpl <- get Parent z >>= get Left ;;
      z <- (if ptr_eqb z zpl then
              z <- get Parent z ;;
              (zid <- get ID z ;;
               addStep StepRebalance (lit "情况2(镜像): 叔节点为黑色，当前节点是左子节点")
                       (Some zid) []) ;;;
              rightRotate z ;;;
              ret z
            else ret z) ;;
      (zid <- get ID z ;;
       addStep StepRebalance (lit "情况3(镜像): 叔节点为黑色，当前节点是右子节点")
               (Some zid) []) ;;;
      (zp <- get Parent z ;; setColor zp Black) ;;;
      (zpp <- get Parent z >>= get Parent ;; setColor zpp Red) ;;;
      (a <- get Parent z >>= get Value ;;
       b <- get Parent z >>= get Parent >>= get Value ;;
       i <- get Parent z >>= get ID ;;
       addStep StepColorChange (Sprintf "节点 %d 变黑，%d 变红" [AInt a; AInt b]) (Some i) []) ;;;
      (zpp <- get Parent z >>= get Parent ;; leftRotate zpp) ;;;
      ret z.

(** The guard [z.Parent != t.NIL && z.Parent.Color == Red]. *)
Definition insertFixupGuard (z : ptr) : M bool :=
  zp <- get Parent z ;; nil_ <- getNIL ;;
  if negb (ptr_eqb zp nil_)
  then c <- get Parent z >>= get Color ;; ret (bool_decide (c = Red))
  else ret false.

Fixpoint insertFixupLoop (fuel : nat) (z : ptr) : M unit :=
  match fuel with
  | O => fail
  | S fuel' =>
      g <- insertFixupGuard z ;;
      if g then z' <- insertFixupBody z ;; insertFixupLoop fuel' z'
      else ret tt
  end.

Definition insertFixup (z : ptr) : M unit :=
  (fun t => insertFixupLoop (bound t) z t) ;;;
  c <- getRoot >>= get Color ;;
  if bool_decide (c = Red) then
    (r <- getRoot ;; setColor r Black) ;;;
    i <- getRoot >>= get ID ;;
    addStep StepColorChange (lit "根节点变黑") (Some i) []
  else ret tt.

(** The new node [z] is hung under [y], the last node of the descent:
    the if / else-if / else that follows the descent in [Insert]. *)
Definition insertLink (value : Z) (z y : ptr) : M unit :=
  nil_ <- getNIL ;;
  if ptr_eqb y nil_ then
    setRoot z ;;;
    zid <- get ID z ;;
    addStep StepInsert (Sprintf "节点 %d 成为根节点" [AInt value]) (Some zid) []
  else
    zv <- get Value z ;; yv <- get Value y ;;
    if zv <? yv then
      setLeft y z ;;;
      yv <- get Value y ;; zid <- get ID z ;; yid <- get ID y ;; zid' <- get ID z ;;
      addStep StepInsert (Sprintf "节点 %d 作为 %d 的左子节点" [AInt value; AInt yv])
              (Some zid) [yid; zid']
    else
      setRight y z ;;;
      yv <- get Value y ;; zid <- get ID z ;; yid <- get ID y ;; zid' <- get ID z ;;
      addStep StepInsert (Sprintf "节点 %d 作为 %d 的右子节点" [AInt value; AInt yv])
              (Some zid) [yid; zid'].

Definition Insert (value : Z) : M OperationResult :=
  clearSteps ;;;
  z <- newNode value ;;
  (zid <- get ID z ;;
   addStep StepInsert (Sprintf "创建新节点 %d (红色)" [AInt value]) (Some zid) []) ;;;
  nil_ <- getNIL ;;
  root <- getRoot ;;
  y <- (fun t => insertDescend (bound t) value z nil_ root t) ;;
  setParent z y ;;;
  insertLink value z y ;;;
  insertFixup z ;;;
  addStep StepComplete (lit "插入完成") None [] ;;;
  st <- getSteps ;;
  snap <- getTreeSnapshot ;;
  ret {| Success := true; Message := None; Steps := st; FinalTree := snap;
         FinalGraph := None |}.

Definition notFoundResult (value : Z) (msg : string) : M OperationResult :=
  st <- getSteps ;;
  snap <- getTreeSnapshot ;;
  ret {| Success := false; Message := Some (Sprintf msg [AInt value]);
         Steps := st; FinalTree := snap; FinalGraph := None |}.

(** The loop [for x != t.NIL] of Search, with both of its exits. *)
Fixpoint searchFrom (fuel : nat) (value : Z) (x : ptr) : M OperationResult :=
  match fuel with
  | O => fail
  | S fuel' =>
      nil_ <- getNIL ;;
      if ptr_eqb x nil_ then
        addStep StepNotFound (Sprintf "值 %d 不存在于树中" [AInt value]) None [] ;;;
        notFoundResult value "值 %d 不存在"
      else
        (xv <- get Value x ;; xid <- get ID x ;; xid' <- get ID x ;;
         addStep StepCompare (Sprintf "比较 %d 与节点 %d" [AInt value; AInt xv])
                 (Some xid) [xid']) ;;;
        xv <- get Value x ;;
        if value =? xv then
          (xid <- get ID x ;; xid' <- get ID x ;;
           addStep StepFound (Sprintf "找到节点 %d" [AInt value]) (Some xid) [xid']) ;;;
          st <- getSteps ;;
          snap <- getTreeSnapshot ;;
          ret {| Success := true; Message := Some (Sprintf "找到值 %d" [AInt value]);
                 Steps := st; FinalTree := snap; FinalGraph := None |}
        else if value <? xv
        then xl <- get Left x ;; searchFrom fuel' value xl
        else xr <- get Right x ;; searchFrom fuel' value xr
  end.

Definition Search (value : Z) : M OperationResult :=
  clearSteps ;;;
  root <- getRoot ;;
  fun t => searchFrom (bound t) value root t.

Definition transplant (u v : ptr) : M unit :=
  (up <- get Parent u ;; nil_ <- getNIL ;;
   if ptr_eqb up nil_ then setRoot v
   else
     upl <- get Parent u >>= get Left ;;
     if ptr_eqb u upl
     then up <- get Parent u ;; setLeft up v
     else up <- get Parent u ;; setRight up v) ;;;
  up <- get Parent u ;; setParent v up.

Fixpoint minimum_go (fuel : nat) (node : ptr) : M ptr :=
  match fuel with
  | O => fail
  | S fuel' =>
      l <- get Left node ;; nil_ <- getNIL ;;
      if negb (ptr_eqb l nil_) then minimum_go fuel' l else ret node
  end.

Definition minimum (node : ptr) : M ptr :=
  fun t => minimum_go (bound t) node t.

Fixpoint searchNode_go (fuel : nat) (value : Z) (x : ptr) : M ptr :=
  match fuel with
  | O => fail
  | S fuel' =>
      nil_ <- getNIL ;;
      if ptr_eqb x nil_ then getNIL
      else
        xv <- get Value x ;;
        if value =? xv then ret x
        else if value <? xv
        then xl <- get Left x ;; searchNode_go fuel' value xl
        else xr <- get Right x ;; searchNode_go fuel' value xr
  end.

Definition searchNode (value : Z) : M ptr :=
  root <- getRoot ;;
  fun t => searchNode_go (bound t) value root t.

Definition isColor (c : NodeColor) (p : ptr) : M bool :=
  col <- get Color p ;; ret (bool_decide (col = c)).

(** One pass through the body of the loop of [deleteFixup]; returns the new [x]. *)
Definition deleteFixupBody (x : ptr) : M ptr :=
  xpl <- get Parent x >>= get Left ;;
  if ptr_eqb x xpl then
    w <- get Parent x >>= get Right ;;                       (* sibling *)
    wred <- isColor Red w ;;
    w <- (if wred then
            (wid <- get ID w ;; xid <- get ID x ;; wid' <- get ID w ;;
             addStep StepRebalance (lit "情况1: 兄弟节点为红色") (Some wid) [xid; wid']) ;;;
            setColor w Black ;;;
            (xp <- get Parent x ;; setColor xp Red) ;;;
            (wv <- get Value w ;; xpv <- get Parent x >>= get Value ;;
             xpid <- get Parent x >>= get ID ;;
             addStep StepColorChange
                     (Sprintf "兄弟节点 %d 变黑，父节点 %d 变红" [AInt wv; AInt xpv])
                     (Some xpid) []) ;;;
            (xp <- get Parent x ;; leftRotate xp) ;;;
            get Parent x >>= get Right
          else ret w) ;;
    both <- (lb <- get Left w >>= isColor Black ;;
             if lb then get Right w >>= isColor Black else ret false) ;;
    if both then
      (wid <- get ID w ;; wid' <- get ID w ;;
       addStep StepRebalance (lit "情况2: 兄弟节点为黑色，其两个子节点均为黑色")
               (Some wid) [wid']) ;;;
      setColor w Red ;;;
      (wv <- get Value w ;; wid <- get ID w ;;
       addStep StepColorChange (Sprintf "兄弟节点 %d 变红" [AInt wv]) (Some wid) []) ;;;
      get Parent x
    else
      rb <- get Right w >>= isColor Black ;;
      w <- (if rb then
              (wid <- get ID w ;;
               addStep StepRebalance (lit "情况3: 兄弟节点为黑色，左子为红，右子为黑")
                       (Some wid) []) ;;;
              (wl <- get Left w ;; setColor wl Black) ;;;
              setColor w Red ;;;
              (wv <- get Value w ;; wid <- get ID w ;;
               addStep StepColorChange (Sprintf "兄弟左子节点变黑，兄弟 %d 变红" [AInt wv])
                       (Some wid) []) ;;;
              rightRotate w ;;;
              get Parent x >>= get Right
            else ret w) ;;
      (wid <- get ID w ;;
       addStep StepRebalance (lit "情况4: 兄弟节点为黑色，右子为红色") (Some wid) []) ;;;
      (c <- get Parent x >>= get Color ;; setColor w c) ;;;
      (xp <- get Parent x ;; setColor xp Black) ;;;
      (wr <- get Right w ;; setColor wr Black) ;;;
      (wid <- get ID w ;; addStep StepColorChange (lit "重新着色完成") (Some wid) []) ;;;
      (xp <- get Parent x ;; leftRotate xp) ;;;
      getRoot
  else
    (* Mirror cases *)
    w <- get Parent x >>= get Left ;;                        (* sibling *)
    wred <- isColor Red w ;;
    w <- (if wred then
            (wid <- get ID w ;; xid <- get ID x ;; wid' <- get ID w ;;
             addStep StepRebalance (lit "情况1(镜像): 兄弟节点为红色") (Some wid) [xid; wid']) ;;;
            setColor w Black ;;;
            (xp <- get Parent x ;; setColor xp Red) ;;;
            (wv <- get Value w ;; xpv <- get Parent x >>= get Value ;;
             xpid <- get Parent x >>= get ID ;;
             addStep StepColorChange
                     (Sprintf "兄弟节点 %d 变黑，父节点 %d 变红" [AInt wv; AInt xpv])
                     (Some xpid) []) ;;;
            (xp <- get Parent x ;; rightRotate xp) ;;;
            get Parent x >>= get Left
          else ret w) ;;
    both <- (rb <- get Right w >>= isColor Black ;;
             if rb then get Left w >>= isColor Black else ret false) ;;
    if both then
      (wid <- get ID w ;; wid' <- get ID w ;;
       addStep StepRebalance (lit "情况2(镜像): 兄弟节点为黑色，其两个子节点均为黑色")
               (Some wid) [wid']) ;;;
      setColor w Red ;;;
      (wv <- get Value w ;; wid <- get ID w ;;
       addStep StepColorChange (Sprintf "兄弟节点 %d 变红" [AInt wv]) (Some wid) []) ;;;
      get Parent x
    else
      lb <- get Left w >>= isColor Black ;;
      w <- (if lb then
              (wid <- get ID w ;;
               addStep StepRebalance (lit "情况3(镜像): 兄弟节点为黑色，右子为红，左子为黑")
                       (Some wid) []) ;;;
              (wr <- get Right w ;; setColor wr Black) ;;;
              setColor w Red ;;;
              (wv <- get Value w ;; wid <- get ID w ;;
               addStep StepColorChange (Sprintf "兄弟右子节点变黑，兄弟 %d 变红" [AInt wv])
                       (Some wid) []) ;;;
              leftRotate w ;;;
              get Parent x >>= get Left
            else ret w) ;;
      (wid <- get ID w ;;
       addStep StepRebalance (lit "情况4(镜像): 兄弟节点为黑色，左子为红色") (Some wid) []) ;;;
      (c <- get Parent x >>= get Color ;; setColor w c) ;;;
      (xp <- get Parent x ;; setColor xp Black) ;;;
      (wl <- get Left w ;; setColor wl Black) ;;;
      (wid <- get ID w ;; addStep StepColorChange (lit "重新着色完成") (Some wid) []) ;;;
      (xp <- get Parent x ;; rightRotate xp) ;;;
      getRoot.

(** The guard [x != t.Root && x.Color == Black]. *)
Definition deleteFixupGuard (x : ptr) : M bool :=
  root <- getRoot ;;
  if negb (ptr_eqb x root) then isColor Black x else ret false.

Fixpoint deleteFixupLoop (fuel : nat) (x : ptr) : M ptr :=
  match fuel with
  | O => fail
  | S fuel' =>
      g <- deleteFixupGuard x ;;
      if g then x' <- deleteFixupBody x ;; deleteFixupLoop fuel' x'
      else ret x
  end.

Definition deleteFixup (x : ptr) : M unit :=
  x <- (fun t => deleteFixupLoop (bound t) x t) ;;
  r <- isColor Red x ;;
  if r then
    setColor x Black ;;;
    xid <- get ID x ;;
    addStep StepColorChange (lit "将当前节点变黑以完成修复") (Some xid) []
  else ret tt.

Definition Delete (value : Z) : M OperationResult :=
  clearSteps ;;;
  z <- searchNode value ;;
  nil_ <- getNIL ;;
  if ptr_eqb z nil_ then
    addStep StepNotFound (Sprintf "值 %d 不存在于树中，无法删除" [AInt value]) None [] ;;;
    notFoundResult value "值 %d 不存在，无法删除"
  else
    (zid <- get ID z ;; zid' <- get ID z ;;
     addStep StepDelete (Sprintf "找到要删除的节点 %d" [AInt value]) (Some zid) [zid']) ;;;
    zc <- get Color z ;;                       (* y := z; yOriginalColor := y.Color *)
    zl <- get Left z ;; nil_ <- getNIL ;;
    xc <- (if ptr_eqb zl nil_ then
             (* Case 1: no left child *)
             (zv <- get Value z ;; zid <- get ID z ;;
              addStep StepDelete (Sprintf "节点 %d 没有左子节点，用右子节点替换" [AInt zv])
                      (Some zid) []) ;;;
             x <- get Right z ;;
             (zr <- get Right z ;; transplant z zr) ;;;
             ret (x, zc)
           else
             zr <- get Right z ;; nil_ <- getNIL ;;
             if ptr_eqb zr nil_ then
               (* Case 2: no right child *)
               (zv <- get Value z ;; zid <- get ID z ;;
                addStep StepDelete (Sprintf "节点 %d 没有右子节点，用左子节点替换" [AInt zv])
                        (Some zid) []) ;;;
               x <- get Left z ;;
               (zl <- get Left z ;; transplant z zl) ;;;
               ret (x, zc)
             else
               (* Case 3: both children exist *)
               y <- (zr <- get Right z ;; minimum zr) ;;
               yc <- get Color y ;;
               x <- get Right y ;;
               (zv <- get Value z ;; yv <- get Value y ;; yid <- get ID y ;;
                zid <- get ID z ;; yid' <- get ID y ;;
                addStep StepDelete
                        (Sprintf "节点 %d 有两个子节点，找到后继节点 %d" [AInt zv; AInt yv])
                        (Some yid) [zid; yid']) ;;;
               (yp <- get Parent y ;;
                if ptr_eqb yp z then setParent x y
                else
                  (yr <- get Right y ;; transplant y yr) ;;;
                  (zr <- get Right z ;; setRight y zr) ;;;
                  (yr <- get Right y ;; setParent yr y)) ;;;
               transplant z y ;;;
               (zl <- get Left z ;; setLeft y zl) ;;;
               (yl <- get Left y ;; setParent yl y) ;;;
               (zc' <- get Color z ;; setColor y zc') ;;;
               (yv <- get Value y ;; yid <- get ID y ;;
                addStep StepDelete (Sprintf "用后继节点 %d 替换被删除节点" [AInt yv])
                        (Some yid) []) ;;;
               ret (x, yc)) ;;
    (if bool_decide (snd xc = Black) then
       addStep StepRebalance (lit "删除了黑色节点，需要修复红黑树性质") None [] ;;;
       deleteFixup (fst xc)
     else ret tt) ;;;
    addStep StepComplete (Sprintf "删除节点 %d 完成" [AInt value]) None [] ;;;
    st <- getSteps ;;
    snap <- getTreeSnapshot ;;
    ret {| Success := true; Message := Some (Sprintf "成功删除值 %d" [AInt value]);
           Steps := st; FinalTree := snap; FinalGraph := None |}.

End RB.

(* ===================================================================== *)
(** ** datastructures/avltree.go *)
(* ===================================================================== *)

Module AVL.

(** A [*AVLNode] together with what it points to.  This tree keeps no
    parent links and never shares a node between two links, so a subtree
    is a value.  The recursive functions update nodes in place while
    [t.Root] (and every link above the node at hand) still holds the
    pointer it held at the start of the call: the steps they record see
    the tree through those old links.  Each recursive function therefore
    takes [k], which rebuilds the tree as [t.Root] sees it from the
    present contents of the node its caller's link points to.

    The [NodeID] of a step is a pointer to the [ID] field of a node, read
    when the result is sent: it shows the id the node has at the end of
    the operation.  Only [delete] ever writes an [ID] field, at a node
    with two children, after it has recorded two steps for this node. *)
Inductive AVLNode :=
| Nil
| Node (ID Value Height : Z) (Left Right : AVLNode).

Record AVLTree := {
  Root : AVLNode;
  nextID : Z;
  steps : list Step
}.

Definition NewAVLTree : AVLTree := {| Root := Nil; nextID := 0; steps := [] |}.

(** The part of the tree the recursive functions write besides the nodes. *)
Record Log := { lnextID : Z; lsteps : list Step }.

Definition idOf (n : AVLNode) : option Z :=
  match n with
  | Nil => None
  | Node i _ _ _ _ => Some i
  end.

Fixpoint inorderSnapshot (node : AVLNode) (depth : Z) (xMin xMax : Q)
    : list TreeNodeSnapshot :=
  match node with
  | Nil => []
  | Node i v h l r =>
      let x := Qred ((xMin + xMax) / 2)%Q in
      let y := inject_Z (depth * 80 + 50) in
      {| snID := i; snValue := v; snColor := None;
         snLeftID := idOf l; snRightID := idOf r; snParentID := None;
         snHeight := h; snX := x; snY := y |}
      :: inorderSnapshot l (depth + 1) xMin x ++ inorderSnapshot r (depth + 1) x xMax
  end.

Definition getTreeSnapshot (root : AVLNode) : list TreeNodeSnapshot :=
  inorderSnapshot root 0 0%Q (inject_Z 800).

(** [addStep], with [root] the tree [t.Root] sees at this moment. *)
Definition addStep (stepType : StepType) (desc : Text) (nodeID : option Z)
    (highlight : list Z) (root : AVLNode) (s : Log) : Log :=
  {| lnextID := lnextID s;
     lsteps := lsteps s ++ [ {| Type_ := stepType; Description := desc; NodeID := nodeID;
                                TreeState := getTreeSnapshot root;
                                GraphNodes := []; GraphEdges := [];
                                Highlight := highlight |} ] |}.

Definition height (node : AVLNode) : Z :=
  match node with
  | Nil => 0
  | Node _ _ h _ _ => h
  end.

Definition max (a b : Z) : Z := if a >? b then a else b.

Definition getBalance (node : AVLNode) : Z :=
  match node with
  | Nil => 0
  | Node _ _ _ l r => height l - height r
  end.

(** [node.Value], a nil dereference when [node] is nil. *)
Definition valueOf (node : AVLNode) : option Z :=
  match node with
  | Nil => None
  | Node _ v _ _ _ => Some v
  end.

(** [b && c], where evaluating [c] may dereference nil. *)
Definition and_then (b : bool) (c : option bool) : option bool :=
  if b then c else Some false.

Definition rightRotate (k : AVLNode -> AVLNode) (y : AVLNode) (s : Log)
    : option (AVLNode * Log) :=
  match y with
  | Node yi yv _ (Node xi xv _ xl T2) yr =>
      let y' := Node yi yv (max (height T2) (height yr) + 1) T2 yr in
      let x' := Node xi xv (max (height xl) (height y') + 1) xl y' in
      Some (x', addStep StepRotateRight (Sprintf "对节点 %d 进行右旋" [AInt yv])
                        (Some yi) [xi; yi] (k y') s)
  | _ => None
  end.

Definition leftRotate (k : AVLNode -> AVLNode) (x : AVLNode) (s : Log)
    : option (AVLNode * Log) :=
  match x with
  | Node xi xv _ xl (Node yi yv _ T2 yr) =>
      let x' := Node xi xv (max (height xl) (height T2) + 1) xl T2 in
      let y' := Node yi yv (max (height x') (height yr) + 1) x' yr in
      Some (y', addStep StepRotateLeft (Sprintf "对节点 %d 进行左旋" [AInt xv])
                        (Some xi) [xi; yi] (k x') s)
  | _ => None
  end.

(** The part of [insert] after the recursive call has returned and its
    result [l] or [r] has been stored in the node: height update and the
    four rotation cases. *)
Definition insertRebalance (k : AVLNode -> AVLNode) (i v : Z) (l r : AVLNode)
    (value : Z) (s : Log) : option (AVLNode * Log) :=
  let node := Node i v (1 + max (height l) (height r)) l r in
  let balance := getBalance node in
  (* Left Left Case *)
  c ← and_then (balance >? 1) (lv ← valueOf l; Some (value <? lv));
  if c : bool then
    rightRotate k node (addStep StepRebalance (lit "LL情况：需要右旋") (Some i) [] (k node) s)
  else
  (* Right Right Case *)
  c ← and_then (balance <? -1) (rv ← valueOf r; Some (value >? rv));
  if c : bool then
    leftRotate k node (addStep StepRebalance (lit "RR情况：需要左旋") (Some i) [] (k node) s)
  else
  (* Left Right Case *)
  c ← and_then (balance >? 1) (lv ← valueOf l; Some (value >? lv));
  if c : bool then
    let s1 := addStep StepRebalance (lit "LR情况：先左旋后右旋") (Some i) [] (k node) s in
    '(l', s2) ← leftRotate (fun x => k (Node i v (1 + max (height l) (height r)) x r)) l s1;
    rightRotate k (Node i v (1 + max (height l) (height r)) l' r) s2
  else
  (* Right Left Case *)
  c ← and_then (balance <? -1) (rv ← valueOf r; Some (value <? rv));
  if c : bool then
    let s1 := addStep StepRebalance (lit "RL情况：先右旋后左旋") (Some i) [] (k node) s in
    '(r', s2) ← rightRotate (fun x => k (Node i v (1 + max (height l) (height r)) l x)) r s1;
    leftRotate k (Node i v (1 + max (height l) (height r)) l r') s2
  else Some (node, s).

Fixpoint insert (k : AVLNode -> AVLNode) (node : AVLNode) (value : Z) (s : Log)
    : option (AVLNode * Log) :=
  match node with
  | Nil =>
      let i := lnextID s in
      let newNode := Node i value 1 Nil Nil in
      let s1 := {| lnextID := lnextID s + 1; lsteps := lsteps s |} in
      Some (newNode, addStep StepInsert (Sprintf "插入节点 %d" [AInt value])
                             (Some i) [i] (k Nil) s1)
  | Node i v h l r =>
      let s1 := addStep StepCompare (Sprintf "比较 %d 与节点 %d" [AInt value; AInt v])
                        (Some i) [i] (k node) s in
      if value <? v then
        '(l', s2) ← insert (fun x => k (Node i v h x r)) l value s1;
        insertRebalance k i v l' r value s2
      else if value >? v then
        '(r', s2) ← insert (fun x => k (Node i v h l x)) r value s1;
        insertRebalance k i v l r' value s2
      else Some (node, s1)       (* Duplicate values not allowed *)
  end.

Definition logOf (t : AVLTree) : Log := {| lnextID := nextID t; lsteps := steps t |}.

Definition Insert (value : Z) (t : AVLTree) : option (OperationResult * AVLTree) :=
  let s0 := {| lnextID := nextID t; lsteps := [] |} in
  let s1 := addStep StepInsert (Sprintf "开始插入值 %d" [AInt value]) None [] (Root t) s0 in
  '(root, s2) ← insert (fun x => x) (Root t) value s1;
  let s3 := addStep StepComplete (lit "插入完成") None [] root s2 in
  Some ({| Success := true; Message := None; Steps := lsteps s3;
           FinalTree := getTreeSnapshot root; FinalGraph := None |},
        {| Root := root; nextID := lnextID s3; steps := lsteps s3 |}).

(** The loop [for current != nil] of Search; [root] is [t.Root]. *)
Fixpoint searchFrom (root : AVLNode) (current : AVLNode) (value : Z) (s : Log)
    : OperationResult * Log :=
  match current with
  | Nil =>
      let s1 := addStep StepNotFound (Sprintf "值 %d 不存在于树中" [AInt value]) None [] root s in
      ({| Success := false; Message := Some (Sprintf "值 %d 不存在" [AInt value]);
          Steps := lsteps s1; FinalTree := getTreeSnapshot root; FinalGraph := None |}, s1)
  | Node i v _ l r =>
      let s1 := addStep StepCompare (Sprintf "比较 %d 与节点 %d" [AInt value; AInt v])
                        (Some i) [i] root s in
      if value =? v then
        let s2 := addStep StepFound (Sprintf "找到节点 %d" [AInt value]) (Some i) [i] root s1 in
        ({| Success := true; Message := Some (Sprintf "找到值 %d" [AInt value]);
            Steps := lsteps s2; FinalTree := getTreeSnapshot root; FinalGraph := None |}, s2)
      else if value <? v then searchFrom root l value s1
      else searchFrom root r value s1
  end.

Definition Search (value : Z) (t : AVLTree) : OperationResult * AVLTree :=
  let '(res, s) := searchFrom (Root t) (Root t) value {| lnextID := nextID t; lsteps := [] |} in
  (res, {| Root := Root t; nextID := lnextID s; steps := lsteps s |}).

(** [minValueNode]; its argument is never nil where it is called. *)
Fixpoint minValueNode (node : AVLNode) : AVLNode :=
  match node with
  | Node _ _ _ ((Node _ _ _ _ _) as l) _ => minValueNode l
  | _ => node
  end.

(** The part of [delete] below its [else] branch: height update and the
    four rotation cases, chosen by balance factors. *)
Definition deleteRebalance (k : AVLNode -> AVLNode) (i v : Z) (l r : AVLNode)
    (s : Log) : option (AVLNode * Log) :=
  let node := Node i v (1 + max (height l) (height r)) l r in
  let balance := getBalance node in
  (* Left Left Case *)
  if (balance >? 1) && (getBalance l >=? 0) then
    rightRotate k node (addStep StepRebalance (lit "LL情况：需要右旋") (Some i) [i] (k node) s)
  (* Left Right Case *)
  else if (balance >? 1) && (getBalance l <? 0) then
    let s1 := addStep StepRebalance (lit "LR情况：先左旋后右旋") (Some i) [i] (k node) s in
    '(l', s2) ← leftRotate (fun x => k (Node i v (1 + max (height l) (height r)) x r)) l s1;
    rightRotate k (Node i v (1 + max (height l) (height r)) l' r) s2
  (* Right Right Case *)
  else if (balance <? -1) && (getBalance r <=? 0) then
    leftRotate k node (addStep StepRebalance (lit "RR情况：需要左旋") (Some i) [i] (k node) s)
  (* Right Left Case *)
  else if (balance <? -1) && (getBalance r >? 0) then
    let s1 := addStep StepRebalance (lit "RL情况：先右旋后左旋") (Some i) [i] (k node) s in
    '(r', s2) ← rightRotate (fun x => k (Node i v (1 + max (height l) (height r)) l x)) r s1;
    leftRotate k (Node i v (1 + max (height l) (height r)) l r') s2
  else Some (node, s).

Fixpoint delete (k : AVLNode -> AVLNode) (node : AVLNode) (value : Z) (s : Log)
    : option (AVLNode * Log) :=
  match node with
  | Nil =>
      Some (Nil, addStep StepNotFound (Sprintf "值 %d 不存在于树中" [AInt value]) None [] (k Nil) s)
  | Node i v h l r =>
      let s1 := addStep StepCompare (Sprintf "比较 %d 与节点 %d" [AInt value; AInt v])
                        (Some i) [i] (k node) s in
      if value <? v then
        '(l', s2) ← delete (fun x => k (Node i v h x r)) l value s1;
        deleteRebalance k i v l' r s2
      else if value >? v then
        '(r', s2) ← delete (fun x => k (Node i v h l x)) r value s1;
        deleteRebalance k i v l r' s2
      else
        (* Node to be deleted found *)
        let s2 := addStep StepDelete (Sprintf "找到要删除的节点 %d" [AInt value])
                          (Some i) [i] (k node) s1 in
        match l, r with
        | Nil, _ =>
            Some (r, addStep StepDelete
                             (Sprintf "节点 %d 没有左子节点，用右子节点替换" [AInt v])
                             (Some i) [] (k node) s2)
        | _, Nil =>
            Some (l, addStep StepDelete
                             (Sprintf "节点 %d 没有右子节点，用左子节点替换" [AInt v])
                             (Some i) [] (k node) s2)
        | _, _ =>
            match minValueNode r with
            | Nil => None
            | Node si sv _ _ _ =>
                (* node.Value = successor.Value; node.ID = successor.ID:
                   the two steps recorded above for this node hold
                   [&node.ID], so they show the id of the successor *)
                let s1' := addStep StepCompare
                                   (Sprintf "比较 %d 与节点 %d" [AInt value; AInt v])
                                   (Some si) [i] (k node) s in
                let s2' := addStep StepDelete (Sprintf "找到要删除的节点 %d" [AInt value])
                                   (Some si) [i] (k node) s1' in
                let s3 := addStep StepDelete
                                  (Sprintf "节点 %d 有两个子节点，找到后继节点 %d" [AInt v; AInt sv])
                                  (Some si) [i; si] (k node) s2' in
                let s4 := addStep StepDelete
                                  (Sprintf "用后继节点 %d 替换被删除节点" [AInt sv])
                                  (Some si) [] (k (Node si sv h l r)) s3 in
                '(r', s5) ← delete (fun x => k (Node si sv h l x)) r sv s4;
                deleteRebalance k si sv l r' s5
            end
        end
  end.

(** The existence check at the start of Delete. *)
Fixpoint contains (current : AVLNode) (value : Z) : bool :=
  match current with
  | Nil => false
  | Node _ v _ l r =>
      if value =? v then true
      else if value <? v then contains l value
      else contains r value
  end.

Definition Delete (value : Z) (t : AVLTree) : option (OperationResult * AVLTree) :=
  let s0 := {| lnextID := nextID t; lsteps := [] |} in
  let s1 := addStep StepDelete (Sprintf "开始删除值 %d" [AInt value]) None [] (Root t) s0 in
  if negb (contains (Root t) value) then
    let s2 := addStep StepNotFound (Sprintf "值 %d 不存在于树中，无法删除" [AInt value])
                      None [] (Root t) s1 in
    Some ({| Success := false;
             Message := Some (Sprintf "值 %d 不存在，无法删除" [AInt value]);
             Steps := lsteps s2; FinalTree := getTreeSnapshot (Root t);
             FinalGraph := None |},
          {| Root := Root t; nextID := lnextID s2; steps := lsteps s2 |})
  else
    '(root, s2) ← delete (fun x => x) (Root t) value s1;
    let s3 := addStep StepComplete (Sprintf "删除节点 %d 完成" [AInt value]) None [] root s2 in
    Some ({| Success := true; Message := Some (Sprintf "成功删除值 %d" [AInt value]);
             Steps := lsteps s3; FinalTree := getTreeSnapshot root; FinalGraph := None |},
          {| Root := root; nextID := lnextID s3; steps := lsteps s3 |}).

End AVL.

(* ********************************************************************* *)
(** * Part II: what is asked of the program *)
(* ********************************************************************* *)

(* ===================================================================== *)
(** * Hosts of a benchmark run *)
(* ===================================================================== *)

Module BenchmarkSpec.
Import Benchmark.

(** A host whose stop channel is observed closed from poll [n] on, and
    whose allocator and clock readings are constant. *)
Definition stopFrom (n : nat) : Host :=
  {| stopObserved := fun i => (n <=? i)%nat;
     memAlloc := fun _ => 0;
     clockMs := fun _ => 0%Q |}.

(** The wrap at work: the allocator reads 1000 bytes at the start and 400
    bytes at the end (memory was reclaimed during the run). *)
Definition shrinkingHost : Host :=
  {| stopObserved := fun _ => false;
     memAlloc := fun n => match n with O => 1000 | _ => 400 end;
     clockMs := fun _ => 0%Q |}.

(** What a progress report of a run over [len] elements looks like:
    the names and the size of the run, not completed, and a progress
    value below 100 that is at least the one of element [i]. *)
Definition is_report (structure operation : string) (len : Z) (i : nat)
    (r : BenchmarkResult) : Prop :=
  Structure r = structure ∧ Operation r = operation ∧ DataSize r = len
  ∧ Completed r = false
  ∧ go_div (Z.of_nat i * 100) len <= Progress r < 100.

End BenchmarkSpec.

(* ===================================================================== *)
(** * Traces of the Dijkstra search *)
(* ===================================================================== *)

Module GraphSpec.
Import Graph.

(** The graph of the concrete scenario, whatever the display coordinates. *)
Definition scenario (xa ya xb yb xc yc xd yd : Q) : Graph :=
  AddEdge "C" "D" 8
    (AddEdge "B" "D" 5
       (AddEdge "C" "B" 1
          (AddEdge "A" "C" 2
             (AddEdge "A" "B" 4
                (AddNode "D" xd yd
                   (AddNode "C" xc yc
                      (AddNode "B" xb yb
                         (AddNode "A" xa ya NewGraph)))))))).

Definition trace (s : Search) : list Step := steps (gr s).

(** What the claim asks of one edge examination: exactly one step, an
    Update-Distance step when the new tentative distance improves the
    neighbour's, a Compare step when it does not. *)
Definition one_step_per_edge (current : string) (edge : Edge) (s : Search) : Prop :=
  let newDist := int_add (dist_of (distances s) current) (Weight edge) in
  ∃ st, trace (relaxEdge current edge s) = trace s ++ [st]
        ∧ (newDist < dist_of (distances s) (To edge) → Type_ st = StepUpdateDist)
        ∧ (¬ newDist < dist_of (distances s) (To edge) → Type_ st = StepCompare).

(** The search of the scenario at the moment node C has just been selected
    (A was selected and relaxed before it). *)
Definition afterSelectC : option Search :=
  let g := scenario 0 0 0 0 0 0 0 0 in
  let s0 := initSearch "A" g in
  '(a, pq1) ← heap_Pop (pq s0);
  let s1 := selectNode (node a) {| distances := distances s0; previous := previous s0;
                                   visited := visited s0; pq := pq1; gr := gr s0 |} in
  let s2 := relaxEdges (node a) (adj (gr s1) (node a)) s1 in
  '(c, pq2) ← heap_Pop (pq s2);
  Some (selectNode (node c) {| distances := distances s2; previous := previous s2;
                               visited := visited s2; pq := pq2; gr := gr s2 |}).

(** *** The search as a whole *)

(** The adjacency entries of the nodes that are not yet visited: for each
    of them the search may still push one queue entry. *)
Definition pending (nodes : list (string * list Edge)) (vis : gmap string bool) : nat :=
  sum_list_with (fun kv => if is_visited vis (fst kv) then O else length (snd kv)) nodes.

(** A walk in the graph: the edges taken one after the other from [from]. *)
Fixpoint follows_edges (g : Graph) (from : string) (es : list Edge) : Prop :=
  match es with
  | [] => True
  | e :: es' => e ∈ adj g from ∧ follows_edges g (To e) es'
  end.

(** The nodes a walk passes, and its length, summed as the code sums. *)
Definition walk_nodes (from : string) (es : list Edge) : list string :=
  from :: map To es.

Definition walk_weight (es : list Edge) : Z :=
  fold_left (fun d e => int_add d (Weight e)) es 0.

(** Some walk leads from [from] to [to]. *)
Definition reachable (g : Graph) (from to : string) : Prop :=
  ∃ es, follows_edges g from es ∧ last (walk_nodes from es) = Some to.

(** The texts of the Complete step and of the result of a successful search. *)
Definition complete_text (path : list string) (d : Z) : Text :=
  Sprintf "找到最短路径: %v, 总距离: %d" [AStrs path; AInt d].

Definition success_text (d : Z) : Text := Sprintf "最短路径距离: %d" [AInt d].

(** The state of a search on [g] from [start], between two iterations of
    its loop; [order] lists the nodes selected so far, in this order. *)
Record SearchInv (g : Graph) (start : string) (order : list string) (s : Search) : Prop := {
  inv_nodes : Nodes (gr s) = Nodes g;
  inv_coords : NodeCoords (gr s) = NodeCoords g;
  inv_nodup : NoDup order;
  inv_visited : ∀ x, is_visited (visited s) x = true ↔ x ∈ order;
  inv_prev : ∀ x p, previous s !! x = Some p →
      p ∈ order
      ∧ (∀ i, order !! i = Some x → ∃ j, (j < i)%nat ∧ order !! j = Some p)
      ∧ ∃ w, {| To := x; Weight := w |} ∈ adj g p
             ∧ dist_of (distances s) x = int_add (dist_of (distances s) p) w;
  inv_start : previous s !! start = None ∧ dist_of (distances s) start = 0
              ∧ (start ∈ order ∨ previous s = ∅);
  inv_pq : Forall (fun it => node it = start ∨ is_Some (previous s !! node it)) (pq s);
  inv_order : ∀ x, x ∈ order → x = start ∨ is_Some (previous s !! x)
}.

(** No node that takes part in the search has the empty name, which the
    walk back along the predecessor links takes for its end. *)
Definition named (g : Graph) (start : string) : Prop :=
  start ≠ EmptyString
  ∧ ∀ x es e, Nodes g !! x = Some es → e ∈ es → To e ≠ EmptyString.

(** A graph on which distances stay away from the initial distance
    MaxInt32: every edge leads to a node of the graph, and the weights are
    between 0 and [B], with [B] times the number of nodes below MaxInt32. *)
Definition bounded (g : Graph) (start : string) (B : Z) : Prop :=
  is_Some (Nodes g !! start)
  ∧ (∀ x es e, Nodes g !! x = Some es → e ∈ es →
       is_Some (Nodes g !! To e) ∧ 0 <= Weight e <= B)
  ∧ 0 <= B ∧ B * Z.of_nat (size (Nodes g)) < MaxInt32.

(** What the search keeps on a bounded graph, as long as it has not
    selected [end_]: the nodes with a distance are selected or queued,
    and so are all neighbours of the selected nodes. *)
Definition reached (order : list string) (s : Search) (x : string) : Prop :=
  x ∈ order ∨ x ∈ map node (pq s).

Definition queued (g : Graph) (order : list string) (s : Search) : Prop :=
  ∀ x, is_Some (Nodes g !! x) → dist_of (distances s) x ≠ MaxInt32 → reached order s x.

Definition closed (g : Graph) (done order : list string) (s : Search) : Prop :=
  ∀ u e, u ∈ done → e ∈ adj g u → reached order s (To e).

Record ReachInv (g : Graph) (end_ : string) (order : list string) (s : Search) : Prop := {
  inv_end : end_ ∉ order;
  inv_queued : queued g order s;
  inv_closed : closed g order order s
}.

(** The steps between the first and the last step of a search. *)
Definition middle (st : Step) : Prop :=
  Type_ st = StepSelectNode ∨ Type_ st = StepUpdateDist ∨ Type_ st = StepCompare.

(** An undirected graph: every edge has its reverse, of the same weight. *)
Definition undirected (g : Graph) : Prop :=
  ∀ x e, e ∈ adj g x → {| To := x; Weight := Weight e |} ∈ adj g (To e).

(** What a search that started with the trace [pre] returns. *)
Definition search_result (g : Graph) (start end_ : string) (B : Z) (pre : list Step)
    (r : OperationResult) (g' : Graph) : Prop :=
  Nodes g' = Nodes g ∧ NodeCoords g' = NodeCoords g ∧ steps g' = Steps r
  ∧ FinalTree r = []
  ∧ ∃ mid final,
      Steps r = pre ++ mid ++ [final] ∧ Forall middle mid
      ∧ if Success r
        then Type_ final = StepComplete
             ∧ FinalGraph r = Some (GraphNodes final, GraphEdges final)
             ∧ ∃ order s path,
                 SearchInv g start order s ∧ last order = Some end_
                 ∧ reconstruct (S (size (previous s))) (previous s) end_ [] = Some path
                 ∧ Description final = complete_text path (dist_of (distances s) end_)
                 ∧ Message r = Some (success_text (dist_of (distances s) end_))
        else Type_ final = StepNotFound
             ∧ Description final = Sprintf "无法从 %s 到达 %s" [AStr start; AStr end_]
             ∧ Message r = Some (lit "无法到达目标节点")
             ∧ FinalGraph r = None
             ∧ (bounded g start B → ¬ reachable g start end_).

(** *** The edges of a selected node *)

(** What the examination of the edges [es] out of [current] does from the
    state [s], edge by edge, [new] being the steps it records: an edge to
    a visited node changes nothing and records nothing; every other edge
    records exactly one step, an Update-Distance step together with the
    new distance, the predecessor link and the push of the neighbour when
    the new tentative distance is smaller than the neighbour's, a Compare
    step and no other change when it is not. *)
Fixpoint examined (current : string) (es : list Edge) (s : Search) (new : list Step)
    : Prop :=
  match es with
  | [] => new = []
  | e :: es' =>
      let newDist := int_add (dist_of (distances s) current) (Weight e) in
      let s' := relaxEdge current e s in
      if is_visited (visited s) (To e)
      then s' = s ∧ examined current es' s new
      else ∃ st new',
             new = st :: new'
             ∧ trace s' = trace s ++ [st]
             ∧ visited s' = visited s
             ∧ (if newDist <? dist_of (distances s) (To e)
                then Type_ st = StepUpdateDist
                     ∧ distances s' = <[To e := newDist]> (distances s)
                     ∧ previous s' = <[To e := current]> (previous s)
                     ∧ pq s' = heap_Push (pq s)
                                 {| node := To e; priority := newDist; index := 0 |}
                else Type_ st = StepCompare
                     ∧ distances s' = distances s ∧ previous s' = previous s
                     ∧ pq s' = pq s)
             ∧ examined current es' s' new'
  end.

(** One selection of the search: the node taken from the queue, the state
    right after its Select-Node step, that step, and the steps recorded
    until the next selection (or the last step of the trace). *)
Record Round := {
  r_node : string;
  r_state : Search;
  r_select : Step;
  r_steps : list Step
}.

Definition round_trace (rd : Round) : list Step := r_select rd :: r_steps rd.

(** The state once the edges of the selected node have been examined. *)
Definition round_end (g : Graph) (rd : Round) : Search :=
  relaxEdges (r_node rd) (adj g (r_node rd)) (r_state rd).

(** The selections that follow the state [before], one after the other:
    each takes a node that is not yet visited, marks it visited and
    records its Select-Node step, distances and predecessors being as
    they were; when the node is [end_] nothing more is examined and no
    selection follows; otherwise the steps up to the next selection are
    those of the examination of the adjacency list of the node. *)
Fixpoint rounds_ok (g : Graph) (end_ : string) (before : Search) (rds : list Round)
    : Prop :=
  match rds with
  | [] => True
  | rd :: rest =>
      is_visited (visited before) (r_node rd) = false
      ∧ distances (r_state rd) = distances before
      ∧ previous (r_state rd) = previous before
      ∧ visited (r_state rd) = <[r_node rd := true]> (visited before)
      ∧ trace (r_state rd) = trace before ++ [r_select rd]
      ∧ Type_ (r_select rd) = StepSelectNode
      ∧ if decide (r_node rd = end_)
        then r_steps rd = [] ∧ rest = []
        else examined (r_node rd) (adj g (r_node rd)) (r_state rd) (r_steps rd)
             ∧ rounds_ok g end_ (round_end g rd) rest
  end.

End GraphSpec.

(* ===================================================================== *)
(** * What is asked of an AVL tree *)
(* ===================================================================== *)

Module AVLSpec.
Import AVL.

(** Every node has its balance factor in [-1, 1] and stores
    [1 + max (height left) (height right)], nil counting as height 0. *)
Fixpoint avl_ok (t : AVLNode) : Prop :=
  match t with
  | Nil => True
  | Node _ _ h l r =>
      -1 <= getBalance t <= 1
      ∧ h = 1 + Z.max (height l) (height r)
      ∧ avl_ok l ∧ avl_ok r
  end.

(** The length of the longest path from a node down to nil. *)
Fixpoint depth (t : AVLNode) : nat :=
  match t with
  | Nil => O
  | Node _ _ _ l r => S (Nat.max (depth l) (depth r))
  end.

Fixpoint keys (t : AVLNode) : list Z :=
  match t with
  | Nil => []
  | Node _ v _ l r => keys l ++ v :: keys r
  end.

(** Binary-search order, without repeated keys. *)
Fixpoint bst (t : AVLNode) : Prop :=
  match t with
  | Nil => True
  | Node _ v _ l r =>
      Forall (fun x => x < v) (keys l) ∧ Forall (fun x => v < x) (keys r)
      ∧ bst l ∧ bst r
  end.

(** Insert one value after the other. *)
Fixpoint inserts (vs : list Z) (t : AVLTree) : option AVLTree :=
  match vs with
  | [] => Some t
  | v :: vs' =>
      match Insert v t with
      | Some (_, t') => inserts vs' t'
      | None => None
      end
  end.

(** What one recursive [insert] of [v] makes of a subtree [t]: an AVL tree
    again, of the same height or one higher; and when it is higher, the
    old root is still the root and the side [v] went to is the higher one
    (so the caller knows which rotation the key comparison selects). *)
Definition insert_post (t : AVLNode) (v : Z) (t' : AVLNode) : Prop :=
  avl_ok t'
  ∧ (height t' = height t
     ∨ (height t' = height t + 1
        ∧ match t with
          | Nil => True
          | Node i x _ _ _ =>
              ∃ h' l' r', t' = Node i x h' l' r'
                          ∧ ((v < x ∧ height l' = 1 + height r')
                             ∨ (x < v ∧ height r' = 1 + height l'))
          end)).

(** *** Keys, ids and the order of the nodes *)

(** The nodes from left to right, each with its id and its key. *)
Fixpoint nodes (t : AVLNode) : list (Z * Z) :=
  match t with
  | Nil => []
  | Node i v _ l r => nodes l ++ (i, v) :: nodes r
  end.

Definition ids (t : AVLNode) : list Z := map fst (nodes t).

(** [v] put at its place into an increasing list, unless it is there. *)
Fixpoint ins (v : Z) (l : list Z) : list Z :=
  match l with
  | [] => [v]
  | x :: l' =>
      if v <? x then v :: l
      else if x <? v then x :: ins v l'
      else l
  end.

(** What Insert, Search and Delete keep of a tree: balance and stored
    heights, the search order, and ids that are pairwise distinct and
    below the id counter. *)
Definition AVLInv (t : AVLTree) : Prop :=
  avl_ok (Root t) ∧ bst (Root t)
  ∧ NoDup (ids (Root t)) ∧ Forall (fun i => i < nextID t) (ids (Root t)).

(** Runs of Insert and Delete calls, and the set of keys such a run
    leaves: those inserted and not deleted afterwards. *)
Inductive op := OpInsert (v : Z) | OpDelete (v : Z).

Definition apply (o : op) (t : AVLTree) : option AVLTree :=
  match o with
  | OpInsert v => '(_, t') ← Insert v t; Some t'
  | OpDelete v => '(_, t') ← Delete v t; Some t'
  end.

Fixpoint run (ops : list op) (t : AVLTree) : option AVLTree :=
  match ops with
  | [] => Some t
  | o :: ops' => t' ← apply o t; run ops' t'
  end.

Definition stored_after (o : op) (s : gset Z) : gset Z :=
  match o with
  | OpInsert v => {[v]} ∪ s
  | OpDelete v => s ∖ {[v]}
  end.

Definition stored (ops : list op) (s : gset Z) : gset Z :=
  fold_left (fun acc o => stored_after o acc) ops s.

End AVLSpec.

(* ===================================================================== *)
(** * What is asked of a red-black tree, and how the heap holds one *)
(* ===================================================================== *)

Module RBSpec.
Import RB.

(** The tree a heap holds below a pointer: [E] at the sentinel, and at
    address [a] a node of colour [c] and key [v]. *)
Inductive tree :=
| E
| T (c : NodeColor) (l : tree) (a : Z) (v : Z) (r : tree).

Definition rootp (t : tree) : ptr :=
  match t with
  | E => Some nil_addr
  | T _ _ a _ _ => Some a
  end.

Definition color (t : tree) : NodeColor :=
  match t with
  | E => Black
  | T c _ _ _ _ => c
  end.

(** [repr h par t]: in heap [h] the nodes of [t] are linked as [t] says,
    the root of [t] having parent link [par]. *)
Fixpoint repr (h : gmap Z RBNode) (par : ptr) (t : tree) : Prop :=
  match t with
  | E => True
  | T c l a v r =>
      h !! a = Some {| ID := a; Value := v; Color := c;
                       Left := rootp l; Right := rootp r; Parent := par |}
      ∧ repr h (Some a) l ∧ repr h (Some a) r
  end.

(** Addresses and keys, in the order of the snapshot traversal. *)
Fixpoint addrs (t : tree) : list Z :=
  match t with
  | E => []
  | T _ l a _ r => a :: addrs l ++ addrs r
  end.

Fixpoint keys (t : tree) : list Z :=
  match t with
  | E => []
  | T _ l _ v r => v :: keys l ++ keys r
  end.

Fixpoint depth (t : tree) : nat :=
  match t with
  | E => O
  | T _ l _ _ r => S (Nat.max (depth l) (depth r))
  end.

(** The state [st] holds the tree [t]: the sentinel is the black node at
    address -1, the root link points to [t], whose root has the sentinel
    as parent, no node occurs twice, and every node was allocated by this
    tree (its address is below the counter [nextID], which starts at 0). *)
Definition Rep (st : RedBlackTree) (t : tree) : Prop :=
  NIL st = Some nil_addr
  ∧ (∃ n, heap st !! nil_addr = Some n ∧ Color n = Black)
  ∧ 0 <= nextID st
  ∧ Root st = rootp t
  ∧ repr (heap st) (Some nil_addr) t
  ∧ NoDup (addrs t)
  ∧ Forall (fun a => 0 <= a < nextID st) (addrs t).

(** *** The red-black properties *)

(** No red node has a red child. *)
Fixpoint no_red_red (t : tree) : Prop :=
  match t with
  | E => True
  | T c l _ _ r =>
      (c = Red → color l = Black ∧ color r = Black)
      ∧ no_red_red l ∧ no_red_red r
  end.

(** The number of black nodes on each path from the root down to a
    sentinel position, one entry per path. *)
Fixpoint black_counts (t : tree) : list nat :=
  match t with
  | E => [O]
  | T c l _ _ r =>
      map (fun n => match c with Black => S n | Red => n end)
          (black_counts l ++ black_counts r)
  end.

Definition equal_black_paths (t : tree) : Prop :=
  ∃ n, Forall (fun m => m = n) (black_counts t).

(** The root the state points to is black (the sentinel, for an empty tree). *)
Definition root_is_black (st : RedBlackTree) : Prop :=
  ∃ n, load st (Root st) = Some n ∧ Color n = Black.

(** Black height [n]: the inductive reading of [equal_black_paths]. *)
Fixpoint bh (t : tree) (n : nat) : Prop :=
  match t with
  | E => n = O
  | T Black l _ _ r => ∃ m, n = S m ∧ bh l m ∧ bh r m
  | T Red l _ _ r => bh l n ∧ bh r n
  end.

(** *** Trees with a hole *)

Inductive dir := DL | DR.

(** One step of the path from a node up to the root: the parent's colour,
    address and key, on which side of it the path arrives, and the subtree
    on the other side. *)
Record frame := Frame {
  fdir : dir;
  fcol : NodeColor;
  faddr : Z;
  fval : Z;
  fsib : tree
}.

Definition fill (f : frame) (t : tree) : tree :=
  match fdir f with
  | DL => T (fcol f) t (faddr f) (fval f) (fsib f)
  | DR => T (fcol f) (fsib f) (faddr f) (fval f) t
  end.

(** [plug ctx t]: [t] put at the end of the path [ctx] (innermost frame first). *)
Fixpoint plug (ctx : list frame) (t : tree) : tree :=
  match ctx with
  | [] => t
  | f :: rest => plug rest (fill f t)
  end.

(** The parent link of the node in the hole. *)
Definition hole_parent (par : ptr) (ctx : list frame) : ptr :=
  match ctx with
  | [] => par
  | f :: _ => Some (faddr f)
  end.

Definition ctx_addrs (ctx : list frame) : list Z :=
  flat_map (fun f => faddr f :: addrs (fsib f)) ctx.

(** A path along which the red-black properties hold everywhere but
    possibly between the hole and its parent: every sibling subtree is
    red-red free with the black height the hole needs at that level, a red
    frame has a black sibling and a black frame above it. *)
Fixpoint ctx_ok (ctx : list frame) (n : nat) : Prop :=
  match ctx with
  | [] => True
  | f :: rest =>
      no_red_red (fsib f) ∧ bh (fsib f) n
      ∧ match fcol f with
        | Black => ctx_ok rest (S n)
        | Red =>
            color (fsib f) = Black
            ∧ match rest with
              | [] => False
              | g :: _ => fcol g = Black
              end
            ∧ ctx_ok rest n
        end
  end.

(** *** The order of the steps of a case

    Case 3 of insertFixup and its mirror announce themselves with a
    Rebalance step; the text of the announcement tells them apart. *)

Definition case3_text : string := "情况3: 叔节点为黑色，当前节点是左子节点".
Definition case3_mirror_text : string := "情况3(镜像): 叔节点为黑色，当前节点是右子节点".

Definition announces (txt : string) (s : Step) : bool :=
  match Type_ s with
  | StepRebalance => String.eqb (template (Description s)) txt
  | _ => false
  end.

Definition has_type (ty : StepType) (s : Step) : bool := bool_decide (Type_ s = ty).

(** The next two steps of the trace have the types [ty1] and [ty2]. *)
Definition follows (ty1 ty2 : StepType) (l : list Step) : bool :=
  match l with
  | c :: r :: _ => has_type ty1 c && has_type ty2 r
  | _ => false
  end.

(** Each announcement of case 3 is followed at once by the recolouring
    step and then by the rotation of that case. *)
Fixpoint recolor_before_rotate (l : list Step) : bool :=
  match l with
  | [] => true
  | s :: l' =>
      (if announces case3_text s
       then follows StepColorChange StepRotateRight l' else true)
      && (if announces case3_mirror_text s
          then follows StepColorChange StepRotateLeft l' else true)
      && recolor_before_rotate l'
  end.

(** *** States and paths in the proofs *)

(** The state with [new] appended to its trace. *)
Definition add_steps (new : list Step) (st : RedBlackTree) : RedBlackTree :=
  {| Root := Root st; NIL := NIL st; nextID := nextID st;
     steps := steps st ++ new; heap := heap st |}.

(** The step [addStep] records, given the snapshot it takes. *)
Definition mkStep (ty : StepType) (d : Text) (i : option Z)
    (snap : list TreeNodeSnapshot) (hl : list Z) : Step :=
  {| Type_ := ty; Description := d; NodeID := i; TreeState := snap;
     GraphNodes := []; GraphEdges := []; Highlight := hl |}.

(** How the heap holds the frames of a path whose hole is filled by the
    node (or sentinel) at [p]. *)
Fixpoint repr_ctx (h : gmap Z RBNode) (par : ptr) (ctx : list frame) (p : ptr) : Prop :=
  match ctx with
  | [] => True
  | f :: rest =>
      h !! faddr f
      = Some {| ID := faddr f; Value := fval f; Color := fcol f;
                Left := match fdir f with DL => p | DR => rootp (fsib f) end;
                Right := match fdir f with DL => rootp (fsib f) | DR => p end;
                Parent := hole_parent par rest |}
      ∧ repr h (Some (faddr f)) (fsib f)
      ∧ repr_ctx h par rest (Some (faddr f))
  end.

(** A hypothesis kept out of reach of [facts]. *)
Definition keep (P : Prop) : Prop := P.

(** On which side of its parent the descent of Insert leaves the new key. *)
Definition side_ok (value : Z) (ctx : list frame) : Prop :=
  match ctx with
  | [] => True
  | f :: _ => fdir f = if value <? fval f then DL else DR
  end.

(** The node Insert allocates at address [a]. *)
Definition freshNode (a value : Z) : RBNode :=
  {| ID := a; Value := value; Color := Red;
     Left := Some nil_addr; Right := Some nil_addr; Parent := Some nil_addr |}.

(** What holds each time the loop guard is evaluated: the state holds the
    red node [z] at the end of a valid path, and everything is in order
    but possibly the colour of the parent of [z]. *)
Definition FixInv (st : RedBlackTree) (ctx : list frame) (zl : tree) (z zv : Z)
    (zr : tree) (n : nat) : Prop :=
  Rep st (plug ctx (T Red zl z zv zr))
  ∧ no_red_red (T Red zl z zv zr) ∧ bh (T Red zl z zv zr) n ∧ ctx_ok ctx n.

(** The red-black properties of the tree a state holds, in the form the
    proofs carry from one operation to the next. *)
Definition RBInv (st : RedBlackTree) : Prop :=
  ∃ t, Rep st t ∧ color t = Black ∧ no_red_red t ∧ ∃ n, bh t n.

(** Insert one value after the other. *)
Fixpoint inserts (vs : list Z) (st : RedBlackTree) : option RedBlackTree :=
  match vs with
  | [] => Some st
  | v :: vs' =>
      match Insert v st with
      | Some (_, st') => inserts vs' st'
      | None => None
      end
  end.

(** *** The order of the keys *)

(** The keys from left to right. *)
Fixpoint inorder (t : tree) : list Z :=
  match t with
  | E => []
  | T _ l _ v r => inorder l ++ v :: inorder r
  end.

(** The keys of a path that stand before, and after, its hole. *)
Fixpoint lefts (ctx : list frame) : list Z :=
  match ctx with
  | [] => []
  | f :: rest =>
      lefts rest ++ match fdir f with
                    | DL => []
                    | DR => inorder (fsib f) ++ [fval f]
                    end
  end.

Fixpoint rights (ctx : list frame) : list Z :=
  match ctx with
  | [] => []
  | f :: rest =>
      match fdir f with
      | DL => fval f :: inorder (fsib f)
      | DR => []
      end ++ rights rest
  end.

(** Search order, equal keys allowed: the keys from left to right do not
    decrease. *)
Definition ordered (t : tree) : Prop := StronglySorted Z.le (inorder t).

(** A path the descent of Insert takes for [value]: left below a larger
    key, right otherwise. *)
Definition path_ok (value : Z) (ctx : list frame) : Prop :=
  Forall (fun f => fdir f = if value <? fval f then DL else DR) ctx.

(** The state holds a red-black tree whose keys, from left to right, are [l]. *)
Definition Stores (st : RedBlackTree) (l : list Z) : Prop :=
  ∃ t, Rep st t ∧ color t = Black ∧ no_red_red t ∧ (∃ n, bh t n) ∧ inorder t = l.

(** Whether the path the search takes for [value] ends at a node that
    holds it. *)
Fixpoint on_path (value : Z) (t : tree) : bool :=
  match t with
  | E => false
  | T _ l _ v r =>
      if value =? v then true
      else if value <? v then on_path value l else on_path value r
  end.

(** The number of keys in the tree. *)
Definition size (t : tree) : nat := length (inorder t).

(** *** The steps a computation records *)








End RBSpec.

(* ********************************************************************* *)
(** * Part III: what the program does *)
(* ********************************************************************* *)

(* ===================================================================== *)
(** * Properties of the benchmark worker *)
(* ===================================================================== *)

Module BenchmarkFacts.
Import Benchmark BenchmarkSpec.

Lemma emitted_callback r w : emitted (callback r w) = emitted w ++ [r].
Proof. reflexivity. Qed.

(** Whatever the host does, stop signal included, the last thing
    [runSingleBenchmark] hands to the callback is a result marked completed
    with progress 100. *)
Lemma runSingleBenchmark_last h structure operation data w :
  ∃ r, last (emitted (runSingleBenchmark h structure operation data w)) = Some r
       ∧ Completed r = true ∧ Progress r = 100
       ∧ MemoryUsed r
         = uint64 (endMemOf h structure operation data w - startMemOf h w).
Proof.
  unfold runSingleBenchmark, endMemOf, startMemOf, beforeEndMem, sinceMs, now,
    getMemoryUsage.
  cbn [fst snd]. eexists. rewrite emitted_callback, last_snoc.
  split; [reflexivity|]. cbn. auto.
Qed.

(** C3 (the code departs from the claim): a hashmap insert worker over the
    dataset [1; 2; 3] that observes the stop signal at its poll before the
    second element has processed one element of three, and still hands the
    callback a final result with completed = true and progress = 100; it is
    the only result of the run. *)
Theorem stopped_worker_emits_completed :
  let w := runSingleBenchmark (stopFrom 1) "hashmap" "insert" [1; 2; 3] freshWorker in
  stopObserved (stopFrom 1) 1 = true
  ∧ map (fun r => (Structure r, DataSize r, Progress r, Completed r)) (emitted w)
    = [("hashmap", 3, 100, true)].
Proof. vm_compute. split; reflexivity. Qed.

(** C10: the memoryUsed field of the final result is the unsigned 64-bit
    difference endMem - startMem of the two allocator readings; when the
    second reading is the lower one the difference wraps modulo 2^64 to the
    positive value 2^64 - (startMem - endMem). *)
Theorem memoryUsed_is_wrapping_difference h structure operation data w :
  let startMem := startMemOf h w in
  let endMem := endMemOf h structure operation data w in
  ∃ r, last (emitted (runSingleBenchmark h structure operation data w)) = Some r
       ∧ Completed r = true
       ∧ MemoryUsed r = (endMem - startMem) mod 2 ^ 64
       ∧ (startMem <= endMem → MemoryUsed r = endMem - startMem)
       ∧ (endMem < startMem →
          MemoryUsed r = 2 ^ 64 - (startMem - endMem) ∧ 0 < MemoryUsed r).
Proof.
  intros startMem endMem.
  destruct (runSingleBenchmark_last h structure operation data w)
    as (r & Hl & Hc & _ & Hm).
  exists r. fold startMem endMem in Hm. unfold uint64 in Hm.
  assert (Hs : 0 <= startMem < 2 ^ 64).
  { unfold startMem, startMemOf, getMemoryUsage, uint64. cbn [fst].
    apply Z.mod_pos_bound. lia. }
  assert (He : 0 <= endMem < 2 ^ 64).
  { unfold endMem, endMemOf, getMemoryUsage, uint64. cbn [fst].
    apply Z.mod_pos_bound. lia. }
  repeat split; auto.
  - intros Hle. rewrite Hm. apply Z.mod_small. lia.
  - rewrite Hm.
    replace (endMem - startMem) with ((2 ^ 64 - (startMem - endMem)) + (-1) * 2 ^ 64) by lia.
    rewrite Z.mod_add by lia. apply Z.mod_small. lia.
  - rewrite Hm.
    replace (endMem - startMem) with ((2 ^ 64 - (startMem - endMem)) + (-1) * 2 ^ 64) by lia.
    rewrite Z.mod_add by lia. rewrite Z.mod_small by lia. lia.
Qed.

Example memoryUsed_after_reclaim :
  map MemoryUsed (emitted (runSingleBenchmark shrinkingHost "rbtree" "insert" [7] freshWorker))
  = [18446744073709551016].
Proof. vm_compute. reflexivity. Qed.

End BenchmarkFacts.

(* ===================================================================== *)
(** * The sorted slice and the progress reports of the workers *)
(* ===================================================================== *)

Module BenchmarkLoopFacts.
Import Benchmark BenchmarkSpec BenchmarkFacts.

(** ** The sorted slice of the B-tree benchmark *)

Lemma sorted_le_lookup (arr : list Z) :
  StronglySorted Z.le arr →
  ∀ i j x y, (i ≤ j)%nat → arr !! i = Some x → arr !! j = Some y → x <= y.
Proof.
  induction 1 as [|a arr Hs IH Ha]; intros i j x y Hij Hi Hj; [inversion Hi|].
  destruct i as [|i], j as [|j]; cbn in *.
  - injection Hi as <-. injection Hj as <-. lia.
  - injection Hi as <-. rewrite Forall_forall in Ha. apply Ha.
    eapply list_elem_of_lookup_2; eauto.
  - lia.
  - eapply IH; [|eauto..]. lia.
Qed.

(** What the loop of [binarySearchInsertPos] keeps: everything left of
    [left] is smaller than the target, everything from [right] on is not. *)
Lemma binarySearchInsertPos_go_spec (arr : list Z) target :
  StronglySorted Z.le arr →
  ∀ fuel left right,
    (left ≤ right ≤ length arr)%nat → (right - left < fuel)%nat →
    (∀ i x, (i < left)%nat → arr !! i = Some x → x < target) →
    (∀ i x, (right ≤ i)%nat → arr !! i = Some x → target <= x) →
    let p := binarySearchInsertPos_go fuel arr target left right in
    (p ≤ length arr)%nat
    ∧ (∀ i x, (i < p)%nat → arr !! i = Some x → x < target)
    ∧ (∀ i x, (p ≤ i)%nat → arr !! i = Some x → target <= x).
Proof.
  intros Hs. induction fuel as [|fuel IH]; intros left right Hlr Hf Hlo Hhi; [lia|].
  cbn [binarySearchInsertPos_go].
  destruct (Nat.ltb_spec left right) as [Hlt | Hge].
  - pose proof (Nat.div_mod_eq (left + right) 2) as Hdm.
    pose proof (Nat.mod_upper_bound (left + right) 2 ltac:(lia)) as Hmod.
    set (mid := ((left + right) / 2)%nat) in *.
    assert (Hmid : (left ≤ mid < right)%nat) by lia.
    destruct (lookup_lt_is_Some_2 arr mid ltac:(lia)) as (xm & Hxm).
    rewrite Hxm. change (default 0 (Some xm)) with xm.
    destruct (Z.ltb_spec xm target) as [Hsm | Hbig].
    + apply IH; [lia | lia | | exact Hhi].
      intros i x Hi Hx. pose proof (sorted_le_lookup arr Hs i mid x xm ltac:(lia) Hx Hxm). lia.
    + apply IH; [lia | lia | exact Hlo |].
      intros i x Hi Hx. pose proof (sorted_le_lookup arr Hs mid i xm x ltac:(lia) Hxm Hx). lia.
  - assert (left = right) by lia. subst right. cbn zeta.
    split; [lia|]. split; [exact Hlo | exact Hhi].
Qed.

Lemma binarySearchInsertPos_spec (arr : list Z) target :
  StronglySorted Z.le arr →
  let p := binarySearchInsertPos arr target in
  (p ≤ length arr)%nat
  ∧ Forall (fun x => x < target) (take p arr)
  ∧ Forall (fun x => target <= x) (drop p arr).
Proof.
  intros Hs p.
  destruct (binarySearchInsertPos_go_spec arr target Hs (S (length arr)) 0 (length arr))
    as (Hp & Hlo & Hhi); try lia.
  { intros i x Hi Hx. apply lookup_lt_Some in Hx. lia. }
  fold (binarySearchInsertPos arr target) in Hp, Hlo, Hhi. fold p in Hp, Hlo, Hhi.
  split; [exact Hp|]. split.
  - apply Forall_forall. intros x Hx. apply list_elem_of_lookup in Hx as (i & Hi).
    pose proof (lookup_lt_Some _ _ _ Hi) as Hlen. rewrite length_take in Hlen.
    rewrite lookup_take_lt in Hi by lia. apply (Hlo i); [lia | exact Hi].
  - apply Forall_forall. intros x Hx. apply list_elem_of_lookup in Hx as (i & Hi).
    rewrite lookup_drop in Hi. apply (Hhi (p + i)%nat); [lia | exact Hi].
Qed.

(** The loop reads inside the slice only and ends within its bound: the
    checked run returns what the loop returns. *)
Lemma binarySearchInsertPos_run_eq (arr : list Z) target :
  ∀ fuel left right,
    (left ≤ right ≤ length arr)%nat → (right - left < fuel)%nat →
    binarySearchInsertPos_run fuel arr target left right
    = Some (binarySearchInsertPos_go fuel arr target left right)
    ∧ (left ≤ binarySearchInsertPos_go fuel arr target left right ≤ right)%nat.
Proof.
  induction fuel as [|fuel IH]; intros left right Hlr Hf; [lia|].
  cbn [binarySearchInsertPos_run binarySearchInsertPos_go].
  destruct (Nat.ltb_spec left right) as [Hlt | Hge]; [|split; [reflexivity | lia]].
  pose proof (Nat.div_mod_eq (left + right) 2) as Hdm.
  pose proof (Nat.mod_upper_bound (left + right) 2 ltac:(lia)) as Hmod.
  set (mid := ((left + right) / 2)%nat) in *.
  assert (Hmid : (left ≤ mid < right)%nat) by lia.
  destruct (lookup_lt_is_Some_2 arr mid ltac:(lia)) as (xm & Hxm).
  unfold at_index. destruct (Z.ltb_spec (Z.of_nat mid) 0) as [Hneg | _]; [lia|].
  rewrite Nat2Z.id, Hxm. cbn [mbind option_bind]. change (default 0 (Some xm)) with xm.
  destruct (xm <? target).
  - destruct (IH (S mid) right) as (-> & Hb); [lia | lia |]. split; [reflexivity | lia].
  - destruct (IH left mid) as (-> & Hb); [lia | lia |]. split; [reflexivity | lia].
Qed.

Lemma binarySearchInsertPos_checked_eq (arr : list Z) target :
  binarySearchInsertPos_checked arr target = Some (binarySearchInsertPos arr target)
  ∧ (binarySearchInsertPos arr target ≤ length arr)%nat.
Proof.
  unfold binarySearchInsertPos_checked, binarySearchInsertPos.
  destruct (binarySearchInsertPos_run_eq arr target (S (length arr)) 0 (length arr))
    as (H & Hb); [lia | lia |].
  split; [exact H | lia].
Qed.

Lemma sorted_le_app_cons (l1 l2 : list Z) x :
  StronglySorted Z.le l1 → StronglySorted Z.le l2 →
  Forall (fun y => y <= x) l1 → Forall (fun y => x <= y) l2 →
  StronglySorted Z.le (l1 ++ x :: l2).
Proof.
  intros H1 H2 Hl Hr. induction H1 as [|a l1 Hs IH Ha]; cbn [app].
  - now constructor.
  - inversion Hl; subst. constructor; [now apply IH|].
    rewrite Forall_app, Forall_cons. repeat split; auto.
    eapply Forall_impl; [exact Hr|]. cbn. intros; lia.
Qed.

Lemma sorted_le_take_drop (l : list Z) n :
  StronglySorted Z.le l →
  StronglySorted Z.le (take n l) ∧ StronglySorted Z.le (drop n l).
Proof.
  intros H. revert n. induction H as [|a l Hs IH Ha]; intros n.
  - rewrite take_nil, drop_nil. split; constructor.
  - destruct n as [|n]; cbn.
    + split; [constructor | now constructor].
    + destruct (IH n) as (Ht & Hd). split; [|exact Hd].
      constructor; [exact Ht|]. rewrite Forall_forall in *. intros x Hx.
      apply Ha. apply elem_of_take in Hx as (i & Hi & _). eapply list_elem_of_lookup_2; eauto.
Qed.

Lemma btreeInsert_spec v (tree : list Z) :
  StronglySorted Z.le tree →
  StronglySorted Z.le (btreeInsert v tree) ∧ btreeInsert v tree ≡ₚ v :: tree.
Proof.
  intros Hs. unfold btreeInsert.
  destruct (binarySearchInsertPos_spec tree v Hs) as (Hp & Hlo & Hhi).
  destruct (sorted_le_take_drop tree (binarySearchInsertPos tree v) Hs) as (Ht & Hd).
  split.
  - apply sorted_le_app_cons; auto.
    eapply Forall_impl; [exact Hlo|]. cbn. intros; lia.
  - rewrite <- Permutation_middle. constructor. now rewrite take_drop.
Qed.

(** ** [binarySearch] *)

Lemma go_div_2 a : 0 <= a → 2 * go_div a 2 <= a < 2 * go_div a 2 + 2.
Proof.
  intros Ha. unfold go_div. rewrite Z.quot_div_nonneg by lia.
  pose proof (Z.div_mod a 2 ltac:(lia)). pose proof (Z.mod_pos_bound a 2 ltac:(lia)). lia.
Qed.

(** The loop returns, with -1 or with an index in the window at which the
    target stands; in a sorted slice it returns -1 only when the target is
    nowhere in the window. *)
Lemma binarySearch_go_spec (arr : list Z) target :
  ∀ fuel left right,
    0 <= left <= right + 1 → right < Z.of_nat (length arr) →
    right - left < Z.of_nat fuel - 1 →
    ∃ r, binarySearch_go fuel arr target left right = Some r
      ∧ ((left <= r <= right ∧ arr !! Z.to_nat r = Some target)
         ∨ (r = -1
            ∧ (StronglySorted Z.le arr →
               ∀ i, left <= Z.of_nat i <= right → arr !! i ≠ Some target))).
Proof.
  induction fuel as [|fuel IH]; intros left right Hl Hr Hf; [lia|].
  cbn [binarySearch_go].
  destruct (Z.leb_spec left right) as [Hle | Hgt].
  - pose proof (go_div_2 (left + right) ltac:(lia)) as Hmid.
    set (mid := go_div (left + right) 2) in *.
    destruct (lookup_lt_is_Some_2 arr (Z.to_nat mid) ltac:(lia)) as (xm & Hxm).
    unfold at_index. destruct (Z.ltb_spec mid 0) as [Hneg | _]; [lia|].
    rewrite Hxm. cbn [mbind option_bind].
    destruct (Z.eqb_spec xm target) as [-> | Hne].
    + exists mid. split; [reflexivity|]. left. split; [lia | exact Hxm].
    + destruct (Z.ltb_spec xm target) as [Hsm | Hbig].
      * destruct (IH (mid + 1) right) as (r & -> & Hres); [lia | lia | lia |].
        exists r. split; [reflexivity|].
        destruct Hres as [(Hwin & Hat) | (-> & Hno)]; [left; split; [lia | exact Hat]|].
        right. split; [reflexivity|]. intros Hs i Hi Hi'.
        destruct (Z_lt_le_dec mid (Z.of_nat i)); [apply (Hno Hs i); [lia | exact Hi']|].
        pose proof (sorted_le_lookup arr Hs i (Z.to_nat mid) target xm ltac:(lia) Hi' Hxm).
        lia.
      * destruct (IH left (mid - 1)) as (r & -> & Hres); [lia | lia | lia |].
        exists r. split; [reflexivity|].
        destruct Hres as [(Hwin & Hat) | (-> & Hno)]; [left; split; [lia | exact Hat]|].
        right. split; [reflexivity|]. intros Hs i Hi Hi'.
        destruct (Z_lt_le_dec (Z.of_nat i) mid); [apply (Hno Hs i); [lia | exact Hi']|].
        pose proof (sorted_le_lookup arr Hs (Z.to_nat mid) i xm target ltac:(lia) Hxm Hi').
        lia.
  - exists (-1). split; [reflexivity|]. right. split; [reflexivity|]. intros _ i Hi. lia.
Qed.

Lemma binarySearch_spec (arr : list Z) target :
  ∃ r, binarySearch arr target = Some r
    ∧ ((0 <= r < Z.of_nat (length arr) ∧ arr !! Z.to_nat r = Some target)
       ∨ (r = -1 ∧ (StronglySorted Z.le arr → target ∉ arr))).
Proof.
  unfold binarySearch.
  destruct (binarySearch_go_spec arr target (S (length arr)) 0 (Z.of_nat (length arr) - 1))
    as (r & Hrun & Hres); [lia | lia | lia |].
  exists r. split; [exact Hrun|].
  destruct Hres as [(Hwin & Hat) | (-> & Hno)]; [left; split; [lia | exact Hat]|].
  right. split; [reflexivity|]. intros Hs Hin.
  apply list_elem_of_lookup in Hin as (i & Hi).
  pose proof (lookup_lt_Some _ _ _ Hi). apply (Hno Hs i); [lia | exact Hi].
Qed.

(** ** The results of a run *)

Lemma quot_progress i len :
  0 <= i < len → 0 <= go_div (i * 100) len < 100.
Proof.
  intros Hi. unfold go_div. rewrite Z.quot_div_nonneg by lia.
  split; [apply Z.div_pos; lia|]. apply Z.div_lt_upper_bound; lia.
Qed.

Lemma quot_progress_mono i j len :
  0 <= i <= j → 0 < len → go_div (i * 100) len <= go_div (j * 100) len.
Proof.
  intros Hi Hl. unfold go_div. rewrite !Z.quot_div_nonneg by lia.
  apply Z.div_le_mono; lia.
Qed.

Lemma is_report_weaken structure operation len i j r :
  (i ≤ j)%nat → 0 < len →
  is_report structure operation len j r → is_report structure operation len i r.
Proof.
  intros Hij Hl (H1 & H2 & H3 & H4 & H5). repeat split; try tauto.
  pose proof (quot_progress_mono (Z.of_nat i) (Z.of_nat j) len ltac:(lia) Hl). lia.
Qed.

Lemma report_emitted h structure operation len startTime interval i w :
  Z.of_nat i < len →
  emitted (report h structure operation len startTime interval i w) = emitted w
  ∨ ∃ r, emitted (report h structure operation len startTime interval i w) = emitted w ++ [r]
         ∧ is_report structure operation len i r
         ∧ Progress r = go_div (Z.of_nat i * 100) len
         ∧ (0 < i)%nat.
Proof.
  intros Hi. unfold report.
  destruct (Z.ltb_spec 0 (Z.of_nat i)) as [Hpos | Hz]; [|now left].
  destruct (go_mod (Z.of_nat i) interval =? 0); [|now left].
  right. unfold sinceMs, now, getMemoryUsage, callback. cbn.
  eexists. split; [reflexivity|].
  pose proof (quot_progress (Z.of_nat i) len ltac:(lia)).
  split; [|split; [reflexivity | lia]]. repeat split; cbn; lia.
Qed.

Section LoopFacts.
Context {store : Type} (ins : Z → store → store).
Context (h : Host) (structure operation : string) (len : Z)
        (startTime : Q) (interval : Z).

Lemma loop_emitted : ∀ rest i m w,
  Z.of_nat i + Z.of_nat (length rest) = len →
  ∃ reports,
    emitted (loop ins h structure operation len startTime interval i rest m w)
    = emitted w ++ reports
    ∧ Forall (is_report structure operation len i) reports
    ∧ StronglySorted Z.le (map Progress reports)
    ∧ (length reports ≤ length rest)%nat
    ∧ (i = O → length reports < Nat.max 1 (length rest))%nat.
Proof.
  induction rest as [|v rest IH]; intros i m w Hlen.
  - exists []. cbn [loop length]. rewrite app_nil_r. repeat split; try lia; constructor.
  - cbn [loop]. destruct (stopObserved h i).
    { exists []. cbn [length]. rewrite app_nil_r. repeat split; try lia; constructor. }
    cbn [length] in Hlen.
    match goal with
    | |- context [loop _ _ _ _ _ _ _ (S i) rest ?m' ?w'] =>
        destruct (IH (S i) m' w' ltac:(lia)) as (reports & Hem & Hall & Hsorted & Hcount & _)
    end.
    rewrite Hem.
    assert (Hall' : Forall (is_report structure operation len i) reports).
    { eapply Forall_impl; [exact Hall|]. intros r. apply is_report_weaken; lia. }
    destruct (report_emitted h structure operation len startTime interval i w ltac:(lia))
      as [-> | (r & -> & Hr & Hpr & Hp)].
    + exists reports. split; [reflexivity|]. split; [exact Hall'|].
      split; [exact Hsorted|]. cbn [length]. split; [lia|]. intros _. lia.
    + exists (r :: reports). rewrite <- app_assoc. split; [reflexivity|].
      split; [constructor; assumption|]. split.
      * cbn [map]. constructor; [exact Hsorted|].
        apply Forall_fmap. eapply Forall_impl; [exact Hall|].
        intros r' (_ & _ & _ & _ & Hpr'). cbn. rewrite Hpr.
        pose proof (quot_progress_mono (Z.of_nat i) (Z.of_nat (S i)) len ltac:(lia) ltac:(lia)).
        lia.
      * cbn [length]. split; [lia|]. intros ->. lia.
Qed.
End LoopFacts.

Lemma now_emitted h w : emitted (now h w).2 = emitted w.
Proof. reflexivity. Qed.

Lemma runStructure_emitted h structure operation data w :
  ∃ reports,
    emitted (runStructure h structure operation data (reportIntervalOf data) w)
    = emitted w ++ reports
    ∧ Forall (is_report structure operation (Z.of_nat (length data)) 0) reports
    ∧ StronglySorted Z.le (map Progress reports)
    ∧ (length reports < Nat.max 1 (length data))%nat.
Proof.
  unfold runStructure.
  destruct (String.eqb_spec structure "hashmap") as [-> | _];
    [|destruct (String.eqb_spec structure "btree") as [-> | _];
      [|destruct (String.eqb_spec structure "rbtree") as [-> | _];
        [|destruct (String.eqb_spec structure "avltree") as [-> | _]]]].
  5: { exists []. cbn [length]. rewrite app_nil_r. repeat split; try lia; constructor. }
  all: unfold benchmarkHashMap, benchmarkBTree, benchmarkRBTree, benchmarkAVLTree.
  all: destruct (now h w) as [startTime w0] eqn:E.
  all: assert (Hw0 : emitted w0 = emitted w)
         by (pose proof (now_emitted h w) as X; rewrite E in X; exact X).
  all: match goal with
       | |- context [loop ?ins ?hh ?st ?op ?len ?stt ?ri O ?dd ?m ?ww] =>
           destruct (loop_emitted ins hh st op len stt ri dd O m ww ltac:(lia))
             as (reports & Hem & Hall & Hs & _ & Hc)
       end.
  all: exists reports; rewrite Hem, Hw0; repeat split; auto.
Qed.

Lemma runSingleBenchmark_emitted h structure operation data w :
  ∃ reports final,
    emitted (runSingleBenchmark h structure operation data w)
    = emitted w ++ reports ++ [final]
    ∧ Structure final = structure ∧ Operation final = operation
    ∧ DataSize final = Z.of_nat (length data)
    ∧ Completed final = true ∧ Progress final = 100
    ∧ Forall (is_report structure operation (Z.of_nat (length data)) 0) reports
    ∧ StronglySorted Z.le (map Progress reports)
    ∧ (length reports < Nat.max 1 (length data))%nat.
Proof.
  unfold runSingleBenchmark.
  destruct (getMemoryUsage h w) as [startMem w1] eqn:E1.
  destruct (now h w1) as [startTime w2] eqn:E2.
  assert (Hw2 : emitted w2 = emitted w).
  { pose proof (now_emitted h w1) as X. rewrite E2 in X. cbn [snd] in X. rewrite X.
    unfold getMemoryUsage in E1. injection E1 as _ <-. reflexivity. }
  destruct (runStructure_emitted h structure operation data w2)
    as (reports & Hem & Hall & Hs & Hc).
  destruct (getMemoryUsage h (runStructure h structure operation data
                                 (reportIntervalOf data) w2)) as [endMem w4] eqn:E4.
  destruct (sinceMs h startTime w4) as [duration w5] eqn:E5.
  assert (Hw5 : emitted w5 = emitted w ++ reports).
  { unfold sinceMs, now in E5. injection E5 as _ <-. cbn [emitted].
    unfold getMemoryUsage in E4. injection E4 as _ <-. cbn [emitted].
    rewrite Hem, Hw2. reflexivity. }
  eexists reports, _. rewrite emitted_callback, Hw5, <- app_assoc.
  split; [reflexivity|]. cbn. repeat split; auto.
Qed.

(** ** What a user of the runner can rely on *)

(** X7: [binarySearchInsertPos] returns on every slice, reading inside
    the slice only, a position in the slice (its length included); on a
    sorted slice every element before this position is smaller than the
    target and no element from it on is. *)
Theorem binarySearchInsertPos_is_lower_bound (arr : list Z) (target : Z) :
  let p := binarySearchInsertPos arr target in
  binarySearchInsertPos_checked arr target = Some p
  ∧ (p ≤ length arr)%nat
  ∧ (StronglySorted Z.le arr →
     Forall (fun x => x < target) (take p arr)
     ∧ Forall (fun x => target <= x) (drop p arr)).
Proof.
  intros p. destruct (binarySearchInsertPos_checked_eq arr target) as (Hrun & Hp).
  split; [exact Hrun|]. split; [exact Hp|].
  intros Hs. exact (proj2 (binarySearchInsertPos_spec arr target Hs)).
Qed.

(** X8: the insert of the B-tree benchmark (find the position, grow the
    slice by one, shift the tail, write the value) turns a sorted slice
    into a sorted slice that holds the old elements and the new value; the
    position it writes at lies in the slice, its length included. *)
Theorem btree_insert_keeps_slice_sorted (v : Z) (tree : list Z) :
  StronglySorted Z.le tree →
  (binarySearchInsertPos tree v ≤ length tree)%nat
  ∧ StronglySorted Z.le (btreeInsert v tree) ∧ btreeInsert v tree ≡ₚ v :: tree.
Proof.
  intros Hs. split; [exact (proj2 (binarySearchInsertPos_checked_eq tree v))|].
  exact (btreeInsert_spec v tree Hs).
Qed.

Lemma btree_insert_witness :
  btreeInsert 5 [1; 3; 7] = [1; 3; 5; 7]
  ∧ StronglySorted Z.le (btreeInsert 5 [1; 3; 7]).
Proof.
  split; [reflexivity|].
  refine (proj1 (proj2 (btree_insert_keeps_slice_sorted 5 [1; 3; 7] _))).
  repeat constructor; lia.
Defined.

(** X9: [binarySearch] returns on every slice, reading inside the slice
    only; what it returns is either an index of the slice at which the
    target stands, or -1, and on a sorted slice it returns -1 only when
    the target is not in the slice. *)
Theorem binary_search_finds_target (arr : list Z) (target : Z) :
  ∃ r, binarySearch arr target = Some r
    ∧ ((0 <= r < Z.of_nat (length arr) ∧ arr !! Z.to_nat r = Some target)
       ∨ (r = -1 ∧ (StronglySorted Z.le arr → target ∉ arr))).
Proof. exact (binarySearch_spec arr target). Qed.

(** X10: whatever the host does (stop signal, clock, allocator) and
    whatever the structure name, a worker hands the callback a run of
    progress reports followed by exactly one final result.  The final
    result is marked completed with progress 100; each report is marked
    not completed, has a progress value from 0 to 99, and the progress
    values do not decrease; all of them name the structure, the operation
    and the dataset size of the run; there are fewer reports than dataset
    elements. *)
Theorem worker_results_shape h structure operation data w :
  ∃ reports final,
    emitted (runSingleBenchmark h structure operation data w)
    = emitted w ++ reports ++ [final]
    ∧ Structure final = structure ∧ Operation final = operation
    ∧ DataSize final = Z.of_nat (length data)
    ∧ Completed final = true ∧ Progress final = 100
    ∧ Forall (fun r => Structure r = structure ∧ Operation r = operation
                       ∧ DataSize r = Z.of_nat (length data)
                       ∧ Completed r = false ∧ 0 <= Progress r < 100) reports
    ∧ StronglySorted Z.le (map Progress reports)
    ∧ (length reports < Nat.max 1 (length data))%nat.
Proof.
  destruct (runSingleBenchmark_emitted h structure operation data w)
    as (reports & final & Hem & H1 & H2 & H3 & H4 & H5 & Hall & Hs & Hc).
  exists reports, final.
  split; [exact Hem|]. split; [exact H1|]. split; [exact H2|]. split; [exact H3|].
  split; [exact H4|]. split; [exact H5|]. split; [|split; [exact Hs | exact Hc]].
  eapply Forall_impl; [exact Hall|]. intros r (? & ? & ? & ? & Hp).
  assert (Hz : go_div (Z.of_nat 0 * 100) (Z.of_nat (length data)) = 0)
    by (unfold go_div; change (Z.of_nat 0 * 100) with 0;
        destruct (Z.of_nat (length data)); reflexivity).
  rewrite Hz in Hp. repeat split; auto; lia.
Qed.

End BenchmarkLoopFacts.

(* ===================================================================== *)
(** * Properties of the traced Dijkstra search *)
(* ===================================================================== *)

Module GraphFacts.
Import Graph GraphSpec.

Lemma trace_emit ty d path e s :
  ∃ st, trace (emit ty d path e s) = trace s ++ [st]
        ∧ Type_ st = ty ∧ Description st = d.
Proof. unfold trace, emit, addStep. cbn. eexists. split; [reflexivity|]. auto. Qed.

Lemma relaxEdges_cons current e es s :
  relaxEdges current (e :: es) s = relaxEdges current es (relaxEdge current e s).
Proof. reflexivity. Qed.

(** One edge to a node that is not yet visited: exactly one step is
    recorded, an Update-Distance step together with the new distance, the
    predecessor link and a push of the neighbour when the new tentative
    distance is smaller, and a Compare step that changes nothing else
    when it is not. *)
Lemma relaxEdge_unvisited_emits_one_step current edge s :
  is_visited (visited s) (To edge) = false →
  let newDist := int_add (dist_of (distances s) current) (Weight edge) in
  let s' := relaxEdge current edge s in
  one_step_per_edge current edge s
  ∧ (newDist < dist_of (distances s) (To edge) →
       distances s' = <[To edge := newDist]> (distances s)
       ∧ previous s' = <[To edge := current]> (previous s)
       ∧ pq s' = heap_Push (pq s) {| node := To edge; priority := newDist; index := 0 |})
  ∧ (¬ newDist < dist_of (distances s) (To edge) →
       distances s' = distances s ∧ previous s' = previous s ∧ pq s' = pq s).
Proof.
  intros Hv newDist s'. unfold one_step_per_edge. fold newDist.
  unfold s', relaxEdge. rewrite Hv. fold newDist.
  destruct (Z.ltb_spec newDist (dist_of (distances s) (To edge))) as [Hlt | Hge].
  - split; [|split].
    + match goal with |- context [emit ?ty ?d ?p ?e ?x] =>
        destruct (trace_emit ty d p e x) as (st & Ht & Hty & _) end.
      exists st. split; [exact Ht|]. split; [auto | lia].
    + intros _. cbn. auto.
    + lia.
  - split; [|split].
    + match goal with |- context [emit ?ty ?d ?p ?e ?x] =>
        destruct (trace_emit ty d p e x) as (st & Ht & Hty & _) end.
      exists st. split; [exact Ht|]. split; [lia | auto].
    + lia.
    + intros _. cbn. auto.
Qed.

(** An edge whose other end is already visited is passed over: no step, no
    change. *)
Lemma relaxEdge_visited_silent current edge s :
  is_visited (visited s) (To edge) = true → relaxEdge current edge s = s.
Proof. intros Hv. unfold relaxEdge. now rewrite Hv. Qed.

(** C5 as stated fails: in the scenario, with C just selected, the first
    edge examined out of C leads back to the visited node A; it is passed
    over without any step, although its new tentative distance 4 does not
    improve A's distance 0, for which the claim promises a Compare step. *)
Lemma visited_edge_emits_no_step :
  ∃ s, afterSelectC = Some s
       ∧ head (adj (gr s) "C") = Some {| To := "A"; Weight := 2 |}
       ∧ last (kinds (trace s)) = Some StepSelectNode
       ∧ trace (relaxEdge "C" {| To := "A"; Weight := 2 |} s) = trace s
       ∧ ¬ one_step_per_edge "C" {| To := "A"; Weight := 2 |} s.
Proof.
  destruct afterSelectC as [s|] eqn:E; [|vm_compute in E; discriminate].
  exists s. split; [reflexivity|].
  assert (Hv : is_visited (visited s) "A" = true).
  { vm_compute in E. injection E as <-. vm_compute. reflexivity. }
  assert (Hr : relaxEdge "C" {| To := "A"; Weight := 2 |} s = s)
    by (apply relaxEdge_visited_silent; exact Hv).
  split; [|split; [|split]].
  - vm_compute in E. injection E as <-. vm_compute. reflexivity.
  - vm_compute in E. injection E as <-. vm_compute. reflexivity.
  - now rewrite Hr.
  - intros (st & Ht & _). rewrite Hr in Ht.
    apply (f_equal (@length Step)) in Ht. rewrite length_app in Ht. cbn in Ht. lia.
Qed.

Lemma relaxEdge_first_edge_example :
  let s := initSearch "A" (scenario 0 0 0 0 0 0 0 0) in
  is_visited (visited s) "B" = false
  ∧ one_step_per_edge "A" {| To := "B"; Weight := 4 |} s.
Proof.
  split; [reflexivity|].
  apply (relaxEdge_unvisited_emits_one_step "A" {| To := "B"; Weight := 4 |}
           (initSearch "A" (scenario 0 0 0 0 0 0 0 0))).
  reflexivity.
Defined.

(** C8: on the scenario graph Dijkstra(A, D) returns a success result
    reporting distance 8, and its last step is the Complete step, carrying
    the path [A, C, B, D] and marking exactly these nodes and the edges
    between them as on the path. *)
Theorem dijkstra_scenario xa ya xb yb xc yc xd yd :
  ∃ res g' complete,
    Dijkstra "A" "D" (scenario xa ya xb yb xc yc xd yd) = Some (res, g')
    ∧ Success res = true
    ∧ Message res = Some (Sprintf "最短路径距离: %d" [AInt 8])
    ∧ last (Steps res) = Some complete
    ∧ Type_ complete = StepComplete
    ∧ count_occ StepType_eq_dec (kinds (Steps res)) StepComplete = 1%nat
    ∧ Description complete
      = Sprintf "找到最短路径: %v, 总距离: %d" [AStrs ["A"; "C"; "B"; "D"]; AInt 8]
    ∧ map gnID (filter (fun n => gnInPath n = true) (GraphNodes complete))
        ≡ₚ ["A"; "C"; "B"; "D"]
    ∧ map (fun n => (gnID n, gnDistance n)) (GraphNodes complete)
        ≡ₚ [("A", Some 0); ("B", Some 3); ("C", Some 2); ("D", Some 8)].
Proof.
  destruct (Dijkstra "A" "D" (scenario xa ya xb yb xc yc xd yd)) as [[res g']|] eqn:E;
    [|vm_compute in E; discriminate].
  vm_compute in E. injection E as <- <-.
  do 3 eexists. split; [reflexivity|].
  split; [reflexivity|]. split; [reflexivity|]. split; [reflexivity|].
  split; [reflexivity|]. split; [reflexivity|]. split; [reflexivity|].
  split.
  - vm_compute. apply perm_swap.
  - vm_compute. etransitivity; [apply perm_swap|].
    apply perm_skip, perm_swap.
Qed.

End GraphFacts.

(* ===================================================================== *)
(** * The search as a whole: termination, reported walk, reachability *)
(* ===================================================================== *)

Module GraphSearchFacts.
Import Graph GraphSpec GraphFacts.

(** ** The queue under container/heap *)

Lemma length_Swap pq i j : length (Swap pq i j) = length pq.
Proof.
  unfold Swap. destruct (pq !! i), (pq !! j); try reflexivity.
  etransitivity; [apply length_insert | apply length_insert].
Qed.

Lemma length_up fuel : ∀ pq j, length (up fuel pq j) = length pq.
Proof.
  induction fuel as [|fuel IH]; intros pq j; cbn [up]; [reflexivity|].
  destruct (_ || _); [reflexivity|]. now rewrite IH, length_Swap.
Qed.

Lemma length_down fuel : ∀ pq i n, length (down fuel pq i n) = length pq.
Proof.
  induction fuel as [|fuel IH]; intros pq i n; cbn [down]; [reflexivity|].
  destruct (_ <=? _)%nat; [reflexivity|].
  destruct (negb _); [reflexivity|]. now rewrite IH, length_Swap.
Qed.

Lemma length_heap_Push pq x : length (heap_Push pq x) = S (length pq).
Proof. unfold heap_Push. rewrite length_up, length_app. cbn. lia. Qed.

Lemma heap_Pop_cons pq :
  pq ≠ [] →
  ∃ it pq', heap_Pop pq = Some (it, pq') ∧ S (length pq') = length pq.
Proof.
  intros Hne. unfold heap_Pop. destruct pq as [|a pq]; [congruence|].
  set (n := (length (a :: pq) - 1)%nat).
  set (pq1 := down (S n) (Swap (a :: pq) 0 n) 0 n).
  assert (Hlen : length pq1 = S n).
  { unfold pq1. rewrite length_down, length_Swap. cbn. unfold n. cbn. lia. }
  destruct (last pq1) as [item|] eqn:Hlast.
  - eexists _, _. split; [reflexivity|]. rewrite length_take, Hlen. cbn. unfold n. cbn. lia.
  - apply last_None in Hlast. rewrite Hlast in Hlen. discriminate.
Qed.

(** What holds of the node of every entry goes through the heap operations. *)
Section Entries.
Variable P : string → Prop.

Lemma Swap_entries (pq : PriorityQueue) i j :
  Forall (fun it => P (node it)) pq →
  Forall (fun it => P (node it)) (Swap pq i j).
Proof.
  unfold Swap. intros H.
  destruct (pq !! i) as [a|] eqn:Ha, (pq !! j) as [b|] eqn:Hb; try exact H.
  apply Forall_insert; [apply Forall_insert; [exact H|]|]; cbn.
  - exact (Forall_lookup_1 _ _ _ _ H Hb).
  - exact (Forall_lookup_1 _ _ _ _ H Ha).
Qed.

Lemma up_entries fuel : ∀ (pq : PriorityQueue) j,
  Forall (fun it => P (node it)) pq →
  Forall (fun it => P (node it)) (up fuel pq j).
Proof.
  induction fuel as [|fuel IH]; intros pq j H; cbn [up]; [exact H|].
  destruct (_ || _); [exact H|]. apply IH, Swap_entries, H.
Qed.

Lemma down_entries fuel : ∀ (pq : PriorityQueue) i n,
  Forall (fun it => P (node it)) pq →
  Forall (fun it => P (node it)) (down fuel pq i n).
Proof.
  induction fuel as [|fuel IH]; intros pq i n H; cbn [down]; [exact H|].
  destruct (_ <=? _)%nat; [exact H|].
  destruct (negb _); [exact H|]. apply IH, Swap_entries, H.
Qed.

Lemma heap_Push_entries (pq : PriorityQueue) x :
  Forall (fun it => P (node it)) pq → P (node x) →
  Forall (fun it => P (node it)) (heap_Push pq x).
Proof.
  intros H Hx. unfold heap_Push. apply up_entries. apply Forall_app. split; [exact H|].
  constructor; [exact Hx | constructor].
Qed.

Lemma heap_Pop_entries (pq : PriorityQueue) it pq' :
  heap_Pop pq = Some (it, pq') →
  Forall (fun it => P (node it)) pq →
  P (node it) ∧ Forall (fun it => P (node it)) pq'.
Proof.
  unfold heap_Pop. destruct pq as [|a pq]; [discriminate|].
  set (n := (length (a :: pq) - 1)%nat).
  set (pq1 := down (S n) (Swap (a :: pq) 0 n) 0 n). intros Hpop H.
  assert (H1 : Forall (fun it => P (node it)) pq1)
    by (apply down_entries, Swap_entries, H).
  destruct (last pq1) as [item|] eqn:Hlast; [|discriminate].
  injection Hpop as <- <-. split.
  - cbn. rewrite last_lookup in Hlast. exact (Forall_lookup_1 _ _ _ _ H1 Hlast).
  - apply Forall_take, H1.
Qed.

End Entries.

(** No entry is lost by the heap operations. *)

Lemma elem_of_nodes x (pq : PriorityQueue) :
  x ∈ map node pq ↔ ∃ k it, pq !! k = Some it ∧ node it = x.
Proof.
  rewrite list_elem_of_fmap. split.
  - intros (it & -> & Hin). apply list_elem_of_lookup in Hin as (k & Hk). eauto.
  - intros (k & it & Hk & <-). exists it. split; [reflexivity|].
    eapply list_elem_of_lookup_2, Hk.
Qed.

Lemma Swap_keeps x (pq : PriorityQueue) i j : x ∈ map node pq → x ∈ map node (Swap pq i j).
Proof.
  rewrite !elem_of_nodes. intros (k & it & Hk & Hx). unfold Swap.
  destruct (pq !! i) as [a|] eqn:Ha, (pq !! j) as [b|] eqn:Hb; eauto.
  pose proof (lookup_lt_Some _ _ _ Ha) as Hi. pose proof (lookup_lt_Some _ _ _ Hb) as Hj.
  destruct (decide (k = i)) as [-> | Hki].
  - exists j, (set_index a (Z.of_nat j)). split.
    + apply list_lookup_insert_Some. left. split; [reflexivity|]. split; [reflexivity|].
      eapply Nat.lt_le_trans; [exact Hj|]. apply Nat.eq_le_incl. symmetry. apply length_insert.
    + cbn. congruence.
  - destruct (decide (k = j)) as [-> | Hkj].
    + exists i, (set_index b (Z.of_nat i)). split.
      * apply list_lookup_insert_Some. right. split; [congruence|].
        apply list_lookup_insert_Some. left. auto.
      * cbn. congruence.
    + exists k, it. split; [|exact Hx].
      apply list_lookup_insert_Some. right. split; [congruence|].
      apply list_lookup_insert_Some. right. split; [congruence | exact Hk].
Qed.

Lemma up_keeps x fuel : ∀ pq j, x ∈ map node pq → x ∈ map node (up fuel pq j).
Proof.
  induction fuel as [|fuel IH]; intros pq j H; cbn [up]; [exact H|].
  destruct (_ || _); [exact H|]. apply IH, Swap_keeps, H.
Qed.

Lemma down_keeps x fuel : ∀ pq i n, x ∈ map node pq → x ∈ map node (down fuel pq i n).
Proof.
  induction fuel as [|fuel IH]; intros pq i n H; cbn [down]; [exact H|].
  destruct (_ <=? _)%nat; [exact H|].
  destruct (negb _); [exact H|]. apply IH, Swap_keeps, H.
Qed.

Lemma heap_Push_keeps x pq it :
  x ∈ map node pq ∨ x = node it → x ∈ map node (heap_Push pq it).
Proof.
  intros H. unfold heap_Push. apply up_keeps. rewrite map_app. cbn.
  apply elem_of_app. destruct H as [H | ->]; [left; exact H | right; set_solver].
Qed.

Lemma heap_Pop_keeps x pq it pq' :
  heap_Pop pq = Some (it, pq') → x ∈ map node pq → x = node it ∨ x ∈ map node pq'.
Proof.
  unfold heap_Pop. destruct pq as [|a pq]; [discriminate|].
  set (n := (length (a :: pq) - 1)%nat).
  set (pq1 := down (S n) (Swap (a :: pq) 0 n) 0 n). intros Hpop H.
  assert (H1 : x ∈ map node pq1) by (apply down_keeps, Swap_keeps, H).
  assert (Hlen : length pq1 = S n).
  { unfold pq1. rewrite length_down, length_Swap. cbn. unfold n. cbn. lia. }
  destruct (last pq1) as [item|] eqn:Hlast; [|discriminate].
  injection Hpop as <- <-. cbn [node set_index].
  apply elem_of_nodes in H1 as (k & it & Hk & <-).
  rewrite last_lookup, Hlen in Hlast. cbn in Hlast.
  destruct (decide (k = n)) as [-> | Hkn].
  { left. assert (Heq : Some it = Some item)
      by (etransitivity; [symmetry; exact Hk | exact Hlast]).
    now injection Heq as ->. }
  right. apply elem_of_nodes. exists k, it. split; [|reflexivity].
  apply lookup_take_Some. split; [exact Hk|].
  pose proof (lookup_lt_Some _ _ _ Hk). lia.
Qed.

(** ** Reads of the maps of the search *)

Lemma is_visited_insert vis c x :
  is_visited (<[c := true]> vis) x = if decide (c = x) then true else is_visited vis x.
Proof.
  unfold is_visited. destruct (decide (c = x)) as [-> | Hne].
  - now rewrite lookup_insert_eq.
  - now rewrite lookup_insert_ne.
Qed.

Lemma dist_of_insert d t v x :
  dist_of (<[t := v]> d) x = if decide (t = x) then v else dist_of d x.
Proof.
  unfold dist_of. destruct (decide (t = x)) as [-> | Hne].
  - now rewrite lookup_insert_eq.
  - now rewrite lookup_insert_ne.
Qed.

(** ** The entries still to be pushed *)

Lemma pending_absent l vis c :
  c ∉ l.*1 → pending l (<[c := true]> vis) = pending l vis.
Proof.
  unfold pending. induction l as [|[k es] l IH]; cbn; [reflexivity|].
  rewrite not_elem_of_cons. intros (Hne & Hl). rewrite (IH Hl), is_visited_insert.
  destruct (decide (c = k)); [congruence | reflexivity].
Qed.

Lemma pending_present l vis c es :
  NoDup l.*1 → (c, es) ∈ l → is_visited vis c = false →
  (pending l (<[c := true]> vis) + length es = pending l vis)%nat.
Proof.
  unfold pending. induction l as [|[k es0] l IH]; cbn; intros Hnd Hin Hv; [inversion Hin|].
  apply NoDup_cons in Hnd as (Hk & Hnd). rewrite is_visited_insert.
  apply elem_of_cons in Hin as [[= <- <-] | Hin].
  - rewrite decide_True by reflexivity. rewrite Hv.
    fold (pending l (<[c := true]> vis)). rewrite (pending_absent l vis c Hk).
    unfold pending. lia.
  - assert (c ≠ k).
    { intros ->. apply Hk. apply list_elem_of_fmap. exists (k, es). auto. }
    rewrite decide_False by congruence. specialize (IH Hnd Hin Hv). lia.
Qed.

Lemma pending_select g vis c :
  is_visited vis c = false →
  (pending (map_to_list (Nodes g)) (<[c := true]> vis) + length (adj g c)
   = pending (map_to_list (Nodes g)) vis)%nat.
Proof.
  intros Hv. unfold adj. destruct (Nodes g !! c) as [es|] eqn:Hc; cbn [default length].
  - apply pending_present; [apply NoDup_fst_map_to_list | | exact Hv].
    apply elem_of_map_to_list. exact Hc.
  - rewrite pending_absent; [lia|].
    intros Hin. apply list_elem_of_fmap in Hin as ([k es] & -> & Hin).
    apply elem_of_map_to_list in Hin. cbn in Hc. congruence.
Qed.

(** ** The steps of the search keep its invariant *)

Section Invariant.
Variables (g : Graph) (start : string).

Lemma SearchInv_emit order ty d path e s :
  SearchInv g start order s → SearchInv g start order (emit ty d path e s).
Proof. intros [H1 H2 H3 H4 H5 H6 H7 H8]. split; assumption. Qed.

Lemma SearchInv_init : SearchInv g start [] (initSearch start g).
Proof.
  split; cbn.
  - reflexivity.
  - reflexivity.
  - constructor.
  - intros x. unfold is_visited. rewrite lookup_empty. cbn. split; [discriminate|].
    intros H. inversion H.
  - intros x p H. rewrite lookup_empty in H. discriminate.
  - split; [apply lookup_empty|]. split; [|right; reflexivity].
    unfold dist_of. now rewrite lookup_insert_eq.
  - constructor; [left; reflexivity | constructor].
  - intros x H. inversion H.
Qed.

Lemma SearchInv_pop order s it pq' :
  SearchInv g start order s → heap_Pop (pq s) = Some (it, pq') →
  SearchInv g start order {| distances := distances s; previous := previous s;
                             visited := visited s; pq := pq'; gr := gr s |}
  ∧ (node it = start ∨ is_Some (previous s !! node it)).
Proof.
  intros [H1 H2 H3 H4 H5 H6 H7 H8] Hpop.
  destruct (heap_Pop_entries (fun n => n = start ∨ is_Some (previous s !! n)) _ _ _ Hpop H7)
    as (Hit & Hpq).
  split; [split; assumption | exact Hit].
Qed.

Lemma SearchInv_select order s c :
  SearchInv g start order s →
  is_visited (visited s) c = false →
  c = start ∨ is_Some (previous s !! c) →
  SearchInv g start (order ++ [c]) (selectNode c s)
  ∧ start ∈ order ++ [c].
Proof.
  intros [H1 H2 H3 H4 H5 H6 H7 H8] Hv Hc.
  assert (Hnin : c ∉ order).
  { intros Hin. apply H4 in Hin. congruence. }
  assert (Hstart : start ∈ order ++ [c]).
  { destruct H6 as (_ & _ & [Hs | He]); [apply elem_of_app; now left|].
    destruct Hc as [-> | Hc];
      [apply elem_of_app; right; now apply list_elem_of_singleton|].
    rewrite He, lookup_empty in Hc. destruct Hc; discriminate. }
  split; [|exact Hstart]. unfold selectNode. apply SearchInv_emit. split; cbn.
  - exact H1.
  - exact H2.
  - apply NoDup_app. split; [exact H3|]. split; [|apply NoDup_singleton].
    intros x Hx Hx'. apply list_elem_of_singleton in Hx'. congruence.
  - intros x. rewrite is_visited_insert. destruct (decide (c = x)) as [-> | Hne].
    + split; [intros _; apply elem_of_app; right; now apply list_elem_of_singleton
             | reflexivity].
    + rewrite H4, elem_of_app, list_elem_of_singleton.
      split; [auto | intros [H | H]; [exact H | congruence]].
  - intros x p Hp. destruct (H5 x p Hp) as (Hin & Hidx & Hw).
    split; [apply elem_of_app; now left|]. split; [|exact Hw].
    intros i Hi. destruct (decide (i < length order)%nat) as [Hlt | Hge].
    + rewrite lookup_app_l in Hi by exact Hlt.
      destruct (Hidx i Hi) as (j & Hj & Hjp). exists j. split; [exact Hj|].
      rewrite lookup_app_l by lia. exact Hjp.
    + apply list_elem_of_lookup in Hin as (j & Hjp).
      pose proof (lookup_lt_Some _ _ _ Hjp). exists j. split; [lia|].
      rewrite lookup_app_l by lia. exact Hjp.
  - destruct H6 as (Ha & Hb & _). auto.
  - exact H7.
  - intros x Hx. apply elem_of_app in Hx as [Hx | Hx]; [now apply H8|].
    apply list_elem_of_singleton in Hx. now subst x.
Qed.

Lemma relaxEdge_visited current e s : visited (relaxEdge current e s) = visited s.
Proof.
  unfold relaxEdge. destruct (is_visited _ _); [reflexivity|].
  destruct (_ <? _); reflexivity.
Qed.

Lemma relaxEdge_length current e s :
  (length (pq (relaxEdge current e s)) ≤ S (length (pq s)))%nat.
Proof.
  unfold relaxEdge. destruct (is_visited _ _); [lia|].
  destruct (_ <? _); cbn [pq emit]; [rewrite length_heap_Push|]; lia.
Qed.

Lemma SearchInv_relaxEdge order s current e :
  SearchInv g start order s →
  current ∈ order → start ∈ order → e ∈ adj g current →
  SearchInv g start order (relaxEdge current e s).
Proof.
  intros HI Hc Hs He. unfold relaxEdge.
  destruct (is_visited (visited s) (To e)) eqn:Hv; [exact HI|].
  destruct (_ <? _) eqn:Hlt; apply SearchInv_emit; [|exact HI].
  destruct HI as [H1 H2 H3 H4 H5 H6 H7 H8].
  assert (Hto : To e ∉ order).
  { intros Hin. apply H4 in Hin. congruence. }
  assert (Hmono : ∀ x, x = start ∨ is_Some (previous s !! x) →
                       x = start ∨ is_Some (<[To e := current]> (previous s) !! x)).
  { intros x [-> | Hx]; [left; reflexivity | right].
    apply lookup_insert_is_Some. destruct (decide (To e = x)); auto. }
  split; cbn.
  - exact H1.
  - exact H2.
  - exact H3.
  - exact H4.
  - intros x p Hp. apply lookup_insert_Some in Hp as [(<- & <-) | (Hne & Hp)].
    + split; [exact Hc|]. split.
      * intros i Hi. exfalso. apply Hto. eapply list_elem_of_lookup_2, Hi.
      * exists (Weight e). split; [destruct e; exact He|].
        rewrite !dist_of_insert. rewrite decide_True by reflexivity.
        rewrite decide_False by (intros Heq; apply Hto; now rewrite Heq).
        reflexivity.
    + destruct (H5 x p Hp) as (Hin & Hidx & w & Hw & Hd).
      split; [exact Hin|]. split; [exact Hidx|]. exists w. split; [exact Hw|].
      rewrite !dist_of_insert. rewrite decide_False by exact Hne.
      rewrite decide_False by (intros Heq; apply Hto; now rewrite Heq).
      exact Hd.
  - destruct H6 as (Ha & Hb & _).
    assert (To e ≠ start) by (intros Heq; apply Hto; now rewrite Heq).
    split; [now rewrite lookup_insert_ne|]. split; [|left; exact Hs].
    rewrite dist_of_insert. now rewrite decide_False.
  - apply (heap_Push_entries
             (fun n => n = start ∨ is_Some (<[To e := current]> (previous s) !! n))).
    + eapply Forall_impl; [exact H7|]. intros it. apply Hmono.
    + right. cbn. rewrite lookup_insert_eq. eauto.
  - intros x Hx. apply Hmono, H8, Hx.
Qed.

Lemma SearchInv_relaxEdges order current : ∀ es s,
  SearchInv g start order s →
  current ∈ order → start ∈ order → (∀ e, e ∈ es → e ∈ adj g current) →
  SearchInv g start order (relaxEdges current es s)
  ∧ visited (relaxEdges current es s) = visited s
  ∧ (length (pq (relaxEdges current es s)) ≤ length (pq s) + length es)%nat.
Proof.
  induction es as [|e es IH]; intros s HI Hc Hs Hes.
  - cbn. split; [exact HI|]. split; [reflexivity | lia].
  - rewrite relaxEdges_cons.
    destruct (IH (relaxEdge current e s)) as (HI' & Hv & Hl); try assumption.
    + apply SearchInv_relaxEdge; try assumption. apply Hes. now left.
    + intros e' He'. apply Hes. now right.
    + split; [exact HI'|]. split; [now rewrite Hv, relaxEdge_visited|].
      pose proof (relaxEdge_length current e s). cbn [length]. lia.
Qed.

(** ** The walk back along the predecessor links *)

Lemma reconstruct_empty fuel prev path :
  reconstruct fuel prev EmptyString path = Some path.
Proof. destruct fuel; reflexivity. Qed.

Lemma reconstruct_step fuel prev x path :
  x ≠ EmptyString →
  reconstruct (S fuel) prev x path = reconstruct fuel prev (prev_of prev x) (x :: path).
Proof.
  intros Hx. cbn [reconstruct]. destruct (String.eqb_spec x EmptyString); [congruence|].
  reflexivity.
Qed.

Lemma reconstruct_returns order s :
  SearchInv g start order s →
  ∀ (n : nat) (D : gset string) (i : nat) x path,
    (size D ≤ n)%nat → order !! i = Some x →
    (∀ y k, is_Some (previous s !! y) → order !! k = Some y → (k ≤ i)%nat → y ∈ D) →
    is_Some (reconstruct (S n) (previous s) x path).
Proof.
  intros HI. induction n as [|n IH]; intros D i x path HD Hi Hcover.
  - destruct (String.eqb_spec x EmptyString) as [-> | Hx]; [rewrite reconstruct_empty; eauto|].
    rewrite reconstruct_step by exact Hx. unfold prev_of.
    destruct (previous s !! x) as [p|] eqn:Hp; cbn [default];
      [|rewrite reconstruct_empty; eauto].
    assert (x ∈ D) by (apply (Hcover x i); [rewrite Hp; eauto | exact Hi | lia]).
    assert (D ≡ ∅) by (apply size_empty_iff; lia).
    set_solver.
  - destruct (String.eqb_spec x EmptyString) as [-> | Hx]; [rewrite reconstruct_empty; eauto|].
    rewrite reconstruct_step by exact Hx. unfold prev_of.
    destruct (previous s !! x) as [p|] eqn:Hp; cbn [default];
      [|rewrite reconstruct_empty; eauto].
    assert (HxD : x ∈ D) by (apply (Hcover x i); [rewrite Hp; eauto | exact Hi | lia]).
    destruct (inv_prev _ _ _ _ HI x p Hp) as (_ & Hidx & _).
    destruct (Hidx i Hi) as (j & Hj & Hjp).
    apply (IH (D ∖ {[x]}) j p).
    + pose proof (size_difference D {[x]} ltac:(set_solver)) as Hsz.
      rewrite size_singleton in Hsz. lia.
    + exact Hjp.
    + intros y k Hy Hk Hkj. apply elem_of_difference. split.
      * apply (Hcover y k); [exact Hy | exact Hk | lia].
      * intros Hyx. apply elem_of_singleton in Hyx. subst y.
        pose proof (NoDup_lookup _ _ _ _ (inv_nodup _ _ _ _ HI) Hk Hi). lia.
Qed.

Lemma reconstruct_total order s x path :
  SearchInv g start order s → x ∈ order →
  is_Some (reconstruct (S (size (previous s))) (previous s) x path).
Proof.
  intros HI Hx. apply list_elem_of_lookup in Hx as (i & Hi).
  apply (reconstruct_returns order s HI _ (dom (previous s)) i x path).
  - now rewrite size_dom.
  - exact Hi.
  - intros y k Hy _ _. apply elem_of_dom. exact Hy.
Qed.

Lemma adj_elem p e : e ∈ adj g p → ∃ es, Nodes g !! p = Some es ∧ e ∈ es.
Proof.
  unfold adj. destruct (Nodes g !! p) as [es|]; cbn [default]; [eauto|].
  intros H. inversion H.
Qed.

Lemma follows_edges_snoc a es e b :
  follows_edges g a es → last (walk_nodes a es) = Some b → e ∈ adj g b →
  follows_edges g a (es ++ [e]).
Proof.
  revert a. induction es as [|e0 es IH]; intros a Hes Hlast He.
  - cbn in *. injection Hlast as ->. auto.
  - destruct Hes as (H0 & Hes). cbn [app follows_edges].
    split; [exact H0|]. apply IH; [exact Hes | | exact He].
    unfold walk_nodes in *. cbn [map] in Hlast.
    change (last (To e0 :: map To es) = Some b) in Hlast. exact Hlast.
Qed.

Lemma last_walk_snoc a es e : last (walk_nodes a (es ++ [e])) = Some (To e).
Proof.
  unfold walk_nodes. rewrite map_app. cbn [map].
  change (a :: map To es ++ [To e]) with ((a :: map To es) ++ [To e]).
  apply last_snoc.
Qed.

Lemma walk_weight_snoc es e :
  walk_weight (es ++ [e]) = int_add (walk_weight es) (Weight e).
Proof. unfold walk_weight. now rewrite fold_left_app. Qed.

(** Every selected node lies at the end of a walk from the start, which
    has the length recorded as its distance and is what the walk back
    along the predecessor links yields. *)
Lemma visited_walk order s :
  SearchInv g start order s →
  ∀ i x, order !! i = Some x →
    ∃ es, follows_edges g start es
      ∧ last (walk_nodes start es) = Some x
      ∧ dist_of (distances s) x = walk_weight es
      ∧ (named g start → ∀ fuel tail path,
           reconstruct fuel (previous s) x tail = Some path →
           path = walk_nodes start es ++ tail).
Proof.
  intros HI i. induction i as [i IH] using lt_wf_ind. intros x Hi.
  destruct (inv_start _ _ _ _ HI) as (Hps & Hds & _).
  destruct (decide (x = start)) as [-> | Hne].
  - exists []. split; [exact I|]. split; [reflexivity|]. split; [exact Hds|].
    intros (Hs & _) fuel tail path Hrec. destruct fuel as [|fuel].
    + cbn in Hrec. destruct (String.eqb_spec start EmptyString); [congruence | discriminate].
    + rewrite reconstruct_step in Hrec by exact Hs. unfold prev_of in Hrec.
      rewrite Hps in Hrec. cbn [default] in Hrec. rewrite reconstruct_empty in Hrec.
      injection Hrec as <-. reflexivity.
  - destruct (inv_order _ _ _ _ HI x) as [? | (p & Hp)];
      [eapply list_elem_of_lookup_2, Hi | congruence |].
    destruct (inv_prev _ _ _ _ HI x p Hp) as (_ & Hidx & w & Hw & Hd).
    destruct (Hidx i Hi) as (j & Hj & Hjp).
    destruct (IH j Hj p Hjp) as (es & Hes & Hlast & Hdp & Hrec).
    exists (es ++ [{| To := x; Weight := w |}]).
    split; [eapply follows_edges_snoc; eauto|].
    split; [apply last_walk_snoc|].
    split; [rewrite walk_weight_snoc, <- Hdp; exact Hd|].
    intros Hnamed fuel tail path Hrun.
    assert (Hx : x ≠ EmptyString).
    { destruct Hnamed as (_ & Hn). destruct (adj_elem _ _ Hw) as (es' & Hes' & Hin).
      exact (Hn _ _ _ Hes' Hin). }
    destruct fuel as [|fuel].
    + cbn in Hrun. destruct (String.eqb_spec x EmptyString); [congruence | discriminate].
    + rewrite reconstruct_step in Hrun by exact Hx. unfold prev_of in Hrun.
      rewrite Hp in Hrun. cbn [default] in Hrun.
      rewrite (Hrec Hnamed _ _ _ Hrun). unfold walk_nodes. rewrite map_app. cbn [map To].
      cbn [app]. rewrite <- app_assoc. reflexivity.
Qed.

End Invariant.

(** ** On a bounded graph the search reaches what can be reached *)

Lemma int_add_small a b : - 2 ^ 63 <= a + b < 2 ^ 63 → int_add a b = a + b.
Proof. intros H. unfold int_add. rewrite Z.mod_small by lia. lia. Qed.

Section Reach.
Variables (g : Graph) (start end_ : string) (B : Z).
Hypothesis HB : bounded g start B.

Lemma order_in_nodes order s :
  SearchInv g start order s → ∀ x, x ∈ order → is_Some (Nodes g !! x).
Proof.
  intros HI x Hx. destruct HB as (Hs & Hedges & _).
  destruct (inv_order _ _ _ _ HI x Hx) as [-> | (p & Hp)]; [exact Hs|].
  destruct (inv_prev _ _ _ _ HI x p Hp) as (_ & _ & w & Hw & _).
  destruct (adj_elem g _ _ Hw) as (es & Hes & Hin).
  exact (proj1 (Hedges _ _ _ Hes Hin)).
Qed.

Lemma order_length order s :
  SearchInv g start order s → (length order ≤ size (Nodes g))%nat.
Proof.
  intros HI.
  rewrite <- (size_list_to_set (C := gset string) order) by exact (inv_nodup _ _ _ _ HI).
  rewrite <- (size_dom (Nodes g)). apply subseteq_size.
  intros x Hx. apply elem_of_list_to_set in Hx. apply elem_of_dom.
  exact (order_in_nodes order s HI x Hx).
Qed.

Lemma dist_bound order s :
  SearchInv g start order s →
  ∀ i x, order !! i = Some x → 0 <= dist_of (distances s) x <= B * Z.of_nat i.
Proof.
  intros HI i. induction i as [i IH] using lt_wf_ind. intros x Hi.
  pose proof (order_length order s HI) as Hlen.
  pose proof (lookup_lt_Some _ _ _ Hi) as Hil.
  destruct HB as (_ & Hedges & HB0 & HBn).
  assert (HBi : B * Z.of_nat i <= B * Z.of_nat (size (Nodes g)))
    by (apply Z.mul_le_mono_nonneg_l; lia).
  destruct (decide (x = start)) as [-> | Hne].
  - destruct (inv_start _ _ _ _ HI) as (_ & -> & _). split; [lia|].
    apply Z.mul_nonneg_nonneg; lia.
  - destruct (inv_order _ _ _ _ HI x) as [? | (p & Hp)];
      [eapply list_elem_of_lookup_2, Hi | congruence |].
    destruct (inv_prev _ _ _ _ HI x p Hp) as (_ & Hidx & w & Hw & Hd).
    destruct (Hidx i Hi) as (j & Hj & Hjp).
    destruct (adj_elem g _ _ Hw) as (es & Hes & Hin).
    destruct (Hedges _ _ _ Hes Hin) as (_ & Hw0). cbn [Weight] in Hw0.
    specialize (IH j Hj p Hjp).
    assert (HBj : B * Z.of_nat j + B <= B * Z.of_nat i) by nia.
    unfold MaxInt32 in HBn.
    rewrite Hd, int_add_small by lia. lia.
Qed.

(** The new tentative distance at a selected node stays below MaxInt32. *)
Lemma newDist_small order s c e :
  SearchInv g start order s → c ∈ order → e ∈ adj g c →
  int_add (dist_of (distances s) c) (Weight e) < MaxInt32.
Proof.
  intros HI Hc He. apply list_elem_of_lookup in Hc as (i & Hi).
  pose proof (dist_bound order s HI i c Hi) as Hd.
  pose proof (order_length order s HI) as Hlen.
  pose proof (lookup_lt_Some _ _ _ Hi) as Hil.
  destruct HB as (_ & Hedges & HB0 & HBn).
  destruct (adj_elem g _ _ He) as (es & Hes & Hin).
  destruct (Hedges _ _ _ Hes Hin) as (_ & Hw0).
  assert (HBi : B * Z.of_nat i + B <= B * Z.of_nat (size (Nodes g))) by nia.
  unfold MaxInt32 in *. rewrite int_add_small by lia. lia.
Qed.

Lemma ReachInv_init : ReachInv g end_ [] (initSearch start g).
Proof.
  split.
  - intros H. inversion H.
  - intros x (es & Hx) Hd. right. cbn [initSearch distances pq] in *.
    rewrite dist_of_insert in Hd. destruct (decide (start = x)) as [<- | Hne].
    + cbn. now apply list_elem_of_singleton.
    + exfalso. apply Hd. unfold dist_of. cbn [clearSteps Nodes].
      rewrite lookup_fmap, Hx. reflexivity.
  - intros u e Hu. inversion Hu.
Qed.

Lemma ReachInv_pop order s it pq' :
  SearchInv g start order s → ReachInv g end_ order s →
  heap_Pop (pq s) = Some (it, pq') →
  is_visited (visited s) (node it) = true →
  ReachInv g end_ order {| distances := distances s; previous := previous s;
                            visited := visited s; pq := pq'; gr := gr s |}.
Proof.
  intros HI [H1 H2 H3] Hpop Hv.
  assert (Hmono : ∀ x, reached order s x →
            reached order {| distances := distances s; previous := previous s;
                             visited := visited s; pq := pq'; gr := gr s |} x).
  { intros x [Hx | Hx]; [left; exact Hx|].
    destruct (heap_Pop_keeps x _ _ _ Hpop Hx) as [-> | Hx'].
    - left. apply (inv_visited _ _ _ _ HI). exact Hv.
    - right. exact Hx'. }
  split.
  - exact H1.
  - intros x Hx Hd. apply Hmono, H2; assumption.
  - intros u e Hu He. apply Hmono, (H3 u e); assumption.
Qed.

Lemma reach_select order s it pq' :
  SearchInv g start order s → ReachInv g end_ order s →
  heap_Pop (pq s) = Some (it, pq') →
  node it ≠ end_ →
  let s1 := selectNode (node it)
              {| distances := distances s; previous := previous s;
                 visited := visited s; pq := pq'; gr := gr s |} in
  (end_ ∉ order ++ [node it])
  ∧ queued g (order ++ [node it]) s1
  ∧ closed g order (order ++ [node it]) s1.
Proof.
  intros HI [H1 H2 H3] Hpop Hne s1.
  assert (Hmono : ∀ x, reached order s x → reached (order ++ [node it]) s1 x).
  { intros x [Hx | Hx]; [left; apply elem_of_app; now left|].
    destruct (heap_Pop_keeps x _ _ _ Hpop Hx) as [-> | Hx'].
    - left. apply elem_of_app. right. now apply list_elem_of_singleton.
    - right. exact Hx'. }
  split; [|split].
  - rewrite elem_of_app, list_elem_of_singleton. intros [H | H]; [now apply H1 | congruence].
  - intros x Hx Hd. apply Hmono, H2; assumption.
  - intros u e Hu He. apply Hmono, (H3 u e); assumption.
Qed.

Lemma reach_relaxEdge order s c e :
  SearchInv g start order s → c ∈ order → e ∈ adj g c →
  queued g order s →
  queued g order (relaxEdge c e s)
  ∧ (∀ x, reached order s x → reached order (relaxEdge c e s) x)
  ∧ reached order (relaxEdge c e s) (To e).
Proof.
  intros HI Hc He Hq. unfold relaxEdge.
  destruct (is_visited (visited s) (To e)) eqn:Hv.
  { split; [exact Hq|]. split; [auto|]. left. apply (inv_visited _ _ _ _ HI). exact Hv. }
  pose proof (newDist_small order s c e HI Hc He) as Hsmall.
  destruct (Z.ltb_spec (int_add (dist_of (distances s) c) (Weight e))
              (dist_of (distances s) (To e))) as [Hlt | Hge].
  - assert (Hmono : ∀ x, reached order s x ∨ x = To e →
        reached order
          (emit StepUpdateDist
             (Sprintf "更新节点 %s 距离: %d → %d (通过 %s)"
                [AStr (To e);
                 AInt (dist_of (<[To e := int_add (dist_of (distances s) c) (Weight e)]>
                                  (distances s)) (To e));
                 AInt (int_add (dist_of (distances s) c) (Weight e)); AStr c])
             [] (Some (c, To e))
             {| distances := <[To e := int_add (dist_of (distances s) c) (Weight e)]>
                               (distances s);
                previous := <[To e := c]> (previous s);
                visited := visited s;
                pq := heap_Push (pq s)
                        {| node := To e;
                           priority := int_add (dist_of (distances s) c) (Weight e);
                           index := 0 |};
                gr := gr s |}) x).
    { intros x [[Hx | Hx] | ->].
      - left. exact Hx.
      - right. cbn [emit pq]. apply heap_Push_keeps. left. exact Hx.
      - right. cbn [emit pq]. apply heap_Push_keeps. right. reflexivity. }
    split; [|split].
    + intros x Hx Hd. cbn [emit distances] in Hd. rewrite dist_of_insert in Hd.
      destruct (decide (To e = x)) as [<- | Hne]; [apply Hmono; now right|].
      apply Hmono. left. apply Hq; assumption.
    + intros x Hx. apply Hmono. now left.
    + apply Hmono. now right.
  - split; [|split].
    + exact Hq.
    + auto.
    + destruct HB as (_ & Hedges & _).
      destruct (adj_elem g _ _ He) as (es & Hes & Hin).
      apply (Hq (To e)); [exact (proj1 (Hedges _ _ _ Hes Hin))|].
      cbn [emit distances]. lia.
Qed.

Lemma reach_relaxEdges order c : ∀ es s,
  SearchInv g start order s → c ∈ order → start ∈ order →
  (∀ e, e ∈ es → e ∈ adj g c) →
  queued g order s →
  queued g order (relaxEdges c es s)
  ∧ (∀ x, reached order s x → reached order (relaxEdges c es s) x)
  ∧ (∀ e, e ∈ es → reached order (relaxEdges c es s) (To e)).
Proof.
  induction es as [|e es IH]; intros s HI Hc Hs Hes Hq.
  - cbn. split; [exact Hq|]. split; [auto|]. intros e He. inversion He.
  - rewrite relaxEdges_cons.
    assert (He : e ∈ adj g c) by (apply Hes; now left).
    destruct (reach_relaxEdge order s c e HI Hc He Hq) as (Hq1 & Hm1 & Hr1).
    destruct (IH (relaxEdge c e s)) as (Hq2 & Hm2 & Hr2); try assumption.
    + apply SearchInv_relaxEdge; assumption.
    + intros e' He'. apply Hes. now right.
    + split; [exact Hq2|]. split; [auto|].
      intros e' He'. apply elem_of_cons in He' as [-> | He']; auto.
Qed.

(** When the queue has run empty, the selected nodes are the nodes that
    can be reached from the start. *)
Lemma closed_walk order s :
  closed g order order s → pq s = [] →
  ∀ es a x, a ∈ order → follows_edges g a es → last (walk_nodes a es) = Some x →
  x ∈ order.
Proof.
  intros Hcl Hpq. induction es as [|e es IH]; intros a x Ha Hes Hlast.
  - cbn in Hlast. now injection Hlast as <-.
  - destruct Hes as (He & Hes). apply (IH (To e) x); [|exact Hes|].
    + destruct (Hcl a e Ha He) as [H | H]; [exact H|].
      rewrite Hpq in H. inversion H.
    + unfold walk_nodes in *. cbn [map] in Hlast.
      change (last (To e :: map To es) = Some x) in Hlast. exact Hlast.
Qed.

Lemma exhausted_unreachable order s :
  SearchInv g start order s → ReachInv g end_ order s → pq s = [] →
  ¬ reachable g start end_.
Proof.
  intros HI [H1 H2 H3] Hpq (es & Hes & Hlast).
  apply H1. apply (closed_walk order s H3 Hpq es start end_); [|exact Hes | exact Hlast].
  destruct HB as (Hs & _). destruct (inv_start _ _ _ _ HI) as (_ & Hd & _).
  destruct (H2 start Hs) as [H | H]; [rewrite Hd; discriminate | exact H|].
  rewrite Hpq in H. inversion H.
Qed.

End Reach.

(** ** The loop of the search *)

Lemma relaxEdges_trace current : ∀ es s,
  ∃ new, trace (relaxEdges current es s) = trace s ++ new ∧ Forall middle new.
Proof.
  induction es as [|e es IH]; intros s.
  - exists []. cbn. now rewrite app_nil_r.
  - rewrite relaxEdges_cons. destruct (IH (relaxEdge current e s)) as (new & Hn & Hm).
    rewrite Hn. unfold relaxEdge.
    destruct (is_visited _ _); [exists new; auto|].
    destruct (_ <? _).
    + eexists (_ :: new). split; [unfold trace, emit, addStep; cbn; now rewrite <- app_assoc|].
      constructor; [right; left; reflexivity | exact Hm].
    + eexists (_ :: new). split; [unfold trace, emit, addStep; cbn; now rewrite <- app_assoc|].
      constructor; [right; right; reflexivity | exact Hm].
Qed.

Lemma search_result_pre g start end_ B pre new r g' :
  search_result g start end_ B (pre ++ new) r g' → Forall middle new →
  search_result g start end_ B pre r g'.
Proof.
  intros (H1 & H2 & H3 & H4 & mid & final & Hs & Hm & Hrest) Hnew.
  split; [exact H1|]. split; [exact H2|]. split; [exact H3|]. split; [exact H4|].
  exists (new ++ mid), final. split; [rewrite Hs, <- !app_assoc; reflexivity|].
  split; [apply Forall_app; auto | exact Hrest].
Qed.

Lemma adj_gr g s c : Nodes (gr s) = Nodes g → adj (gr s) c = adj g c.
Proof. intros H. unfold adj. now rewrite H. Qed.

Section Loop.
Variables (g : Graph) (start end_ : string) (B : Z).

Lemma searchLoop_ok : ∀ fuel order s,
  SearchInv g start order s →
  (length (pq s) + pending (map_to_list (Nodes g)) (visited s) < fuel)%nat →
  (bounded g start B → ReachInv g end_ order s) →
  ∃ r g', searchLoop fuel end_ start s = Some (r, g')
          ∧ search_result g start end_ B (trace s) r g'.
Proof.
  induction fuel as [|fuel IH]; intros order s HI Hfuel HR; [lia|].
  cbn [searchLoop].
  destruct (decide (pq s = [])) as [Hpq | Hpq].
  - rewrite Hpq. cbn [heap_Pop].
    eexists _, _. split; [reflexivity|].
    split; [exact (inv_nodes _ _ _ _ HI)|]. split; [exact (inv_coords _ _ _ _ HI)|].
    split; [reflexivity|]. split; [reflexivity|].
    eexists [], _. split; [reflexivity|]. split; [constructor|]. cbn [Success].
    split; [reflexivity|]. split; [reflexivity|]. split; [reflexivity|].
    split; [reflexivity|].
    intros HB. exact (exhausted_unreachable g start end_ B HB order s HI (HR HB) Hpq).
  - destruct (heap_Pop_cons _ Hpq) as (it & pq' & Hpop & Hlen). rewrite Hpop.
    destruct (SearchInv_pop g start order s it pq' HI Hpop) as (HI0 & Hit).
    cbn [visited].
    destruct (is_visited (visited s) (node it)) eqn:Hv.
    + destruct (IH order _ HI0) as (r & g' & Hrun & Hres).
      { cbn [pq visited]. lia. }
      { intros HB. exact (ReachInv_pop g start end_ order s it pq' HI (HR HB) Hpop Hv). }
      exists r, g'. split; [exact Hrun | exact Hres].
    + destruct (SearchInv_select g start order _ (node it) HI0 Hv Hit) as (HI1 & Hstart).
      set (s1 := selectNode (node it) _) in *.
      assert (Hc : node it ∈ order ++ [node it])
        by (apply elem_of_app; right; now apply list_elem_of_singleton).
      assert (Ht1 : ∃ sel, trace s1 = trace s ++ [sel] ∧ Type_ sel = StepSelectNode).
      { eexists. split; [reflexivity | reflexivity]. }
      destruct Ht1 as (sel & Ht1 & Hsel).
      destruct (String.eqb_spec (node it) end_) as [Heq | Hneq].
      * destruct (reconstruct_total g start _ s1 end_ [] HI1) as (path & Hpath);
          [rewrite <- Heq; exact Hc|].
        rewrite Hpath.
        eexists _, _. split; [reflexivity|].
        split; [exact (inv_nodes _ _ _ _ HI1)|]. split; [exact (inv_coords _ _ _ _ HI1)|].
        split; [reflexivity|]. split; [reflexivity|].
        eexists [sel], _. split.
        { cbn [Steps emit gr addStep steps]. fold (trace s1). rewrite Ht1.
          rewrite <- app_assoc. reflexivity. }
        split; [constructor; [left; exact Hsel | constructor]|]. cbn [Success].
        split; [reflexivity|]. split.
        { cbn [FinalGraph]. unfold lastSnapshot. cbn [emit gr addStep steps].
          rewrite last_snoc. reflexivity. }
        exists (order ++ [node it]), s1, path. split; [exact HI1|].
        split; [rewrite last_snoc; now rewrite Heq|]. split; [exact Hpath|].
        split; reflexivity.
      * rewrite (adj_gr g s1 (node it) (inv_nodes _ _ _ _ HI1)).
        destruct (SearchInv_relaxEdges g start (order ++ [node it]) (node it)
                    (adj g (node it)) s1 HI1 Hc Hstart ltac:(auto))
          as (HI2 & Hv2 & Hl2).
        destruct (relaxEdges_trace (node it) (adj g (node it)) s1) as (new & Ht2 & Hnew).
        destruct (IH (order ++ [node it]) (relaxEdges (node it) (adj g (node it)) s1))
          as (r & g' & Hrun & Hres).
        { exact HI2. }
        { rewrite Hv2. subst s1. cbn [selectNode emit visited pq] in *.
          pose proof (pending_select g (visited s) (node it) Hv). lia. }
        { intros HB.
          destruct (reach_select g start end_ order s it pq' HI (HR HB) Hpop Hneq)
            as (He & Hq & Hcl).
          fold s1 in Hq, Hcl.
          destruct (reach_relaxEdges g start B HB (order ++ [node it]) (node it)
                      (adj g (node it)) s1 HI1 Hc Hstart ltac:(auto) Hq)
            as (Hq2 & Hm2 & Hr2).
          split; [exact He | exact Hq2 |].
          intros u e Hu Hue. apply elem_of_app in Hu as [Hu | Hu].
          - apply Hm2. exact (Hcl u e Hu Hue).
          - apply list_elem_of_singleton in Hu. subst u. apply Hr2. exact Hue. }
        exists r, g'. split; [exact Hrun|].
        rewrite Ht2, Ht1, <- app_assoc in Hres.
        apply (search_result_pre _ _ _ _ _ _ _ _ Hres).
        constructor; [left; exact Hsel | exact Hnew].
Qed.

End Loop.

(** ** Dijkstra *)

Lemma pending_empty l : pending l ∅ = length (flat_map snd l).
Proof.
  unfold pending. induction l as [|[k es] l IH]; cbn; [reflexivity|].
  rewrite length_app, <- IH. unfold is_visited. now rewrite lookup_empty.
Qed.

Lemma Dijkstra_ok g start end_ B :
  ∃ r g' first,
    Dijkstra start end_ g = Some (r, g')
    ∧ Type_ first = StepVisit
    ∧ search_result g start end_ B [first] r g'.
Proof.
  destruct (searchLoop_ok g start end_ B (search_fuel g) [] (initSearch start g))
    as (r & g' & Hrun & Hres).
  - apply SearchInv_init.
  - unfold search_fuel. cbn [initSearch visited pq]. rewrite pending_empty. cbn. lia.
  - intros _. apply (ReachInv_init g start end_).
  - exists r, g'. eexists. split; [exact Hrun|]. split; [|exact Hres]. reflexivity.
Qed.

(** ** Graphs built with AddNode and AddEdge *)

Lemma adj_AddNode id x y g n : adj (AddNode id x y g) n = adj g n.
Proof.
  unfold adj, AddNode. cbn [Nodes]. destruct (Nodes g !! id) as [es|] eqn:Hid; [reflexivity|].
  destruct (decide (id = n)) as [<- | Hne].
  - now rewrite lookup_insert_eq, Hid.
  - now rewrite lookup_insert_ne.
Qed.

Lemma adj_AddEdge from to w g n :
  adj (AddEdge from to w g) n
  = adj g n ++ (if decide (from = n) then [{| To := to; Weight := w |}] else [])
          ++ (if decide (to = n) then [{| To := from; Weight := w |}] else []).
Proof.
  unfold AddEdge, adj at 1. cbn [Nodes].
  destruct (decide (to = n)) as [<- | Hto].
  - rewrite lookup_insert_eq.
    destruct (decide (from = to)) as [Heq | Hne].
    + subst from. rewrite lookup_insert_eq. cbn. now rewrite <- app_assoc.
    + rewrite lookup_insert_ne by exact Hne. reflexivity.
  - rewrite lookup_insert_ne by exact Hto. rewrite app_nil_r.
    destruct (decide (from = n)) as [<- | Hne].
    + rewrite lookup_insert_eq. reflexivity.
    + rewrite lookup_insert_ne by exact Hne. now rewrite app_nil_r.
Qed.

Lemma undirected_New : undirected NewGraph.
Proof. intros x e H. unfold adj, NewGraph in H. cbn in H. inversion H. Qed.

Lemma undirected_AddNode id x y g : undirected g → undirected (AddNode id x y g).
Proof. intros H n e. rewrite !adj_AddNode. apply H. Qed.

Lemma undirected_AddEdge from to w g : undirected g → undirected (AddEdge from to w g).
Proof.
  intros H n e. rewrite !adj_AddEdge. rewrite !elem_of_app. intros [He | [He | He]].
  - left. apply H, He.
  - destruct (decide (from = n)) as [<- | Hne]; [|inversion He].
    apply list_elem_of_singleton in He. subst e. cbn [To Weight].
    right. right. rewrite decide_True by reflexivity. set_solver.
  - destruct (decide (to = n)) as [<- | Hne]; [|inversion He].
    apply list_elem_of_singleton in He. subst e. cbn [To Weight].
    right. left. rewrite decide_True by reflexivity. set_solver.
Qed.

(** ** Conditions on a graph, by evaluation *)

Lemma named_by_evaluation g start :
  bool_decide (start ≠ EmptyString
               ∧ map_Forall (fun _ es => Forall (fun e => To e ≠ EmptyString) es) (Nodes g))
  = true →
  named g start.
Proof.
  intros H. apply bool_decide_eq_true in H as (Hs & Hall). split; [exact Hs|].
  intros x es e Hx He. specialize (Hall x es Hx). cbn in Hall.
  rewrite Forall_forall in Hall. now apply Hall.
Qed.

Lemma bounded_by_evaluation g start B :
  bool_decide (is_Some (Nodes g !! start)
               ∧ map_Forall (fun _ es =>
                    Forall (fun e => is_Some (Nodes g !! To e) ∧ 0 <= Weight e <= B) es)
                  (Nodes g)
               ∧ 0 <= B ∧ B * Z.of_nat (size (Nodes g)) < MaxInt32)
  = true →
  bounded g start B.
Proof.
  intros H. apply bool_decide_eq_true in H as (Hs & Hall & HB). split; [exact Hs|].
  split; [|exact HB].
  intros x es e Hx He. specialize (Hall x es Hx). cbn in Hall.
  rewrite Forall_forall in Hall. now apply Hall.
Qed.

(** ** The steps between two selections *)

Lemma relaxEdges_examined current : ∀ es s,
  ∃ new, trace (relaxEdges current es s) = trace s ++ new
         ∧ examined current es s new.
Proof.
  induction es as [|e es IH]; intros s.
  - exists []. cbn. now rewrite app_nil_r.
  - rewrite relaxEdges_cons. cbn [examined].
    destruct (is_visited (visited s) (To e)) eqn:Hv.
    + rewrite (relaxEdge_visited_silent current e s Hv).
      destruct (IH s) as (new & Ht & He). exists new. auto.
    + destruct (IH (relaxEdge current e s)) as (new & Ht & He).
      unfold relaxEdge in *. rewrite Hv in *.
      destruct (_ <? _) eqn:Hlt.
      * eexists (_ :: new). split.
        { rewrite Ht. unfold trace, emit, addStep. cbn. now rewrite <- app_assoc. }
        eexists _, new. split; [reflexivity|]. split; [reflexivity|].
        split; [reflexivity|]. split; [|exact He]. cbn. auto.
      * eexists (_ :: new). split.
        { rewrite Ht. unfold trace, emit, addStep. cbn. now rewrite <- app_assoc. }
        eexists _, new. split; [reflexivity|]. split; [reflexivity|].
        split; [reflexivity|]. split; [|exact He]. cbn. auto.
Qed.

Lemma Nodes_relaxEdges current : ∀ es s,
  Nodes (gr (relaxEdges current es s)) = Nodes (gr s).
Proof.
  induction es as [|e es IH]; intros s; [reflexivity|].
  rewrite relaxEdges_cons, IH. unfold relaxEdge.
  destruct (is_visited _ _); [reflexivity|]. destruct (_ <? _); reflexivity.
Qed.

Lemma rounds_ok_ext g end_ b1 b2 rds :
  distances b1 = distances b2 → previous b1 = previous b2 →
  visited b1 = visited b2 → trace b1 = trace b2 →
  rounds_ok g end_ b1 rds → rounds_ok g end_ b2 rds.
Proof.
  intros Hd Hp Hv Ht. destruct rds as [|rd rest]; [auto|].
  cbn [rounds_ok]. rewrite Hd, Hp, Hv, Ht. auto.
Qed.

(** The trace of a run of the loop, selection by selection. *)
Lemma searchLoop_rounds g start end_ : ∀ fuel s r g',
  Nodes (gr s) = Nodes g →
  searchLoop fuel end_ start s = Some (r, g') →
  ∃ rounds final,
    Steps r = trace s ++ flat_map round_trace rounds ++ [final]
    ∧ rounds_ok g end_ s rounds
    ∧ Type_ final = (if Success r then StepComplete else StepNotFound)
    ∧ (Success r = true ↔ Exists (fun rd => r_node rd = end_) rounds).
Proof.
  induction fuel as [|fuel IH]; intros s r g' HN Hrun; [discriminate|].
  cbn [searchLoop] in Hrun.
  destruct (heap_Pop (pq s)) as [[it pq']|] eqn:Hpop.
  - cbn [visited] in Hrun.
    destruct (is_visited (visited s) (node it)) eqn:Hv.
    + apply IH in Hrun as (rounds & final & Hs & Hok & Hty & Hsucc); [|exact HN].
      exists rounds, final. split; [exact Hs|]. split; [|auto].
      eapply rounds_ok_ext; [| | | |exact Hok]; reflexivity.
    + set (s0 := {| distances := distances s; previous := previous s;
                    visited := visited s; pq := pq'; gr := gr s |}) in *.
      set (s1 := selectNode (node it) s0) in *.
      assert (Ht1 : ∃ sel, trace s1 = trace s ++ [sel] ∧ Type_ sel = StepSelectNode).
      { eexists. split; reflexivity. }
      destruct Ht1 as (sel & Ht1 & Hsel).
      destruct (String.eqb_spec (node it) end_) as [Heq | Hneq].
      * destruct (reconstruct _ _ _ _) as [path|]; [|discriminate].
        injection Hrun as <- <-.
        eexists [ {| r_node := node it; r_state := s1; r_select := sel; r_steps := [] |} ], _.
        split.
        { assert (Hst : ∀ x, trace s ++ [sel] ++ [x] = trace s1 ++ [x])
            by (intros; now rewrite Ht1, <- app_assoc).
          symmetry. apply Hst. }
        split.
        { cbn [rounds_ok r_node r_state r_select r_steps].
          split; [exact Hv|]. split; [reflexivity|]. split; [reflexivity|].
          split; [reflexivity|]. split; [exact Ht1|]. split; [exact Hsel|].
          rewrite decide_True by exact Heq. auto. }
        split; [reflexivity|]. cbn [Success].
        split; [intros _; constructor; exact Heq | reflexivity].
      * assert (HN1 : Nodes (gr s1) = Nodes g) by exact HN.
        rewrite (adj_gr g s1 (node it) HN1) in Hrun.
        destruct (relaxEdges_examined (node it) (adj g (node it)) s1) as (new & Ht2 & Hex).
        apply IH in Hrun as (rounds & final & Hs & Hok & Hty & Hsucc);
          [|rewrite Nodes_relaxEdges; exact HN1].
        exists ({| r_node := node it; r_state := s1; r_select := sel; r_steps := new |}
                  :: rounds), final.
        split.
        { rewrite Hs, Ht2, Ht1.
          cbn [flat_map round_trace r_select r_steps]. rewrite <- !app_assoc. reflexivity. }
        split.
        { cbn [rounds_ok r_node r_state r_select r_steps].
          split; [exact Hv|]. split; [reflexivity|]. split; [reflexivity|].
          split; [reflexivity|]. split; [exact Ht1|]. split; [exact Hsel|].
          rewrite decide_False by exact Hneq. split; [exact Hex | exact Hok]. }
        split; [exact Hty|]. rewrite Hsucc. split; [intros H; now right|].
        intros H. apply Exists_cons in H as [H | H]; [contradiction | exact H].
  - injection Hrun as <- <-. exists []. eexists.
    split; [reflexivity|]. split; [exact I|]. split; [reflexivity|]. cbn [Success].
    split; [discriminate | intros H; inversion H].
Qed.

(** C5, as the code has it: Dijkstra returns, and its trace is the Visit
    step, then selection after selection, then one last step.  Each
    selection takes a node that is not yet visited and records its
    Select-Node step.  When the node is the end node, nothing is examined
    and the Complete step follows.  Otherwise the steps up to the next
    selection are those of the adjacency list of the node, taken in
    order: no step for an edge to a visited node, and exactly one step
    for every other edge, an Update-Distance step (with the new distance,
    the predecessor link and the push of the neighbour) when the new
    tentative distance is smaller than the neighbour's, a Compare step
    (and no other change) when it is not. *)
Theorem dijkstra_one_step_per_examined_edge g start end_ :
  ∃ r g' visit rounds final,
    Dijkstra start end_ g = Some (r, g')
    ∧ Steps r = visit :: flat_map round_trace rounds ++ [final]
    ∧ Type_ visit = StepVisit
    ∧ trace (initSearch start g) = [visit]
    ∧ rounds_ok g end_ (initSearch start g) rounds
    ∧ Type_ final = (if Success r then StepComplete else StepNotFound)
    ∧ (Success r = true ↔ Exists (fun rd => r_node rd = end_) rounds).
Proof.
  destruct (Dijkstra_ok g start end_ 0) as (r & g' & first & Hrun & _).
  unfold Dijkstra in Hrun.
  destruct (searchLoop_rounds g start end_ _ (initSearch start g) r g' eq_refl Hrun)
    as (rounds & final & Hs & Hok & Hty & Hsucc).
  exists r, g'. eexists. exists rounds, final.
  split; [exact Hrun|]. split; [exact Hs|]. split; [reflexivity|].
  split; [reflexivity|]. auto.
Qed.

(** On the scenario graph, the search from A to C: both edges of A lead
    to nodes that are not visited and record a step each; C is the end
    node, so none of its edges to B and D is examined, though neither B
    nor D is visited. *)
Lemma dijkstra_end_node_example :
  ('(r, _) ← Dijkstra "A" "C" (scenario 0 0 0 0 0 0 0 0);
   Some (Success r, kinds (Steps r)))
  = Some (true, [StepVisit; StepSelectNode; StepUpdateDist; StepUpdateDist;
                 StepSelectNode; StepComplete]).
Proof. vm_compute. reflexivity. Qed.

(** *** What a caller of the graph can rely on *)

(** X17: Dijkstra returns on every graph, for every start and end, within
    the iterations its queue allows: the graph and the coordinates are as
    before, the steps of the graph are those of the result, and the trace
    is a Visit step, then Select-Node, Update-Distance and Compare steps,
    then one closing step, Complete with the final snapshot taken from it
    on success, NotFound with no final graph otherwise. *)
Theorem dijkstra_always_returns g start end_ :
  ∃ r g' first mid final,
    Dijkstra start end_ g = Some (r, g')
    ∧ Nodes g' = Nodes g ∧ NodeCoords g' = NodeCoords g ∧ steps g' = Steps r
    ∧ Steps r = first :: mid ++ [final]
    ∧ Type_ first = StepVisit ∧ Forall middle mid
    ∧ Type_ final = (if Success r then StepComplete else StepNotFound)
    ∧ FinalGraph r = (if Success r then Some (GraphNodes final, GraphEdges final) else None)
    ∧ (Success r = false → Message r = Some (lit "无法到达目标节点")).
Proof.
  destruct (Dijkstra_ok g start end_ 0)
    as (r & g' & first & Hrun & Hfirst & H1 & H2 & H3 & _ & mid & final & Hs & Hmid & Hrest).
  exists r, g', first, mid, final. split; [exact Hrun|].
  split; [exact H1|]. split; [exact H2|]. split; [exact H3|]. split; [exact Hs|].
  split; [exact Hfirst|]. split; [exact Hmid|].
  destruct (Success r).
  - destruct Hrest as (Ht & Hf & _). split; [exact Ht|]. split; [exact Hf | discriminate].
  - destruct Hrest as (Ht & _ & Hm & Hf & _). split; [exact Ht|]. split; [exact Hf | auto].
Qed.

(** X18: when no node taking part has the empty name and Dijkstra reports
    success, the path in the text of its last step is a walk of the graph
    from start to end, and the distance in that text and in the message
    of the result is the sum of the weights along this walk, added as the
    code adds them. *)
Theorem dijkstra_success_reports_walk g start end_ :
  named g start →
  ∃ r g', Dijkstra start end_ g = Some (r, g')
    ∧ (Success r = true →
       ∃ es final, last (Steps r) = Some final
         ∧ follows_edges g start es
         ∧ last (walk_nodes start es) = Some end_
         ∧ Description final = complete_text (walk_nodes start es) (walk_weight es)
         ∧ Message r = Some (success_text (walk_weight es))).
Proof.
  intros Hnamed.
  destruct (Dijkstra_ok g start end_ 0)
    as (r & g' & first & Hrun & _ & _ & _ & _ & _ & mid & final & Hs & _ & Hrest).
  exists r, g'. split; [exact Hrun|]. intros Hsucc. rewrite Hsucc in Hrest.
  destruct Hrest as (_ & _ & order & s & path & HI & Hlast & Hpath & Hd & Hm).
  rewrite last_lookup in Hlast.
  destruct (visited_walk g start order s HI _ end_ Hlast) as (es & Hes & Hend & Hw & Hrec).
  rewrite (Hrec Hnamed _ _ _ Hpath), app_nil_r in Hd. rewrite Hw in Hd, Hm.
  exists es, final. split; [|auto].
  rewrite Hs, app_assoc. apply last_snoc.
Qed.

Lemma dijkstra_walk_witness :
  named CreateSampleGraph "A"
  ∧ ∃ r g', Dijkstra "A" "F" CreateSampleGraph = Some (r, g')
      ∧ Success r = true
      ∧ ∃ es, follows_edges CreateSampleGraph "A" es
          ∧ last (walk_nodes "A" es) = Some "F"
          ∧ Message r = Some (success_text (walk_weight es)).
Proof.
  assert (Hn : named CreateSampleGraph "A")
    by (apply named_by_evaluation; vm_compute; reflexivity).
  split; [exact Hn|].
  destruct (dijkstra_success_reports_walk CreateSampleGraph "A" "F" Hn)
    as (r & g' & Hrun & Hwalk).
  exists r, g'. split; [exact Hrun|].
  assert (Hs : Success r = true) by (vm_compute in Hrun; injection Hrun as <- _; reflexivity).
  split; [exact Hs|].
  destruct (Hwalk Hs) as (es & final & _ & Hes & Hlast & _ & Hm).
  exists es. auto.
Defined.

(** X19: on a graph whose edges lead to nodes of the graph and whose
    weights lie between 0 and a bound B with B times the number of nodes
    below MaxInt32, Dijkstra from a node of the graph reports success
    exactly when some walk leads from start to end. *)
Theorem dijkstra_succeeds_iff_reachable g start end_ B :
  bounded g start B →
  ∃ r g', Dijkstra start end_ g = Some (r, g')
    ∧ (Success r = true ↔ reachable g start end_).
Proof.
  intros HB.
  destruct (Dijkstra_ok g start end_ B)
    as (r & g' & first & Hrun & _ & _ & _ & _ & _ & mid & final & Hs & _ & Hrest).
  exists r, g'. split; [exact Hrun|].
  destruct (Success r).
  - split; [intros _ | reflexivity].
    destruct Hrest as (_ & _ & order & s & path & HI & Hlast & _).
    rewrite last_lookup in Hlast.
    destruct (visited_walk g start order s HI _ end_ Hlast) as (es & Hes & Hend & _).
    exists es. auto.
  - destruct Hrest as (_ & _ & _ & _ & Hun). split; [discriminate|].
    intros Hr. exfalso. exact (Hun HB Hr).
Qed.

Lemma dijkstra_reachable_witness :
  bounded CreateSampleGraph "A" 10
  ∧ ∃ r g', Dijkstra "A" "F" CreateSampleGraph = Some (r, g')
      ∧ (Success r = true ↔ reachable CreateSampleGraph "A" "F").
Proof.
  assert (Hb : bounded CreateSampleGraph "A" 10)
    by (apply bounded_by_evaluation; vm_compute; reflexivity).
  split; [exact Hb|].
  exact (dijkstra_succeeds_iff_reachable CreateSampleGraph "A" "F" 10 Hb).
Defined.

(** X20: Dijkstra from a node to itself succeeds on every graph, whether
    or not the node is in it: the trace is the Visit, one Select-Node and
    the Complete step, the distance is 0, and the path is the node alone
    (or empty, when the node has the empty name). *)
Theorem dijkstra_start_is_end g start :
  ∃ r g' visit select complete,
    Dijkstra start start g = Some (r, g')
    ∧ Success r = true
    ∧ Message r = Some (success_text 0)
    ∧ Steps r = [visit; select; complete]
    ∧ kinds (Steps r) = [StepVisit; StepSelectNode; StepComplete]
    ∧ Description complete
      = complete_text (if String.eqb start EmptyString then [] else [start]) 0.
Proof.
  unfold Dijkstra, search_fuel. cbn [searchLoop].
  assert (Hpop : heap_Pop (pq (initSearch start g))
                 = Some ({| node := start; priority := 0; index := -1 |}, []))
    by reflexivity.
  rewrite Hpop. cbn [visited initSearch node].
  assert (Hv : is_visited ∅ start = false) by (unfold is_visited; now rewrite lookup_empty).
  rewrite Hv, String.eqb_refl.
  assert (Hrec : reconstruct 1 ∅ start []
                 = Some (if String.eqb start EmptyString then [] else [start])).
  { cbn [reconstruct]. destruct (String.eqb start EmptyString); [reflexivity|].
    unfold prev_of. rewrite lookup_empty. reflexivity. }
  match goal with
  | |- context [reconstruct ?n ?p start []] =>
      change (reconstruct n p start []) with (reconstruct 1 ∅ start [])
  end.
  rewrite Hrec.
  match goal with
  | |- context [dist_of ?d start] =>
      assert (Hd : dist_of d start = 0)
        by (change d with (<[start := 0]> ((fun _ => MaxInt32) <$> Nodes (clearSteps g)));
            unfold dist_of; now rewrite lookup_insert_eq);
      rewrite !Hd
  end.
  do 5 eexists. split; [reflexivity|]. split; [reflexivity|]. split; [reflexivity|].
  split; [reflexivity|]. split; reflexivity.
Qed.

(** X21: AddNode and AddEdge keep a graph undirected: when every edge has
    its reverse edge of the same weight before, so it is after; AddNode
    leaves every adjacency list as it is, and AddEdge appends the edge to
    the list of its first node and the reverse edge to that of its second. *)
Theorem graph_building_keeps_graph_undirected g id x y from to w :
  undirected g →
  undirected (AddNode id x y g)
  ∧ undirected (AddEdge from to w g)
  ∧ (∀ n, adj (AddNode id x y g) n = adj g n)
  ∧ (∀ n, adj (AddEdge from to w g) n
          = adj g n ++ (if decide (from = n) then [{| To := to; Weight := w |}] else [])
                  ++ (if decide (to = n) then [{| To := from; Weight := w |}] else [])).
Proof.
  intros H. split; [now apply undirected_AddNode|]. split; [now apply undirected_AddEdge|].
  split; intros n; [apply adj_AddNode | apply adj_AddEdge].
Qed.

Lemma graph_building_witness :
  undirected NewGraph
  ∧ undirected (AddEdge "A" "B" 4 NewGraph)
  ∧ adj (AddEdge "A" "B" 4 NewGraph) "B" = [{| To := "A"; Weight := 4 |}].
Proof.
  assert (H0 : undirected NewGraph) by (intros n e H; inversion H).
  split; [exact H0|].
  destruct (graph_building_keeps_graph_undirected NewGraph "A" 0 0 "A" "B" 4 H0)
    as (_ & H2 & _ & H4).
  split; [exact H2|]. rewrite H4. reflexivity.
Defined.

End GraphSearchFacts.

(* ===================================================================== *)
(** * Properties of the AVL tree *)
(* ===================================================================== *)

Module AVLFacts.
Import AVL AVLSpec.

Lemma max_spec a b : AVL.max a b = Z.max a b.
Proof. unfold AVL.max. destruct (Z.gtb_spec a b); lia. Qed.

Lemma avl_ok_height_nonneg t : avl_ok t → 0 <= height t.
Proof.
  induction t as [|i v h l IHl r IHr]; cbn; [lia|].
  intros (_ & -> & Hl & Hr). specialize (IHl Hl). specialize (IHr Hr). lia.
Qed.

Lemma avl_ok_height_pos i v h l r : avl_ok (Node i v h l r) → 1 <= h.
Proof.
  cbn. intros (_ & -> & Hl & Hr).
  pose proof (avl_ok_height_nonneg _ Hl). pose proof (avl_ok_height_nonneg _ Hr). lia.
Qed.

(** In an AVL tree the stored height is the true one. *)
Lemma avl_ok_height_depth t : avl_ok t → height t = Z.of_nat (depth t).
Proof.
  induction t as [|i v h l IHl r IHr]; cbn; [reflexivity|].
  intros (_ & -> & Hl & Hr). rewrite (IHl Hl), (IHr Hr). lia.
Qed.

Ltac cmp :=
  repeat match goal with
    | |- context [?a >? ?b] => rewrite (Z.gtb_ltb a b)
    | |- context [?a <? ?b] => destruct (Z.ltb_spec a b); try lia
    end.

Ltac heights :=
  repeat match goal with
    | H : avl_ok (Node _ _ _ _ _) |- _ =>
        let Hb := fresh "Hb" in let Hh := fresh "Hh" in
        let Hl := fresh "Hl" in let Hr := fresh "Hr" in
        cbn [avl_ok getBalance height] in H; destruct H as (Hb & Hh & Hl & Hr)
    end;
  repeat match goal with
    | H : avl_ok ?t |- _ =>
        lazymatch goal with
        | _ : 0 <= height t |- _ => fail
        | _ => pose proof (avl_ok_height_nonneg t H)
        end
    end.

Lemma height_pos_Node t : avl_ok t → 1 <= height t →
  ∃ i v h l r, t = Node i v h l r.
Proof. destruct t; cbn; [lia | eauto 10]. Qed.

(** The tail of [insert] after the value went into the left subtree. *)
Lemma insertRebalance_left k i x h l r l' v s :
  avl_ok (Node i x h l r) → v < x → insert_post l v l' →
  ∃ t' s', insertRebalance k i x l' r v s = Some (t', s')
           ∧ insert_post (Node i x h l r) v t'.
Proof.
  intros Hok Hvx (Hl' & Hgrow). heights.
  unfold insertRebalance. cbn [getBalance height]. rewrite !max_spec.
  destruct Hgrow as [Hsame | (Hup & Hshape)].
  - (* the left subtree kept its height: no rotation *)
    unfold and_then. cmp. cbn [mbind option_bind].
    do 2 eexists. split; [reflexivity|].
    split; [cbn; rewrite ?max_spec; repeat split; auto; lia | left; cbn; lia].
  - destruct (Z.le_gt_cases (height l) (height r)) as [Hle | Hgt].
    + (* it grew, within balance *)
      unfold and_then. cmp. cbn [mbind option_bind].
      do 2 eexists. split; [reflexivity|].
      split; [cbn; repeat split; auto; lia|].
      destruct (Z.eq_dec (height l) (height r)).
      * right. split; [cbn; lia|]. do 3 eexists. split; [reflexivity|]. left. lia.
      * left. cbn. lia.
    + (* it grew out of balance: LL or LR *)
      destruct l as [|li lx lh ll lr]; [cbn in *; lia|].
      destruct Hshape as (h' & ll' & lr' & -> & Hside).
      heights. cbn [height] in *.
      destruct Hside as [(Hlt & Hs) | (Hlt & Hs)].
      * (* LL *)
        unfold and_then. cbn [valueOf mbind option_bind]. cmp.
        cbn [rightRotate height]. rewrite !max_spec.
        do 2 eexists. split; [reflexivity|].
        split; [cbn; rewrite ?max_spec; repeat split; auto; lia | left; cbn; lia].
      * (* LR *)
        destruct (height_pos_Node lr') as (yi & yv & yh & yl & yr & ->); [auto | lia |].
        heights. cbn [height] in *.
        unfold and_then. cbn [valueOf mbind option_bind]. cmp.
        cbn [leftRotate rightRotate height mbind option_bind]. rewrite !max_spec.
        do 2 eexists. split; [reflexivity|].
        split; [cbn; rewrite ?max_spec; repeat split; auto; lia | left; cbn; lia].
Qed.

(** The tail of [insert] after the value went into the right subtree. *)
Lemma insertRebalance_right k i x h l r r' v s :
  avl_ok (Node i x h l r) → x < v → insert_post r v r' →
  ∃ t' s', insertRebalance k i x l r' v s = Some (t', s')
           ∧ insert_post (Node i x h l r) v t'.
Proof.
  intros Hok Hvx (Hr' & Hgrow). heights.
  unfold insertRebalance. cbn [getBalance height]. rewrite !max_spec.
  destruct Hgrow as [Hsame | (Hup & Hshape)].
  - unfold and_then. cmp. cbn [mbind option_bind].
    do 2 eexists. split; [reflexivity|].
    split; [cbn; rewrite ?max_spec; repeat split; auto; lia | left; cbn; lia].
  - destruct (Z.le_gt_cases (height r) (height l)) as [Hle | Hgt].
    + unfold and_then. cmp. cbn [mbind option_bind].
      do 2 eexists. split; [reflexivity|].
      split; [cbn; repeat split; auto; lia|].
      destruct (Z.eq_dec (height l) (height r)).
      * right. split; [cbn; lia|]. do 3 eexists. split; [reflexivity|]. right. lia.
      * left. cbn. lia.
    + destruct r as [|ri rx rh rl rr]; [cbn in *; lia|].
      destruct Hshape as (h' & rl' & rr' & -> & Hside).
      heights. cbn [height] in *.
      destruct Hside as [(Hlt & Hs) | (Hlt & Hs)].
      * (* RL *)
        destruct (height_pos_Node rl') as (yi & yv & yh & yl & yr & ->); [auto | lia |].
        heights. cbn [height] in *.
        unfold and_then. cbn [valueOf mbind option_bind]. cmp.
        cbn [leftRotate rightRotate height mbind option_bind]. rewrite !max_spec.
        do 2 eexists. split; [reflexivity|].
        split; [cbn; rewrite ?max_spec; repeat split; auto; lia | left; cbn; lia].
      * (* RR *)
        unfold and_then. cbn [valueOf mbind option_bind]. cmp.
        cbn [leftRotate height]. rewrite !max_spec.
        do 2 eexists. split; [reflexivity|].
        split; [cbn; rewrite ?max_spec; repeat split; auto; lia | left; cbn; lia].
Qed.

Lemma insert_spec t : avl_ok t → ∀ k v s,
  ∃ t' s', insert k t v s = Some (t', s') ∧ insert_post t v t'.
Proof.
  induction t as [|i x h l IHl r IHr]; intros Hok k v s.
  - cbn. do 2 eexists. split; [reflexivity|].
    split; [cbn; repeat split; lia|]. right. cbn. auto.
  - cbn [insert]. pose proof Hok as Hok'. cbn in Hok'. destruct Hok' as (Hb & Hh & Hl & Hr).
    destruct (Z.ltb_spec v x) as [Hlt | Hge].
    + edestruct (IHl Hl) as (l' & s1 & -> & Hpost). cbn [mbind option_bind].
      eapply insertRebalance_left; eauto.
    + rewrite Z.gtb_ltb. destruct (Z.ltb_spec x v) as [Hgt | Hle].
      * edestruct (IHr Hr) as (r' & s1 & -> & Hpost). cbn [mbind option_bind].
        eapply insertRebalance_right; eauto.
      * do 2 eexists. split; [reflexivity|]. split; [exact Hok | left; reflexivity].
Qed.

Lemma Insert_avl_ok v t : avl_ok (Root t) →
  ∃ res t', Insert v t = Some (res, t') ∧ avl_ok (Root t').
Proof.
  intros Hok. unfold Insert.
  edestruct (insert_spec (Root t) Hok) as (t' & s' & -> & Hpost & _).
  cbn. eauto.
Qed.

Lemma inserts_avl_ok vs : ∀ t, avl_ok (Root t) →
  ∃ t', inserts vs t = Some t' ∧ avl_ok (Root t').
Proof.
  induction vs as [|v vs IH]; intros t Hok; cbn; [eauto|].
  destruct (Insert_avl_ok v t Hok) as (res & t1 & -> & Hok1). eauto.
Qed.

(** C6: after any finite sequence of Inserts into an initially empty AVL
    tree (each Insert returns), every node has its balance factor
    height(left) - height(right) in [-1, 1] and stores
    1 + max(height(left), height(right)), an absent child counting 0; the
    stored heights are then the true heights of the subtrees. *)
Theorem avl_inserts_keep_balance (vs : list Z) :
  ∃ t, inserts vs NewAVLTree = Some t
       ∧ avl_ok (Root t)
       ∧ height (Root t) = Z.of_nat (depth (Root t)).
Proof.
  destruct (inserts_avl_ok vs NewAVLTree) as (t & Ht & Hok); [exact I|].
  exists t. split; [exact Ht|]. split; [exact Hok|].
  apply avl_ok_height_depth, Hok.
Qed.

(** *** Inserting a key that is already there *)

Lemma insertRebalance_unchanged k i x h l r v s :
  avl_ok (Node i x h l r) →
  insertRebalance k i x l r v s = Some (Node i x h l r, s).
Proof.
  intros Hok. heights. unfold insertRebalance. cbn [getBalance height].
  rewrite !max_spec. unfold and_then. cmp. cbn [mbind option_bind].
  rewrite Hh. reflexivity.
Qed.

Lemma kinds_addStep ty d i hl root s :
  kinds (lsteps (addStep ty d i hl root s)) = kinds (lsteps s) ++ [ty].
Proof. unfold kinds, addStep. cbn. now rewrite map_app. Qed.

Lemma lnextID_addStep ty d i hl root s :
  lnextID (addStep ty d i hl root s) = lnextID s.
Proof. reflexivity. Qed.

Lemma insert_duplicate t : avl_ok t → bst t → ∀ v, v ∈ keys t → ∀ k s,
  ∃ s' n, insert k t v s = Some (t, s')
          ∧ lnextID s' = lnextID s
          ∧ kinds (lsteps s') = kinds (lsteps s) ++ repeat StepCompare (S n).
Proof.
  induction t as [|i x h l IHl r IHr]; intros Hok Hbst v Hin k s; [inversion Hin|].
  pose proof Hok as Hok'. cbn in Hok'. destruct Hok' as (_ & _ & Hl & Hr).
  destruct Hbst as (Hlo & Hhi & Hbl & Hbr).
  cbn [keys] in Hin. rewrite elem_of_app, elem_of_cons in Hin.
  rewrite Forall_forall in Hlo, Hhi.
  cbn [insert]. rewrite Z.gtb_ltb.
  destruct (Z.ltb_spec v x) as [Hlt | Hge].
  - destruct Hin as [Hin | [-> | Hin]]; [| lia | apply Hhi in Hin; lia].
    edestruct (IHl Hl Hbl v Hin) as (s' & n & -> & Hid & Hk). cbn [mbind option_bind].
    rewrite (insertRebalance_unchanged _ _ _ h) by exact Hok.
    exists s', (S n). split; [reflexivity|]. split; [exact Hid|].
    rewrite Hk, kinds_addStep, <- app_assoc. reflexivity.
  - destruct (Z.ltb_spec x v) as [Hgt | Hle].
    + destruct Hin as [Hin | [-> | Hin]]; [apply Hlo in Hin; lia | lia |].
      edestruct (IHr Hr Hbr v Hin) as (s' & n & -> & Hid & Hk). cbn [mbind option_bind].
      rewrite (insertRebalance_unchanged _ _ _ h) by exact Hok.
      exists s', (S n). split; [reflexivity|]. split; [exact Hid|].
      rewrite Hk, kinds_addStep, <- app_assoc. reflexivity.
    + eexists _, O. split; [reflexivity|]. split; [reflexivity|].
      now rewrite kinds_addStep.
Qed.

(** Insert of a key the AVL tree already holds: the tree, the id counter
    and the snapshot stay as they were, and the trace is the opening step,
    the comparisons down to the one that meets the key, and the closing
    step: nothing is created or rotated. *)
Lemma Insert_duplicate_noop v t :
  avl_ok (Root t) → bst (Root t) → v ∈ keys (Root t) →
  ∃ res t' n, Insert v t = Some (res, t')
    ∧ Root t' = Root t ∧ nextID t' = nextID t
    ∧ Success res = true
    ∧ FinalTree res = getTreeSnapshot (Root t)
    ∧ kinds (Steps res) = StepInsert :: repeat StepCompare (S n) ++ [StepComplete].
Proof.
  intros Hok Hbst Hin. unfold Insert.
  edestruct (insert_duplicate (Root t) Hok Hbst v Hin) as (s' & n & -> & Hid & Hk).
  cbn [mbind option_bind]. do 3 eexists. split; [reflexivity|].
  cbn [Root nextID Success FinalTree Steps].
  rewrite lnextID_addStep, Hid, kinds_addStep, Hk, kinds_addStep.
  repeat split; reflexivity.
Qed.

(** *** Deleting a key that is not there *)

Lemma contains_absent t v : v ∉ keys t → contains t v = false.
Proof.
  induction t as [|i x h l IHl r IHr]; cbn; [reflexivity|]. intros Hn.
  rewrite elem_of_app, elem_of_cons in Hn.
  destruct (Z.eqb_spec v x) as [-> | Hne]; [tauto|].
  destruct (v <? x); [apply IHl | apply IHr]; tauto.
Qed.

Lemma Delete_absent v t : v ∉ keys (Root t) →
  ∃ res t' notFound, Delete v t = Some (res, t')
    ∧ Success res = false
    ∧ Message res = Some (Sprintf "值 %d 不存在，无法删除" [AInt v])
    ∧ last (Steps res) = Some notFound ∧ Type_ notFound = StepNotFound
    ∧ TreeState notFound = getTreeSnapshot (Root t)
    ∧ Root t' = Root t ∧ nextID t' = nextID t
    ∧ FinalTree res = getTreeSnapshot (Root t).
Proof.
  intros Hn. unfold Delete. rewrite (contains_absent _ _ Hn). cbn [negb].
  do 3 eexists. split; [reflexivity|]. cbn [Success Message Steps Root nextID FinalTree].
  unfold addStep at 1. cbn [lsteps]. rewrite last_snoc.
  repeat split; reflexivity.
Qed.

End AVLFacts.

(* ===================================================================== *)
(** * Search order and balance of the AVL tree across its operations *)
(* ===================================================================== *)

Module AVLOrderFacts.
Import AVL AVLSpec AVLFacts.

(** *** The order of the keys *)

Lemma keys_nodes t : keys t = map snd (nodes t).
Proof.
  induction t as [|i v h l IHl r IHr]; [reflexivity|].
  cbn [keys nodes]. rewrite map_app. cbn. now rewrite IHl, IHr.
Qed.

Lemma sorted_app_cons (l1 l2 : list Z) x :
  StronglySorted Z.lt (l1 ++ x :: l2)
  ↔ StronglySorted Z.lt l1 ∧ StronglySorted Z.lt l2
    ∧ Forall (fun y => y < x) l1 ∧ Forall (fun y => x < y) l2.
Proof.
  induction l1 as [|a l1 IH]; cbn [app].
  - split.
    + intros H. inversion H; subst. repeat split; auto; constructor.
    + intros (_ & H2 & _ & Hx). now constructor.
  - split.
    + intros H. inversion H as [|? ? Hs Ha]; subst. apply IH in Hs as (H1 & H2 & H3 & H4).
      rewrite Forall_app, Forall_cons in Ha. destruct Ha as (Ha1 & Hax & Ha2).
      repeat split; auto; constructor; auto.
    + intros (H1 & H2 & H3 & H4). inversion H1; subst. inversion H3; subst.
      constructor; [apply IH; auto|].
      rewrite Forall_app, Forall_cons. repeat split; auto.
      eapply Forall_impl; [exact H4|]. cbn. intros; lia.
Qed.

Lemma bst_sorted t : bst t ↔ StronglySorted Z.lt (keys t).
Proof.
  induction t as [|i v h l IHl r IHr]; cbn [bst keys].
  - split; [constructor | auto].
  - rewrite sorted_app_cons, IHl, IHr. tauto.
Qed.

(** *** [ins] *)

Lemma elem_of_ins v l k : k ∈ ins v l ↔ k = v ∨ k ∈ l.
Proof.
  induction l as [|x l IH]; cbn [ins].
  - rewrite elem_of_cons, elem_of_nil. tauto.
  - destruct (Z.ltb_spec v x); [rewrite !elem_of_cons; tauto|].
    destruct (Z.ltb_spec x v); [rewrite !elem_of_cons, IH; tauto|].
    assert (v = x) by lia. subst. rewrite !elem_of_cons. tauto.
Qed.

Lemma ins_app_left v l1 x l2 :
  v < x → ins v (l1 ++ x :: l2) = ins v l1 ++ x :: l2.
Proof.
  intros Hv. induction l1 as [|a l1 IH]; cbn [ins app].
  - destruct (Z.ltb_spec v x); [reflexivity | lia].
  - destruct (Z.ltb_spec v a); [reflexivity|].
    destruct (Z.ltb_spec a v); [now rewrite IH | reflexivity].
Qed.

Lemma ins_app_right v l1 x l2 :
  Forall (fun y => y < v) l1 → x < v →
  ins v (l1 ++ x :: l2) = l1 ++ x :: ins v l2.
Proof.
  intros Hl Hx. induction Hl as [|a l1 Ha _ IH]; cbn [ins app].
  - destruct (Z.ltb_spec v x); [lia|]. destruct (Z.ltb_spec x v); [reflexivity | lia].
  - destruct (Z.ltb_spec v a); [lia|]. destruct (Z.ltb_spec a v); [now rewrite IH | lia].
Qed.

Lemma ins_app_here v l1 l2 :
  Forall (fun y => y < v) l1 → ins v (l1 ++ v :: l2) = l1 ++ v :: l2.
Proof.
  intros Hl. induction Hl as [|a l1 Ha _ IH]; cbn [ins app].
  - rewrite Z.ltb_irrefl. reflexivity.
  - destruct (Z.ltb_spec v a); [lia|]. destruct (Z.ltb_spec a v); [now rewrite IH | lia].
Qed.

Lemma ins_sorted v l : StronglySorted Z.lt l → StronglySorted Z.lt (ins v l).
Proof.
  induction 1 as [|x l Hs IH Hx]; cbn [ins]; [repeat constructor|].
  destruct (Z.ltb_spec v x).
  - constructor; [now constructor|]. constructor; [lia|].
    eapply Forall_impl; [exact Hx|]. cbn. intros; lia.
  - destruct (Z.ltb_spec x v); [|now constructor].
    constructor; [exact IH|]. apply Forall_forall. intros k Hk.
    apply elem_of_ins in Hk as [-> | Hk]; [lia|].
    rewrite Forall_forall in Hx. now apply Hx.
Qed.

Lemma ins_present v l : StronglySorted Z.lt l → v ∈ l → ins v l = l.
Proof.
  induction 1 as [|x l Hs IH Hx]; intros Hin; [inversion Hin|].
  cbn [ins]. rewrite Forall_forall in Hx.
  apply elem_of_cons in Hin as [-> | Hin].
  - now rewrite Z.ltb_irrefl.
  - specialize (Hx _ Hin). destruct (Z.ltb_spec v x); [lia|].
    destruct (Z.ltb_spec x v); [now rewrite IH | lia].
Qed.

Lemma ins_absent_length v l :
  StronglySorted Z.lt l → v ∉ l → length (ins v l) = S (length l).
Proof.
  induction 1 as [|x l Hs IH Hx]; intros Hin; [reflexivity|].
  cbn [ins]. rewrite not_elem_of_cons in Hin. destruct Hin as (Hne & Hin).
  destruct (Z.ltb_spec v x); [reflexivity|].
  destruct (Z.ltb_spec x v); [cbn; now rewrite IH | lia].
Qed.

Lemma ins_split v l1 l2 :
  Forall (fun y => y < v) l1 → Forall (fun y => v < y) l2 →
  ins v (l1 ++ l2) = l1 ++ v :: l2.
Proof.
  intros H1 H2. induction H1 as [|a l1 Ha _ IH]; cbn [ins app].
  - destruct H2 as [|b l2 Hb _]; cbn [ins]; [reflexivity|].
    destruct (Z.ltb_spec v b); [reflexivity | lia].
  - destruct (Z.ltb_spec v a); [lia|]. destruct (Z.ltb_spec a v); [now rewrite IH | lia].
Qed.

Lemma sorted_app (l1 l2 : list Z) :
  StronglySorted Z.lt (l1 ++ l2)
  ↔ StronglySorted Z.lt l1 ∧ StronglySorted Z.lt l2
    ∧ Forall (fun x => Forall (fun y => x < y) l2) l1.
Proof.
  induction l1 as [|a l1 IH]; cbn [app].
  - split; [intros H; repeat split; auto; constructor | tauto].
  - split.
    + intros H. inversion H as [|? ? Hs Ha]; subst. apply IH in Hs as (H1 & H2 & H3).
      rewrite Forall_app in Ha. destruct Ha as (Ha1 & Ha2).
      repeat split; auto; constructor; auto.
    + intros (H1 & H2 & H3). inversion H1; subst. inversion H3; subst.
      constructor; [apply IH; auto|]. rewrite Forall_app. auto.
Qed.

(** *** Rotations and rebalancing keep the nodes in their order *)

Lemma rightRotate_nodes k y s x' s' :
  rightRotate k y s = Some (x', s') → nodes x' = nodes y ∧ lnextID s' = lnextID s.
Proof.
  destruct y as [|yi yv yh [|xi xv xh xl T2] yr]; cbn; try discriminate.
  intros [= <- <-]. cbn. rewrite <- app_assoc. auto.
Qed.

Lemma leftRotate_nodes k x s y' s' :
  leftRotate k x s = Some (y', s') → nodes y' = nodes x ∧ lnextID s' = lnextID s.
Proof.
  destruct x as [|xi xv xh xl [|yi yv yh T2 yr]]; cbn; try discriminate.
  intros [= <- <-]. cbn. rewrite <- app_assoc. auto.
Qed.

Ltac rebalance_cases H :=
  repeat match type of H with
    | context [and_then ?b ?o] =>
        destruct (and_then b o) as [[]|] eqn:?; cbn [mbind option_bind] in H;
        try discriminate
    | context [if ?b then _ else _] =>
        destruct b eqn:?; cbn [mbind option_bind] in H; try discriminate
    | context [leftRotate ?k ?x ?s ≫= _] =>
        let E := fresh "E" in
        destruct (leftRotate k x s) as [[? ?]|] eqn:E; cbn [mbind option_bind] in H;
        [apply leftRotate_nodes in E as (? & ?) | discriminate]
    | context [rightRotate ?k ?x ?s ≫= _] =>
        let E := fresh "E" in
        destruct (rightRotate k x s) as [[? ?]|] eqn:E; cbn [mbind option_bind] in H;
        [apply rightRotate_nodes in E as (? & ?) | discriminate]
    end;
  first [ apply leftRotate_nodes in H as (? & ?)
        | apply rightRotate_nodes in H as (? & ?)
        | injection H as <- <- ].

Lemma insertRebalance_nodes k i x l r v s t' s' :
  insertRebalance k i x l r v s = Some (t', s') →
  nodes t' = nodes l ++ (i, x) :: nodes r ∧ lnextID s' = lnextID s.
Proof.
  unfold insertRebalance. intros H.
  rebalance_cases H; unfold addStep in *; cbn [nodes lnextID] in *; split; congruence.
Qed.

Lemma deleteRebalance_nodes k i x l r s t' s' :
  deleteRebalance k i x l r s = Some (t', s') →
  nodes t' = nodes l ++ (i, x) :: nodes r ∧ lnextID s' = lnextID s.
Proof.
  unfold deleteRebalance. intros H.
  rebalance_cases H; unfold addStep in *; cbn [nodes lnextID] in *; split; congruence.
Qed.

(** *** Insert *)

Lemma Forall_keys_nodes (P : Z → Prop) t :
  Forall P (keys t) ↔ Forall (fun p => P p.2) (nodes t).
Proof. rewrite keys_nodes, Forall_fmap. reflexivity. Qed.

(** Where [insert] puts the new node: after the nodes with a smaller key
    and before those with a larger one, with the next free id; a key that
    is there already changes nothing in the order of the nodes. *)
Lemma insert_nodes t : bst t → ∀ k v s t' s',
  insert k t v s = Some (t', s') →
  ((v ∈ keys t) ∧ nodes t' = nodes t ∧ lnextID s' = lnextID s)
  ∨ ((v ∉ keys t) ∧ lnextID s' = lnextID s + 1
     ∧ ∃ n1 n2, nodes t = n1 ++ n2 ∧ nodes t' = n1 ++ (lnextID s, v) :: n2
                ∧ Forall (fun p => p.2 < v) n1 ∧ Forall (fun p => v < p.2) n2).
Proof.
  induction t as [|i x h l IHl r IHr]; intros Hbst k v s t' s' H.
  - cbn in H. injection H as <- <-. right. split; [apply not_elem_of_nil|].
    split; [reflexivity|]. exists [], []. cbn. auto.
  - destruct Hbst as (Hlo & Hhi & Hbl & Hbr). cbn [insert] in H. rewrite Z.gtb_ltb in H.
    pose proof Hlo as Hlo'. pose proof Hhi as Hhi'.
    rewrite Forall_forall in Hlo', Hhi'.
    apply Forall_keys_nodes in Hlo. apply Forall_keys_nodes in Hhi.
    cbn [keys nodes].
    destruct (Z.ltb_spec v x) as [Hlt | Hge].
    + destruct (insert _ l v _) as [[l' s2]|] eqn:E; cbn [mbind option_bind] in H;
        [|discriminate].
      apply insertRebalance_nodes in H as (Hn & Hid).
      apply IHl in E as [(Hin & Hnl & Hidl) | (Hnin & Hidl & n1 & n2 & Hl & Hl' & H1 & H2)];
        [| |exact Hbl].
      * left. split; [set_solver|]. split; [congruence|]. rewrite Hid, Hidl. reflexivity.
      * right. split.
        { rewrite elem_of_app, elem_of_cons. intros [? | [-> | Hr]];
            [tauto | lia | apply Hhi' in Hr; lia]. }
        split; [rewrite Hid, Hidl; reflexivity|].
        exists n1, (n2 ++ (i, x) :: nodes r).
        rewrite Hn, Hl, Hl', <- !app_assoc. cbn.
        split; [reflexivity|]. split; [reflexivity|]. split; [exact H1|].
        rewrite Forall_app, Forall_cons. split; [exact H2|]. split; [exact Hlt|].
        eapply Forall_impl; [exact Hhi|]. cbn. intros; lia.
    + destruct (Z.ltb_spec x v) as [Hgt | Hle].
      * destruct (insert _ r v _) as [[r' s2]|] eqn:E; cbn [mbind option_bind] in H;
          [|discriminate].
        apply insertRebalance_nodes in H as (Hn & Hid).
        apply IHr in E as [(Hin & Hnr & Hidr) | (Hnin & Hidr & n1 & n2 & Hr & Hr' & H1 & H2)];
          [| |exact Hbr].
        -- left. split; [set_solver|]. split; [congruence|]. rewrite Hid, Hidr. reflexivity.
        -- right. split.
           { rewrite elem_of_app, elem_of_cons. intros [Hl | [-> | ?]];
               [apply Hlo' in Hl; lia | lia | tauto]. }
           split; [rewrite Hid, Hidr; reflexivity|].
           exists (nodes l ++ (i, x) :: n1), n2.
           rewrite Hn, Hr, Hr', <- !app_assoc. cbn.
           split; [reflexivity|]. split; [reflexivity|]. split; [|exact H2].
           rewrite Forall_app, Forall_cons. split; [|split; [exact Hgt | exact H1]].
           eapply Forall_impl; [exact Hlo|]. cbn. intros; lia.
      * injection H as <- <-. left. assert (v = x) by lia. subst x.
        split; [set_solver|]. split; reflexivity.
Qed.

Lemma sorted_keys_nodes_split n1 n2 (v : Z) :
  StronglySorted Z.lt (map snd (n1 ++ n2)) →
  Forall (fun p : Z * Z => p.2 < v) n1 → Forall (fun p : Z * Z => v < p.2) n2 →
  StronglySorted Z.lt (map snd (n1 ++ (0, v) :: n2))
  ∧ map snd (n1 ++ (0, v) :: n2) = ins v (map snd (n1 ++ n2)).
Proof.
  intros Hs H1 H2. rewrite !map_app in *. cbn [map snd].
  apply sorted_app in Hs as (Hs1 & Hs2 & _).
  split.
  - apply sorted_app_cons. repeat split; auto; now apply Forall_fmap.
  - symmetry. apply ins_split; now apply Forall_fmap.
Qed.

Lemma Insert_inv v t :
  AVLInv t →
  ∃ res t',
    Insert v t = Some (res, t')
    ∧ Success res = true
    ∧ FinalTree res = getTreeSnapshot (Root t')
    ∧ AVLInv t'
    ∧ keys (Root t') = ins v (keys (Root t))
    ∧ nextID t' = (if bool_decide (v ∈ keys (Root t)) then nextID t else nextID t + 1).
Proof.
  intros (Hok & Hbst & Hnd & Hran). unfold Insert.
  match goal with
  | |- context [insert ?k (Root t) v ?s1] =>
      destruct (insert_spec (Root t) Hok k v s1) as (root & s2 & E & Hpost & _);
      pose proof (insert_nodes (Root t) Hbst k v s1 root s2 E) as Hn
  end.
  rewrite E. cbn [mbind option_bind]. do 2 eexists. split; [reflexivity|].
  cbn [Success FinalTree Root nextID]. split; [reflexivity|]. split; [reflexivity|].
  rewrite lnextID_addStep. unfold addStep in Hn. cbn [lnextID] in Hn.
  pose proof Hbst as Hsorted. apply bst_sorted in Hsorted.
  unfold AVLInv. cbn [Root nextID]. rewrite ?lnextID_addStep.
  destruct Hn as [(Hin & Hnodes & Hid) | (Hnin & Hid & n1 & n2 & Ht & Ht' & H1 & H2)].
  - rewrite bool_decide_eq_true_2 by exact Hin.
    assert (Hk : keys root = keys (Root t)) by (rewrite !keys_nodes; congruence).
    rewrite Hid. unfold ids. rewrite Hnodes.
    split; [|split; [rewrite Hk; symmetry; now apply ins_present | reflexivity]].
    split; [exact Hpost|]. split; [apply bst_sorted; now rewrite Hk|]. split; assumption.
  - rewrite bool_decide_eq_false_2 by exact Hnin.
    rewrite keys_nodes, Ht in Hsorted.
    destruct (sorted_keys_nodes_split n1 n2 v Hsorted H1 H2) as (Hs' & Hins).
    assert (Hk : keys root = ins v (keys (Root t))).
    { rewrite !keys_nodes, Ht, Ht', <- Hins, !map_app. reflexivity. }
    rewrite Hid.
    split; [|split; [exact Hk | reflexivity]].
    split; [exact Hpost|].
    split; [apply bst_sorted; rewrite keys_nodes, Ht', map_app in *; exact Hs'|].
    unfold ids in *. rewrite Ht in Hnd, Hran. rewrite Ht'.
    rewrite !map_app in *. cbn [map fst].
    apply NoDup_app in Hnd as (Hnd1 & Hnd12 & Hnd2).
    rewrite Forall_app in Hran. destruct Hran as (Hr1 & Hr2).
    rewrite Forall_forall in Hr1, Hr2.
    split.
    + apply NoDup_app. split; [exact Hnd1|]. split.
      * intros a Ha. rewrite not_elem_of_cons. split; [|now apply Hnd12].
        apply Hr1 in Ha. cbn in *. lia.
      * apply NoDup_cons. split; [|exact Hnd2].
        intros Ha. apply Hr2 in Ha. cbn in *. lia.
    + rewrite Forall_app, Forall_cons. repeat split.
      * apply Forall_forall. intros a Ha. apply Hr1 in Ha. lia.
      * cbn. lia.
      * apply Forall_forall. intros a Ha. apply Hr2 in Ha. lia.
Qed.

(** *** Search *)

Lemma searchFrom_spec root t : bst t → ∀ v s,
  ∃ n, (n ≤ depth t)%nat
    ∧ Success (searchFrom root t v s).1 = bool_decide (v ∈ keys t)
    ∧ Steps (searchFrom root t v s).1 = lsteps (searchFrom root t v s).2
    ∧ FinalTree (searchFrom root t v s).1 = getTreeSnapshot root
    ∧ lnextID (searchFrom root t v s).2 = lnextID s
    ∧ kinds (lsteps (searchFrom root t v s).2)
      = kinds (lsteps s) ++ repeat StepCompare n
        ++ [if bool_decide (v ∈ keys t) then StepFound else StepNotFound].
Proof.
  induction t as [|i x h l IHl r IHr]; intros Hbst v s.
  - exists O. cbn [searchFrom fst snd Success Steps FinalTree keys depth repeat app].
    rewrite kinds_addStep.
    rewrite bool_decide_eq_false_2 by apply not_elem_of_nil. repeat split. lia.
  - destruct Hbst as (Hlo & Hhi & Hbl & Hbr). rewrite Forall_forall in Hlo, Hhi.
    cbn [searchFrom keys depth].
    destruct (Z.eqb_spec v x) as [-> | Hne].
    + exists 1%nat. cbn [fst snd Success Steps FinalTree]. rewrite !kinds_addStep.
      rewrite bool_decide_eq_true_2 by set_solver.
      rewrite <- app_assoc. repeat split. lia.
    + destruct (Z.ltb_spec v x) as [Hlt | Hge].
      * destruct (IHl Hbl v (addStep StepCompare
                               (Sprintf "比较 %d 与节点 %d" [AInt v; AInt x])
                               (Some i) [i] root s))
          as (n & Hn & Hs & Hst & Hf & Hid & Hk).
        exists (S n). rewrite Hs, Hst, Hf, Hid, Hk, kinds_addStep, <- app_assoc.
        assert (Hiff : v ∈ keys l ↔ v ∈ keys l ++ x :: keys r).
        { rewrite elem_of_app, elem_of_cons. split; [tauto|].
          intros [? | [? | Hr]]; [tauto | lia | apply Hhi in Hr; lia]. }
        rewrite (bool_decide_ext _ _ Hiff). repeat split. lia.
      * destruct (IHr Hbr v (addStep StepCompare
                               (Sprintf "比较 %d 与节点 %d" [AInt v; AInt x])
                               (Some i) [i] root s))
          as (n & Hn & Hs & Hst & Hf & Hid & Hk).
        exists (S n). rewrite Hs, Hst, Hf, Hid, Hk, kinds_addStep, <- app_assoc.
        assert (Hiff : v ∈ keys r ↔ v ∈ keys l ++ x :: keys r).
        { rewrite elem_of_app, elem_of_cons. split; [tauto|].
          intros [Hl | [? | ?]]; [apply Hlo in Hl; lia | lia | tauto]. }
        rewrite (bool_decide_ext _ _ Hiff). repeat split. lia.
Qed.

Lemma Search_spec v t :
  bst (Root t) →
  ∃ n, (n ≤ depth (Root t))%nat
    ∧ Root (Search v t).2 = Root t ∧ nextID (Search v t).2 = nextID t
    ∧ steps (Search v t).2 = Steps (Search v t).1
    ∧ Success (Search v t).1 = bool_decide (v ∈ keys (Root t))
    ∧ FinalTree (Search v t).1 = getTreeSnapshot (Root t)
    ∧ kinds (Steps (Search v t).1)
      = repeat StepCompare n
        ++ [if bool_decide (v ∈ keys (Root t)) then StepFound else StepNotFound].
Proof.
  intros Hbst. unfold Search.
  destruct (searchFrom_spec (Root t) (Root t) Hbst v {| lnextID := nextID t; lsteps := [] |})
    as (n & Hn & Hs & Hst & Hf & Hid & Hk).
  destruct (searchFrom _ _ _ _) as [res s']. cbn [fst snd Root nextID steps] in *.
  exists n. rewrite Hst. repeat split; auto.
Qed.

(** *** Delete: balance *)

Ltac cmp2 :=
  rewrite ?Z.gtb_ltb, ?Z.geb_leb;
  repeat match goal with
    | |- context [?a <? ?b] => destruct (Z.ltb_spec a b); try lia
    | |- context [?a <=? ?b] => destruct (Z.leb_spec a b); try lia
    end;
  cbn [andb].

(** The tail of [delete]: the two subtrees are AVL trees whose heights
    differ by at most two. *)
Lemma deleteRebalance_spec k i v l r s :
  avl_ok l → avl_ok r → -2 <= height l - height r <= 2 →
  ∃ t' s', deleteRebalance k i v l r s = Some (t', s')
    ∧ avl_ok t'
    ∧ (height t' = 1 + Z.max (height l) (height r)
       ∨ (height t' = Z.max (height l) (height r)
          ∧ (height l - height r = 2 ∨ height l - height r = -2))).
Proof.
  intros Hl Hr Hd. heights.
  unfold deleteRebalance. cbn [getBalance height]. rewrite !max_spec.
  destruct (Z.eq_dec (height l - height r) 2) as [H2 | Hn2];
    [|destruct (Z.eq_dec (height l - height r) (-2)) as [Hm2 | Hnm2]].
  - (* the left subtree is two higher *)
    destruct l as [|li lx lh ll lr]; [cbn in *; lia|]. heights. cbn [height getBalance] in *.
    destruct (Z.le_gt_cases 0 (height ll - height lr)) as [Hge | Hlt].
    + cmp2; cbn [rightRotate height]; rewrite ?max_spec;
      do 2 eexists; (split; [reflexivity|]);
      cbn [avl_ok getBalance height]; rewrite ?max_spec; repeat split; auto; lia.
    + destruct (height_pos_Node lr) as (yi & yv & yh & yl & yr & ->); [auto | lia |].
      heights. cbn [height] in *.
      cmp2; cbn [leftRotate rightRotate height mbind option_bind]; rewrite ?max_spec;
      do 2 eexists; (split; [reflexivity|]);
      cbn [avl_ok getBalance height]; rewrite ?max_spec; repeat split; auto; lia.
  - (* the right subtree is two higher *)
    destruct r as [|ri rx rh rl rr]; [cbn in *; lia|]. heights. cbn [height getBalance] in *.
    destruct (Z.le_gt_cases (height rl - height rr) 0) as [Hle | Hgt].
    + cmp2; cbn [leftRotate height]; rewrite ?max_spec;
      do 2 eexists; (split; [reflexivity|]);
      cbn [avl_ok getBalance height]; rewrite ?max_spec; repeat split; auto; lia.
    + destruct (height_pos_Node rl) as (yi & yv & yh & yl & yr & ->); [auto | lia |].
      heights. cbn [height] in *.
      cmp2; cbn [leftRotate rightRotate height mbind option_bind]; rewrite ?max_spec;
      do 2 eexists; (split; [reflexivity|]);
      cbn [avl_ok getBalance height]; rewrite ?max_spec; repeat split; auto; lia.
  - cmp2; do 2 eexists; (split; [reflexivity|]);
    cbn [avl_ok getBalance height]; rewrite ?max_spec; repeat split; auto; lia.
Qed.

Lemma minValueNode_Node i v h l r :
  ∃ si sv sh sr, minValueNode (Node i v h l r) = Node si sv sh Nil sr
    ∧ ∃ rest, nodes (Node i v h l r) = (si, sv) :: rest.
Proof.
  revert i v h r. induction l as [|li lv lh ll IHl lr _]; intros i v h r.
  - exists i, v, h, r. cbn. eauto.
  - destruct (IHl li lv lh lr) as (si & sv & sh & sr & Hm & rest & Hn).
    exists si, sv, sh, sr. split; [exact Hm|].
    cbn [nodes] in *. rewrite Hn. cbn. eauto.
Qed.

Lemma delete_spec t : avl_ok t → ∀ k v s,
  ∃ t' s', delete k t v s = Some (t', s')
    ∧ avl_ok t' ∧ (height t' = height t ∨ height t' = height t - 1).
Proof.
  induction t as [|i x h l IHl r IHr]; intros Hok k v s.
  - cbn. do 2 eexists. split; [reflexivity|]. split; [exact I | auto].
  - cbn [delete]. rewrite Z.gtb_ltb.
    pose proof Hok as Hok'. heights.
    destruct (Z.ltb_spec v x) as [Hlt | Hge].
    + edestruct (IHl Hl) as (l' & s1 & -> & Hl' & Hh'). cbn [mbind option_bind].
      pose proof (avl_ok_height_nonneg _ Hl').
      edestruct (deleteRebalance_spec k i x l' r s1 Hl' Hr) as (t' & s' & -> & Ht' & Hht);
        [lia|].
      do 2 eexists. split; [reflexivity|]. split; [exact Ht'|]. cbn [height]. lia.
    + destruct (Z.ltb_spec x v) as [Hgt | Hle].
      * edestruct (IHr Hr) as (r' & s1 & -> & Hr' & Hh'). cbn [mbind option_bind].
        pose proof (avl_ok_height_nonneg _ Hr').
        edestruct (deleteRebalance_spec k i x l r' s1 Hl Hr') as (t' & s' & -> & Ht' & Hht);
          [lia|].
        do 2 eexists. split; [reflexivity|]. split; [exact Ht'|]. cbn [height]. lia.
      * destruct l as [|li lx lh ll lr].
        { do 2 eexists. split; [reflexivity|]. split; [exact Hr|]. cbn [height] in *. lia. }
        destruct r as [|ri rx rh rl rr].
        { do 2 eexists. split; [reflexivity|]. split; [exact Hl|]. cbn [height] in *. lia. }
        destruct (minValueNode_Node ri rx rh rl rr) as (si & sv & sh & sr & -> & _).
        edestruct (IHr Hr) as (r' & s1 & -> & Hr' & Hh'). cbn [mbind option_bind].
        pose proof (avl_ok_height_nonneg _ Hr').
        edestruct (deleteRebalance_spec k si sv (Node li lx lh ll lr) r' s1 Hl Hr')
          as (t' & s' & -> & Ht' & Hht); [cbn [height] in *; lia|].
        do 2 eexists. split; [reflexivity|]. split; [exact Ht'|]. cbn [height] in *. lia.
Qed.

(** *** Delete: the nodes that stay *)

Lemma delete_nodes t : bst t → ∀ k v s t' s',
  delete k t v s = Some (t', s') →
  lnextID s' = lnextID s
  ∧ (((v ∉ keys t) ∧ nodes t' = nodes t)
     ∨ ∃ n1 i' n2, nodes t = n1 ++ (i', v) :: n2 ∧ nodes t' = n1 ++ n2).
Proof.
  induction t as [|i x h l IHl r IHr]; intros Hbst k v s t' s' H.
  - cbn in H. injection H as <- <-. split; [reflexivity|]. left.
    split; [apply not_elem_of_nil | reflexivity].
  - pose proof Hbst as (Hlo & Hhi & Hbl & Hbr). specialize (IHl Hbl). specialize (IHr Hbr).
    cbn [delete] in H. rewrite Z.gtb_ltb in H.
    rewrite Forall_forall in Hlo, Hhi. cbn [keys nodes].
    destruct (Z.ltb_spec v x) as [Hlt | Hge].
    + destruct (delete _ l v _) as [[l' s2]|] eqn:E; cbn [mbind option_bind] in H;
        [|discriminate].
      apply deleteRebalance_nodes in H as (Hn & Hid).
      apply IHl in E as (Hidl & [(Hnin & Hnl) | (n1 & i' & n2 & Hl & Hl')]).
      * split; [rewrite Hid, Hidl; reflexivity|]. left. split; [|congruence].
        rewrite elem_of_app, elem_of_cons. intros [? | [-> | Hr]];
          [tauto | lia | apply Hhi in Hr; lia].
      * split; [rewrite Hid, Hidl; reflexivity|]. right.
        exists n1, i', (n2 ++ (i, x) :: nodes r).
        rewrite Hn, Hl, Hl', <- !app_assoc. split; reflexivity.
    + destruct (Z.ltb_spec x v) as [Hgt | Hle].
      * destruct (delete _ r v _) as [[r' s2]|] eqn:E; cbn [mbind option_bind] in H;
          [|discriminate].
        apply deleteRebalance_nodes in H as (Hn & Hid).
        apply IHr in E as (Hidr & [(Hnin & Hnr) | (n1 & i' & n2 & Hr & Hr')]).
        -- split; [rewrite Hid, Hidr; reflexivity|]. left. split; [|congruence].
           rewrite elem_of_app, elem_of_cons. intros [Hl | [-> | ?]];
             [apply Hlo in Hl; lia | lia | tauto].
        -- split; [rewrite Hid, Hidr; reflexivity|]. right.
           exists (nodes l ++ (i, x) :: n1), i', n2.
           rewrite Hn, Hr, Hr', <- !app_assoc. split; reflexivity.
      * assert (v = x) by lia. subst x.
        destruct l as [|li lx lh ll lr].
        { injection H as <- <-. split; [reflexivity|]. right.
          exists [], i, (nodes r). split; reflexivity. }
        destruct r as [|ri rx rh rl rr].
        { injection H as <- <-. split; [reflexivity|]. right.
          exists (nodes (Node li lx lh ll lr)), i, []. rewrite app_nil_r. split; reflexivity. }
        destruct (minValueNode_Node ri rx rh rl rr) as (si & sv & sh & sr & Hm & rest & Hrest).
        rewrite Hm in H.
        destruct (delete _ (Node ri rx rh rl rr) sv _) as [[r' s2]|] eqn:E;
          cbn [mbind option_bind] in H; [|discriminate].
        apply deleteRebalance_nodes in H as (Hn & Hid).
        apply IHr in E as (Hidr & Hcase).
        split; [rewrite Hid, Hidr; reflexivity|]. right.
        exists (nodes (Node li lx lh ll lr)), i, (nodes (Node ri rx rh rl rr)).
        split; [reflexivity|]. rewrite Hn. f_equal.
        apply bst_sorted in Hbr. rewrite keys_nodes, Hrest in Hbr. cbn [map snd] in Hbr.
        destruct Hcase as [(Hnin & _) | (n1 & i' & n2 & Hr & Hr')].
        { exfalso. apply Hnin. rewrite keys_nodes, Hrest. cbn. now left. }
        rewrite Hrest in Hr. destruct n1 as [|p n1]; cbn [app] in Hr.
        { injection Hr as <- <-. rewrite Hr', Hrest. reflexivity. }
        exfalso. injection Hr as <- Hr. rewrite Hr, map_app in Hbr. cbn in Hbr.
        inversion Hbr as [|? ? _ Hall]; subst.
        rewrite Forall_app, Forall_cons in Hall. cbn in Hall. lia.
Qed.

Lemma contains_present t v : bst t → v ∈ keys t → contains t v = true.
Proof.
  induction t as [|i x h l IHl r IHr]; intros Hbst Hin; [inversion Hin|].
  destruct Hbst as (Hlo & Hhi & Hbl & Hbr). rewrite Forall_forall in Hlo, Hhi.
  cbn [keys contains] in *. rewrite elem_of_app, elem_of_cons in Hin.
  destruct (Z.eqb_spec v x) as [-> | Hne]; [reflexivity|].
  destruct (Z.ltb_spec v x).
  - apply IHl; [exact Hbl|]. destruct Hin as [? | [? | Hr]]; [tauto | lia | apply Hhi in Hr; lia].
  - apply IHr; [exact Hbr|]. destruct Hin as [Hl | [? | ?]]; [apply Hlo in Hl; lia | lia | tauto].
Qed.

Lemma Delete_inv v t :
  AVLInv t →
  ∃ res t',
    Delete v t = Some (res, t')
    ∧ Success res = bool_decide (v ∈ keys (Root t))
    ∧ FinalTree res = getTreeSnapshot (Root t')
    ∧ AVLInv t'
    ∧ nextID t' = nextID t
    ∧ (∀ k, k ∈ keys (Root t') ↔ k ∈ keys (Root t) ∧ k ≠ v)
    ∧ ((v ∉ keys (Root t)) ∧ Root t' = Root t
       ∨ ∃ k1 k2, keys (Root t) = k1 ++ v :: k2 ∧ keys (Root t') = k1 ++ k2).
Proof.
  intros (Hok & Hbst & Hnd & Hran). unfold Delete.
  destruct (decide (v ∈ keys (Root t))) as [Hin | Hnin].
  - rewrite (contains_present _ _ Hbst Hin). cbn [negb].
    match goal with
    | |- context [delete ?k (Root t) v ?s1] =>
        destruct (delete_spec (Root t) Hok k v s1) as (root & s2 & E & Hok' & _);
        pose proof (delete_nodes (Root t) Hbst k v s1 root s2 E) as (Hid & Hn)
    end.
    rewrite E. cbn [mbind option_bind]. do 2 eexists. split; [reflexivity|].
    cbn [Success FinalTree Root nextID]. rewrite bool_decide_eq_true_2 by exact Hin.
    split; [reflexivity|]. split; [reflexivity|].
    destruct Hn as [(Hnin & _) | (n1 & i' & n2 & Ht & Ht')]; [tauto|].
    pose proof Hbst as Hs. apply bst_sorted in Hs. rewrite keys_nodes, Ht, map_app in Hs.
    cbn [map snd] in Hs. apply sorted_app_cons in Hs as (Hs1 & Hs2 & H1 & H2).
    assert (Hk : keys (Root t) = map snd n1 ++ v :: map snd n2)
      by (rewrite keys_nodes, Ht, map_app; reflexivity).
    assert (Hk' : keys root = map snd n1 ++ map snd n2)
      by (rewrite keys_nodes, Ht', map_app; reflexivity).
    rewrite Forall_forall in H1, H2.
    split; [|split; [|split]].
    + split; [exact Hok'|]. cbn [Root nextID].
      split.
      { apply bst_sorted. rewrite Hk'. apply sorted_app. split; [exact Hs1|].
        split; [exact Hs2|]. apply Forall_forall. intros a Ha. apply Forall_forall.
        intros b Hb. apply H1 in Ha. apply H2 in Hb. lia. }
      unfold ids in *. rewrite Ht in Hnd, Hran. rewrite Ht'. rewrite !map_app in *.
      cbn [map fst] in *.
      apply NoDup_app in Hnd as (Hnd1 & Hnd12 & Hnd2). apply NoDup_cons in Hnd2 as (_ & Hnd2).
      rewrite Forall_app, Forall_cons in Hran. destruct Hran as (Hr1 & _ & Hr2).
      split.
      * apply NoDup_app. split; [exact Hnd1|]. split; [|exact Hnd2].
        intros a Ha Ha2. apply (Hnd12 a Ha). now right.
      * rewrite lnextID_addStep, Hid. rewrite Forall_app. now split.
    + rewrite lnextID_addStep, Hid. reflexivity.
    + intros k. rewrite Hk, Hk', !elem_of_app, elem_of_cons. split.
      * intros [Ha | Hb]; [pose proof (H1 _ Ha) | pose proof (H2 _ Hb)]; split; auto; lia.
      * intros ([? | [? | ?]] & ?); tauto.
    + right. exists (map snd n1), (map snd n2). now split.
  - rewrite (contains_absent _ _ Hnin). cbn [negb].
    do 2 eexists. split; [reflexivity|].
    cbn [Success FinalTree Root nextID]. rewrite bool_decide_eq_false_2 by exact Hnin.
    split; [reflexivity|]. split; [reflexivity|].
    split; [repeat split; assumption|]. split; [reflexivity|].
    split; [|left; split; [exact Hnin | reflexivity]].
    intros k. split; [intros Hk; split; [exact Hk | congruence] | tauto].
Qed.

(** *** Runs of Insert and Delete *)

Lemma AVLInv_new : AVLInv NewAVLTree.
Proof. repeat split; constructor. Qed.

Lemma apply_inv o t (S : gset Z) :
  AVLInv t → (∀ k, k ∈ keys (Root t) ↔ k ∈ S) →
  ∃ t', apply o t = Some t' ∧ AVLInv t'
        ∧ (∀ k, k ∈ keys (Root t') ↔ k ∈ stored_after o S).
Proof.
  intros Hinv HS. destruct o as [v | v]; cbn [apply stored_after].
  - destruct (Insert_inv v t Hinv) as (res & t' & -> & _ & _ & Hinv' & Hk & _).
    exists t'. split; [reflexivity|]. split; [exact Hinv'|].
    intros k. rewrite Hk, elem_of_ins, HS, elem_of_union, elem_of_singleton. tauto.
  - destruct (Delete_inv v t Hinv) as (res & t' & -> & _ & _ & Hinv' & _ & Hk & _).
    exists t'. split; [reflexivity|]. split; [exact Hinv'|].
    intros k. rewrite Hk, HS, elem_of_difference, elem_of_singleton. tauto.
Qed.

Lemma run_inv ops : ∀ t (S : gset Z),
  AVLInv t → (∀ k, k ∈ keys (Root t) ↔ k ∈ S) →
  ∃ t', run ops t = Some t' ∧ AVLInv t'
        ∧ (∀ k, k ∈ keys (Root t') ↔ k ∈ stored ops S).
Proof.
  induction ops as [|o ops IH]; intros t S Hinv HS; [now exists t|].
  destruct (apply_inv o t S Hinv HS) as (t1 & Hrun & Hinv1 & HS1).
  cbn [run stored fold_left]. rewrite Hrun. cbn [mbind option_bind].
  now apply IH.
Qed.

(** *** The height of an AVL tree *)

Lemma avl_size_bound t :
  avl_ok t → 2 ^ (height t / 2) <= Z.of_nat (length (keys t)) + 1.
Proof.
  induction t as [|i v h l IHl r IHr]; intros Hok; [vm_compute; discriminate|].
  heights. specialize (IHl Hl). specialize (IHr Hr).
  cbn [keys height]. rewrite length_app. cbn [length].
  destruct (Z.eq_dec h 1) as [He | Hne].
  { rewrite He. change (2 ^ (1 / 2)) with 1. lia. }
  assert (Hh2 : 0 <= h - 2) by lia.
  assert (Hdiv : h / 2 = (h - 2) / 2 + 1).
  { replace h with ((h - 2) + 1 * 2) at 1 by lia. now rewrite Z.div_add. }
  assert (Hd0 : 0 <= (h - 2) / 2) by (apply Z.div_pos; lia).
  rewrite Hdiv, Z.pow_add_r by lia. change (2 ^ 1) with 2.
  assert (Hpl : 2 ^ ((h - 2) / 2) <= 2 ^ (height l / 2)).
  { apply Z.pow_le_mono_r; [lia|]. apply Z.div_le_mono; lia. }
  assert (Hpr : 2 ^ ((h - 2) / 2) <= 2 ^ (height r / 2)).
  { apply Z.pow_le_mono_r; [lia|]. apply Z.div_le_mono; lia. }
  lia.
Qed.

(** *** What a caller of the AVL tree can rely on *)

(** The invariant of a tree written out, by evaluation. *)
Ltac avl_inv_by_evaluation :=
  unfold AVLInv; cbn [Root nextID];
  split; [cbn; repeat split; lia|];
  split; [cbn; repeat split; repeat constructor; lia|];
  split; [apply (bool_decide_unpack _); vm_compute; exact I
         | repeat constructor; lia].

(** X1: Insert of a key that an AVL tree in search order already holds
    returns a result marked successful and changes nothing: root, id
    counter and snapshot are those of before, and the trace is the opening
    Insert step, the Compare steps down to the node with the key, and the
    Complete step. *)
Theorem avl_insert_duplicate_is_noop v t :
  avl_ok (Root t) → bst (Root t) → v ∈ keys (Root t) →
  ∃ res t' n, Insert v t = Some (res, t')
    ∧ Root t' = Root t ∧ nextID t' = nextID t
    ∧ Success res = true
    ∧ FinalTree res = getTreeSnapshot (Root t)
    ∧ kinds (Steps res) = StepInsert :: repeat StepCompare (S n) ++ [StepComplete].
Proof. exact (Insert_duplicate_noop v t). Qed.

Lemma avl_insert_duplicate_witness :
  ∃ t, inserts [10; 20; 30] NewAVLTree = Some t
    ∧ ∃ res t', Insert 30 t = Some (res, t') ∧ Root t' = Root t
        ∧ kinds (Steps res) = [StepInsert; StepCompare; StepCompare; StepComplete].
Proof.
  eexists. split; [vm_compute; reflexivity|].
  match goal with
  | |- ∃ res t', Insert 30 ?t = _ ∧ _ =>
      destruct (avl_insert_duplicate_is_noop 30 t) as (res & t' & n & Hrun & Hroot & _)
  end.
  - cbn; repeat split; lia.
  - cbn; repeat split; repeat constructor; lia.
  - apply (bool_decide_unpack _). vm_compute. exact I.
  - exists res, t'. split; [exact Hrun|]. split; [exact Hroot|].
    vm_compute in Hrun. injection Hrun as <- _. reflexivity.
Defined.

(** X2: Insert into an AVL tree that is balanced, in search order and has
    distinct ids below the id counter returns a successful result whose
    final snapshot is that of the new tree; the new tree has these
    properties again, its keys are the old ones with the new key put at
    its place (unchanged when the key was there), and the id counter
    moves by one exactly when a node was created. *)
Theorem avl_insert_keeps_order_and_balance v t :
  AVLInv t →
  ∃ res t',
    Insert v t = Some (res, t')
    ∧ Success res = true
    ∧ FinalTree res = getTreeSnapshot (Root t')
    ∧ AVLInv t'
    ∧ keys (Root t') = ins v (keys (Root t))
    ∧ nextID t' = (if bool_decide (v ∈ keys (Root t)) then nextID t else nextID t + 1).
Proof. exact (Insert_inv v t). Qed.

Lemma avl_insert_witness :
  ∃ t, inserts [10; 20; 30] NewAVLTree = Some t
    ∧ ∃ res t', Insert 25 t = Some (res, t')
        ∧ keys (Root t') = [10; 20; 25; 30] ∧ nextID t' = 4.
Proof.
  eexists. split; [vm_compute; reflexivity|].
  match goal with
  | |- ∃ res t', Insert 25 ?t = _ ∧ _ =>
      destruct (avl_insert_keeps_order_and_balance 25 t)
        as (res & t' & Hrun & _ & _ & _ & Hk & Hid)
  end.
  - avl_inv_by_evaluation.
  - exists res, t'. split; [exact Hrun|]. split; [exact Hk | exact Hid].
Defined.

(** X3: Search on an AVL tree in search order leaves root and id counter
    as they were; it succeeds exactly when the key is one of the keys of
    the tree; its trace, which is also the trace the tree keeps, is a run
    of Compare steps no longer than the depth of the tree followed by one
    Found step (success) or one NotFound step (failure); the snapshot in
    the result is that of the tree. *)
Theorem avl_search_finds_stored_keys v t :
  bst (Root t) →
  ∃ n, (n ≤ depth (Root t))%nat
    ∧ Root (Search v t).2 = Root t ∧ nextID (Search v t).2 = nextID t
    ∧ steps (Search v t).2 = Steps (Search v t).1
    ∧ Success (Search v t).1 = bool_decide (v ∈ keys (Root t))
    ∧ FinalTree (Search v t).1 = getTreeSnapshot (Root t)
    ∧ kinds (Steps (Search v t).1)
      = repeat StepCompare n
        ++ [if bool_decide (v ∈ keys (Root t)) then StepFound else StepNotFound].
Proof. exact (Search_spec v t). Qed.

Lemma avl_search_witness :
  ∃ t, inserts [10; 20; 30] NewAVLTree = Some t
    ∧ Success (Search 30 t).1 = true ∧ Success (Search 25 t).1 = false.
Proof.
  eexists. split; [vm_compute; reflexivity|].
  match goal with
  | |- Success (Search 30 ?t).1 = _ ∧ _ =>
      assert (Hb : bst (Root t)) by (cbn; repeat split; repeat constructor; lia);
      destruct (avl_search_finds_stored_keys 30 t Hb) as (n & _ & _ & _ & _ & Hs & _);
      destruct (avl_search_finds_stored_keys 25 t Hb) as (m & _ & _ & _ & _ & Hs' & _)
  end.
  split; [rewrite Hs | rewrite Hs']; vm_compute; reflexivity.
Defined.

(** X4: Delete on an AVL tree that is balanced, in search order and has
    distinct ids returns a result that is successful exactly when the key
    was in the tree; the tree it leaves has these properties again, the
    id counter is unchanged, and the keys are the old keys without the
    deleted one, in the same order. *)
Theorem avl_delete_removes_key v t :
  AVLInv t →
  ∃ res t',
    Delete v t = Some (res, t')
    ∧ Success res = bool_decide (v ∈ keys (Root t))
    ∧ FinalTree res = getTreeSnapshot (Root t')
    ∧ AVLInv t'
    ∧ nextID t' = nextID t
    ∧ (∀ k, k ∈ keys (Root t') ↔ k ∈ keys (Root t) ∧ k ≠ v)
    ∧ ((v ∉ keys (Root t)) ∧ Root t' = Root t
       ∨ ∃ k1 k2, keys (Root t) = k1 ++ v :: k2 ∧ keys (Root t') = k1 ++ k2).
Proof. exact (Delete_inv v t). Qed.

Lemma avl_delete_witness :
  ∃ t, inserts [10; 20; 30; 40; 50] NewAVLTree = Some t
    ∧ ∃ res t', Delete 20 t = Some (res, t') ∧ Success res = true
        ∧ AVLInv t' ∧ nextID t' = 5.
Proof.
  eexists. split; [vm_compute; reflexivity|].
  match goal with
  | |- ∃ res t', Delete 20 ?t = _ ∧ _ =>
      destruct (avl_delete_removes_key 20 t)
        as (res & t' & Hrun & Hs & _ & Hinv & Hid & _)
  end.
  - avl_inv_by_evaluation.
  - exists res, t'. split; [exact Hrun|]. split; [rewrite Hs; vm_compute; reflexivity|].
    split; [exact Hinv | exact Hid].
Defined.

(** X5: whatever Insert and Delete calls are made one after the other on
    an empty AVL tree, each call returns, the tree stays balanced, in
    search order and with distinct ids, and a Search for any key then
    succeeds, with a trace ending in a Found step, exactly when the key
    was inserted and not deleted afterwards; otherwise it fails with a
    trace ending in a NotFound step. *)
Theorem avl_search_after_inserts_and_deletes (ops : list op) (k : Z) :
  ∃ t,
    run ops NewAVLTree = Some t
    ∧ AVLInv t
    ∧ Success (Search k t).1 = bool_decide (k ∈ stored ops ∅)
    ∧ last (kinds (Steps (Search k t).1))
      = Some (if bool_decide (k ∈ stored ops ∅) then StepFound else StepNotFound).
Proof.
  destruct (run_inv ops NewAVLTree ∅ AVLInv_new) as (t & Hrun & Hinv & Hk).
  { intros x. cbn. set_solver. }
  exists t. split; [exact Hrun|]. split; [exact Hinv|].
  destruct Hinv as (_ & Hbst & _).
  destruct (Search_spec k t Hbst) as (n & _ & _ & _ & _ & Hs & _ & Hkinds).
  rewrite Hs, Hkinds, last_app. cbn [last].
  rewrite (bool_decide_ext _ _ (Hk k)). split; reflexivity.
Qed.

(** X6: in a balanced AVL tree with [n] keys the stored height [h] of the
    root satisfies 2^(h/2) <= n + 1, and a Search records at most [h]
    Compare steps: the cost of a search is logarithmic in the number of
    keys. *)
Theorem avl_search_cost_logarithmic v t :
  AVLInv t →
  ∃ n, kinds (Steps (Search v t).1)
       = repeat StepCompare n
         ++ [if bool_decide (v ∈ keys (Root t)) then StepFound else StepNotFound]
    ∧ Z.of_nat n <= height (Root t)
    ∧ 2 ^ (height (Root t) / 2) <= Z.of_nat (length (keys (Root t))) + 1.
Proof.
  intros (Hok & Hbst & _).
  destruct (Search_spec v t Hbst) as (n & Hn & _ & _ & _ & _ & _ & Hkinds).
  exists n. split; [exact Hkinds|].
  split; [rewrite (avl_ok_height_depth _ Hok); lia | now apply avl_size_bound].
Qed.

Lemma avl_search_cost_witness :
  ∃ t, inserts [1; 2; 3; 4; 5; 6; 7] NewAVLTree = Some t
    ∧ height (Root t) = 3
    ∧ ∃ n, kinds (Steps (Search 7 t).1) = repeat StepCompare n ++ [StepFound]
         ∧ Z.of_nat n <= 3.
Proof.
  eexists. split; [vm_compute; reflexivity|]. split; [reflexivity|].
  match goal with
  | |- ∃ n, kinds (Steps (Search 7 ?t).1) = _ ∧ _ =>
      destruct (avl_search_cost_logarithmic 7 t) as (n & Hk & Hn & _)
  end.
  - avl_inv_by_evaluation.
  - exists n. split; [exact Hk | exact Hn].
Defined.

End AVLOrderFacts.

(* ===================================================================== *)
(** * Properties of the red-black tree *)
(* ===================================================================== *)

Module RBFacts.
Import RB RBSpec.

(** ** Running the computations *)

Lemma bind_run {A B} (m : M A) (f : A → M B) st a st1 :
  m st = Some (a, st1) → bind m f st = f a st1.
Proof. unfold bind. now intros ->. Qed.

Lemma get_run {A} (f : RBNode → A) a st n :
  heap st !! a = Some n → get f (Some a) st = Some (f n, st).
Proof. unfold get, load. now intros ->. Qed.

Lemma modify_run upd a st n :
  heap st !! a = Some n →
  modify upd (Some a) st = Some (tt, with_heap (<[a := upd n]> (heap st)) st).
Proof. unfold modify. now intros ->. Qed.

Lemma addStep_run ty d i hl st snap :
  inorderSnapshot (bound st) st (Root st) 0 0%Q (inject_Z 800) = Some snap →
  addStep ty d i hl st = Some (tt, add_steps [mkStep ty d i snap hl] st).
Proof. unfold addStep, bind, getTreeSnapshot. now intros ->. Qed.

(** ** Heaps and the trees they hold *)

Lemma repr_agree h h' par t :
  (∀ a, a ∈ addrs t → h' !! a = h !! a) → repr h par t → repr h' par t.
Proof.
  revert par. induction t as [|c l IHl a v r IHr]; intros par Hag; cbn; [auto|].
  intros (Ha & Hl & Hr). split; [|split].
  - rewrite Hag; [exact Ha | cbn; set_solver].
  - apply IHl; [|exact Hl]. intros b Hb. apply Hag. cbn. set_solver.
  - apply IHr; [|exact Hr]. intros b Hb. apply Hag. cbn. set_solver.
Qed.

Lemma repr_insert h par t x n :
  x ∉ addrs t → repr h par t → repr (<[x := n]> h) par t.
Proof.
  intros Hx. apply repr_agree. intros a Ha. apply lookup_insert_ne. set_solver.
Qed.

Lemma repr_plug h par ctx t :
  repr h par (plug ctx t)
  ↔ repr_ctx h par ctx (rootp t) ∧ repr h (hole_parent par ctx) t.
Proof.
  revert t. induction ctx as [|f rest IH]; intros t; cbn [plug repr_ctx hole_parent].
  - tauto.
  - rewrite IH. unfold fill. destruct f as [[] c a v s]; cbn; tauto.
Qed.

Lemma repr_ctx_agree h h' par ctx p :
  (∀ a, a ∈ ctx_addrs ctx → h' !! a = h !! a) →
  repr_ctx h par ctx p → repr_ctx h' par ctx p.
Proof.
  revert p. induction ctx as [|f rest IH]; intros p Hag; cbn; [auto|].
  intros (Hf & Hs & Hr). split; [|split].
  - rewrite Hag; [exact Hf | cbn; set_solver].
  - eapply repr_agree; [|exact Hs]. intros a Ha. apply Hag. cbn. set_solver.
  - apply IH; [|exact Hr]. intros a Ha. apply Hag. cbn.
    rewrite elem_of_cons, elem_of_app. auto.
Qed.

Lemma repr_ctx_insert h par ctx p x n :
  x ∉ ctx_addrs ctx → repr_ctx h par ctx p → repr_ctx (<[x := n]> h) par ctx p.
Proof.
  intros Hx. apply repr_ctx_agree. intros a Ha. apply lookup_insert_ne.
  intros ->. exact (Hx Ha).
Qed.

(** The frames above the innermost one do not mention the pointer in the hole. *)
Lemma repr_ctx_hole h par f rest p p' n :
  h !! faddr f = Some n →
  repr_ctx h par (f :: rest) p →
  faddr f ∉ addrs (fsib f) → faddr f ∉ ctx_addrs rest →
  repr_ctx (<[faddr f :=
               {| ID := ID n; Value := Value n; Color := Color n;
                  Left := match fdir f with DL => p' | DR => Left n end;
                  Right := match fdir f with DL => Right n | DR => p' end;
                  Parent := Parent n |}]> h) par (f :: rest) p'.
Proof.
  intros Hn (Hf & Hs & Hr) H1 H2. rewrite Hf in Hn. injection Hn as <-.
  cbn [repr_ctx]. split; [|split].
  - rewrite lookup_insert_eq. destruct (fdir f); reflexivity.
  - now apply repr_insert.
  - now apply repr_ctx_insert.
Qed.

Lemma addrs_plug ctx t : addrs (plug ctx t) ≡ₚ addrs t ++ ctx_addrs ctx.
Proof.
  revert t. induction ctx as [|f rest IH]; intros t; cbn [plug ctx_addrs flat_map].
  - now rewrite app_nil_r.
  - rewrite IH. unfold fill. destruct f as [[] c a v s]; cbn.
    + rewrite <- !app_assoc. cbn. rewrite <- Permutation_middle. reflexivity.
    + rewrite <- !app_assoc. cbn. rewrite <- Permutation_middle.
      apply perm_skip. rewrite !app_assoc. apply Permutation_app_tail.
      apply Permutation_app_comm.
Qed.

Lemma keys_plug_addr_bound ctx t (P : Z → Prop) :
  Forall P (addrs (plug ctx t)) ↔ Forall P (addrs t) ∧ Forall P (ctx_addrs ctx).
Proof. rewrite addrs_plug. apply Forall_app. Qed.

Lemma depth_le_size t : (depth t ≤ length (addrs t))%nat.
Proof.
  induction t as [|c l IHl a v r IHr]; cbn; [lia|].
  rewrite length_app. lia.
Qed.

Lemma NoDup_bounded_length (l : list Z) n :
  NoDup l → Forall (fun a => 0 <= a < n) l → (length l ≤ Z.to_nat n)%nat.
Proof.
  intros Hnd Hb.
  assert (Hsub : map Z.to_nat l ⊆ seq 0 (Z.to_nat n)).
  { intros x Hx. apply list_elem_of_fmap in Hx as (a & -> & Ha).
    rewrite Forall_forall in Hb. specialize (Hb a Ha).
    apply elem_of_seq. lia. }
  assert (Hnd' : NoDup (map Z.to_nat l)).
  { apply NoDup_fmap_2_strong; [|exact Hnd].
    intros a b Ha Hb' Hab. rewrite Forall_forall in Hb.
    pose proof (Hb a Ha). pose proof (Hb b Hb'). lia. }
  pose proof (submseteq_length _ _ (NoDup_submseteq _ _ Hnd' Hsub)) as Hlen.
  rewrite length_map, length_seq in Hlen. exact Hlen.
Qed.

Lemma Rep_depth st t : Rep st t → (depth t < bound st)%nat.
Proof.
  intros (_ & _ & _ & _ & _ & Hnd & Hb). unfold bound.
  pose proof (depth_le_size t). pose proof (NoDup_bounded_length _ _ Hnd Hb). lia.
Qed.

(** ** Snapshots of a state that holds a tree *)

Lemma ptr_eqb_refl p : ptr_eqb p p = true.
Proof. unfold ptr_eqb. now apply bool_decide_eq_true_2. Qed.

Lemma ptr_eqb_ne p q : p ≠ q → ptr_eqb p q = false.
Proof. unfold ptr_eqb. now apply bool_decide_eq_false_2. Qed.

Lemma ptr_eqb_Some_ne a b : a ≠ b → ptr_eqb (Some a) (Some b) = false.
Proof. intros H. apply ptr_eqb_ne. congruence. Qed.

Lemma linkID_node st a n :
  NIL st = Some nil_addr → a ≠ nil_addr → heap st !! a = Some n →
  linkID st (Some a) = Some (Some (ID n)).
Proof.
  intros HN Ha Hn. unfold linkID. rewrite HN, ptr_eqb_Some_ne by exact Ha.
  rewrite ptr_eqb_ne by discriminate. cbn. now rewrite Hn.
Qed.

Lemma linkID_nil st : NIL st = Some nil_addr → linkID st (Some nil_addr) = Some None.
Proof. intros HN. unfold linkID. now rewrite HN, ptr_eqb_refl. Qed.

Lemma linkID_rootp st par t :
  NIL st = Some nil_addr → repr (heap st) par t →
  Forall (fun a => a ≠ nil_addr) (addrs t) →
  is_Some (linkID st (rootp t)).
Proof.
  intros HN Hr Hne. destruct t as [|c l a v r]; cbn [rootp].
  - rewrite linkID_nil by exact HN. eauto.
  - destruct Hr as (Ha & _). cbn in Hne. apply Forall_cons in Hne as (Hane & _).
    erewrite linkID_node by eauto. eauto.
Qed.

Lemma inorderSnapshot_repr st t :
  NIL st = Some nil_addr →
  ∀ fuel par d xMin xMax,
    repr (heap st) par t →
    Forall (fun a => a ≠ nil_addr) (addrs t) →
    is_Some (linkID st par) →
    (depth t < fuel)%nat →
    is_Some (inorderSnapshot fuel st (rootp t) d xMin xMax).
Proof.
  intros HN. induction t as [|c l IHl a v r IHr];
    intros fuel par d xMin xMax Hr Hne Hpar Hfuel;
    (destruct fuel as [|fuel]; [cbn in Hfuel; lia|]); cbn [inorderSnapshot rootp].
  - rewrite HN, ptr_eqb_refl. cbn. eauto.
  - cbn [repr] in Hr. destruct Hr as (Ha & Hl & Hrr).
    cbn [addrs] in Hne. apply Forall_cons in Hne as (Hane & Hne).
    apply Forall_app in Hne as (Hnel & Hner).
    rewrite HN, ptr_eqb_Some_ne by exact Hane. rewrite ptr_eqb_ne by discriminate.
    cbn [orb load]. rewrite Ha. cbn [mbind option_bind Left Right Parent ID Value Color].
    destruct (linkID_rootp st _ l HN Hl Hnel) as (il & ->).
    destruct (linkID_rootp st _ r HN Hrr Hner) as (ir & ->).
    destruct Hpar as (ip & ->). cbn [mbind option_bind].
    assert (Hself : is_Some (linkID st (Some a)))
      by (erewrite linkID_node by eauto; eauto).
    cbn [depth] in Hfuel.
    destruct (IHl fuel (Some a) (d + 1) xMin (Qred ((xMin + xMax) / 2)) Hl Hnel Hself)
      as (sl & ->); [lia|].
    destruct (IHr fuel (Some a) (d + 1) (Qred ((xMin + xMax) / 2)) xMax Hrr Hner Hself)
      as (sr & ->); [lia|].
    cbn. eauto.
Qed.

Lemma Rep_add_steps new st t : Rep st t → Rep (add_steps new st) t.
Proof. unfold Rep, add_steps. cbn. auto. Qed.

Lemma Rep_addrs_ne st t : Rep st t → Forall (fun a => a ≠ nil_addr) (addrs t).
Proof.
  intros (_ & _ & _ & _ & _ & _ & Hb). eapply Forall_impl; [exact Hb|].
  cbn. unfold nil_addr. lia.
Qed.

(** A state that holds a tree can always record a step; nothing but the
    trace changes. *)
Lemma addStep_Rep ty d i hl st t :
  Rep st t →
  ∃ snap, addStep ty d i hl st = Some (tt, add_steps [mkStep ty d i snap hl] st).
Proof.
  intros HR. pose proof (Rep_depth _ _ HR) as Hd. pose proof (Rep_addrs_ne _ _ HR) as Hne.
  destruct HR as (HN & _ & _ & HRoot & Hr & _ & _).
  destruct (inorderSnapshot_repr st t HN (bound st) (Some nil_addr) 0 0%Q (inject_Z 800))
    as (snap & Hs); auto.
  { rewrite linkID_nil by exact HN. eauto. }
  exists snap. apply addStep_run. now rewrite HRoot.
Qed.

Lemma getTreeSnapshot_Rep st t :
  Rep st t → ∃ snap, getTreeSnapshot st = Some (snap, st).
Proof.
  intros HR. pose proof (Rep_depth _ _ HR) as Hd. pose proof (Rep_addrs_ne _ _ HR) as Hne.
  destruct HR as (HN & _ & _ & HRoot & Hr & _ & _).
  destruct (inorderSnapshot_repr st t HN (bound st) (Some nil_addr) 0 0%Q (inject_Z 800))
    as (snap & Hs); auto.
  { rewrite linkID_nil by exact HN. eauto. }
  exists snap. unfold getTreeSnapshot. now rewrite HRoot, Hs.
Qed.

Lemma rootp_plug_cons f ctx t t' : rootp (plug (f :: ctx) t) = rootp (plug (f :: ctx) t').
Proof.
  revert f t t'. induction ctx as [|g rest IH]; intros f t t'.
  - cbn. unfold fill. destruct (fdir f); reflexivity.
  - cbn [plug]. apply (IH g).
Qed.

Lemma rootp_plug ctx t t' : rootp t = rootp t' → rootp (plug ctx t) = rootp (plug ctx t').
Proof. destruct ctx; [auto | intros _; apply rootp_plug_cons]. Qed.

(** [Rep] of a tree given as a path and the subtree at its end. *)
Lemma Rep_plug st ctx t :
  Rep st (plug ctx t) ↔
  NIL st = Some nil_addr
  ∧ (∃ n, heap st !! nil_addr = Some n ∧ Color n = Black)
  ∧ 0 <= nextID st
  ∧ Root st = rootp (plug ctx t)
  ∧ repr_ctx (heap st) (Some nil_addr) ctx (rootp t)
  ∧ repr (heap st) (hole_parent (Some nil_addr) ctx) t
  ∧ NoDup (addrs t ++ ctx_addrs ctx)
  ∧ Forall (fun a => 0 <= a < nextID st) (addrs t ++ ctx_addrs ctx).
Proof.
  unfold Rep. rewrite repr_plug. rewrite !(addrs_plug ctx t). tauto.
Qed.

Ltac solve_ne := first [ assumption | congruence | (unfold nil_addr in *; lia) ].

(** Reading the node at the end of a path. *)
Lemma Rep_load st ctx c l a v r :
  Rep st (plug ctx (T c l a v r)) →
  heap st !! a = Some {| ID := a; Value := v; Color := c; Left := rootp l;
                         Right := rootp r;
                         Parent := hole_parent (Some nil_addr) ctx |}.
Proof. rewrite Rep_plug. cbn [repr]. tauto. Qed.

Lemma Rep_addr_range st ctx c l a v r :
  Rep st (plug ctx (T c l a v r)) → 0 <= a < nextID st.
Proof.
  rewrite Rep_plug. intros (_ & _ & _ & _ & _ & _ & _ & Hb).
  cbn in Hb. apply Forall_cons in Hb. tauto.
Qed.

(** Recolouring the node at the end of a path. *)
Lemma setColor_Rep st ctx c l a v r c' :
  Rep st (plug ctx (T c l a v r)) →
  ∃ st', setColor (Some a) c' st = Some (tt, st')
         ∧ Rep st' (plug ctx (T c' l a v r))
         ∧ nextID st' = nextID st ∧ steps st' = steps st.
Proof.
  intros HR. pose proof (Rep_load _ _ _ _ _ _ _ HR) as Ha.
  pose proof (Rep_addr_range _ _ _ _ _ _ _ HR) as Hrange.
  eexists. split; [unfold setColor; apply modify_run; exact Ha|].
  split; [|split; reflexivity].
  apply Rep_plug in HR as (HN & (nn & Hnn & Hnc) & Hn0 & HRoot & Hctx & Hr & Hnd & Hb).
  apply Rep_plug. cbn [with_heap NIL heap Root nextID ID Value Color Left Right Parent].
  cbn [addrs] in Hnd |- *. cbn [repr rootp] in Hr |- *.
  apply NoDup_app in Hnd as Hnd'. destruct Hnd' as (Hnd1 & Hdisj & Hnd2).
  apply NoDup_cons in Hnd1 as (Hal & _). rewrite not_elem_of_app in Hal.
  split; [exact HN|]. split.
  { exists nn. rewrite lookup_insert_ne by solve_ne. auto. }
  split; [exact Hn0|].
  split; [rewrite HRoot; apply rootp_plug; reflexivity|].
  split; [apply repr_ctx_insert; [apply Hdisj; left | exact Hctx]|].
  split; [|auto].
  split; [apply lookup_insert_eq|].
  split; apply repr_insert; tauto.
Qed.

Lemma NoDup_app_Forall {A} (l k : list A) :
  NoDup (l ++ k) → NoDup l ∧ Forall (fun a => a ∉ k) l ∧ NoDup k.
Proof. rewrite NoDup_app, Forall_forall. tauto. Qed.

Lemma Forall_notin_cons {A} (a : A) k l :
  Forall (fun z => z ∉ (a :: k)) l → (a ∉ l) ∧ Forall (fun z => z ∉ k) l.
Proof.
  rewrite !Forall_forall. intros H. split.
  - intros Ha. apply (H a Ha). left.
  - intros z Hz Hk. apply (H z Hz). now right.
Qed.

Lemma Forall_notin_app {A} (k1 k2 l : list A) :
  Forall (fun z => z ∉ (k1 ++ k2)) l →
  Forall (fun z => z ∉ k1) l ∧ Forall (fun z => z ∉ k2) l.
Proof.
  rewrite !Forall_forall. intros H.
  split; intros z Hz Hk; apply (H z Hz); rewrite elem_of_app; auto.
Qed.

(** Break the distinctness and range facts of the address lists into
    facts about single addresses and about whole subtrees. *)
Ltac facts :=
  cbn [addrs ctx_addrs flat_map faddr fsib] in *;
  repeat match goal with
    | H : NoDup (_ :: _) |- _ => apply NoDup_cons in H; destruct H
    | H : NoDup (_ ++ _) |- _ => apply NoDup_app_Forall in H; destruct H as (? & ? & ?)
    | H : NoDup [] |- _ => clear H
    | H : Forall _ (_ :: _) |- _ => apply Forall_cons in H; destruct H
    | H : Forall _ (_ ++ _) |- _ => apply Forall_app in H; destruct H
    | H : Forall _ [] |- _ => clear H
    | H : Forall (fun z => z ∉ (_ :: _)) _ |- _ => apply Forall_notin_cons in H; destruct H
    | H : Forall (fun z => z ∉ (_ ++ _)) _ |- _ => apply Forall_notin_app in H; destruct H
    | H : Forall (fun z => z ∉ []) _ |- _ => clear H
    | H : _ ∉ (_ :: _) |- _ => apply not_elem_of_cons in H; destruct H
    | H : _ ∉ (_ ++ _) |- _ => apply not_elem_of_app in H; destruct H
    | H : _ ∉ [] |- _ => clear H
    | H : _ ∧ _ |- _ => destruct H
    end.

Lemma rootp_ne a t : a ∉ addrs t → a ≠ nil_addr → Some a ≠ rootp t.
Proof.
  destruct t as [|c l b v r]; cbn; [congruence|].
  rewrite not_elem_of_cons. intros (Hab & _) _. congruence.
Qed.

Lemma heap_add_steps new st : heap (add_steps new st) = heap st.
Proof. reflexivity. Qed.
Lemma NIL_add_steps new st : NIL (add_steps new st) = NIL st.
Proof. reflexivity. Qed.
Lemma Root_add_steps new st : Root (add_steps new st) = Root st.
Proof. reflexivity. Qed.
Lemma nextID_add_steps new st : nextID (add_steps new st) = nextID st.
Proof. reflexivity. Qed.
Lemma steps_add_steps new st : steps (add_steps new st) = steps st ++ new.
Proof. reflexivity. Qed.

Ltac unfold_ops :=
  unfold bind, ret, fail, get, load, modify, setColor, setLeft, setRight, setParent,
    getRoot, getNIL, setRoot, getSteps, clearSteps, modify.

Ltac simp_run :=
  repeat first
    [ progress cbn [with_heap heap NIL Root nextID steps
                    ID Value Color Left Right Parent fst snd negb andb orb
                    rootp hole_parent faddr fdir fcol fval fsib]
    | rewrite heap_add_steps
    | rewrite NIL_add_steps
    | rewrite Root_add_steps
    | rewrite nextID_add_steps
    | rewrite lookup_insert_eq
    | rewrite lookup_insert_ne by solve_ne
    | rewrite ptr_eqb_refl
    | rewrite ptr_eqb_Some_ne by solve_ne
    | rewrite (ptr_eqb_ne (Some _) None) by discriminate
    | rewrite (bool_decide_eq_true_2 (@eq NodeColor _ _)) by reflexivity
    | rewrite (bool_decide_eq_false_2 (@eq NodeColor _ _)) by discriminate
    | rewrite (ptr_eqb_ne (Some _) (rootp _)) by (apply rootp_ne; solve_ne)
    | match goal with
      | H : ?h !! ?a = Some _ |- context [?h !! ?a] => rewrite H
      | H : NIL ?st = ?v |- context [ptr_eqb ?p (NIL ?st)] =>
          replace (ptr_eqb p (NIL st)) with (ptr_eqb p v) by (now rewrite H)
      end ].

Ltac frame_repr :=
  repeat first [ apply repr_insert; [solve_ne|] | apply repr_ctx_insert; [solve_ne|] ];
  try eassumption.

Ltac exec := unfold_ops; simp_run.

Lemma finish_addStep stF t ty d i hl n0 steps0 :
  Rep stF t → nextID stF = n0 → steps stF = steps0 →
  ∃ st' s, addStep ty d i hl stF = Some (tt, st')
           ∧ Rep st' t ∧ nextID st' = n0
           ∧ steps st' = steps0 ++ [s] ∧ Type_ s = ty.
Proof.
  intros HR <- <-. destruct (addStep_Rep ty d i hl _ _ HR) as (snap & ->).
  do 2 eexists. split; [reflexivity|]. split; [now apply Rep_add_steps|].
  repeat split.
Qed.

Ltac lookups :=
  repeat first
    [ rewrite lookup_insert_eq
    | rewrite lookup_insert_ne by solve_ne
    | match goal with
      | H : ?h !! ?a = Some _ |- context [?h !! ?a] => rewrite H
      end ].

Ltac solve_repr :=
  cbn [repr repr_ctx rootp hole_parent faddr fdir fcol fval fsib
       ID Value Color Left Right Parent];
  repeat match goal with
    | |- _ ∧ _ => split
    | |- True => exact I
    | |- _ !! _ = Some _ => lookups; reflexivity
    | |- repr _ _ _ => frame_repr
    | |- repr_ctx _ _ _ _ => frame_repr
    end.

Ltac solve_Rep :=
  apply Rep_plug;
  repeat first [ progress cbn [with_heap heap NIL Root nextID steps]
               | rewrite heap_add_steps | rewrite NIL_add_steps
               | rewrite Root_add_steps | rewrite nextID_add_steps ];
  split; [first [assumption | reflexivity]|];
  split; [eexists; split; [lookups; first [eassumption | reflexivity] | assumption]|];
  split; [first [assumption | lia]|];
  split; [first [reflexivity
                | match goal with H : Root _ = _ |- _ => rewrite H end;
                  first [apply rootp_plug_cons | apply rootp_plug; reflexivity]]|];
  split; [solve_repr|];
  split; [solve_repr|];
  split; [match goal with H : keep (NoDup _) |- _ => exact H end
         | match goal with H : keep (Forall _ _) |- _ => exact H end].

Lemma leftRotate_Rep st ctx cx A x vx cy B y vy C :
  Rep st (plug ctx (T cx A x vx (T cy B y vy C))) →
  ∃ st' s, leftRotate (Some x) st = Some (tt, st')
     ∧ Rep st' (plug ctx (T cy (T cx A x vx B) y vy C))
     ∧ nextID st' = nextID st
     ∧ steps st' = steps st ++ [s] ∧ Type_ s = StepRotateLeft.
Proof.
  intros HR.
  assert (Hperm : addrs (T cy (T cx A x vx B) y vy C) ≡ₚ addrs (T cx A x vx (T cy B y vy C))).
  { cbn. rewrite <- !app_assoc. cbn. etransitivity; [apply perm_swap|].
    apply perm_skip, Permutation_middle. }
  apply Rep_plug in HR as (HN & (nn & Hnn & Hnc) & Hn0 & HRoot & Hctx & Hr & Hnd & Hb).
  assert (Hnd' : keep (NoDup (addrs (T cy (T cx A x vx B) y vy C) ++ ctx_addrs ctx)))
    by (unfold keep; now rewrite Hperm).
  assert (Hb' : keep (Forall (fun a => 0 <= a < nextID st)
                        (addrs (T cy (T cx A x vx B) y vy C) ++ ctx_addrs ctx)))
    by (unfold keep; now rewrite Hperm).
  cbn [repr rootp] in Hr.
  destruct Hr as (Hx & HA & Hy & HB & HC).
  destruct B as [|cb Bl b vb Br]; destruct ctx as [|[[] fc f fv fs] rest];
    cbn [repr rootp repr_ctx hole_parent fdir fcol fval faddr fsib] in *.
  all: facts.
  all: unfold leftRotate; exec.
  all: apply finish_addStep; [|reflexivity|reflexivity].
  all: solve_Rep.
Qed.

Lemma rightRotate_Rep st ctx cx A x vx cy B y vy C :
  Rep st (plug ctx (T cy (T cx A x vx B) y vy C)) →
  ∃ st' s, rightRotate (Some y) st = Some (tt, st')
     ∧ Rep st' (plug ctx (T cx A x vx (T cy B y vy C)))
     ∧ nextID st' = nextID st
     ∧ steps st' = steps st ++ [s] ∧ Type_ s = StepRotateRight.
Proof.
  intros HR.
  assert (Hperm : addrs (T cx A x vx (T cy B y vy C)) ≡ₚ addrs (T cy (T cx A x vx B) y vy C)).
  { cbn. rewrite <- !app_assoc. cbn. etransitivity; [|apply perm_swap].
    apply perm_skip. symmetry. apply Permutation_middle. }
  apply Rep_plug in HR as (HN & (nn & Hnn & Hnc) & Hn0 & HRoot & Hctx & Hr & Hnd & Hb).
  assert (Hnd' : keep (NoDup (addrs (T cx A x vx (T cy B y vy C)) ++ ctx_addrs ctx)))
    by (unfold keep; now rewrite Hperm).
  assert (Hb' : keep (Forall (fun a => 0 <= a < nextID st)
                        (addrs (T cx A x vx (T cy B y vy C)) ++ ctx_addrs ctx)))
    by (unfold keep; now rewrite Hperm).
  cbn [repr rootp] in Hr.
  destruct Hr as (Hy & (Hx & HA & HB) & HC).
  destruct B as [|cb Bl b vb Br]; destruct ctx as [|[[] fc f fv fs] rest];
    cbn [repr rootp repr_ctx hole_parent fdir fcol fval faddr fsib] in *.
  all: facts.
  all: unfold rightRotate; exec.
  all: apply finish_addStep; [|reflexivity|reflexivity].
  all: solve_Rep.
Qed.

(** Unpack what a state holding a tree says about the nodes written out
    in the tree expression. *)
Ltac gen HR :=
  let HN := fresh "HN" in let nn := fresh "nn" in let Hnn := fresh "Hnn" in
  let Hnc := fresh "Hnc" in let Hn0 := fresh "Hn0" in let HRoot := fresh "HRoot" in
  let Hctx := fresh "Hctx" in let Hr := fresh "Hr" in
  let Hnd := fresh "Hnd" in let Hb := fresh "Hb" in
  apply Rep_plug in HR as (HN & (nn & Hnn & Hnc) & Hn0 & HRoot & Hctx & Hr & Hnd & Hb);
  let Hnd' := fresh "Hndk" in let Hb' := fresh "Hbk" in
  pose proof (Hnd : keep _) as Hnd'; pose proof (Hb : keep _) as Hb';
  cbn [repr rootp repr_ctx hole_parent fdir fcol fval faddr fsib] in Hctx, Hr;
  facts.

(** Record a step in a state that holds [TREE]. *)
Ltac do_addStep TREE :=
  match goal with
  | |- context [addStep ?ty ?d ?i ?hl ?stF] =>
      let HRs := fresh "HRs" in
      assert (HRs : Rep stF TREE) by solve_Rep;
      let snap := fresh "snap" in
      let Heq := fresh "Heq" in
      destruct (addStep_Rep ty d i hl stF TREE HRs) as (snap & Heq);
      rewrite Heq; clear Heq HRs
  end.

(** Rotate in a state that holds the tree [FULL], which is the tree the
    rotation lemma asks for, read from the path [CTX]. *)
Ltac do_rightRotate FULL CTX cx A x vx cy B y vy C :=
  match goal with
  | |- context [rightRotate (Some y) ?stF] =>
      let HRs := fresh "HRs" in
      assert (HRs : Rep stF FULL) by solve_Rep;
      let st' := fresh "st" in let s := fresh "s" in let Heq := fresh "Heq" in
      let HR' := fresh "HR" in let Hn := fresh "Hnext" in
      let Hs := fresh "Hsteps" in let Hty := fresh "Hty" in
      destruct (rightRotate_Rep stF CTX cx A x vx cy B y vy C HRs)
        as (st' & s & Heq & HR' & Hn & Hs & Hty);
      rewrite Heq; clear Heq HRs
  end.

Ltac do_leftRotate FULL CTX cx A x vx cy B y vy C :=
  match goal with
  | |- context [leftRotate (Some x) ?stF] =>
      let HRs := fresh "HRs" in
      assert (HRs : Rep stF FULL) by solve_Rep;
      let st' := fresh "st" in let s := fresh "s" in let Heq := fresh "Heq" in
      let HR' := fresh "HR" in let Hn := fresh "Hnext" in
      let Hs := fresh "Hsteps" in let Hty := fresh "Hty" in
      destruct (leftRotate_Rep stF CTX cx A x vx cy B y vy C HRs)
        as (st' & s & Heq & HR' & Hn & Hs & Hty);
      rewrite Heq; clear Heq HRs
  end.

(** ** Insert: allocation, descent and linking *)

Lemma Rep_fresh st t : Rep st t → nextID st ∉ addrs t.
Proof.
  intros (_ & _ & _ & _ & _ & _ & Hb) Hin.
  rewrite Forall_forall in Hb. specialize (Hb _ Hin). lia.
Qed.

Lemma newNode_Rep value st t :
  Rep st t →
  ∃ st1, newNode value st = Some (Some (nextID st), st1)
         ∧ Rep st1 t
         ∧ heap st1 !! nextID st = Some (freshNode (nextID st) value)
         ∧ nextID st1 = nextID st + 1
         ∧ steps st1 = steps st.
Proof.
  intros HR. pose proof (Rep_fresh _ _ HR) as Hfresh.
  destruct HR as (HN & (nn & Hnn & Hnc) & Hn0 & HRoot & Hr & Hnd & Hb).
  eexists. split; [reflexivity|]. cbn [heap nextID steps NIL Root].
  split; [|split; [|split; reflexivity]].
  - unfold Rep. cbn [heap nextID steps NIL Root].
    split; [exact HN|]. split.
    { exists nn. rewrite lookup_insert_ne by solve_ne. auto. }
    split; [lia|]. split; [exact HRoot|].
    split; [now apply repr_insert|]. split; [exact Hnd|].
    eapply Forall_impl; [exact Hb|]. cbn. lia.
  - rewrite lookup_insert_eq, HN. reflexivity.
Qed.

(** The descent ends at a sentinel position of the tree; it only adds
    Compare steps. *)
Lemma insertDescend_Rep value z zn sub :
  ∀ ctx fuel st,
    Rep st (plug ctx sub) →
    heap st !! z = Some zn → Value zn = value →
    side_ok value ctx →
    (depth sub < fuel)%nat →
    ∃ ctx' new,
      insertDescend fuel value (Some z) (hole_parent (Some nil_addr) ctx) (rootp sub) st
      = Some (hole_parent (Some nil_addr) ctx', add_steps new st)
      ∧ plug ctx' E = plug ctx sub
      ∧ side_ok value ctx'
      ∧ Forall (fun s => Type_ s = StepCompare) new.
Proof.
  induction sub as [|c l IHl a v r IHr]; intros ctx fuel st HR Hz Hv Hside Hfuel;
    (destruct fuel as [|fuel]; [cbn in Hfuel; lia|]); cbn [insertDescend].
  - exists ctx, []. destruct HR as (HN & _). exec.
    split; [|auto].
    unfold add_steps. rewrite app_nil_r. destruct st; reflexivity.
  - pose proof (Rep_load _ _ _ _ _ _ _ HR) as Ha.
    pose proof (Rep_addr_range _ _ _ _ _ _ _ HR) as Hrange.
    pose proof HR as (HN & _).
    destruct (addStep_Rep StepCompare
                (Sprintf "比较 %d 与节点 %d" [AInt value; AInt v]) (Some a) [a] _ _ HR)
      as (snap & Hstep).
    exec. rewrite Hstep. exec. rewrite Hv.
    cbn [depth] in Hfuel.
    destruct (value <? v) eqn:Hcmp.
    + destruct (IHl (Frame DL c a v r :: ctx) fuel (add_steps [mkStep StepCompare
                (Sprintf "比较 %d 与节点 %d" [AInt value; AInt v]) (Some a) snap [a]] st))
        as (ctx' & new & Hrun & Hplug & Hside' & Hnew).
      * apply Rep_add_steps. exact HR.
      * exact Hz.
      * exact Hv.
      * cbn. now rewrite Hcmp.
      * lia.
      * cbn [hole_parent faddr] in Hrun. exec. rewrite Hrun.
        eexists ctx', (_ :: new). split.
        { unfold add_steps. cbn. rewrite <- app_assoc. reflexivity. }
        split; [exact Hplug|]. split; [exact Hside'|].
        constructor; [reflexivity | exact Hnew].
    + destruct (IHr (Frame DR c a v l :: ctx) fuel (add_steps [mkStep StepCompare
                (Sprintf "比较 %d 与节点 %d" [AInt value; AInt v]) (Some a) snap [a]] st))
        as (ctx' & new & Hrun & Hplug & Hside' & Hnew).
      * apply Rep_add_steps. exact HR.
      * exact Hz.
      * exact Hv.
      * cbn. now rewrite Hcmp.
      * lia.
      * cbn [hole_parent faddr] in Hrun. exec. rewrite Hrun.
        eexists ctx', (_ :: new). split.
        { unfold add_steps. cbn. rewrite <- app_assoc. reflexivity. }
        split; [exact Hplug|]. split; [exact Hside'|].
        constructor; [reflexivity | exact Hnew].
Qed.

(** ** Red-black properties along a path *)

Lemma color_cases c : c = Red ∨ c = Black.
Proof. destruct c; auto. Qed.

(** A valid tree, cut at any position, leaves a valid path and a valid
    subtree. *)
Lemma plug_inv ctx : ∀ u m,
  no_red_red (plug ctx u) → bh (plug ctx u) m →
  (ctx ≠ [] → color (plug ctx u) = Black) →
  ∃ n, ctx_ok ctx n ∧ bh u n ∧ no_red_red u
       ∧ match ctx with
         | f :: _ => fcol f = Red → color u = Black
         | [] => True
         end.
Proof.
  induction ctx as [|f rest IH]; intros u m Hnrr Hbh Hroot; cbn [plug] in *.
  - exists m. cbn. auto.
  - destruct (IH (fill f u) m Hnrr Hbh) as (n' & Hok & Hbh' & Hnrr' & Htop).
    { intros Hne. destruct rest; [congruence|]. apply Hroot. discriminate. }
    assert (Hparent : fcol f = Red → match rest with [] => False | g :: _ => fcol g = Black end).
    { intros Hred. destruct rest as [|g rest'].
      - cbn in Hroot. specialize (Hroot ltac:(discriminate)).
        unfold fill in Hroot. destruct (fdir f); cbn in Hroot; congruence.
      - destruct (color_cases (fcol g)) as [Hg | Hg]; [|exact Hg].
        specialize (Htop Hg). unfold fill in Htop. destruct (fdir f); cbn in Htop; congruence. }
    unfold fill in Hbh', Hnrr'.
    destruct f as [d c a v s]; cbn [fdir fcol faddr fval fsib] in *.
    destruct d, c; cbn [bh no_red_red color] in Hbh', Hnrr';
      repeat match goal with
        | H : _ ∧ _ |- _ => destruct H
        | H : ∃ _, _ |- _ => destruct H
        end; subst.
    + exists n'. cbn. specialize (H eq_refl) as (? & ?). specialize (Hparent eq_refl).
      repeat split; auto.
    + eexists. cbn. repeat split; eauto. congruence.
    + exists n'. cbn. specialize (H eq_refl) as (? & ?). specialize (Hparent eq_refl).
      repeat split; auto.
    + eexists. cbn. repeat split; eauto. congruence.
Qed.

(** A valid subtree at the end of a valid path, not red below a red
    parent, makes a valid tree. *)
Lemma plug_ok ctx : ∀ u n,
  ctx_ok ctx n → bh u n → no_red_red u →
  match ctx with
  | f :: _ => fcol f = Red → color u = Black
  | [] => True
  end →
  no_red_red (plug ctx u) ∧ (∃ m, bh (plug ctx u) m)
  ∧ (ctx ≠ [] → color (plug ctx u) = Black).
Proof.
  induction ctx as [|f rest IH]; intros u n Hok Hbh Hnrr Htop; cbn [plug].
  - split; [exact Hnrr|]. split; [eauto | congruence].
  - destruct f as [d c a v s]. cbn [ctx_ok fdir fcol faddr fval fsib] in Hok, Htop.
    destruct Hok as (Hs1 & Hs2 & Hrest).
    destruct c.
    + destruct Hrest as (Hsb & Hparent & Hrest). specialize (Htop eq_refl).
      destruct (IH (fill (Frame d Red a v s) u) n Hrest) as (H1 & H2 & H3).
      * unfold fill. destruct d; cbn; auto.
      * unfold fill. destruct d; cbn; auto.
      * destruct rest as [|g rest']; [auto|]. intros Hg. congruence.
      * split; [exact H1|]. split; [exact H2|]. intros _.
        destruct rest as [|g rest']; [contradiction|]. apply H3. discriminate.
    + destruct (IH (fill (Frame d Black a v s) u) (S n) Hrest) as (H1 & H2 & H3).
      * unfold fill. destruct d; cbn; eauto.
      * unfold fill. destruct d; cbn; repeat split; auto; congruence.
      * destruct rest; [auto|]. intros _. unfold fill. destruct d; reflexivity.
      * split; [exact H1|]. split; [exact H2|]. intros _.
        destruct rest as [|g rest']; [unfold fill; destruct d; reflexivity|].
        apply H3. discriminate.
Qed.

Lemma bh_black_counts t : ∀ n, bh t n → Forall (fun m => m = n) (black_counts t).
Proof.
  induction t as [|c l IHl a v r IHr]; intros n Hn; cbn in *.
  - subst. repeat constructor.
  - rewrite Forall_fmap, Forall_app. destruct c.
    + destruct Hn as (Hl & Hr). split; [apply IHl | apply IHr]; assumption.
    + destruct Hn as (m & -> & Hl & Hr).
      split; (eapply Forall_impl; [eauto|]); cbn; intros; congruence.
Qed.

Lemma bh_equal_black_paths t n : bh t n → equal_black_paths t.
Proof. intros H. exists n. now apply bh_black_counts. Qed.

(** ** The loop of insertFixup *)

Ltac pure :=
  cbn [no_red_red bh ctx_ok color fcol fsib fdir faddr fval] in *;
  repeat match goal with
    | H : _ ∧ _ |- _ => destruct H
    | H : ∃ _, _ |- _ => destruct H
    | H : ?c = ?c → _ |- _ => specialize (H eq_refl)
    | H : Red = Black → _ |- _ => clear H
    | H : Black = Red → _ |- _ => clear H
    end;
  subst;
  repeat match goal with
    | |- _ ∧ _ => split
    | |- ∃ m, S _ = S m ∧ _ => eexists; split; [reflexivity|]
    | |- _ → _ => intros
    end; subst; eauto; try congruence.

Ltac trace :=
  eexists; split;
  [ repeat first [ match goal with H : steps _ = _ |- _ => rewrite H end
                 | rewrite steps_add_steps
                 | progress cbn [with_heap steps] ];
    rewrite <- ?app_assoc; reflexivity
  | repeat match goal with
      | H : Type_ ?s = _ |- _ => destruct s; cbn [Type_] in H; subst
      end;
    vm_compute; reflexivity ].

Ltac finish HR :=
  split; [reflexivity|];
  split; [split; [first [exact HR | solve_Rep] | pure]
         | split; [cbn; lia
                  | split; [ repeat first [ reflexivity
                                 | match goal with H : nextID _ = _ |- _ => rewrite H end
                                 | rewrite nextID_add_steps
                                 | progress cbn [with_heap nextID] ]
                           | trace ]]].

Lemma insertFixupBody_ok st f g rest zl z zv zr n :
  FixInv st (f :: g :: rest) zl z zv zr n → fcol f = Red →
  ∃ st' ctx' zl' z' zv' zr' n',
    insertFixupBody (Some z) st = Some (Some z', st')
    ∧ FixInv st' ctx' zl' z' zv' zr' n'
    ∧ (length ctx' < length (f :: g :: rest))%nat
    ∧ nextID st' = nextID st
    ∧ ∃ new, steps st' = steps st ++ new ∧ recolor_before_rotate new = true.
Proof.
  intros (HR & Hnrr & Hbh & Hok) Hf.
  destruct f as [df cf p pv ps], g as [dg cg g gv U]. cbn [fcol] in Hf. subst cf.
  cbn [ctx_ok fcol fsib] in Hok.
  destruct Hok as (Hps1 & Hps2 & Hpsb & Hg & HU1 & HU2 & Hrest). subst cg.
  cbn [plug] in HR. unfold fill in HR. cbn [fdir fcol faddr fval fsib] in HR.
  destruct dg, df; destruct U as [|[] ul u uv ur].
  - (* black uncle, z an outer child: recolour and rotate at the grandparent *)
    gen HR. unfold insertFixupBody. exec.
    do_addStep (plug rest (T Black (T Red (T Red zl z zv zr) p pv ps) g gv E)). exec.
    do_addStep (plug rest (T Red (T Black (T Red zl z zv zr) p pv ps) g gv E)). exec.
    do_rightRotate (plug rest (T Red (T Black (T Red zl z zv zr) p pv ps) g gv E))
      rest Black (T Red zl z zv zr) p pv Red ps g gv E. exec.
    eexists _, (Frame DL Black p pv (T Red ps g gv E) :: rest), zl, z, zv, zr, n.
    finish HR.
  - (* red uncle: recolour and move up *)
    gen HR. unfold insertFixupBody. exec.
    do_addStep (plug rest (T Black (T Red (T Red zl z zv zr) p pv ps) g gv (T Red ul u uv ur))). exec.
    do_addStep (plug rest (T Red (T Black (T Red zl z zv zr) p pv ps) g gv (T Black ul u uv ur))). exec.
    eexists _, rest, (T Black (T Red zl z zv zr) p pv ps), g, gv, (T Black ul u uv ur), (S n).
    finish I.
  - (* black uncle, z an outer child: recolour and rotate at the grandparent *)
    gen HR. unfold insertFixupBody. exec.
    do_addStep (plug rest (T Black (T Red (T Red zl z zv zr) p pv ps) g gv (T Black ul u uv ur))). exec.
    do_addStep (plug rest (T Red (T Black (T Red zl z zv zr) p pv ps) g gv (T Black ul u uv ur))). exec.
    do_rightRotate (plug rest (T Red (T Black (T Red zl z zv zr) p pv ps) g gv (T Black ul u uv ur)))
      rest Black (T Red zl z zv zr) p pv Red ps g gv (T Black ul u uv ur). exec.
    eexists _, (Frame DL Black p pv (T Red ps g gv (T Black ul u uv ur)) :: rest), zl, z, zv, zr, n.
    finish HR.
  - (* black uncle, z an inner child: rotate at the parent, then as above *)
    gen HR. unfold insertFixupBody. exec.
    do_addStep (plug rest (T Black (T Red ps p pv (T Red zl z zv zr)) g gv E)). exec.
    do_leftRotate (plug rest (T Black (T Red ps p pv (T Red zl z zv zr)) g gv E))
      (Frame DL Black g gv E :: rest) Red ps p pv Red zl z zv zr. exec.
    cbn [plug] in HR; unfold fill in HR; cbn [fdir fcol faddr fval fsib] in HR.
    gen HR. exec.
    do_addStep (plug rest (T Black (T Red (T Red ps p pv zl) z zv zr) g gv E)). exec.
    do_addStep (plug rest (T Red (T Black (T Red ps p pv zl) z zv zr) g gv E)). exec.
    do_rightRotate (plug rest (T Red (T Black (T Red ps p pv zl) z zv zr) g gv E))
      rest Black (T Red ps p pv zl) z zv Red zr g gv E. exec.
    eexists _, (Frame DL Black z zv (T Red zr g gv E) :: rest), ps, p, pv, zl, n.
    finish HR.
  - (* red uncle: recolour and move up *)
    gen HR. unfold insertFixupBody. exec.
    do_addStep (plug rest (T Black (T Red ps p pv (T Red zl z zv zr)) g gv (T Red ul u uv ur))). exec.
    do_addStep (plug rest (T Red (T Black ps p pv (T Red zl z zv zr)) g gv (T Black ul u uv ur))). exec.
    eexists _, rest, (T Black ps p pv (T Red zl z zv zr)), g, gv, (T Black ul u uv ur), (S n).
    finish I.
  - (* black uncle, z an inner child: rotate at the parent, then as above *)
    gen HR. unfold insertFixupBody. exec.
    do_addStep (plug rest (T Black (T Red ps p pv (T Red zl z zv zr)) g gv (T Black ul u uv ur))). exec.
    do_leftRotate (plug rest (T Black (T Red ps p pv (T Red zl z zv zr)) g gv (T Black ul u uv ur)))
      (Frame DL Black g gv (T Black ul u uv ur) :: rest) Red ps p pv Red zl z zv zr. exec.
    cbn [plug] in HR; unfold fill in HR; cbn [fdir fcol faddr fval fsib] in HR.
    gen HR. exec.
    do_addStep (plug rest (T Black (T Red (T Red ps p pv zl) z zv zr) g gv (T Black ul u uv ur))). exec.
    do_addStep (plug rest (T Red (T Black (T Red ps p pv zl) z zv zr) g gv (T Black ul u uv ur))). exec.
    do_rightRotate (plug rest (T Red (T Black (T Red ps p pv zl) z zv zr) g gv (T Black ul u uv ur)))
      rest Black (T Red ps p pv zl) z zv Red zr g gv (T Black ul u uv ur). exec.
    eexists _, (Frame DL Black z zv (T Red zr g gv (T Black ul u uv ur)) :: rest), ps, p, pv, zl, n.
    finish HR.
  - (* black uncle, z an inner child: rotate at the parent, then as above *)
    gen HR. unfold insertFixupBody. exec.
    do_addStep (plug rest (T Black E g gv (T Red (T Red zl z zv zr) p pv ps))). exec.
    do_rightRotate (plug rest (T Black E g gv (T Red (T Red zl z zv zr) p pv ps)))
      (Frame DR Black g gv E :: rest) Red zl z zv Red zr p pv ps. exec.
    cbn [plug] in HR; unfold fill in HR; cbn [fdir fcol faddr fval fsib] in HR.
    gen HR. exec.
    do_addStep (plug rest (T Black E g gv (T Red zl z zv (T Red zr p pv ps)))). exec.
    do_addStep (plug rest (T Red E g gv (T Black zl z zv (T Red zr p pv ps)))). exec.
    do_leftRotate (plug rest (T Red E g gv (T Black zl z zv (T Red zr p pv ps))))
      rest Red E g gv Black zl z zv (T Red zr p pv ps). exec.
    eexists _, (Frame DR Black z zv (T Red E g gv zl) :: rest), zr, p, pv, ps, n.
    finish HR.
  - (* red uncle: recolour and move up *)
    gen HR. unfold insertFixupBody. exec.
    do_addStep (plug rest (T Black (T Red ul u uv ur) g gv (T Red (T Red zl z zv zr) p pv ps))). exec.
    do_addStep (plug rest (T Red (T Black ul u uv ur) g gv (T Black (T Red zl z zv zr) p pv ps))). exec.
    eexists _, rest, (T Black ul u uv ur), g, gv, (T Black (T Red zl z zv zr) p pv ps), (S n).
    finish I.
  - (* black uncle, z an inner child: rotate at the parent, then as above *)
    gen HR. unfold insertFixupBody. exec.
    do_addStep (plug rest (T Black (T Black ul u uv ur) g gv (T Red (T Red zl z zv zr) p pv ps))). exec.
    do_rightRotate (plug rest (T Black (T Black ul u uv ur) g gv (T Red (T Red zl z zv zr) p pv ps)))
      (Frame DR Black g gv (T Black ul u uv ur) :: rest) Red zl z zv Red zr p pv ps. exec.
    cbn [plug] in HR; unfold fill in HR; cbn [fdir fcol faddr fval fsib] in HR.
    gen HR. exec.
    do_addStep (plug rest (T Black (T Black ul u uv ur) g gv (T Red zl z zv (T Red zr p pv ps)))). exec.
    do_addStep (plug rest (T Red (T Black ul u uv ur) g gv (T Black zl z zv (T Red zr p pv ps)))). exec.
    do_leftRotate (plug rest (T Red (T Black ul u uv ur) g gv (T Black zl z zv (T Red zr p pv ps))))
      rest Red (T Black ul u uv ur) g gv Black zl z zv (T Red zr p pv ps). exec.
    eexists _, (Frame DR Black z zv (T Red (T Black ul u uv ur) g gv zl) :: rest), zr, p, pv, ps, n.
    finish HR.
  - (* black uncle, z an outer child: recolour and rotate at the grandparent *)
    gen HR. unfold insertFixupBody. exec.
    do_addStep (plug rest (T Black E g gv (T Red ps p pv (T Red zl z zv zr)))). exec.
    do_addStep (plug rest (T Red E g gv (T Black ps p pv (T Red zl z zv zr)))). exec.
    do_leftRotate (plug rest (T Red E g gv (T Black ps p pv (T Red zl z zv zr))))
      rest Red E g gv Black ps p pv (T Red zl z zv zr). exec.
    eexists _, (Frame DR Black p pv (T Red E g gv ps) :: rest), zl, z, zv, zr, n.
    finish HR.
  - (* red uncle: recolour and move up *)
    gen HR. unfold insertFixupBody. exec.
    do_addStep (plug rest (T Black (T Red ul u uv ur) g gv (T Red ps p pv (T Red zl z zv zr)))). exec.
    do_addStep (plug rest (T Red (T Black ul u uv ur) g gv (T Black ps p pv (T Red zl z zv zr)))). exec.
    eexists _, rest, (T Black ul u uv ur), g, gv, (T Black ps p pv (T Red zl z zv zr)), (S n).
    finish I.
  - (* black uncle, z an outer child: recolour and rotate at the grandparent *)
    gen HR. unfold insertFixupBody. exec.
    do_addStep (plug rest (T Black (T Black ul u uv ur) g gv (T Red ps p pv (T Red zl z zv zr)))). exec.
    do_addStep (plug rest (T Red (T Black ul u uv ur) g gv (T Black ps p pv (T Red zl z zv zr)))). exec.
    do_leftRotate (plug rest (T Red (T Black ul u uv ur) g gv (T Black ps p pv (T Red zl z zv zr))))
      rest Red (T Black ul u uv ur) g gv Black ps p pv (T Red zl z zv zr). exec.
    eexists _, (Frame DR Black p pv (T Red (T Black ul u uv ur) g gv ps) :: rest), zl, z, zv, zr, n.
    finish HR.
Qed.

(** ** Traces *)

Lemma recolor_before_rotate_app l1 : ∀ l2,
  recolor_before_rotate l1 = true → recolor_before_rotate l2 = true →
  recolor_before_rotate (l1 ++ l2) = true.
Proof.
  induction l1 as [|s l1 IH]; intros l2 H1 H2; [exact H2|].
  cbn [recolor_before_rotate app] in *.
  apply andb_true_iff in H1 as [H1 Hl1]. apply andb_true_iff in H1 as [Ha Hb].
  rewrite (IH _ Hl1 H2), andb_true_r.
  assert (Hf : ∀ ty1 ty2, follows ty1 ty2 l1 = true → follows ty1 ty2 (l1 ++ l2) = true).
  { intros ty1 ty2. destruct l1 as [|c [|r l1']]; cbn; congruence. }
  apply andb_true_iff. split.
  - destruct (announces case3_text s); [now apply Hf|reflexivity].
  - destruct (announces case3_mirror_text s); [now apply Hf|reflexivity].
Qed.

Lemma recolor_before_rotate_plain l :
  Forall (fun s => Type_ s ≠ StepRebalance) l → recolor_before_rotate l = true.
Proof.
  induction 1 as [|s l Hs _ IH]; [reflexivity|].
  cbn [recolor_before_rotate]. rewrite IH. unfold announces.
  destruct (Type_ s); try reflexivity. congruence.
Qed.


(** ** The loop of insertFixup, as a whole *)

Lemma insertFixupGuard_run st ctx zl z zv zr :
  Rep st (plug ctx (T Red zl z zv zr)) →
  insertFixupGuard (Some z) st
  = Some (match ctx with
          | f :: _ => bool_decide (fcol f = Red)
          | [] => false
          end, st).
Proof.
  intros HR. destruct ctx as [|[d c p pv ps] rest].
  - gen HR. unfold insertFixupGuard. exec. reflexivity.
  - cbn [plug] in HR. unfold fill in HR. cbn [fdir fcol faddr fval fsib] in HR.
    destruct d; gen HR; unfold insertFixupGuard; exec; reflexivity.
Qed.

Lemma insertFixupLoop_ok fuel : ∀ st ctx zl z zv zr n,
  FixInv st ctx zl z zv zr n → (length ctx < fuel)%nat →
  ∃ st' t new,
    insertFixupLoop fuel (Some z) st = Some (tt, st')
    ∧ Rep st' t ∧ no_red_red t ∧ (∃ m, bh t m)
    ∧ nextID st' = nextID st
    ∧ steps st' = steps st ++ new ∧ recolor_before_rotate new = true.
Proof.
  induction fuel as [|fuel IH]; intros st ctx zl z zv zr n HF Hlen; [lia|].
  pose proof HF as (HR & Hnrr & Hbh & Hok).
  cbn [insertFixupLoop].
  rewrite (bind_run _ _ _ _ _ (insertFixupGuard_run _ _ _ _ _ _ HR)).
  assert (Hstop : (match ctx with f :: _ => fcol f = Red → color (T Red zl z zv zr) = Black
                   | [] => True end) →
    ∃ st' t new, Some (tt, st) = Some (tt, st')
      ∧ Rep st' t ∧ no_red_red t ∧ (∃ m, bh t m) ∧ nextID st' = nextID st
      ∧ steps st' = steps st ++ new ∧ recolor_before_rotate new = true).
  { intros Hc. destruct (plug_ok ctx _ n Hok Hbh Hnrr Hc) as (H1 & H2 & _).
    exists st, (plug ctx (T Red zl z zv zr)), [].
    rewrite app_nil_r. split; [reflexivity|]. split; [exact HR|].
    split; [exact H1|]. split; [exact H2|]. repeat split. }
  destruct ctx as [|f rest]; [now apply Hstop|].
  destruct (color_cases (fcol f)) as [Hf|Hf]; rewrite Hf; cbn [bool_decide decide_rel];
    [|apply Hstop; congruence].
  rewrite bool_decide_eq_true_2 by reflexivity.
  destruct rest as [|g rest].
  { cbn [ctx_ok] in Hok. rewrite Hf in Hok. tauto. }
  destruct (insertFixupBody_ok _ _ _ _ _ _ _ _ _ HF Hf)
    as (st1 & ctx1 & zl1 & z1 & zv1 & zr1 & n1 & Hrun & HF1 & Hlen1 & Hn1 & new1 & Hs1 & Ho1).
  rewrite (bind_run _ _ _ _ _ Hrun).
  destruct (IH st1 ctx1 zl1 z1 zv1 zr1 n1 HF1 ltac:(cbn in *; lia))
    as (st2 & t & new2 & Hrun2 & HR2 & Hnrr2 & Hbh2 & Hn2 & Hs2 & Ho2).
  exists st2, t, (new1 ++ new2). split; [exact Hrun2|].
  split; [exact HR2|]. split; [exact Hnrr2|]. split; [exact Hbh2|].
  split; [congruence|]. split.
  - rewrite Hs2, Hs1, app_assoc. reflexivity.
  - now apply recolor_before_rotate_app.
Qed.

Lemma length_ctx_addrs ctx : (length ctx ≤ length (ctx_addrs ctx))%nat.
Proof.
  induction ctx as [|f ctx IH]; [reflexivity|].
  unfold ctx_addrs in *. cbn [flat_map length app]. rewrite length_app. cbn [length]. lia.
Qed.

Lemma Rep_ctx_bound st ctx t : Rep st (plug ctx t) → (length ctx < bound st)%nat.
Proof.
  intros HR. apply Rep_plug in HR as (_ & _ & _ & _ & _ & _ & Hnd & Hb).
  pose proof (NoDup_bounded_length _ _ Hnd Hb) as Hl.
  rewrite length_app in Hl. pose proof (length_ctx_addrs ctx). unfold bound. lia.
Qed.

Lemma insertFixup_ok st ctx zl z zv zr n :
  FixInv st ctx zl z zv zr n →
  ∃ st' t new,
    insertFixup (Some z) st = Some (tt, st')
    ∧ Rep st' t ∧ color t = Black ∧ no_red_red t ∧ (∃ m, bh t m)
    ∧ nextID st' = nextID st
    ∧ steps st' = steps st ++ new ∧ recolor_before_rotate new = true.
Proof.
  intros HF.
  destruct (insertFixupLoop_ok (bound st) st ctx zl z zv zr n HF)
    as (st1 & t & new & Hloop & HR & Hnrr & (m & Hbh) & Hn & Hs & Ho).
  { destruct HF as (HR & _). now apply Rep_ctx_bound in HR. }
  unfold insertFixup.
  rewrite (bind_run (fun t => insertFixupLoop (bound t) (Some z) t) _ st tt st1 Hloop).
  destruct t as [|[] l a v r].
  - change (Rep st1 (plug [] E)) in HR. pose proof HR as HR'. gen HR'. exec.
    rewrite HRoot. cbn [plug rootp]. exec. rewrite Hnc. exec.
    exists st1, E, new. split; [reflexivity|]. split; [exact HR|].
    split; [reflexivity|]. split; [exact I|]. split; [now exists m|]. now repeat split.
  - change (Rep st1 (plug [] (T Red l a v r))) in HR. gen HR. exec.
    repeat (rewrite HRoot; cbn [plug rootp]; exec).
    do_addStep (plug [] (T Black l a v r)).
    eexists _, (T Black l a v r), (new ++ [_]). split; [reflexivity|].
    split; [change (T Black l a v r) with (plug [] (T Black l a v r)); solve_Rep|].
    split; [reflexivity|]. pure.
    + rewrite steps_add_steps. cbn [with_heap steps]. rewrite Hs, app_assoc. reflexivity.
    + apply recolor_before_rotate_app; [exact Ho|reflexivity].
  - change (Rep st1 (plug [] (T Black l a v r))) in HR. pose proof HR as HR'. gen HR'. exec.
    rewrite HRoot. cbn [plug rootp]. exec.
    exists st1, (T Black l a v r), new. split; [reflexivity|]. split; [exact HR|].
    split; [reflexivity|]. split; [exact Hnrr|]. split; [now exists m|]. now repeat split.
Qed.

(** ** Hanging the new node under the last node of the descent *)

Lemma insertLink_Rep st ctx z value new :
  Rep st (plug ctx E) →
  heap st !! z = Some (freshNode z value) →
  z ∉ ctx_addrs ctx → 0 <= z < nextID st →
  side_ok value ctx →
  ∃ st2,
    setParent (Some z) (hole_parent (Some nil_addr) ctx) (add_steps new st) = Some (tt, st2)
    ∧ ∃ st' s,
        insertLink value (Some z) (hole_parent (Some nil_addr) ctx) st2 = Some (tt, st')
        ∧ Rep st' (plug ctx (T Red E z value E))
        ∧ nextID st' = nextID st
        ∧ steps st' = (steps st ++ new) ++ [s] ∧ Type_ s = StepInsert.
Proof.
  intros HR Hz Hfresh Hrange Hside. unfold freshNode in Hz.
  pose proof HR as HR0.
  apply Rep_plug in HR0 as (_ & _ & _ & _ & _ & _ & Hnd0 & Hb0).
  assert (Hnd' : keep (NoDup (addrs (T Red E z value E) ++ ctx_addrs ctx))).
  { unfold keep. cbn in *. apply NoDup_cons_2; assumption. }
  assert (Hb' : keep (Forall (fun a => 0 <= a < nextID st)
                        (addrs (T Red E z value E) ++ ctx_addrs ctx))).
  { unfold keep. cbn in *. apply Forall_cons_2; assumption. }
  clear Hnd0 Hb0.
  pose proof (modify_run (fun n => {| ID := ID n; Value := Value n; Color := Color n;
                                      Left := Left n; Right := Right n;
                                      Parent := hole_parent (Some nil_addr) ctx |})
                z (add_steps new st) _ Hz) as Hsp.
  eexists. split; [exact Hsp|]. clear Hsp.
  destruct ctx as [|[[] c p pv ps] rest]; cbn [side_ok fdir fval] in Hside.
  - gen HR. unfold insertLink. exec.
    apply finish_addStep; [solve_Rep| |].
    + exec. reflexivity.
    + cbn [steps with_heap]. now rewrite steps_add_steps.
  - assert (Hlt : (value <? pv) = true) by (destruct (value <? pv); congruence).
    gen HR. unfold insertLink. exec. rewrite Hlt. exec.
    apply finish_addStep; [solve_Rep| |].
    + exec. reflexivity.
    + cbn [steps with_heap]. now rewrite steps_add_steps.
  - assert (Hlt : (value <? pv) = false) by (destruct (value <? pv); congruence).
    gen HR. unfold insertLink. exec. rewrite Hlt. exec.
    apply finish_addStep; [solve_Rep| |].
    + exec. reflexivity.
    + cbn [steps with_heap]. now rewrite steps_add_steps.
Qed.

(** ** Insert keeps the red-black properties *)

Lemma Insert_ok value st :
  RBInv st →
  ∃ r st',
    Insert value st = Some (r, st')
    ∧ RBInv st'
    ∧ Success r = true
    ∧ nextID st' = nextID st + 1
    ∧ recolor_before_rotate (Steps r) = true.
Proof.
  intros (t & HR & Hc & Hnrr & n & Hbh).
  remember {| Root := Root st; NIL := NIL st; nextID := nextID st;
              steps := []; heap := heap st |} as st0 eqn:E0.
  assert (HR0 : Rep st0 t) by (subst st0; exact HR).
  assert (Hn0 : nextID st0 = nextID st) by (subst st0; reflexivity).
  assert (Hs0 : steps st0 = []) by (subst st0; reflexivity).
  assert (Hclear : clearSteps st = Some (tt, st0)) by (subst st0; reflexivity).
  clear E0.
  unfold Insert. rewrite (bind_run _ _ _ _ _ Hclear).
  destruct (newNode_Rep value st0 t HR0) as (st1 & Hnew & HR1 & Hz & Hn1 & Hs1).
  rewrite (bind_run _ _ _ _ _ Hnew).
  pose proof (Rep_fresh _ _ HR0) as Hfresh.
  assert (Hz0 : 0 <= nextID st0) by (destruct HR0 as (_ & _ & ? & _); assumption).
  set (z := nextID st0) in *.
  pose proof HR1 as (HN & _ & _ & HRoot & _).
  unfold freshNode in Hz.
  unfold bind, ret, get, load, getNIL, getRoot, getSteps. simp_run.
  match goal with
  | |- context [addStep ?ty ?d ?i ?hl st1] =>
      destruct (addStep_Rep ty d i hl st1 t HR1) as (snap1 & Heq1); rewrite Heq1; clear Heq1
  end.
  simp_run. rewrite HN, HRoot.
  match goal with
  | |- context [insertDescend ?f value (Some z) _ _ ?s2] =>
      destruct (insertDescend_Rep value z _ t [] f s2
                  (Rep_add_steps _ _ _ HR1) Hz eq_refl I (Rep_depth _ _ (Rep_add_steps _ _ _ HR1)))
        as (ctx & new & Hd & Hplug & Hside & Hcmp)
  end.
  cbn [hole_parent plug] in Hd, Hplug. rewrite Hd. clear Hd. subst t.
  match goal with
  | |- context [setParent _ _ (add_steps new ?s2)] =>
      destruct (insertLink_Rep s2 ctx z value new (Rep_add_steps _ _ _ HR1) Hz)
        as (st3 & Hsp & st4 & s4 & Hlink & HR4 & Hn4 & Hs4 & Hty4)
  end.
  { rewrite addrs_plug in Hfresh. exact Hfresh. }
  { rewrite nextID_add_steps, Hn1. lia. }
  { exact Hside. }
  rewrite Hsp, Hlink. clear Hsp Hlink.
  destruct (plug_inv ctx E n Hnrr Hbh (fun _ => Hc)) as (n' & Hok & HbE & _ & _).
  assert (HF : FixInv st4 ctx E z value E n').
  { split; [exact HR4|]. cbn. auto. }
  destruct (insertFixup_ok _ _ _ _ _ _ _ HF)
    as (st5 & t5 & new5 & Hfix & HR5 & Hc5 & Hnrr5 & Hbh5 & Hn5 & Hs5 & Ho5).
  rewrite Hfix. clear Hfix.
  match goal with
  | |- context [addStep ?ty ?d ?i ?hl st5] =>
      destruct (addStep_Rep ty d i hl st5 t5 HR5) as (snap5 & Heq5); rewrite Heq5; clear Heq5
  end.
  match goal with
  | |- context [getTreeSnapshot ?s6] =>
      destruct (getTreeSnapshot_Rep s6 t5 (Rep_add_steps _ _ _ HR5)) as (snap6 & Heq6);
      rewrite Heq6; clear Heq6
  end.
  eexists _, _. split; [reflexivity|].
  split; [exists t5; split; [now apply Rep_add_steps|]; auto|].
  split; [reflexivity|].
  split.
  { rewrite nextID_add_steps, Hn5, Hn4, nextID_add_steps, Hn1. lia. }
  cbn [Steps]. rewrite steps_add_steps, Hs5, Hs4, steps_add_steps, Hs1, Hs0.
  rewrite app_nil_l.
  repeat apply recolor_before_rotate_app; try assumption;
    apply recolor_before_rotate_plain.
  - repeat constructor. discriminate.
  - eapply Forall_impl; [exact Hcmp|]. intros s ->. discriminate.
  - repeat constructor. rewrite Hty4. discriminate.
  - repeat constructor. discriminate.
Qed.

(** Every state reached from the empty tree by inserts has the properties. *)
Lemma RBInv_new : RBInv NewRedBlackTree.
Proof.
  exists E. split; [|cbn; eauto].
  unfold Rep, NewRedBlackTree. cbn.
  split; [reflexivity|]. split; [eexists; split; [reflexivity|reflexivity]|].
  split; [lia|]. split; [reflexivity|]. split; [exact I|].
  split; constructor.
Qed.

Lemma inserts_ok vs : ∀ st,
  RBInv st → ∃ st', inserts vs st = Some st' ∧ RBInv st'.
Proof.
  induction vs as [|v vs IH]; intros st Hinv; [now exists st|].
  destruct (Insert_ok v st Hinv) as (r & st1 & Hrun & Hinv1 & _).
  cbn [inserts]. rewrite Hrun. now apply IH.
Qed.

(** ** Deleting a key the tree does not hold *)

(** A snapshot reads the nodes and the sentinel, not the recorded steps. *)
Lemma inorderSnapshot_ext st st' :
  heap st' = heap st → NIL st' = NIL st →
  ∀ fuel node d a b,
    inorderSnapshot fuel st' node d a b = inorderSnapshot fuel st node d a b.
Proof.
  intros Hh HN.
  assert (Hl : ∀ q, linkID st' q = linkID st q).
  { intros q. unfold linkID, load. now rewrite Hh, HN. }
  induction fuel as [|fuel IH]; intros node d a b; [reflexivity|].
  cbn [inorderSnapshot]. rewrite HN.
  destruct (ptr_eqb node (NIL st) || ptr_eqb node None); [reflexivity|].
  assert (Hld : load st' node = load st node) by (unfold load; now rewrite Hh).
  rewrite Hld. destruct (load st node) as [n|]; [|reflexivity].
  cbn. rewrite !Hl, !IH. reflexivity.
Qed.

Lemma searchNode_go_absent st value t :
  NIL st = Some nil_addr →
  ∀ fuel par,
    repr (heap st) par t → Forall (fun a => a ≠ nil_addr) (addrs t) →
    value ∉ keys t → (depth t < fuel)%nat →
    searchNode_go fuel value (rootp t) st = Some (Some nil_addr, st).
Proof.
  intros HN. induction t as [|c l IHl a v r IHr]; intros fuel par Hr Hne Hk Hd;
    (destruct fuel as [|fuel]; [cbn in Hd; lia|]); cbn [searchNode_go].
  - exec. now rewrite HN.
  - cbn [repr keys depth addrs] in *. destruct Hr as (Ha & Hl & Hrr). facts.
    assert (Hv : (value =? v) = false) by (apply Z.eqb_neq; congruence).
    exec. rewrite Hv.
    destruct (value <? v); exec.
    + apply (IHl fuel (Some a)); try assumption. lia.
    + apply (IHr fuel (Some a)); try assumption. lia.
Qed.

Lemma Delete_absent_rb st t value :
  Rep st t → value ∉ keys t →
  ∃ r st' notFound snap,
    Delete value st = Some (r, st')
    ∧ Success r = false
    ∧ Message r = Some (Sprintf "值 %d 不存在，无法删除" [AInt value])
    ∧ last (Steps r) = Some notFound ∧ Type_ notFound = StepNotFound
    ∧ heap st' = heap st ∧ Root st' = Root st ∧ NIL st' = NIL st
    ∧ nextID st' = nextID st
    ∧ getTreeSnapshot st = Some (snap, st)
    ∧ TreeState notFound = snap
    ∧ FinalTree r = snap.
Proof.
  intros HR Hk.
  destruct (getTreeSnapshot_Rep _ _ HR) as (snap & Hsnap).
  pose proof Hsnap as Hin. unfold getTreeSnapshot in Hin.
  destruct (inorderSnapshot (bound st) st (Root st) 0 0 (inject_Z 800)) as [snap'|] eqn:Hin';
    [|discriminate].
  injection Hin as ->.
  remember {| Root := Root st; NIL := NIL st; nextID := nextID st;
              steps := []; heap := heap st |} as st0 eqn:E0.
  assert (HR0 : Rep st0 t) by (subst st0; exact HR).
  assert (Hclear : clearSteps st = Some (tt, st0)) by (subst st0; reflexivity).
  assert (Hh0 : heap st0 = heap st) by (subst st0; reflexivity).
  assert (HN0 : NIL st0 = NIL st) by (subst st0; reflexivity).
  assert (Hr0 : Root st0 = Root st) by (subst st0; reflexivity).
  assert (Hn0 : nextID st0 = nextID st) by (subst st0; reflexivity).
  assert (Hs0 : steps st0 = []) by (subst st0; reflexivity).
  clear E0.
  pose proof HR0 as (HN & _ & _ & HRoot & Hrepr & _).
  assert (Hfind : searchNode value st0 = Some (Some nil_addr, st0)).
  { unfold searchNode, bind, getRoot. rewrite HRoot.
    apply (searchNode_go_absent st0 value t HN _ (Some nil_addr) Hrepr);
      [now apply (Rep_addrs_ne st0)|exact Hk|now apply Rep_depth]. }
  assert (Hin0 : inorderSnapshot (bound st0) st0 (Root st0) 0 0 (inject_Z 800) = Some snap).
  { unfold bound. rewrite Hn0, Hr0. rewrite (inorderSnapshot_ext st st0 Hh0 HN0). exact Hin'. }
  unfold Delete. rewrite (bind_run _ _ _ _ _ Hclear), (bind_run _ _ _ _ _ Hfind).
  unfold bind at 1. unfold getNIL at 1. rewrite HN, ptr_eqb_refl.
  rewrite (bind_run _ _ _ _ _ (addStep_run _ _ _ _ _ _ Hin0)).
  unfold notFoundResult, bind, getSteps, ret, getTreeSnapshot.
  assert (Hin1 : ∀ new, inorderSnapshot (bound (add_steps new st0)) (add_steps new st0)
                   (Root (add_steps new st0)) 0 0 (inject_Z 800) = Some snap).
  { intros new. rewrite <- Hin0. apply inorderSnapshot_ext; reflexivity. }
  rewrite Hin1.
  eexists _, _, _, snap. split; [reflexivity|].
  cbn [Success Message Steps FinalTree]. rewrite steps_add_steps, Hs0.
  repeat split; assumption.
Qed.

(** ** The red-black properties after any run of inserts *)

Lemma Rep_root_is_black st t : Rep st t → color t = Black → root_is_black st.
Proof.
  intros HR Hc. unfold root_is_black.
  destruct t as [|c l a v r].
  - destruct HR as (_ & (nn & Hnn & Hnc) & _ & HRoot & _).
    exists nn. rewrite HRoot. cbn. now split.
  - cbn in Hc. subst c. pose proof HR as (_ & _ & _ & HRoot & _).
    change (Rep st (plug [] (T Black l a v r))) in HR. apply Rep_load in HR.
    eexists. rewrite HRoot. cbn [rootp load]. split; [exact HR|reflexivity].
Qed.

(** C2: whatever values are inserted one after the other into an empty
    red-black tree, every Insert returns, and the state it leaves holds a
    tree whose root is black, in which no red node has a red child, and in
    which all paths from the root down to a sentinel position count the
    same number of black nodes.  As the list of values is arbitrary, this
    holds after each Insert of a run. *)
Theorem rb_inserts_keep_red_black (vs : list Z) :
  ∃ st t,
    inserts vs NewRedBlackTree = Some st
    ∧ Rep st t
    ∧ root_is_black st
    ∧ no_red_red t
    ∧ equal_black_paths t.
Proof.
  destruct (inserts_ok vs _ RBInv_new) as (st & Hrun & t & HR & Hc & Hnrr & n & Hbh).
  exists st, t. split; [exact Hrun|]. split; [exact HR|].
  split; [now apply (Rep_root_is_black st t)|]. split; [exact Hnrr|].
  now apply (bh_equal_black_paths t n).
Qed.

(** ** The order of the steps of case 3 *)

(** Case 3 and its mirror do occur: 30, 20, 10 runs into case 3, and 10,
    20, 30 into its mirror; the ColorChange step stands before the
    rotation step. *)
Lemma case3_trace_example :
  (st ← inserts [30; 20] NewRedBlackTree;
   '(r, _) ← Insert 10 st;
   Some (kinds (Steps r), map (announces case3_text) (Steps r)))
  = Some ([StepInsert; StepCompare; StepCompare; StepInsert; StepRebalance;
           StepColorChange; StepRotateRight; StepComplete],
          [false; false; false; false; true; false; false; false]).
Proof. vm_compute. reflexivity. Qed.

Lemma case3_mirror_trace_example :
  (st ← inserts [10; 20] NewRedBlackTree;
   '(r, _) ← Insert 30 st;
   Some (kinds (Steps r), map (announces case3_mirror_text) (Steps r)))
  = Some ([StepInsert; StepCompare; StepCompare; StepInsert; StepRebalance;
           StepColorChange; StepRotateLeft; StepComplete],
          [false; false; false; false; true; false; false; false]).
Proof. vm_compute. reflexivity. Qed.

(** ** Keys inserted twice *)

(** C1: Insert has no branch for an equal key.  Inserting 10 into the tree
    that holds 10 goes right at the comparison, stores a second node with
    the value 10, and records an Insert step after the Compare step. *)
Theorem rb_insert_duplicate_stores_second_node :
  (st ← inserts [10] NewRedBlackTree;
   '(r, st') ← Insert 10 st;
   Some (Success r, kinds (Steps r), map snValue (FinalTree r), nextID st'))
  = Some (true, [StepInsert; StepCompare; StepInsert; StepComplete], [10; 10], 2).
Proof. vm_compute. reflexivity. Qed.

(** C4: after Insert 5, Insert 5 and Delete 5 the tree still holds a node
    with the value 5, so Search 5 succeeds with a trace that ends in a
    Found step although 5 was deleted after its last insertion. *)
Theorem rb_search_finds_key_after_delete :
  (st ← inserts [5; 5] NewRedBlackTree;
   '(d, st1) ← Delete 5 st;
   '(r, _) ← Search 5 st1;
   Some (Success d, Success r, kinds (Steps r), map snValue (FinalTree r)))
  = Some (true, true, [StepCompare; StepFound], [5]).
Proof. vm_compute. reflexivity. Qed.

(** ** The steps of Insert, in whatever state it runs *)














































End RBFacts.

(* ===================================================================== *)
(** * Search order of the red-black tree: Insert, Search, searchNode, minimum *)
(* ===================================================================== *)

Module RBOrderFacts.
Import RB RBSpec RBFacts.

(** ** The order of the keys *)

Lemma inorder_plug ctx : ∀ t,
  inorder (plug ctx t) = lefts ctx ++ inorder t ++ rights ctx.
Proof.
  induction ctx as [|f rest IH]; intros t; cbn [plug lefts rights].
  - now rewrite app_nil_r.
  - rewrite IH. unfold fill. destruct f as [[] c a v s]; cbn [fdir fcol faddr fval fsib inorder].
    + rewrite app_nil_r, <- !app_assoc. reflexivity.
    + rewrite <- !app_assoc. reflexivity.
Qed.

Lemma keys_inorder t : keys t ≡ₚ inorder t.
Proof.
  induction t as [|c l IHl a v r IHr]; cbn [keys inorder]; [reflexivity|].
  rewrite IHl, IHr. apply Permutation_middle.
Qed.

(** ** The descent of Insert, with the whole path *)

Lemma insertDescend_path value z zn sub :
  ∀ ctx fuel st,
    Rep st (plug ctx sub) →
    heap st !! z = Some zn → Value zn = value →
    path_ok value ctx →
    (depth sub < fuel)%nat →
    ∃ ctx' new,
      insertDescend fuel value (Some z) (hole_parent (Some nil_addr) ctx) (rootp sub) st
      = Some (hole_parent (Some nil_addr) ctx', add_steps new st)
      ∧ plug ctx' E = plug ctx sub
      ∧ path_ok value ctx'
      ∧ Forall (fun s => Type_ s = StepCompare) new.
Proof.
  induction sub as [|c l IHl a v r IHr]; intros ctx fuel st HR Hz Hv Hside Hfuel;
    (destruct fuel as [|fuel]; [cbn in Hfuel; lia|]); cbn [insertDescend].
  - exists ctx, []. destruct HR as (HN & _). exec.
    split; [|auto].
    unfold add_steps. rewrite app_nil_r. destruct st; reflexivity.
  - pose proof (Rep_load _ _ _ _ _ _ _ HR) as Ha.
    pose proof (Rep_addr_range _ _ _ _ _ _ _ HR) as Hrange.
    pose proof HR as (HN & _).
    destruct (addStep_Rep StepCompare
                (Sprintf "比较 %d 与节点 %d" [AInt value; AInt v]) (Some a) [a] _ _ HR)
      as (snap & Hstep).
    exec. rewrite Hstep. exec. rewrite Hv.
    cbn [depth] in Hfuel.
    destruct (value <? v) eqn:Hcmp.
    + destruct (IHl (Frame DL c a v r :: ctx) fuel (add_steps [mkStep StepCompare
                (Sprintf "比较 %d 与节点 %d" [AInt value; AInt v]) (Some a) snap [a]] st))
        as (ctx' & new & Hrun & Hplug & Hside' & Hnew).
      * apply Rep_add_steps. exact HR.
      * exact Hz.
      * exact Hv.
      * constructor; [cbn; now rewrite Hcmp | exact Hside].
      * lia.
      * cbn [hole_parent faddr] in Hrun. exec. rewrite Hrun.
        eexists ctx', (_ :: new). split.
        { unfold add_steps. cbn. rewrite <- app_assoc. reflexivity. }
        split; [exact Hplug|]. split; [exact Hside'|].
        constructor; [reflexivity | exact Hnew].
    + destruct (IHr (Frame DR c a v l :: ctx) fuel (add_steps [mkStep StepCompare
                (Sprintf "比较 %d 与节点 %d" [AInt value; AInt v]) (Some a) snap [a]] st))
        as (ctx' & new & Hrun & Hplug & Hside' & Hnew).
      * apply Rep_add_steps. exact HR.
      * exact Hz.
      * exact Hv.
      * constructor; [cbn; now rewrite Hcmp | exact Hside].
      * lia.
      * cbn [hole_parent faddr] in Hrun. exec. rewrite Hrun.
        eexists ctx', (_ :: new). split.
        { unfold add_steps. cbn. rewrite <- app_assoc. reflexivity. }
        split; [exact Hplug|]. split; [exact Hside'|].
        constructor; [reflexivity | exact Hnew].
Qed.

Lemma path_ok_side value ctx : path_ok value ctx → side_ok value ctx.
Proof. destruct 1; cbn; auto. Qed.

(** ** One pass of the loop of insertFixup keeps the keys in their order *)

Ltac same_order :=
  rewrite !inorder_plug;
  cbn [inorder lefts rights fdir fcol faddr fval fsib];
  repeat (progress (rewrite <- ?app_assoc; cbn [app])); reflexivity.

Ltac finish2 HR :=
  split; [reflexivity|];
  split; [split; [first [exact HR | solve_Rep] | pure]
         | split; [cbn; lia
                  | split; [ repeat first [ reflexivity
                                 | match goal with H : nextID _ = _ |- _ => rewrite H end
                                 | rewrite nextID_add_steps
                                 | progress cbn [with_heap nextID] ]
                           | split; [trace | same_order] ]]].

Lemma insertFixupBody_order st f g rest zl z zv zr n :
  FixInv st (f :: g :: rest) zl z zv zr n → fcol f = Red →
  ∃ st' ctx' zl' z' zv' zr' n',
    insertFixupBody (Some z) st = Some (Some z', st')
    ∧ FixInv st' ctx' zl' z' zv' zr' n'
    ∧ (length ctx' < length (f :: g :: rest))%nat
    ∧ nextID st' = nextID st
    ∧ (∃ new, steps st' = steps st ++ new ∧ recolor_before_rotate new = true)
    ∧ inorder (plug ctx' (T Red zl' z' zv' zr'))
      = inorder (plug (f :: g :: rest) (T Red zl z zv zr)).
Proof.
  intros (HR & Hnrr & Hbh & Hok) Hf.
  destruct f as [df cf p pv ps], g as [dg cg g gv U]. cbn [fcol] in Hf. subst cf.
  cbn [ctx_ok fcol fsib] in Hok.
  destruct Hok as (Hps1 & Hps2 & Hpsb & Hg & HU1 & HU2 & Hrest). subst cg.
  cbn [plug] in HR. unfold fill in HR. cbn [fdir fcol faddr fval fsib] in HR.
  destruct dg, df; destruct U as [|[] ul u uv ur].
  - (* black uncle, z an outer child: recolour and rotate at the grandparent *)
    gen HR. unfold insertFixupBody. exec.
    do_addStep (plug rest (T Black (T Red (T Red zl z zv zr) p pv ps) g gv E)). exec.
    do_addStep (plug rest (T Red (T Black (T Red zl z zv zr) p pv ps) g gv E)). exec.
    do_rightRotate (plug rest (T Red (T Black (T Red zl z zv zr) p pv ps) g gv E))
      rest Black (T Red zl z zv zr) p pv Red ps g gv E. exec.
    eexists _, (Frame DL Black p pv (T Red ps g gv E) :: rest), zl, z, zv, zr, n.
    finish2 HR.
  - (* red uncle: recolour and move up *)
    gen HR. unfold insertFixupBody. exec.
    do_addStep (plug rest (T Black (T Red (T Red zl z zv zr) p pv ps) g gv (T Red ul u uv ur))). exec.
    do_addStep (plug rest (T Red (T Black (T Red zl z zv zr) p pv ps) g gv (T Black ul u uv ur))). exec.
    eexists _, rest, (T Black (T Red zl z zv zr) p pv ps), g, gv, (T Black ul u uv ur), (S n).
    finish2 I.
  - (* black uncle, z an outer child: recolour and rotate at the grandparent *)
    gen HR. unfold insertFixupBody. exec.
    do_addStep (plug rest (T Black (T Red (T Red zl z zv zr) p pv ps) g gv (T Black ul u uv ur))). exec.
    do_addStep (plug rest (T Red (T Black (T Red zl z zv zr) p pv ps) g gv (T Black ul u uv ur))). exec.
    do_rightRotate (plug rest (T Red (T Black (T Red zl z zv zr) p pv ps) g gv (T Black ul u uv ur)))
      rest Black (T Red zl z zv zr) p pv Red ps g gv (T Black ul u uv ur). exec.
    eexists _, (Frame DL Black p pv (T Red ps g gv (T Black ul u uv ur)) :: rest), zl, z, zv, zr, n.
    finish2 HR.
  - (* black uncle, z an inner child: rotate at the parent, then as above *)
    gen HR. unfold insertFixupBody. exec.
    do_addStep (plug rest (T Black (T Red ps p pv (T Red zl z zv zr)) g gv E)). exec.
    do_leftRotate (plug rest (T Black (T Red ps p pv (T Red zl z zv zr)) g gv E))
      (Frame DL Black g gv E :: rest) Red ps p pv Red zl z zv zr. exec.
    cbn [plug] in HR; unfold fill in HR; cbn [fdir fcol faddr fval fsib] in HR.
    gen HR. exec.
    do_addStep (plug rest (T Black (T Red (T Red ps p pv zl) z zv zr) g gv E)). exec.
    do_addStep (plug rest (T Red (T Black (T Red ps p pv zl) z zv zr) g gv E)). exec.
    do_rightRotate (plug rest (T Red (T Black (T Red ps p pv zl) z zv zr) g gv E))
      rest Black (T Red ps p pv zl) z zv Red zr g gv E. exec.
    eexists _, (Frame DL Black z zv (T Red zr g gv E) :: rest), ps, p, pv, zl, n.
    finish2 HR.
  - (* red uncle: recolour and move up *)
    gen HR. unfold insertFixupBody. exec.
    do_addStep (plug rest (T Black (T Red ps p pv (T Red zl z zv zr)) g gv (T Red ul u uv ur))). exec.
    do_addStep (plug rest (T Red (T Black ps p pv (T Red zl z zv zr)) g gv (T Black ul u uv ur))). exec.
    eexists _, rest, (T Black ps p pv (T Red zl z zv zr)), g, gv, (T Black ul u uv ur), (S n).
    finish2 I.
  - (* black uncle, z an inner child: rotate at the parent, then as above *)
    gen HR. unfold insertFixupBody. exec.
    do_addStep (plug rest (T Black (T Red ps p pv (T Red zl z zv zr)) g gv (T Black ul u uv ur))). exec.
    do_leftRotate (plug rest (T Black (T Red ps p pv (T Red zl z zv zr)) g gv (T Black ul u uv ur)))
      (Frame DL Black g gv (T Black ul u uv ur) :: rest) Red ps p pv Red zl z zv zr. exec.
    cbn [plug] in HR; unfold fill in HR; cbn [fdir fcol faddr fval fsib] in HR.
    gen HR. exec.
    do_addStep (plug rest (T Black (T Red (T Red ps p pv zl) z zv zr) g gv (T Black ul u uv ur))). exec.
    do_addStep (plug rest (T Red (T Black (T Red ps p pv zl) z zv zr) g gv (T Black ul u uv ur))). exec.
    do_rightRotate (plug rest (T Red (T Black (T Red ps p pv zl) z zv zr) g gv (T Black ul u uv ur)))
      rest Black (T Red ps p pv zl) z zv Red zr g gv (T Black ul u uv ur). exec.
    eexists _, (Frame DL Black z zv (T Red zr g gv (T Black ul u uv ur)) :: rest), ps, p, pv, zl, n.
    finish2 HR.
  - (* black uncle, z an inner child: rotate at the parent, then as above *)
    gen HR. unfold insertFixupBody. exec.
    do_addStep (plug rest (T Black E g gv (T Red (T Red zl z zv zr) p pv ps))). exec.
    do_rightRotate (plug rest (T Black E g gv (T Red (T Red zl z zv zr) p pv ps)))
      (Frame DR Black g gv E :: rest) Red zl z zv Red zr p pv ps. exec.
    cbn [plug] in HR; unfold fill in HR; cbn [fdir fcol faddr fval fsib] in HR.
    gen HR. exec.
    do_addStep (plug rest (T Black E g gv (T Red zl z zv (T Red zr p pv ps)))). exec.
    do_addStep (plug rest (T Red E g gv (T Black zl z zv (T Red zr p pv ps)))). exec.
    do_leftRotate (plug rest (T Red E g gv (T Black zl z zv (T Red zr p pv ps))))
      rest Red E g gv Black zl z zv (T Red zr p pv ps). exec.
    eexists _, (Frame DR Black z zv (T Red E g gv zl) :: rest), zr, p, pv, ps, n.
    finish2 HR.
  - (* red uncle: recolour and move up *)
    gen HR. unfold insertFixupBody. exec.
    do_addStep (plug rest (T Black (T Red ul u uv ur) g gv (T Red (T Red zl z zv zr) p pv ps))). exec.
    do_addStep (plug rest (T Red (T Black ul u uv ur) g gv (T Black (T Red zl z zv zr) p pv ps))). exec.
    eexists _, rest, (T Black ul u uv ur), g, gv, (T Black (T Red zl z zv zr) p pv ps), (S n).
    finish2 I.
  - (* black uncle, z an inner child: rotate at the parent, then as above *)
    gen HR. unfold insertFixupBody. exec.
    do_addStep (plug rest (T Black (T Black ul u uv ur) g gv (T Red (T Red zl z zv zr) p pv ps))). exec.
    do_rightRotate (plug rest (T Black (T Black ul u uv ur) g gv (T Red (T Red zl z zv zr) p pv ps)))
      (Frame DR Black g gv (T Black ul u uv ur) :: rest) Red zl z zv Red zr p pv ps. exec.
    cbn [plug] in HR; unfold fill in HR; cbn [fdir fcol faddr fval fsib] in HR.
    gen HR. exec.
    do_addStep (plug rest (T Black (T Black ul u uv ur) g gv (T Red zl z zv (T Red zr p pv ps)))). exec.
    do_addStep (plug rest (T Red (T Black ul u uv ur) g gv (T Black zl z zv (T Red zr p pv ps)))). exec.
    do_leftRotate (plug rest (T Red (T Black ul u uv ur) g gv (T Black zl z zv (T Red zr p pv ps))))
      rest Red (T Black ul u uv ur) g gv Black zl z zv (T Red zr p pv ps). exec.
    eexists _, (Frame DR Black z zv (T Red (T Black ul u uv ur) g gv zl) :: rest), zr, p, pv, ps, n.
    finish2 HR.
  - (* black uncle, z an outer child: recolour and rotate at the grandparent *)
    gen HR. unfold insertFixupBody. exec.
    do_addStep (plug rest (T Black E g gv (T Red ps p pv (T Red zl z zv zr)))). exec.
    do_addStep (plug rest (T Red E g gv (T Black ps p pv (T Red zl z zv zr)))). exec.
    do_leftRotate (plug rest (T Red E g gv (T Black ps p pv (T Red zl z zv zr))))
      rest Red E g gv Black ps p pv (T Red zl z zv zr). exec.
    eexists _, (Frame DR Black p pv (T Red E g gv ps) :: rest), zl, z, zv, zr, n.
    finish2 HR.
  - (* red uncle: recolour and move up *)
    gen HR. unfold insertFixupBody. exec.
    do_addStep (plug rest (T Black (T Red ul u uv ur) g gv (T Red ps p pv (T Red zl z zv zr)))). exec.
    do_addStep (plug rest (T Red (T Black ul u uv ur) g gv (T Black ps p pv (T Red zl z zv zr)))). exec.
    eexists _, rest, (T Black ul u uv ur), g, gv, (T Black ps p pv (T Red zl z zv zr)), (S n).
    finish2 I.
  - (* black uncle, z an outer child: recolour and rotate at the grandparent *)
    gen HR. unfold insertFixupBody. exec.
    do_addStep (plug rest (T Black (T Black ul u uv ur) g gv (T Red ps p pv (T Red zl z zv zr)))). exec.
    do_addStep (plug rest (T Red (T Black ul u uv ur) g gv (T Black ps p pv (T Red zl z zv zr)))). exec.
    do_leftRotate (plug rest (T Red (T Black ul u uv ur) g gv (T Black ps p pv (T Red zl z zv zr))))
      rest Red (T Black ul u uv ur) g gv Black ps p pv (T Red zl z zv zr). exec.
    eexists _, (Frame DR Black p pv (T Red (T Black ul u uv ur) g gv ps) :: rest), zl, z, zv, zr, n.
    finish2 HR.
Qed.

(** ** The loop and insertFixup keep the keys in their order *)

Lemma insertFixupLoop_order fuel : ∀ st ctx zl z zv zr n,
  FixInv st ctx zl z zv zr n → (length ctx < fuel)%nat →
  ∃ st' t new,
    insertFixupLoop fuel (Some z) st = Some (tt, st')
    ∧ Rep st' t ∧ no_red_red t ∧ (∃ m, bh t m)
    ∧ nextID st' = nextID st
    ∧ steps st' = steps st ++ new
    ∧ inorder t = inorder (plug ctx (T Red zl z zv zr)).
Proof.
  induction fuel as [|fuel IH]; intros st ctx zl z zv zr n HF Hlen; [lia|].
  pose proof HF as (HR & Hnrr & Hbh & Hok).
  cbn [insertFixupLoop].
  rewrite (bind_run _ _ _ _ _ (insertFixupGuard_run _ _ _ _ _ _ HR)).
  assert (Hstop : (match ctx with f :: _ => fcol f = Red → color (T Red zl z zv zr) = Black
                   | [] => True end) →
    ∃ st' t new, Some (tt, st) = Some (tt, st')
      ∧ Rep st' t ∧ no_red_red t ∧ (∃ m, bh t m) ∧ nextID st' = nextID st
      ∧ steps st' = steps st ++ new
      ∧ inorder t = inorder (plug ctx (T Red zl z zv zr))).
  { intros Hc. destruct (plug_ok ctx _ n Hok Hbh Hnrr Hc) as (H1 & H2 & _).
    exists st, (plug ctx (T Red zl z zv zr)), [].
    rewrite app_nil_r. split; [reflexivity|]. split; [exact HR|].
    split; [exact H1|]. split; [exact H2|]. repeat split. }
  destruct ctx as [|f rest]; [now apply Hstop|].
  destruct (color_cases (fcol f)) as [Hf|Hf]; rewrite Hf; cbn [bool_decide decide_rel];
    [|apply Hstop; congruence].
  rewrite bool_decide_eq_true_2 by reflexivity.
  destruct rest as [|g rest].
  { cbn [ctx_ok] in Hok. rewrite Hf in Hok. tauto. }
  destruct (insertFixupBody_order _ _ _ _ _ _ _ _ _ HF Hf)
    as (st1 & ctx1 & zl1 & z1 & zv1 & zr1 & n1 & Hrun & HF1 & Hlen1 & Hn1
        & (new1 & Hs1 & _) & Hord1).
  rewrite (bind_run _ _ _ _ _ Hrun).
  destruct (IH st1 ctx1 zl1 z1 zv1 zr1 n1 HF1 ltac:(cbn in *; lia))
    as (st2 & t & new2 & Hrun2 & HR2 & Hnrr2 & Hbh2 & Hn2 & Hs2 & Hord2).
  exists st2, t, (new1 ++ new2). split; [exact Hrun2|].
  split; [exact HR2|]. split; [exact Hnrr2|]. split; [exact Hbh2|].
  split; [congruence|]. split.
  - rewrite Hs2, Hs1, app_assoc. reflexivity.
  - congruence.
Qed.

Lemma insertFixup_order st ctx zl z zv zr n :
  FixInv st ctx zl z zv zr n →
  ∃ st' t new,
    insertFixup (Some z) st = Some (tt, st')
    ∧ Rep st' t ∧ color t = Black ∧ no_red_red t ∧ (∃ m, bh t m)
    ∧ nextID st' = nextID st
    ∧ steps st' = steps st ++ new
    ∧ inorder t = inorder (plug ctx (T Red zl z zv zr)).
Proof.
  intros HF.
  destruct (insertFixupLoop_order (bound st) st ctx zl z zv zr n HF)
    as (st1 & t & new & Hloop & HR & Hnrr & (m & Hbh) & Hn & Hs & Hord).
  { destruct HF as (HR & _). now apply Rep_ctx_bound in HR. }
  unfold insertFixup.
  rewrite (bind_run (fun t => insertFixupLoop (bound t) (Some z) t) _ st tt st1 Hloop).
  destruct t as [|[] l a v r].
  - change (Rep st1 (plug [] E)) in HR. pose proof HR as HR'. gen HR'. exec.
    rewrite HRoot. cbn [plug rootp]. exec. rewrite Hnc. exec.
    exists st1, E, new. split; [reflexivity|]. split; [exact HR|].
    split; [reflexivity|]. split; [exact I|]. split; [now exists m|]. now repeat split.
  - change (Rep st1 (plug [] (T Red l a v r))) in HR. gen HR. exec.
    repeat (rewrite HRoot; cbn [plug rootp]; exec).
    do_addStep (plug [] (T Black l a v r)).
    eexists _, (T Black l a v r), (new ++ [_]). split; [reflexivity|].
    split; [change (T Black l a v r) with (plug [] (T Black l a v r)); solve_Rep|].
    split; [reflexivity|]. pure.
    rewrite steps_add_steps. cbn [with_heap steps]. rewrite Hs, app_assoc. reflexivity.
  - change (Rep st1 (plug [] (T Black l a v r))) in HR. pose proof HR as HR'. gen HR'. exec.
    rewrite HRoot. cbn [plug rootp]. exec.
    exists st1, (T Black l a v r), new. split; [reflexivity|]. split; [exact HR|].
    split; [reflexivity|]. split; [exact Hnrr|]. split; [now exists m|]. now repeat split.
Qed.

(** ** Sorted lists of keys *)

Lemma sorted_le_app (l1 l2 : list Z) :
  StronglySorted Z.le (l1 ++ l2)
  ↔ StronglySorted Z.le l1 ∧ StronglySorted Z.le l2
    ∧ ∀ x y, x ∈ l1 → y ∈ l2 → x <= y.
Proof.
  induction l1 as [|a l1 IH]; cbn [app].
  - split; [intros H; repeat split; auto; [constructor | intros x y Hx; inversion Hx] | tauto].
  - split.
    + intros H. inversion H as [|? ? Hs Ha]; subst. apply IH in Hs as (H1 & H2 & H3).
      rewrite Forall_app in Ha. destruct Ha as (Ha1 & Ha2).
      split; [now constructor|]. split; [exact H2|].
      intros x y Hx Hy. apply elem_of_cons in Hx as [-> | Hx]; [|now apply H3].
      rewrite Forall_forall in Ha2. now apply Ha2.
    + intros (H1 & H2 & H3). inversion H1; subst.
      constructor; [apply IH; repeat split; auto; intros; apply H3; [now right | auto]|].
      rewrite Forall_app. split; [assumption|].
      apply Forall_forall. intros y Hy. apply H3; [now left | exact Hy].
Qed.

(** Along the path of the descent for [value], the keys before the hole
    are at most [value] and those after it are larger. *)
Lemma path_bounds value ctx :
  path_ok value ctx → StronglySorted Z.le (lefts ctx ++ rights ctx) →
  Forall (fun x => x <= value) (lefts ctx) ∧ Forall (fun x => value < x) (rights ctx).
Proof.
  induction 1 as [|f rest Hf Hrest IH]; intros Hs; [split; constructor|].
  destruct f as [[] c a v s]; cbn [fdir fval fsib lefts rights] in *.
  - destruct (Z.ltb_spec value v) as [Hlt | Hge]; [|discriminate].
    rewrite app_nil_r in *. cbn [app] in Hs.
    apply sorted_le_app in Hs as (Hl & Hr & Hlr).
    inversion Hr as [|? ? Hr' Hv]; subst. rewrite Forall_app in Hv. destruct Hv as (Hvs & Hvr).
    apply sorted_le_app in Hr' as (Hss & Hrr & Hsr).
    destruct IH as (IH1 & IH2).
    { apply sorted_le_app. split; [exact Hl|]. split; [exact Hrr|].
      intros x y Hx Hy. apply Hlr; [exact Hx|]. right. apply elem_of_app. now right. }
    split; [exact IH1|]. constructor; [exact Hlt|].
    rewrite Forall_app. split; [|exact IH2].
    eapply Forall_impl; [exact Hvs|]. cbn. intros; lia.
  - destruct (Z.ltb_spec value v) as [Hlt | Hge]; [discriminate|].
    cbn [app] in Hs. rewrite <- !app_assoc in Hs. cbn [app] in Hs.
    apply sorted_le_app in Hs as (Hl & Hr & Hlr).
    apply sorted_le_app in Hr as (Hss & Hr' & Hsr).
    inversion Hr' as [|? ? Hrr Hv]; subst.
    destruct IH as (IH1 & IH2).
    { apply sorted_le_app. split; [exact Hl|]. split; [exact Hrr|].
      intros x y Hx Hy. apply Hlr; [exact Hx|]. apply elem_of_app. right. now right. }
    split; [|exact IH2]. rewrite !Forall_app. split; [exact IH1|].
    split; [|repeat constructor; lia].
    apply Forall_forall. intros x Hx. specialize (Hsr x v Hx ltac:(set_solver)). lia.
Qed.

(** ** Insert puts the value at its place in the order *)

Lemma Insert_order value st t :
  Rep st t → color t = Black → no_red_red t → (∃ n, bh t n) →
  ∃ r st' t' l1 l2,
    Insert value st = Some (r, st')
    ∧ Rep st' t' ∧ color t' = Black ∧ no_red_red t' ∧ (∃ m, bh t' m)
    ∧ Success r = true
    ∧ nextID st' = nextID st + 1
    ∧ inorder t = l1 ++ l2
    ∧ inorder t' = l1 ++ value :: l2
    ∧ (ordered t → Forall (fun x => x <= value) l1 ∧ Forall (fun x => value < x) l2).
Proof.
  intros HR Hc Hnrr (n & Hbh).
  remember {| Root := Root st; NIL := NIL st; nextID := nextID st;
              steps := []; heap := heap st |} as st0 eqn:E0.
  assert (HR0 : Rep st0 t) by (subst st0; exact HR).
  assert (Hn0 : nextID st0 = nextID st) by (subst st0; reflexivity).
  assert (Hclear : clearSteps st = Some (tt, st0)) by (subst st0; reflexivity).
  clear E0.
  unfold Insert. rewrite (bind_run _ _ _ _ _ Hclear).
  destruct (newNode_Rep value st0 t HR0) as (st1 & Hnew & HR1 & Hz & Hn1 & Hs1).
  rewrite (bind_run _ _ _ _ _ Hnew).
  pose proof (Rep_fresh _ _ HR0) as Hfresh.
  assert (Hz0 : 0 <= nextID st0) by (destruct HR0 as (_ & _ & ? & _); assumption).
  set (z := nextID st0) in *.
  pose proof HR1 as (HN & _ & _ & HRoot & _).
  unfold freshNode in Hz.
  unfold bind, ret, get, load, getNIL, getRoot, getSteps. simp_run.
  match goal with
  | |- context [addStep ?ty ?d ?i ?hl st1] =>
      destruct (addStep_Rep ty d i hl st1 t HR1) as (snap1 & Heq1); rewrite Heq1; clear Heq1
  end.
  simp_run. rewrite HN, HRoot.
  match goal with
  | |- context [insertDescend ?f value (Some z) _ _ ?s2] =>
      destruct (insertDescend_path value z _ t [] f s2
                  (Rep_add_steps _ _ _ HR1) Hz eq_refl (Forall_nil_2 _)
                  (Rep_depth _ _ (Rep_add_steps _ _ _ HR1)))
        as (ctx & new & Hd & Hplug & Hpath & Hcmp)
  end.
  cbn [hole_parent plug] in Hd, Hplug. rewrite Hd. clear Hd. subst t.
  match goal with
  | |- context [setParent _ _ (add_steps new ?s2)] =>
      destruct (insertLink_Rep s2 ctx z value new (Rep_add_steps _ _ _ HR1) Hz)
        as (st3 & Hsp & st4 & s4 & Hlink & HR4 & Hn4 & Hs4 & Hty4)
  end.
  { rewrite addrs_plug in Hfresh. exact Hfresh. }
  { rewrite nextID_add_steps, Hn1. lia. }
  { apply path_ok_side, Hpath. }
  rewrite Hsp, Hlink. clear Hsp Hlink.
  destruct (plug_inv ctx E n Hnrr Hbh (fun _ => Hc)) as (n' & Hok & HbE & _ & _).
  assert (HF : FixInv st4 ctx E z value E n').
  { split; [exact HR4|]. cbn. auto. }
  destruct (insertFixup_order _ _ _ _ _ _ _ HF)
    as (st5 & t5 & new5 & Hfix & HR5 & Hc5 & Hnrr5 & Hbh5 & Hn5 & Hs5 & Ho5).
  rewrite Hfix. clear Hfix.
  match goal with
  | |- context [addStep ?ty ?d ?i ?hl st5] =>
      destruct (addStep_Rep ty d i hl st5 t5 HR5) as (snap5 & Heq5); rewrite Heq5; clear Heq5
  end.
  match goal with
  | |- context [getTreeSnapshot ?s6] =>
      destruct (getTreeSnapshot_Rep s6 t5 (Rep_add_steps _ _ _ HR5)) as (snap6 & Heq6);
      rewrite Heq6; clear Heq6
  end.
  eexists _, _, t5, (lefts ctx), (rights ctx). split; [reflexivity|].
  split; [now apply Rep_add_steps|].
  split; [exact Hc5|]. split; [exact Hnrr5|]. split; [exact Hbh5|].
  split; [reflexivity|].
  split.
  { rewrite nextID_add_steps, Hn5, Hn4, nextID_add_steps, Hn1. lia. }
  split; [rewrite inorder_plug; reflexivity|].
  split; [rewrite Ho5, inorder_plug; reflexivity|].
  intros Hord. apply path_bounds; [exact Hpath|].
  unfold ordered in Hord. rewrite inorder_plug in Hord. exact Hord.
Qed.

Lemma sorted_le_insert (value : Z) l1 l2 :
  StronglySorted Z.le (l1 ++ l2) →
  Forall (fun x => x <= value) l1 → Forall (fun x => value < x) l2 →
  StronglySorted Z.le (l1 ++ value :: l2).
Proof.
  intros Hs H1 H2. apply sorted_le_app in Hs as (Hs1 & Hs2 & H12).
  apply sorted_le_app. split; [exact Hs1|]. split.
  - constructor; [exact Hs2|]. eapply Forall_impl; [exact H2|]. cbn. intros; lia.
  - intros x y Hx Hy. rewrite Forall_forall in H1, H2.
    apply elem_of_cons in Hy as [-> | Hy]; [now apply H1|].
    specialize (H1 x Hx). specialize (H2 y Hy). lia.
Qed.

Lemma Insert_Stores value st l :
  Stores st l → StronglySorted Z.le l →
  ∃ r st' l1 l2,
    Insert value st = Some (r, st')
    ∧ Success r = true
    ∧ nextID st' = nextID st + 1
    ∧ l = l1 ++ l2
    ∧ Forall (fun x => x <= value) l1 ∧ Forall (fun x => value < x) l2
    ∧ Stores st' (l1 ++ value :: l2)
    ∧ StronglySorted Z.le (l1 ++ value :: l2).
Proof.
  intros (t & HR & Hc & Hnrr & Hbh & Hl) Hs. subst l.
  destruct (Insert_order value st t HR Hc Hnrr Hbh)
    as (r & st' & t' & l1 & l2 & Hrun & HR' & Hc' & Hnrr' & Hbh' & Hsucc & Hn & H1 & H2 & H3).
  destruct (H3 Hs) as (Hl1 & Hl2).
  exists r, st', l1, l2. split; [exact Hrun|]. split; [exact Hsucc|]. split; [exact Hn|].
  split; [exact H1|]. split; [exact Hl1|]. split; [exact Hl2|].
  split; [exists t'; auto|].
  apply sorted_le_insert; [rewrite <- H1; exact Hs | exact Hl1 | exact Hl2].
Qed.

(** ** Search *)

Lemma add_steps_add_steps l1 l2 st :
  add_steps l2 (add_steps l1 st) = add_steps (l1 ++ l2) st.
Proof. unfold add_steps. cbn. now rewrite app_assoc. Qed.

Lemma rb_searchFrom_spec value sub :
  ∀ ctx fuel st,
    Rep st (plug ctx sub) → (depth sub < fuel)%nat →
    ∃ r new k,
      searchFrom fuel value (rootp sub) st = Some (r, add_steps new st)
      ∧ Success r = on_path value sub
      ∧ Steps r = steps st ++ new
      ∧ getTreeSnapshot st = Some (FinalTree r, st)
      ∧ kinds new = repeat StepCompare k
                    ++ [if on_path value sub then StepFound else StepNotFound]
      ∧ (k ≤ depth sub)%nat.
Proof.
  induction sub as [|c l IHl a v r IHr]; intros ctx fuel st HR Hfuel;
    (destruct fuel as [|fuel]; [cbn in Hfuel; lia|]); cbn [searchFrom].
  - pose proof HR as (HN & _).
    destruct (addStep_Rep StepNotFound (Sprintf "值 %d 不存在于树中" [AInt value]) None [] _ _ HR)
      as (snap & Hstep).
    destruct (getTreeSnapshot_Rep _ _ (Rep_add_steps [mkStep StepNotFound
                (Sprintf "值 %d 不存在于树中" [AInt value]) None snap []] _ _ HR))
      as (snap' & Hsnap).
    exec. rewrite Hstep. unfold notFoundResult. exec. rewrite Hsnap.
    eexists _, _, O. split; [reflexivity|].
    split; [reflexivity|]. split; [reflexivity|]. split.
    + cbn [FinalTree]. revert Hsnap. unfold getTreeSnapshot, bound. cbn [add_steps nextID Root].
      rewrite (inorderSnapshot_ext st (add_steps _ st)) by reflexivity.
      destruct (inorderSnapshot _ _ _ _ _ _); [|discriminate].
      intros [= <-]. reflexivity.
    + split; [reflexivity | cbn; lia].
  - pose proof (Rep_load _ _ _ _ _ _ _ HR) as Ha.
    pose proof (Rep_addr_range _ _ _ _ _ _ _ HR) as Hrange.
    pose proof HR as (HN & _).
    destruct (addStep_Rep StepCompare
                (Sprintf "比较 %d 与节点 %d" [AInt value; AInt v]) (Some a) [a] _ _ HR)
      as (snap & Hstep).
    exec. rewrite Hstep. exec.
    cbn [depth on_path] in *.
    destruct (value =? v) eqn:Heq.
    + set (st1 := add_steps _ st) in *.
      assert (HR1 : Rep st1 (plug ctx (T c l a v r))) by (apply Rep_add_steps; exact HR).
      destruct (addStep_Rep StepFound (Sprintf "找到节点 %d" [AInt value]) (Some a) [a] _ _ HR1)
        as (snap2 & Hstep2).
      destruct (getTreeSnapshot_Rep _ _ (Rep_add_steps [mkStep StepFound
                  (Sprintf "找到节点 %d" [AInt value]) (Some a) snap2 [a]] _ _ HR1))
        as (snap' & Hsnap).
      rewrite !(Ha : heap st1 !! a = _). exec. rewrite Hstep2. exec. rewrite Hsnap.
      eexists _, _, 1%nat. split.
      { subst st1. rewrite add_steps_add_steps. reflexivity. }
      split; [reflexivity|]. split.
      { cbn [Steps]. subst st1. unfold add_steps. cbn [steps]. rewrite <- ?app_assoc. reflexivity. }
      split.
      { cbn [FinalTree]. revert Hsnap. subst st1. unfold getTreeSnapshot, bound.
        cbn [add_steps nextID Root].
        rewrite (inorderSnapshot_ext st (add_steps _ (add_steps _ st))) by reflexivity.
        destruct (inorderSnapshot _ _ _ _ _ _); [|discriminate].
        intros [= <-]. reflexivity. }
      split; [reflexivity | lia].
    + destruct (value <? v) eqn:Hcmp.
      * destruct (IHl (Frame DL c a v r :: ctx) fuel (add_steps [mkStep StepCompare
                  (Sprintf "比较 %d 与节点 %d" [AInt value; AInt v]) (Some a) snap [a]] st))
          as (res & new & k & Hrun & Hsucc & Hsteps & Hsnap & Hkinds & Hk).
        { apply Rep_add_steps. exact HR. }
        { lia. }
        exec. rewrite Hrun.
        eexists res, (_ :: new), (S k). split.
        { rewrite add_steps_add_steps. reflexivity. }
        split; [exact Hsucc|]. split.
        { rewrite Hsteps, steps_add_steps, <- app_assoc. reflexivity. }
        split.
        { revert Hsnap. unfold getTreeSnapshot, bound. cbn [add_steps nextID Root].
          rewrite (inorderSnapshot_ext st (add_steps _ st)) by reflexivity.
          destruct (inorderSnapshot _ _ _ _ _ _); [|discriminate].
          intros [= <-]. reflexivity. }
        split; [|lia].
        unfold kinds in *. cbn [map]. rewrite Hkinds. reflexivity.
      * destruct (IHr (Frame DR c a v l :: ctx) fuel (add_steps [mkStep StepCompare
                  (Sprintf "比较 %d 与节点 %d" [AInt value; AInt v]) (Some a) snap [a]] st))
          as (res & new & k & Hrun & Hsucc & Hsteps & Hsnap & Hkinds & Hk).
        { apply Rep_add_steps. exact HR. }
        { lia. }
        exec. rewrite Hrun.
        eexists res, (_ :: new), (S k). split.
        { rewrite add_steps_add_steps. reflexivity. }
        split; [exact Hsucc|]. split.
        { rewrite Hsteps, steps_add_steps, <- app_assoc. reflexivity. }
        split.
        { revert Hsnap. unfold getTreeSnapshot, bound. cbn [add_steps nextID Root].
          rewrite (inorderSnapshot_ext st (add_steps _ st)) by reflexivity.
          destruct (inorderSnapshot _ _ _ _ _ _); [|discriminate].
          intros [= <-]. reflexivity. }
        split; [|lia].
        unfold kinds in *. cbn [map]. rewrite Hkinds. reflexivity.
Qed.

Lemma on_path_ordered value t :
  ordered t → on_path value t = bool_decide (value ∈ inorder t).
Proof.
  unfold ordered.
  induction t as [|c l IHl a v r IHr]; cbn [on_path inorder]; intros Hs.
  - symmetry. apply bool_decide_eq_false. intros H. inversion H.
  - apply sorted_le_app in Hs as (Hl & Hvr & Hlr).
    inversion Hvr as [|? ? Hr Hv]; subst. rewrite Forall_forall in Hv.
    destruct (Z.eqb_spec value v) as [-> | Hne].
    { symmetry. apply bool_decide_eq_true. set_solver. }
    destruct (Z.ltb_spec value v) as [Hlt | Hge].
    + rewrite (IHl Hl). apply bool_decide_ext. split; [set_solver|].
      intros H. apply elem_of_app in H as [H | H]; [exact H|].
      apply elem_of_cons in H as [-> | H]; [lia|]. specialize (Hv _ H). lia.
    + rewrite (IHr Hr). apply bool_decide_ext. split; [set_solver|].
      intros H. apply elem_of_app in H as [H | H].
      * specialize (Hlr value v H ltac:(set_solver)). lia.
      * apply elem_of_cons in H as [-> | H]; [lia | exact H].
Qed.

Lemma rb_Search_spec value st t :
  Rep st t →
  ∃ r st' k,
    Search value st = Some (r, st')
    ∧ Rep st' t
    ∧ nextID st' = nextID st
    ∧ Success r = on_path value t
    ∧ steps st' = Steps r
    ∧ getTreeSnapshot st = Some (FinalTree r, st)
    ∧ kinds (Steps r) = repeat StepCompare k
                        ++ [if on_path value t then StepFound else StepNotFound]
    ∧ (k ≤ depth t)%nat.
Proof.
  intros HR.
  remember {| Root := Root st; NIL := NIL st; nextID := nextID st;
              steps := []; heap := heap st |} as st0 eqn:E0.
  assert (HR0 : Rep st0 t) by (subst st0; exact HR).
  assert (Hclear : clearSteps st = Some (tt, st0)) by (subst st0; reflexivity).
  unfold Search. rewrite (bind_run _ _ _ _ _ Hclear).
  pose proof HR0 as (_ & _ & _ & HRoot & _).
  unfold bind, getRoot. rewrite HRoot.
  destruct (rb_searchFrom_spec value t [] (bound st0) st0 HR0 (Rep_depth _ _ HR0))
    as (r & new & k & Hrun & Hsucc & Hsteps & Hsnap & Hkinds & Hk).
  rewrite Hrun. exists r, (add_steps new st0), k.
  split; [reflexivity|]. split; [now apply Rep_add_steps|].
  split; [subst st0; reflexivity|]. split; [exact Hsucc|].
  split; [rewrite steps_add_steps; now rewrite Hsteps|].
  split.
  { revert Hsnap. subst st0. unfold getTreeSnapshot, bound. cbn [nextID Root].
    rewrite (inorderSnapshot_ext st {| Root := Root st; NIL := NIL st; nextID := nextID st;
              steps := []; heap := heap st |}) by reflexivity.
    destruct (inorderSnapshot _ _ _ _ _ _); [|discriminate].
    intros [= <-]. reflexivity. }
  split; [|exact Hk].
  rewrite Hsteps. subst st0. cbn [steps app]. exact Hkinds.
Qed.

(** ** The depth of a red-black tree *)

Lemma bh_depth t : ∀ n,
  no_red_red t → bh t n →
  (depth t ≤ 2 * n + match color t with Red => 1 | Black => 0 end)%nat.
Proof.
  induction t as [|c l IHl a v r IHr]; intros n Hnrr Hbh; cbn [depth color]; [lia|].
  cbn [no_red_red] in Hnrr. destruct Hnrr as (Hc & Hl & Hr).
  destruct c; cbn [bh] in Hbh.
  - destruct Hbh as (Hbl & Hbr). destruct (Hc eq_refl) as (Hcl & Hcr).
    specialize (IHl n Hl Hbl). specialize (IHr n Hr Hbr).
    rewrite Hcl in IHl. rewrite Hcr in IHr. lia.
  - destruct Hbh as (m & -> & Hbl & Hbr).
    specialize (IHl m Hl Hbl). specialize (IHr m Hr Hbr).
    destruct (color l), (color r); lia.
Qed.

Lemma bh_size t : ∀ n, bh t n → (2 ^ n ≤ S (size t))%nat.
Proof.
  unfold size.
  induction t as [|c l IHl a v r IHr]; intros n Hbh; cbn [inorder bh] in *.
  - subst n. cbn. lia.
  - rewrite length_app. cbn [length]. destruct c.
    + destruct Hbh as (Hbl & Hbr). specialize (IHl n Hbl). lia.
    + destruct Hbh as (m & -> & Hbl & Hbr).
      specialize (IHl m Hbl). specialize (IHr m Hbr). cbn [Nat.pow]. lia.
Qed.

Lemma rb_depth_bound t n :
  color t = Black → no_red_red t → bh t n →
  (2 ^ (depth t / 2) ≤ S (size t))%nat.
Proof.
  intros Hc Hnrr Hbh. pose proof (bh_depth t n Hnrr Hbh) as Hd. rewrite Hc in Hd.
  pose proof (bh_size t n Hbh) as Hs.
  assert (depth t / 2 ≤ n)%nat by (apply Nat.Div0.div_le_upper_bound; lia).
  etransitivity; [|exact Hs]. apply Nat.pow_le_mono_r; lia.
Qed.

Lemma Search_Stores value st l :
  Stores st l → StronglySorted Z.le l →
  ∃ r st' k,
    Search value st = Some (r, st')
    ∧ Stores st' l
    ∧ nextID st' = nextID st
    ∧ Success r = bool_decide (value ∈ l)
    ∧ getTreeSnapshot st = Some (FinalTree r, st)
    ∧ kinds (Steps r) = repeat StepCompare k
                        ++ [if bool_decide (value ∈ l) then StepFound else StepNotFound]
    ∧ (2 ^ (k / 2) ≤ S (length l))%nat.
Proof.
  intros (t & HR & Hc & Hnrr & (n & Hbh) & Hl) Hs. subst l.
  destruct (rb_Search_spec value st t HR)
    as (r & st' & k & Hrun & HR' & Hn & Hsucc & _ & Hsnap & Hkinds & Hk).
  rewrite (on_path_ordered value t Hs) in *.
  exists r, st', k. split; [exact Hrun|].
  split; [exists t; eauto 10|]. split; [exact Hn|]. split; [exact Hsucc|].
  split; [exact Hsnap|]. split; [exact Hkinds|].
  pose proof (rb_depth_bound t n Hc Hnrr Hbh) as Hd. unfold size in Hd.
  etransitivity; [|exact Hd]. apply Nat.pow_le_mono_r; [lia|].
  apply Nat.Div0.div_le_mono. exact Hk.
Qed.

(** ** A run of insertions *)

Lemma Stores_new : Stores NewRedBlackTree [].
Proof.
  exists E. split; [|cbn; eauto].
  unfold Rep, NewRedBlackTree. cbn.
  split; [reflexivity|]. split; [eexists; split; [reflexivity|reflexivity]|].
  split; [lia|]. split; [reflexivity|]. split; [exact I|].
  split; constructor.
Qed.

Lemma inserts_Stores vs : ∀ st l,
  Stores st l → StronglySorted Z.le l →
  ∃ st' l',
    inserts vs st = Some st'
    ∧ Stores st' l' ∧ StronglySorted Z.le l' ∧ l' ≡ₚ l ++ vs
    ∧ nextID st' = nextID st + Z.of_nat (length vs).
Proof.
  induction vs as [|v vs IH]; intros st l HS Hs; cbn [inserts].
  - exists st, l. rewrite app_nil_r. cbn. repeat split; auto. lia.
  - destruct (Insert_Stores v st l HS Hs)
      as (r & st1 & l1 & l2 & Hrun & _ & Hn & -> & _ & _ & HS1 & Hs1).
    rewrite Hrun.
    destruct (IH st1 _ HS1 Hs1) as (st' & l' & Hrun' & HS' & Hs' & Hp & Hn').
    exists st', l'. split; [exact Hrun'|]. split; [exact HS'|]. split; [exact Hs'|].
    split.
    + rewrite Hp. rewrite <- !app_assoc. cbn [app].
      apply Permutation_app_head. rewrite (Permutation_middle l2 vs v). reflexivity.
    + rewrite Hn', Hn. cbn [length]. lia.
Qed.

(** ** searchNode and minimum *)

Lemma searchNode_go_spec st value t :
  NIL st = Some nil_addr →
  ∀ fuel par,
    repr (heap st) par t → Forall (fun a => a ≠ nil_addr) (addrs t) →
    (depth t < fuel)%nat →
    ∃ p, searchNode_go fuel value (rootp t) st = Some (p, st)
      ∧ if on_path value t
        then ∃ a n, p = Some a ∧ a ∈ addrs t ∧ heap st !! a = Some n
                    ∧ ID n = a ∧ Value n = value
        else p = Some nil_addr.
Proof.
  intros HN. induction t as [|c l IHl a v r IHr]; intros fuel par Hr Hne Hd;
    (destruct fuel as [|fuel]; [cbn in Hd; lia|]); cbn [searchNode_go on_path].
  - exec. rewrite HN. eauto.
  - cbn [repr depth addrs] in *. destruct Hr as (Ha & Hl & Hrr). facts.
    exec.
    destruct (Z.eqb_spec value v) as [-> | Hv].
    { eexists. split; [reflexivity|]. eexists a, _. split; [reflexivity|].
      split; [set_solver|]. split; [exact Ha|]. split; reflexivity. }
    destruct (value <? v); exec.
    + destruct (IHl fuel (Some a)) as (p & Hrun & Hp); try assumption; [lia|].
      exists p. split; [exact Hrun|]. destruct (on_path value l); [|exact Hp].
      destruct Hp as (b & n & ? & ? & ?). exists b, n. split; [assumption|].
      split; [right; apply elem_of_app; now left | assumption].
    + destruct (IHr fuel (Some a)) as (p & Hrun & Hp); try assumption; [lia|].
      exists p. split; [exact Hrun|]. destruct (on_path value r); [|exact Hp].
      destruct Hp as (b & n & ? & ? & ?). exists b, n. split; [assumption|].
      split; [right; apply elem_of_app; now right | assumption].
Qed.

Lemma searchNode_Stores value st l :
  Stores st l → StronglySorted Z.le l →
  ∃ p, searchNode value st = Some (p, st)
    ∧ if bool_decide (value ∈ l)
      then ∃ a n, p = Some a ∧ a ≠ nil_addr ∧ heap st !! a = Some n
                  ∧ ID n = a ∧ Value n = value
      else p = NIL st.
Proof.
  intros (t & HR & _ & _ & _ & Hl) Hs. subst l.
  pose proof (Rep_depth _ _ HR) as Hd. pose proof (Rep_addrs_ne _ _ HR) as Hne.
  destruct HR as (HN & _ & _ & HRoot & Hr & _ & _).
  destruct (searchNode_go_spec st value t HN (bound st) (Some nil_addr) Hr Hne Hd)
    as (p & Hrun & Hp).
  exists p. unfold searchNode, bind, getRoot. rewrite HRoot. split; [exact Hrun|].
  rewrite <- (on_path_ordered value t Hs). destruct (on_path value t).
  - destruct Hp as (a & n & -> & Hin & Hrest). exists a, n. split; [reflexivity|].
    split; [|exact Hrest]. rewrite Forall_forall in Hne. now apply Hne.
  - now rewrite HN.
Qed.

Lemma minimum_go_spec st :
  NIL st = Some nil_addr →
  ∀ l c a v r fuel par,
    repr (heap st) par (T c l a v r) →
    Forall (fun a => a ≠ nil_addr) (addrs (T c l a v r)) →
    (depth (T c l a v r) ≤ fuel)%nat →
    ∃ m n, minimum_go fuel (Some a) st = Some (Some m, st)
      ∧ m ∈ addrs (T c l a v r)
      ∧ heap st !! m = Some n ∧ ID n = m ∧ Left n = Some nil_addr
      ∧ head (inorder (T c l a v r)) = Some (Value n).
Proof.
  intros HN. induction l as [|cl ll IHl al vl rl _]; intros c a v r fuel par Hr Hne Hd;
    (destruct fuel as [|fuel]; [cbn in Hd; lia|]); cbn [minimum_go].
  - cbn [repr rootp] in Hr. destruct Hr as (Ha & _). exec.
    eexists a, _. split; [reflexivity|]. split; [set_solver|].
    split; [exact Ha|]. repeat split.
  - pose proof Hr as (Ha & Hl & _). cbn [addrs] in Hne. facts.
    cbn [rootp] in Ha. exec.
    destruct (IHl cl al vl rl fuel (Some a)) as (m & n & Hrun & Hin & Hm & Hid & Hleft & Hhd).
    + exact Hl.
    + cbn [addrs]. constructor; [assumption|]. apply Forall_app; split; assumption.
    + cbn [depth] in *. lia.
    + exists m, n. split; [exact Hrun|].
      split; [right; apply elem_of_app; left; exact Hin|]. split; [exact Hm|].
      split; [exact Hid|]. split; [exact Hleft|].
      change (inorder (T c (T cl ll al vl rl) a v r))
        with (inorder (T cl ll al vl rl) ++ v :: inorder r).
      destruct (inorder (T cl ll al vl rl)); [discriminate | exact Hhd].
Qed.

Lemma depth_plug_le ctx : ∀ t, (depth t ≤ depth (plug ctx t))%nat.
Proof.
  induction ctx as [|f rest IH]; intros t; cbn [plug]; [lia|].
  etransitivity; [|apply IH]. unfold fill. destruct (fdir f); cbn [depth]; lia.
Qed.

Lemma minimum_Rep st ctx c l a v r :
  Rep st (plug ctx (T c l a v r)) →
  ∃ m n, minimum (Some a) st = Some (Some m, st)
    ∧ heap st !! m = Some n ∧ ID n = m ∧ Left n = NIL st
    ∧ head (inorder (T c l a v r)) = Some (Value n).
Proof.
  intros HR. pose proof (Rep_depth _ _ HR) as Hd. pose proof (Rep_addrs_ne _ _ HR) as Hne.
  pose proof HR as (HN & _).
  apply Rep_plug in HR. destruct HR as (_ & _ & _ & _ & _ & Hr & _).
  rewrite addrs_plug in Hne. apply Forall_app in Hne as (Hne' & _).
  destruct (minimum_go_spec st HN l c a v r (bound st) _ Hr Hne')
    as (m & n & Hrun & _ & Hm & Hid & Hleft & Hhd).
  - pose proof (depth_plug_le ctx (T c l a v r)). lia.
  - exists m, n. unfold minimum. rewrite HN. auto.
Qed.

(** *** What a caller of the red-black tree can rely on *)

(** The tree that holds 10, 20 and 30 after they were inserted in this order. *)
Definition tree_10_20_30 : tree :=
  T Black (T Red E 0 10 E) 1 20 (T Red E 2 30 E).

Ltac rep_by_evaluation :=
  unfold Rep, tree_10_20_30; cbn [repr rootp addrs app];
  repeat split; try (vm_compute; reflexivity); try (vm_compute; discriminate);
  [ eexists; split; vm_compute; reflexivity
  | apply (bool_decide_unpack _); vm_compute; exact I
  | repeat constructor; vm_compute; congruence ].

Ltac stores_by_evaluation :=
  exists tree_10_20_30;
  split; [rep_by_evaluation|];
  split; [reflexivity|];
  split; [cbn; intuition congruence|];
  split; [exists 1%nat; cbn; eauto 10 | reflexivity].

Ltac sorted_by_evaluation := repeat constructor; lia.

(** X11: Insert into a red-black tree whose keys are in search order
    succeeds, allocates one node, and puts the value behind the keys that
    are at most the value and before the larger ones (so after the equal
    keys); the new tree is again a red-black tree in search order. *)
Theorem rb_insert_places_value_in_order value st l :
  Stores st l → StronglySorted Z.le l →
  ∃ r st' l1 l2,
    Insert value st = Some (r, st')
    ∧ Success r = true
    ∧ nextID st' = nextID st + 1
    ∧ l = l1 ++ l2
    ∧ Forall (fun x => x <= value) l1 ∧ Forall (fun x => value < x) l2
    ∧ Stores st' (l1 ++ value :: l2)
    ∧ StronglySorted Z.le (l1 ++ value :: l2).
Proof. exact (Insert_Stores value st l). Qed.

Lemma rb_insert_witness :
  ∃ st, inserts [10; 20; 30] NewRedBlackTree = Some st
    ∧ ∃ r st' l1 l2, Insert 20 st = Some (r, st') ∧ Success r = true
        ∧ [10; 20; 30] = l1 ++ l2
        ∧ Forall (fun x => x <= 20) l1 ∧ Forall (fun x => 20 < x) l2
        ∧ Stores st' (l1 ++ 20 :: l2).
Proof.
  assert (Hsorted : StronglySorted Z.le [10; 20; 30]) by sorted_by_evaluation.
  eexists. split; [vm_compute; reflexivity|].
  match goal with
  | |- ∃ r st' l1 l2, Insert 20 ?st = _ ∧ _ =>
      assert (HS : Stores st [10; 20; 30]) by stores_by_evaluation;
      destruct (rb_insert_places_value_in_order 20 st [10; 20; 30] HS Hsorted)
        as (r & st' & l1 & l2 & Hrun & Hs & _ & Hl & H1 & H2 & HS' & _)
  end.
  exists r, st', l1, l2. split; [exact Hrun|]. split; [exact Hs|]. split; [exact Hl|].
  split; [exact H1|]. split; [exact H2 | exact HS'].
Defined.



(** X13: a Search in a red-black tree with n keys emits k Compare steps
    and then one closing step, where 2 ^ (k / 2) is at most n + 1: the
    number of comparisons is logarithmic in the number of keys. *)
Theorem rb_search_cost_logarithmic value st l :
  Stores st l → StronglySorted Z.le l →
  ∃ r st' k,
    Search value st = Some (r, st')
    ∧ kinds (Steps r) = repeat StepCompare k
                        ++ [if bool_decide (value ∈ l) then StepFound else StepNotFound]
    ∧ (2 ^ (k / 2) ≤ S (length l))%nat.
Proof.
  intros HS Hs.
  destruct (Search_Stores value st l HS Hs)
    as (r & st' & k & Hrun & _ & _ & _ & _ & Hkinds & Hk).
  exists r, st', k. auto.
Qed.

Lemma rb_search_cost_witness :
  ∃ st, inserts [10; 20; 30] NewRedBlackTree = Some st
    ∧ ∃ r st' k, Search 30 st = Some (r, st')
        ∧ kinds (Steps r) = repeat StepCompare k ++ [StepFound]
        ∧ (2 ^ (k / 2) ≤ 4)%nat.
Proof.
  assert (Hsorted : StronglySorted Z.le [10; 20; 30]) by sorted_by_evaluation.
  eexists. split; [vm_compute; reflexivity|].
  match goal with
  | |- ∃ r st' k, Search 30 ?st = _ ∧ _ =>
      assert (HS : Stores st [10; 20; 30]) by stores_by_evaluation;
      destruct (rb_search_cost_logarithmic 30 st [10; 20; 30] HS Hsorted)
        as (r & st' & k & Hrun & Hk & Hc)
  end.
  exists r, st', k. split; [exact Hrun|]. split; [exact Hk | exact Hc].
Defined.

(** X14: after any values were inserted into an empty red-black tree, one
    node per value was allocated, and Search reports success exactly for
    the values that were inserted. *)
Theorem rb_search_after_inserts (vs : list Z) (k : Z) :
  ∃ st r st',
    inserts vs NewRedBlackTree = Some st
    ∧ nextID st = Z.of_nat (length vs)
    ∧ Search k st = Some (r, st')
    ∧ Success r = bool_decide (k ∈ vs).
Proof.
  destruct (inserts_Stores vs NewRedBlackTree [] Stores_new (SSorted_nil _))
    as (st & l & Hrun & HS & Hs & Hp & Hn).
  destruct (Search_Stores k st l HS Hs) as (r & st' & _ & Hsearch & _ & _ & Hsucc & _).
  exists st, r, st'. split; [exact Hrun|]. split; [exact Hn|]. split; [exact Hsearch|].
  rewrite Hsucc. apply bool_decide_ext. rewrite Hp. reflexivity.
Qed.

(** X15: in a red-black tree whose keys are in search order, searchNode
    returns a node of the tree that holds the value when the value is
    among the keys, and the sentinel otherwise; it changes nothing. *)
Theorem rb_searchNode_finds_node value st l :
  Stores st l → StronglySorted Z.le l →
  ∃ p, searchNode value st = Some (p, st)
    ∧ if bool_decide (value ∈ l)
      then ∃ a n, p = Some a ∧ a ≠ nil_addr ∧ heap st !! a = Some n
                  ∧ ID n = a ∧ Value n = value
      else p = NIL st.
Proof. exact (searchNode_Stores value st l). Qed.

Lemma rb_searchNode_witness :
  ∃ st, inserts [10; 20; 30] NewRedBlackTree = Some st
    ∧ (∃ p, searchNode 30 st = Some (p, st) ∧ p ≠ Some nil_addr)
    ∧ searchNode 25 st = Some (Some nil_addr, st).
Proof.
  assert (Hsorted : StronglySorted Z.le [10; 20; 30]) by sorted_by_evaluation.
  assert (H30 : bool_decide (30 ∈ [10; 20; 30]) = true) by (vm_compute; reflexivity).
  assert (H25 : bool_decide (25 ∈ [10; 20; 30]) = false) by (vm_compute; reflexivity).
  eexists. split; [vm_compute; reflexivity|].
  match goal with
  | |- (∃ p, searchNode 30 ?st = _ ∧ _) ∧ _ =>
      assert (HS : Stores st [10; 20; 30]) by stores_by_evaluation;
      destruct (rb_searchNode_finds_node 30 st [10; 20; 30] HS Hsorted) as (p & Hrun & Hp);
      destruct (rb_searchNode_finds_node 25 st [10; 20; 30] HS Hsorted) as (p2 & Hrun2 & Hp2)
  end.
  rewrite H30 in Hp. rewrite H25 in Hp2. split.
  - exists p. split; [exact Hrun|].
    destruct Hp as (a & n & -> & Ha & _). intros [= Heq]. exact (Ha Heq).
  - rewrite Hrun2, Hp2. reflexivity.
Defined.

(** X16: minimum, called on a node of the tree, returns the leftmost node
    of the subtree below it, which holds the first key of the subtree in
    the left-to-right order, and changes nothing. *)
Theorem rb_minimum_is_leftmost st ctx c l a v r :
  Rep st (plug ctx (T c l a v r)) →
  ∃ m n, minimum (Some a) st = Some (Some m, st)
    ∧ heap st !! m = Some n ∧ ID n = m ∧ Left n = NIL st
    ∧ head (inorder (T c l a v r)) = Some (Value n).
Proof. exact (minimum_Rep st ctx c l a v r). Qed.

Lemma rb_minimum_witness :
  ∃ st, inserts [10; 20; 30] NewRedBlackTree = Some st
    ∧ ∃ m n, minimum (Some 1) st = Some (Some m, st)
        ∧ heap st !! m = Some n ∧ Value n = 10.
Proof.
  eexists. split; [vm_compute; reflexivity|].
  match goal with
  | |- ∃ m n, minimum (Some 1) ?st = _ ∧ _ =>
      destruct (rb_minimum_is_leftmost st [] Black (T Red E 0 10 E) 1 20 (T Red E 2 30 E))
        as (m & n & Hrun & Hm & _ & _ & Hhd);
      [ change (Rep st tree_10_20_30); rep_by_evaluation | ]
  end.
  exists m, n. split; [exact Hrun|]. split; [exact Hm|].
  cbn in Hhd. congruence.
Defined.

End RBOrderFacts.

(* ===================================================================== *)
(** * Both trees *)
(* ===================================================================== *)

Module TreeFacts.

(** C7: Delete of a key that the tree does not hold, for a red-black state
    that holds a tree and for any AVL tree.  The call returns a result with
    Success false and a message that names the key; the last step of its
    trace is a NotFound step; nodes, root and id counter are what they were
    before the call; and the snapshot in the result, which is also the one
    in the NotFound step, is the snapshot of the tree before the call. *)
Theorem delete_absent_key_leaves_tree
    (st : RB.RedBlackTree) (t : RBSpec.tree) (a : AVL.AVLTree) (k : Z) :
  RBSpec.Rep st t → k ∉ RBSpec.keys t → k ∉ AVLSpec.keys (AVL.Root a) →
  (∃ r st' notFound snap,
     RB.Delete k st = Some (r, st')
     ∧ Success r = false
     ∧ Message r = Some (Sprintf "值 %d 不存在，无法删除" [AInt k])
     ∧ last (Steps r) = Some notFound ∧ Type_ notFound = StepNotFound
     ∧ RB.heap st' = RB.heap st ∧ RB.Root st' = RB.Root st
     ∧ RB.NIL st' = RB.NIL st ∧ RB.nextID st' = RB.nextID st
     ∧ RB.getTreeSnapshot st = Some (snap, st)
     ∧ TreeState notFound = snap
     ∧ FinalTree r = snap)
  ∧ (∃ r a' notFound,
       AVL.Delete k a = Some (r, a')
       ∧ Success r = false
       ∧ Message r = Some (Sprintf "值 %d 不存在，无法删除" [AInt k])
       ∧ last (Steps r) = Some notFound ∧ Type_ notFound = StepNotFound
       ∧ TreeState notFound = AVL.getTreeSnapshot (AVL.Root a)
       ∧ AVL.Root a' = AVL.Root a ∧ AVL.nextID a' = AVL.nextID a
       ∧ FinalTree r = AVL.getTreeSnapshot (AVL.Root a)).
Proof.
  intros HR Hk Hka. split.
  - exact (RBFacts.Delete_absent_rb st t k HR Hk).
  - exact (AVLFacts.Delete_absent k a Hka).
Qed.

(** The trees that hold 10, 20 and 30 do not hold 5. *)
Lemma delete_absent_key_witness :
  ∃ st a,
    RBSpec.inserts [10; 20; 30] RB.NewRedBlackTree = Some st
    ∧ AVLSpec.inserts [10; 20; 30] AVL.NewAVLTree = Some a
    ∧ (∃ r st', RB.Delete 5 st = Some (r, st') ∧ Success r = false
                ∧ RB.heap st' = RB.heap st)
    ∧ (∃ r a', AVL.Delete 5 a = Some (r, a') ∧ Success r = false
               ∧ AVL.Root a' = AVL.Root a).
Proof.
  eexists _, _. split; [vm_compute; reflexivity|]. split; [vm_compute; reflexivity|].
  match goal with
  | |- (∃ x1 y1, RB.Delete 5 ?st = _ ∧ _) ∧ (∃ x2 y2, AVL.Delete 5 ?a = _ ∧ _) =>
      destruct (delete_absent_key_leaves_tree st
                  (RBSpec.T Black (RBSpec.T Red RBSpec.E 0 10 RBSpec.E) 1 20
                                  (RBSpec.T Red RBSpec.E 2 30 RBSpec.E)) a 5)
        as ((r & st' & nf & snap & Hrun & Hs & _ & _ & _ & Hh & _)
            & (r2 & a' & nf2 & Hrun2 & Hs2 & _ & _ & _ & _ & Hr2 & _))
  end.
  - unfold RBSpec.Rep. cbn [RBSpec.repr RBSpec.rootp RBSpec.addrs app].
    repeat split; try (vm_compute; reflexivity); try (vm_compute; discriminate).
    + eexists. split; vm_compute; reflexivity.
    + apply (bool_decide_unpack _). vm_compute. exact I.
    + repeat constructor; vm_compute; congruence.
  - apply (bool_decide_unpack _). vm_compute. exact I.
  - apply (bool_decide_unpack _). vm_compute. exact I.
  - split.
    + exists r, st'. auto.
    + exists r2, a'. auto.
Defined.

End TreeFacts.
